(** * popcornmachine: the state machine tree of [machine.js]

    A shallow embedding of the [Machine] class and the proofs of its
    specification.

    Modelling choices.
    - A JavaScript string is the list of its code units.  The development
      covers the code units below 256 (ASCII and Latin-1), on which
      [trim], [toLowerCase] and the regular-expression classes for white
      space and for any character but a line terminator are modelled
      exactly.
    - State objects live in a store ([objects]) and are referred to by
      location: [STATE_TREE] maps a path to the location of its state
      object and the [parent] member of a state is a location too, so
      that the in-place updates of [_addSubState], [setCurrent] and
      [setData] are seen through every reference, as in the source.
    - A method that returns an error string or [null] returns a [value];
      a [TypeError] raised by the JavaScript runtime (a member read on
      [undefined], a call of a missing method) is the completion
      [TypeError].
    - Listener callbacks are opaque to the machine: the notification
      loops of [setCurrent], [setData] and [finishEditing] are left
      out, the [_live] flag that gates them is kept.  The three
      definitions are the methods of a machine on which no listener is
      registered, and [setCurrent] and [setData] are exact on every
      machine that is being edited, where the source calls none.  What
      a listener does to a live machine is not modelled.  The three
      registries, which [addEventListener] and [removeEventListener]
      alone assign, are modelled apart from the state tree, a listener
      being known by its identity. *)

From stdpp Require Import base option list gmap strings.
From Stdlib Require Import Ascii.

Local Open Scope char_scope.
Local Open Scope nat_scope.

(** ** JavaScript strings *)

Module JS.

Abbreviation jsstring := (list ascii).

(** String literals of the source are written [$"..."]. *)
Notation "$ s" := (String.list_ascii_of_string s%string)
  (at level 1, s at level 0, format "$ s").

Definition code (c : ascii) : nat := nat_of_ascii c.

Definition in_range (lo hi : nat) (c : ascii) : bool :=
  (lo <=? code c) && (code c <=? hi).

Definition is_upper (c : ascii) : bool := in_range 65 90 c.
Definition is_lower (c : ascii) : bool := in_range 97 122 c.
Definition is_digit (c : ascii) : bool := in_range 48 57 c.
Definition is_alnum (c : ascii) : bool := is_upper c || is_lower c || is_digit c.

(** The class [[A-Za-z0-9-]] of the name patterns. *)
Definition is_name_char (c : ascii) : bool := is_alnum c || (code c =? 45).

(** The class [[A-Za-z0-9.\/-]] of the path patterns. *)
Definition is_path_char (c : ascii) : bool :=
  is_alnum c || (code c =? 46) || (code c =? 47) || (code c =? 45).

(** White space of [String.prototype.trim] and of [\s]: TAB, LF, VT, FF,
    CR, SP and NBSP. *)
Definition is_space (c : ascii) : bool :=
  in_range 9 13 c || (code c =? 32) || (code c =? 160).

(** Line terminators, which [.] does not match: LF and CR. *)
Definition is_line_terminator (c : ascii) : bool :=
  (code c =? 10) || (code c =? 13).

(** [toLowerCase] on one code unit: A-Z and the Latin-1 capitals. *)
Definition lower_char (c : ascii) : ascii :=
  if is_upper c || (in_range 192 222 c && negb (code c =? 215))
  then ascii_of_nat (code c + 32) else c.

Definition toLowerCase (s : jsstring) : jsstring := map lower_char s.

Fixpoint dropWhile (p : ascii -> bool) (s : jsstring) : jsstring :=
  match s with
  | [] => []
  | c :: r => if p c then dropWhile p r else s
  end.

Fixpoint takeWhile (p : ascii -> bool) (s : jsstring) : jsstring :=
  match s with
  | [] => []
  | c :: r => if p c then c :: takeWhile p r else []
  end.

Definition trimStart (s : jsstring) : jsstring := dropWhile is_space s.
Definition trimEnd (s : jsstring) : jsstring := rev (dropWhile is_space (rev s)).
Definition trim (s : jsstring) : jsstring := trimEnd (trimStart s).

Definition eqb (s t : jsstring) : bool := bool_decide (s = t).

Definition startsWith (s : jsstring) (c : ascii) : bool :=
  match s with
  | d :: _ => bool_decide (d = c)
  | [] => false
  end.

Definition endsWith (s : jsstring) (c : ascii) : bool :=
  startsWith (rev s) c.

(** [s.lastIndexOf(c)], [None] for -1. *)
Fixpoint lastIndexOf (c : ascii) (s : jsstring) : option nat :=
  match s with
  | [] => None
  | d :: r =>
      match lastIndexOf c r with
      | Some i => Some (S i)
      | None => if bool_decide (d = c) then Some 0 else None
      end
  end.

Definition includes (s : jsstring) (c : ascii) : bool :=
  existsb (fun d => bool_decide (d = c)) s.

(** [s.slice(a, b)] and [s.slice(a)] for indices within the string. *)
Definition slice (s : jsstring) (a b : nat) : jsstring := take (b - a) (drop a s).
Definition sliceFrom (s : jsstring) (a : nat) : jsstring := drop a s.

(** A truthy string is a non-empty one. *)
Definition truthy (s : jsstring) : bool :=
  match s with [] => false | _ => true end.

End JS.

Import JS.

(** ** The regular expressions of the class

    Every pattern is a sequence of greedy runs over character classes
    that exclude the first character of what follows them, so that the
    backtracking matcher of JavaScript finds the match of the greedy
    run, or none.  A pattern is embedded as the function that returns
    its capture groups. *)

Module Pat.

(** [c+]: the longest non-empty run of the class and the rest. *)
Definition plus (p : ascii -> bool) (s : jsstring) : option (jsstring * jsstring) :=
  match takeWhile p s with
  | [] => None
  | g => Some (g, dropWhile p s)
  end.

(** The prefix [^X\s+([A-Za-z0-9.\/-]+)] shared by the command
    patterns: the captured path and the rest of the line. *)
Definition command_path (x : ascii) (s : jsstring) : option (jsstring * jsstring) :=
  match s with
  | c :: r =>
      if bool_decide (c = x) then
        '(_, r1) ← plus is_space r; plus is_path_char r1
      else None
  | [] => None
  end.

(** [Machine.PATHPAT = /[A-Za-z0-9.\/-]+/], not anchored. *)
Definition PATHPAT (s : jsstring) : bool := existsb is_path_char s.

(** [/[A-Za-z0-9-]+/] of [_addSubState], not anchored. *)
Definition NAMEPAT (s : jsstring) : bool := existsb is_name_char s.

(** [/\.|\//] of [_addSubState], not anchored. *)
Definition SEPPAT (s : jsstring) : bool :=
  existsb (fun c => bool_decide (c = ".") || bool_decide (c = "/")) s.

(** [/^#/]. *)
Definition COMMENT (s : jsstring) : bool := startsWith s "#".

(** [Machine.PPAT = /^P\s+([A-Za-z0-9.\/-]+)$/]. *)
Definition PPAT (s : jsstring) : option jsstring :=
  '(p, r) ← command_path "P" s;
  match r with [] => Some p | _ => None end.

(** [Machine.CPAT = /^C\s+([A-Za-z0-9.\/-]+)\s+([A-Za-z0-9-]+)/]. *)
Definition CPAT (s : jsstring) : option (jsstring * jsstring) :=
  '(p, r) ← command_path "C" s;
  '(_, r1) ← plus is_space r;
  '(n, _) ← plus is_name_char r1;
  Some (p, n).

(** The trailing group, any characters but line terminators, as many
    as there are: up to the first line terminator. *)
Definition dot_star (s : jsstring) : jsstring :=
  takeWhile (fun c => negb (is_line_terminator c)) s.

(** [Machine.DPAT]: [D], white space, the path, white space and the
    trailing group. *)
Definition DPAT (s : jsstring) : option (jsstring * jsstring) :=
  '(p, r) ← command_path "D" s;
  '(_, r1) ← plus is_space r;
  Some (p, dot_star r1).

(** [Machine.DNULLPAT = /^D\s+([A-Za-z0-9.\/-]+)\s*/]. *)
Definition DNULLPAT (s : jsstring) : option jsstring :=
  '(p, _) ← command_path "D" s; Some p.

(** [Machine.APAT]: as [DPAT], with [A]. *)
Definition APAT (s : jsstring) : option (jsstring * jsstring) :=
  '(p, r) ← command_path "A" s;
  '(_, r1) ← plus is_space r;
  Some (p, dot_star r1).

(** The patterns as they print inside the error messages. *)
Definition PPAT_source : jsstring := $"/^P\s+([A-Za-z0-9.\/-]+)$/".
Definition CPAT_source : jsstring := $"/^C\s+([A-Za-z0-9.\/-]+)\s+([A-Za-z0-9-]+)/".
Definition DPAT_source : jsstring := $"/^D\s+([A-Za-z0-9.\/-]+)\s+(.*" ++ $")/".
Definition APAT_source : jsstring := $"/^A\s+([A-Za-z0-9.\/-]+)\s+(.*" ++ $")/".

End Pat.

(** ** Values and completions *)

(** What the methods return: [null], [undefined] or a string. *)
Inductive value :=
  | null
  | undefined
  | str (s : jsstring).

Global Instance value_eq_dec : EqDecision value.
Proof. solve_decision. Defined.

(** [normalizePath]: [null] if [str] is illegal.  The argument is a
    string or [null] ([None]). *)
Definition normalizePath (s : option jsstring) : value :=
  match s with
  | None => str []
  | Some [] => str []
  | Some s => if Pat.PATHPAT s then str (toLowerCase (trim s)) else null
  end.

(** A call completes normally with a result, or abruptly with a
    [TypeError] of the runtime.  [OutOfFuel] belongs to the embedding
    only: the recursive methods take a bound on the depth of their
    recursion, and the bounds they are given are shown to be enough. *)
Inductive completion (A : Type) :=
  | Normal (a : A)
  | TypeError
  | OutOfFuel.
Global Arguments Normal {A} a.
Global Arguments TypeError {A}.
Global Arguments OutOfFuel {A}.

(** [arr.forEach(f)] over an accumulator, an exception ending the loop. *)
Fixpoint forEach {A B : Type} (f : A -> B -> completion B) (arr : list A) (acc : B)
    : completion B :=
  match arr with
  | [] => Normal acc
  | x :: rest =>
      match f x acc with
      | Normal acc' => forEach f rest acc'
      | e => e
      end
  end.

(** ** State objects and the machine *)

Abbreviation loc := nat.

(** A state object: [name], and the optional members [parent], [cc],
    [curr] and [data] ([None] when the object does not own the
    property). *)
Record State := mkState {
  name : jsstring;
  parent : option loc;
  cc : option (list jsstring);
  curr : option nat;
  data : option jsstring;
}.

Global Instance State_eq_dec : EqDecision State.
Proof. solve_decision. Defined.

Record Machine := mkMachine {
  objects : list State;
  STATE_TREE : gmap jsstring loc;
  _live : bool;
}.

(** The object literal [{ name: name }]. *)
Definition new_state (nm : jsstring) : State := mkState nm None None None None.

Definition deref (m : Machine) (l : loc) : State :=
  default (new_state []) (objects m !! l).

(** An assignment to a member of the object at [l]. *)
Definition store (l : loc) (o : State) (m : Machine) : Machine :=
  mkMachine (<[l := o]> (objects m)) (STATE_TREE m) (_live m).

Definition set_cc (v : list jsstring) (o : State) : State :=
  mkState (name o) (parent o) (Some v) (curr o) (data o).
Definition set_curr (v : nat) (o : State) : State :=
  mkState (name o) (parent o) (cc o) (Some v) (data o).
Definition set_data (v : jsstring) (o : State) : State :=
  mkState (name o) (parent o) (cc o) (curr o) (Some v).
Definition set_parent (v : loc) (o : State) : State :=
  mkState (name o) (Some v) (cc o) (curr o) (data o).

(** [STATE_TREE.set(path, state)] for a new object [state]. *)
Definition set_new (path : jsstring) (o : State) (m : Machine) : Machine :=
  mkMachine (objects m ++ [o]) (<[path := length (objects m)]> (STATE_TREE m)) (_live m).

Definition set_live (b : bool) (m : Machine) : Machine :=
  mkMachine (objects m) (STATE_TREE m) b.

(** [new Machine()]: only the root state, in edit mode. *)
Definition new_Machine : Machine :=
  mkMachine [new_state []] {[ [] := 0 ]} false.

Definition isLive (m : Machine) : bool := _live m.
Definition isEditing (m : Machine) : bool := negb (_live m).

(** [makeEmpty]: a new map holding a new root object; not live. *)
Definition makeEmpty (m : Machine) : Machine :=
  mkMachine (objects m ++ [new_state []]) {[ [] := length (objects m) ]} false.

Definition startEditing (m : Machine) : value * Machine :=
  if negb (_live m) then (str $"startEditing: already editing", m)
  else (null, set_live false m).

(** [finishEditing]: the machine goes live.  The call of the
    [newmachine] listeners that follows in the source is not modelled:
    this is the method of a machine without such a listener. *)
Definition finishEditing (m : Machine) : value * Machine :=
  if _live m then (str $"finishEditing: not editing", m)
  else (null, set_live true m).

Definition exists_ (m : Machine) (path : jsstring) : bool :=
  match normalizePath (Some path) with
  | str p => bool_decide (is_Some (STATE_TREE m !! p))
  | _ => false
  end.

(** [getState]: the state object (its location) or [null]. *)
Definition getState (m : Machine) (path : jsstring) : option loc :=
  match normalizePath (Some path) with
  | str p => STATE_TREE m !! p
  | _ => None
  end.

(** ** Adding states *)

(** [_addSubState] from [p.hasOwnProperty("data")] on, [p] being the
    object at [pl].  The new state object enters the store when it is
    set in the map. *)
Definition attach (parentPath separator nm : jsstring) (pl : loc) (m : Machine)
    : completion value * Machine :=
  let p := deref m pl in
  if bool_decide (is_Some (data p)) then
    (Normal (str $"parent has data - cannot add child"), m)
  else
    let children := default [] (cc p) in
    let p1 := set_cc children p in
    let m1 := store pl p1 m in
    if bool_decide (curr p1 = None) && (0 <? length children)
       && negb (eqb separator $".") then
      (Normal (str $"concurrent parent cannot add variable child"), m1)
    else if bool_decide (is_Some (curr p1)) && negb (eqb separator $"/") then
      (Normal (str $"variable parent cannot add concurrent child"), m1)
    else
      let p2 := set_cc (children ++ [nm]) p1 in
      let p3 := if eqb separator $"/" && bool_decide (curr p2 = None)
                then set_curr 0 p2 else p2 in
      let m3 := store pl p3 m1 in
      (Normal null,
       set_new (parentPath ++ separator ++ nm) (set_parent pl (new_state nm)) m3).

(** [_addSubState], the recursive call of [_addState] being [rec].  The
    test [! separator.length === 1] of the source compares a boolean
    with a number and never holds. *)
Definition _addSubState_with
    (rec : jsstring -> Machine -> completion value * Machine)
    (parentPath separator nm : jsstring) (m : Machine)
    : completion value * Machine :=
  if negb (Pat.NAMEPAT nm) then
    (Normal (str ($"Bad name: |" ++ nm ++ $"|")), m)
  else if negb (Pat.SEPPAT separator) then
    (Normal (str ($"Bad separator: |" ++ separator ++ $"|")), m)
  else
    match STATE_TREE m !! parentPath with
    | Some pl => attach parentPath separator nm pl m
    | None =>
        match rec parentPath m with
        | (Normal null, m') =>
            match STATE_TREE m' !! parentPath with
            | Some pl => attach parentPath separator nm pl m'
            | None => (TypeError, m')
            end
        | r => r
        end
    end.

(** The position of the last separator: the larger of the last indices
    of a dot and of a slash, if any. *)
Definition last_separator (path : jsstring) : option nat :=
  match lastIndexOf "." path, lastIndexOf "/" path with
  | None, None => None
  | Some d, None => Some d
  | None, Some s => Some s
  | Some d, Some s => Some (if d <? s then s else d)
  end.

Fixpoint _addState (fuel : nat) (path : jsstring) (m : Machine)
    : completion value * Machine :=
  match fuel with
  | 0 => (OutOfFuel, m)
  | S fuel =>
      if exists_ m path then (Normal null, m)
      else
        match last_separator path with
        | None => (Normal (str ($"addState: bad path: |" ++ path ++ $"|")), m)
        | Some pos =>
            _addSubState_with (_addState fuel)
              (slice path 0 pos) (slice path pos (S pos)) (sliceFrom path (S pos)) m
        end
  end.

Definition _addSubState (fuel : nat) :
    jsstring -> jsstring -> jsstring -> Machine -> completion value * Machine :=
  _addSubState_with (_addState fuel).

(** Each nested call of [_addState] is on a shorter path. *)
Definition addState_fuel (path : jsstring) : nat := S (length path).

Definition addState (path : option jsstring) (m : Machine) : completion value * Machine :=
  if isLive m then (Normal (str $"addState: not editing!"), m)
  else
    match normalizePath path with
    | str p => _addState (addState_fuel p) p m
    | _ => (Normal (str $"addState: bad path"), m)
    end.

(** [addStates]: the result of the arrow function given to [forEach] is
    dropped by [forEach]. *)
Fixpoint addStates_loop (arr : list jsstring) (m : Machine) : completion unit * Machine :=
  match arr with
  | [] => (Normal tt, m)
  | path :: rest =>
      match _addState (addState_fuel path) path m with
      | (Normal _, m') => addStates_loop rest m'
      | (TypeError, m') => (TypeError, m')
      | (OutOfFuel, m') => (OutOfFuel, m')
      end
  end.

Definition addStates (arr : list jsstring) (m : Machine) : completion value * Machine :=
  if isLive m then (Normal (str $"addStates: not editing!"), m)
  else
    match addStates_loop arr (set_live false m) with
    | (Normal _, m') => (Normal null, m')
    | (TypeError, m') => (TypeError, m')
    | (OutOfFuel, m') => (OutOfFuel, m')
    end.

(** ** Queries *)

Definition isLeaf (m : Machine) (path : jsstring) : bool :=
  match getState m path with
  | None => false
  | Some l => bool_decide (cc (deref m l) = None)
  end.

(** [isVariableLeaf]: [state.parent.hasOwnProperty] raises a
    [TypeError] on a state without parent. *)
Definition isVariableLeaf (m : Machine) (path : jsstring) : completion bool :=
  match getState m path with
  | None => Normal false
  | Some l =>
      if negb (truthy path) then Normal false
      else if bool_decide (is_Some (cc (deref m l))) then Normal false
      else
        match parent (deref m l) with
        | None => TypeError
        | Some pl => Normal (bool_decide (is_Some (curr (deref m pl))))
        end
  end.

Definition isVariableParent (m : Machine) (path : jsstring) : bool :=
  match getState m path with
  | None => false
  | Some l =>
      bool_decide (is_Some (cc (deref m l))) && bool_decide (is_Some (curr (deref m l)))
  end.

(** [state.cc[state.curr]]: [undefined] ([None]) out of range. *)
Definition getCurrentChildName (m : Machine) (path : jsstring) : option jsstring :=
  if isVariableParent m path then
    match getState m path with
    | Some l =>
        match cc (deref m l), curr (deref m l) with
        | Some names, Some i => names !! i
        | _, _ => None
        end
    | None => None
    end
  else None.

(** [getData]: [null], or the data, [""] when there is none. *)
Definition getData (m : Machine) (path : jsstring) : completion value :=
  if negb (exists_ m path) then Normal null
  else if negb (isLeaf m path) then Normal null
  else
    match isVariableLeaf m path with
    | Normal true => Normal null
    | Normal false =>
        match getState m path with
        | Some l =>
            match data (deref m l) with
            | Some d => if truthy d then Normal (str d) else Normal (str [])
            | None => Normal (str [])
            end
        | None => TypeError
        end
    | TypeError => TypeError
    | OutOfFuel => OutOfFuel
    end.

Definition isDataLeaf (m : Machine) (path : jsstring) : completion bool :=
  match getData m path with
  | Normal (str _) => Normal true
  | Normal _ => Normal false
  | TypeError => TypeError
  | OutOfFuel => OutOfFuel
  end.

(** ** Current state and data *)

(** [arr.findIndex(elem => elem === name)], [None] for -1. *)
Fixpoint findIndex (nm : jsstring) (arr : list jsstring) : option nat :=
  match arr with
  | [] => None
  | x :: rest => if eqb x nm then Some 0 else S <$> findIndex nm rest
  end.

(** [setCurrent]: the assignment of [s.curr].  The call of the
    [statechange] listeners, which the source makes after it on a live
    machine, is not modelled: this is the method on a machine that is
    being edited, and on a live one without such a listener. *)
Definition setCurrent (path nm : jsstring) (m : Machine) : completion value * Machine :=
  match getState m path with
  | None => (Normal (str ($"setCurrent: bad path: " ++ path)), m)
  | Some l =>
      let s := deref m l in
      match curr s with
      | None => (Normal (str ($"setCurrent: not a variable state: " ++ path)), m)
      | Some _ =>
          match cc s with
          | None => (TypeError, m)
          | Some names =>
              match findIndex nm names with
              | None => (Normal (str ($"setCurrent: no such child state: " ++ nm)), m)
              | Some i => (Normal null, store l (set_curr i s) m)
              end
          end
      end
  end.

(** [setData]: the assignment of [s.data].  The call of the
    [datachange] listeners, which the source makes after it on a live
    machine, is not modelled: this is the method on a machine that is
    being edited, and on a live one without such a listener. *)
Definition setData (path v : jsstring) (m : Machine) : completion value * Machine :=
  if negb (isLeaf m path) then
    (Normal (str ($"setData: " ++ path ++ $" is not a leaf")), m)
  else
    match isVariableLeaf m path with
    | Normal true => (Normal (str ($"setData: " ++ path ++ $" is a variable leaf")), m)
    | Normal false =>
        match getState m path with
        | Some l => (Normal null, store l (set_data v (deref m l)) m)
        | None => (TypeError, m)
        end
    | TypeError => (TypeError, m)
    | OutOfFuel => (OutOfFuel, m)
    end.

(** ** Traversals *)

(** [path + sep + name]. *)
Definition child_path (path sep nm : jsstring) : jsstring := path ++ sep ++ nm.

(** The separator under a parent: a slash if it has [curr], else a dot. *)
Definition separator_of (o : State) : jsstring :=
  if bool_decide (is_Some (curr o)) then $"/" else $".".

Fixpoint _appendChildren (m : Machine) (fuel : nat)
    (path : jsstring) (state : loc) (arr : list jsstring) : completion (list jsstring) :=
  match fuel with
  | 0 => OutOfFuel
  | S fuel =>
      match cc (deref m state) with
      | None => Normal arr
      | Some names =>
          let sep := separator_of (deref m state) in
          forEach (fun nm arr =>
                     let cPath := child_path path sep nm in
                     let arr := arr ++ [cPath] in
                     match getState m cPath with
                     | Some child => _appendChildren m fuel cPath child arr
                     | None => Normal arr
                     end) names arr
      end
  end.

Fixpoint _appendCurrentChildren (m : Machine) (fuel : nat)
    (path : jsstring) (state : loc) (arr : list jsstring) : completion (list jsstring) :=
  match fuel with
  | 0 => OutOfFuel
  | S fuel =>
      match cc (deref m state) with
      | None => Normal arr
      | Some names =>
          let sep := separator_of (deref m state) in
          let visit := fun nm arr =>
                     let cPath := child_path path sep nm in
                     let arr := arr ++ [cPath] in
                     match getState m cPath with
                     | Some child => _appendCurrentChildren m fuel cPath child arr
                     | None => Normal arr
                     end in
          match curr (deref m state) with
          | Some i =>
              match names !! i with
              | Some nm => if truthy nm then visit nm arr else Normal arr
              | None => Normal arr
              end
          | None => forEach visit names arr
          end
      end
  end.

(** A bound on the depth of the traversals: a state met at depth [d]
    is found under a key of length [d] at least. *)
Definition traversal_fuel (m : Machine) : nat :=
  S (map_fold (fun k _ n => max (length k) n) 0 (STATE_TREE m)).

Definition getAllPaths (m : Machine) : completion (list jsstring) :=
  match getState m [] with
  | Some rootState => _appendChildren m (traversal_fuel m) [] rootState [[]]
  | None => TypeError
  end.

Definition getCurrentPaths (m : Machine) : completion (list jsstring) :=
  match getState m [] with
  | Some rootState => _appendCurrentChildren m (traversal_fuel m) [] rootState [[]]
  | None => TypeError
  end.

(** ** Serialization *)

(** [_snipChild]: [null] ([None]) or the pair of parent and child. *)
Definition _snipChild (path : jsstring) : option (jsstring * jsstring) :=
  match lastIndexOf "/" path with
  | None => None
  | Some pos =>
      let childName := sliceFrom path (S pos) in
      if includes childName "." then None
      else Some (slice path 0 pos, childName)
  end.

(** The lines pushed for one path by the loop of [getSerialization]. *)
Definition serialize_path (m : Machine) (path : jsstring) (serial : list jsstring)
    : completion (list jsstring) :=
  let serial := serial ++ [$"P " ++ path] in
  match getState m path with
  | None => TypeError
  | Some l =>
      let state := deref m l in
      let parent := deref m <$> parent state in
      let with_c :=
        match parent with
        | Some p =>
            match curr p with
            | Some c =>
                if bool_decide (c ≠ 0) then
                  match cc p with
                  | None => TypeError
                  | Some names =>
                      if bool_decide (names !! c = Some (name state)) then
                        match _snipChild path with
                        | Some (a, b) => Normal (serial ++ [$"C " ++ a ++ $" " ++ b])
                        | None => TypeError
                        end
                      else Normal serial
                  end
                else Normal serial
            | None => Normal serial
            end
        | None => Normal serial
        end in
      match with_c with
      | Normal serial =>
          match parent, data state with
          | Some p, Some d =>
              if bool_decide (curr p = None) && truthy d
              then Normal (serial ++ [$"D " ++ path ++ $" " ++ d])
              else Normal serial
          | _, _ => Normal serial
          end
      | e => e
      end
  end.

Definition getSerialization (m : Machine) : completion (list jsstring) :=
  match getAllPaths m with
  | Normal arr => forEach (serialize_path m) arr []
  | e => e
  end.

(** ** The interpreter *)

Definition newline : jsstring := ["010"%char].

Definition syntax_error (s : jsstring) (letter pat : jsstring) : value :=
  str ($"interpretOp: " ++ s ++ newline ++ letter ++ $" - syntax must be " ++ pat).

(** [interpretOp]: the line is a string or [null].  The class has no
    [appendData] method: calling it raises a [TypeError]. *)
Definition interpretOp (line : option jsstring) (m : Machine) : completion value * Machine :=
  match line with
  | None | Some [] => (Normal null, m)
  | Some s =>
      let s := trim s in
      if Pat.COMMENT s then (Normal null, m)
      else if startsWith s "C" then
        match Pat.CPAT s with
        | Some (path, child) =>
            let path := if endsWith path "/" then slice path 0 (length path - 1) else path in
            setCurrent path child m
        | None => (Normal (syntax_error s $"C" Pat.CPAT_source), m)
        end
      else if startsWith s "D" then
        match Pat.DPAT s with
        | Some (path, v) => setData path v m
        | None =>
            match Pat.DNULLPAT s with
            | Some path => setData path [] m
            | None => (Normal (syntax_error s $"D" Pat.DPAT_source), m)
            end
        end
      else if startsWith s "A" then
        match Pat.APAT s with
        | Some _ => (TypeError, m)
        | None => (Normal (syntax_error s $"A" Pat.APAT_source), m)
        end
      else if startsWith s "P" then
        if negb (isEditing m) then
          (Normal (str ($"interpretOp " ++ s ++ newline ++ $"P - not editing")), m)
        else
          match Pat.PPAT s with
          | Some path => addState (Some path) m
          | None => (Normal (syntax_error s $"P" Pat.PPAT_source), m)
          end
      else
        (Normal (str ($"interpretOp: " ++ s ++ newline ++ $"bad command: " ++ slice s 0 1)), m)
  end.

(** [arr.map(op => this.interpretOp(op))]. *)
Fixpoint interpret_map (arr : list jsstring) (m : Machine)
    : completion (list value) * Machine :=
  match arr with
  | [] => (Normal [], m)
  | op :: rest =>
      match interpretOp (Some op) m with
      | (Normal e, m') =>
          match interpret_map rest m' with
          | (Normal errors, m'') => (Normal (e :: errors), m'')
          | r => r
          end
      | (TypeError, m') => (TypeError, m')
      | (OutOfFuel, m') => (OutOfFuel, m')
      end
  end.

(** [errors.find(e => e !== null)], [undefined] when there is none. *)
Fixpoint find_error (errors : list value) : value :=
  match errors with
  | [] => undefined
  | e :: rest => if bool_decide (e ≠ null) then e else find_error rest
  end.

Definition interpret (arr : list jsstring) (m : Machine) : completion value * Machine :=
  match interpret_map arr m with
  | (Normal errors, m') => (Normal (find_error errors), m')
  | (TypeError, m') => (TypeError, m')
  | (OutOfFuel, m') => (OutOfFuel, m')
  end.


(** * Vocabulary of the specification *)

(** The machines that the public operations make from the machine
    [m0].  An operation that ends in a [TypeError] leaves the machine
    as it was when the exception was raised. *)
Inductive steps (m0 : Machine) : Machine -> Prop :=
  | steps_refl : steps m0 m0
  | steps_makeEmpty m : steps m0 m -> steps m0 (makeEmpty m)
  | steps_startEditing m : steps m0 m -> steps m0 (snd (startEditing m))
  | steps_finishEditing m : steps m0 m -> steps m0 (snd (finishEditing m))
  | steps_addState path m : steps m0 m -> steps m0 (snd (addState path m))
  | steps_addStates arr m : steps m0 m -> steps m0 (snd (addStates arr m))
  | steps_setCurrent path nm m : steps m0 m -> steps m0 (snd (setCurrent path nm m))
  | steps_setData path v m : steps m0 m -> steps m0 (snd (setData path v m))
  | steps_interpretOp line m : steps m0 m -> steps m0 (snd (interpretOp line m))
  | steps_interpret arr m : steps m0 m -> steps m0 (snd (interpret arr m)).

(** The machines reachable from a new machine. *)
Definition reachable : Machine -> Prop := steps new_Machine.

(** The state object of a node: the object that the map holds for a key. *)
Definition node (m : Machine) (path : jsstring) (o : State) : Prop :=
  exists l, STATE_TREE m !! path = Some l /\ objects m !! l = Some o.

(** A name without separators. *)
Definition plain_name (nm : jsstring) : Prop :=
  includes nm "." = false /\ includes nm "/" = false.

Definition is_separator (sep : jsstring) : Prop := sep = $"." \/ sep = $"/".

(** ** The kind of a parent *)

(** The state object at [l] is a concurrent parent: it has children and
    no [curr]; it is a variable parent: it has [curr]. *)
Definition concurrent_parent (m : Machine) (l : loc) : Prop :=
  (exists names, cc (deref m l) = Some names /\ names <> []) /\
  curr (deref m l) = None.

Definition variable_parent (m : Machine) (l : loc) : Prop :=
  is_Some (curr (deref m l)).

(** ** Lines applied one after the other *)

(** Every line applied in turn, whatever the result of the line before:
    the results, and the machine after the last line. *)
Fixpoint apply_all (arr : list jsstring) (m : Machine)
    : list (completion value) * Machine :=
  match arr with
  | [] => ([], m)
  | op :: rest =>
      let r := interpretOp (Some op) m in
      let rs := apply_all rest (snd r) in
      (fst r :: fst rs, snd rs)
  end.

(** The first result that is not [null], [undefined] when all are. *)
Fixpoint first_failure (rs : list (completion value)) : value :=
  match rs with
  | [] => undefined
  | Normal null :: rest => first_failure rest
  | Normal v :: _ => v
  | _ :: rest => first_failure rest
  end.

Definition completes {A : Type} (r : completion A) : Prop :=
  exists a, r = Normal a.

(** ** The index of the current child *)

(** [curr], when the object has it, is an index into [cc]. *)
Definition curr_valid (o : State) : Prop :=
  forall i, curr o = Some i ->
    exists names, cc o = Some names /\ names <> [] /\ i < length names.

Definition curr_invariant (m : Machine) : Prop :=
  forall l o, objects m !! l = Some o -> curr_valid o.

(** ** The store of a reachable machine *)

Record object_ok (m : Machine) (l : loc) (o : State) : Prop := {
  ok_curr : curr_valid o;
  ok_cc : forall names, cc o = Some names ->
            names <> [] /\ data o = None /\ Forall (fun nm => nm <> []) names;
  ok_parent : forall pl, parent o = Some pl ->
            pl < l /\
            exists po names, objects m !! pl = Some po /\ cc po = Some names /\ names <> [];
  ok_data : forall v pl, data o = Some v -> parent o = Some pl ->
            curr (deref m pl) = None;
}.

Record store_ok (m : Machine) : Prop := {
  ok_objects : forall l o, objects m !! l = Some o -> object_ok m l o;
  ok_tree : forall k l, STATE_TREE m !! k = Some l -> l < length (objects m);
  ok_root : exists r, STATE_TREE m !! [] = Some r /\ parent (deref m r) = None;
  ok_nonroot : forall k l, STATE_TREE m !! k = Some l -> k <> [] ->
            is_Some (parent (deref m l));
}.

(** ** The two traversals as one walk

    The recursion of [_appendChildren] and [_appendCurrentChildren],
    the selection of the children taken out as a parameter. *)

(** The children that a traversal descends into: all of them, or, for
    the current paths, the child at [curr] under a variable parent and
    all of them under a concurrent parent. *)
Definition all_children (o : State) (names : list jsstring) : list jsstring := names.

Definition current_children (o : State) (names : list jsstring) : list jsstring :=
  match curr o with
  | Some i => match names !! i with Some nm => [nm] | None => [] end
  | None => names
  end.

(** The depth-first, parent-first walk below [state], over the children
    that [select] keeps. *)
Fixpoint walk (select : State -> list jsstring -> list jsstring)
    (m : Machine) (fuel : nat) (path : jsstring) (state : loc) (arr : list jsstring)
    : completion (list jsstring) :=
  match fuel with
  | 0 => OutOfFuel
  | S fuel =>
      match cc (deref m state) with
      | None => Normal arr
      | Some names =>
          forEach (fun nm arr =>
                     let cPath := child_path path (separator_of (deref m state)) nm in
                     match getState m cPath with
                     | Some child => walk select m fuel cPath child (arr ++ [cPath])
                     | None => Normal (arr ++ [cPath])
                     end)
            (select (deref m state) names) arr
      end
  end.

Definition walk_from_root (select : State -> list jsstring -> list jsstring)
    (m : Machine) : completion (list jsstring) :=
  match getState m [] with
  | Some rootState => walk select m (traversal_fuel m) [] rootState [[]]
  | None => TypeError
  end.

(** ** The traversals as the specification has them

    The depth-first, parent-first order, said without the loop, the
    lookup and the bound of the code. *)

(** The state of a path: the node map is keyed by the normal form. *)
Definition state_at (m : Machine) (path : jsstring) : option loc :=
  match normalizePath (Some path) with
  | str k => STATE_TREE m !! k
  | null | undefined => None
  end.

(** The separator that joins a child to its parent: a slash under a
    variable parent, which has a current index, a dot under any other. *)
Definition join_of (o : State) : jsstring :=
  match curr o with Some _ => $"/" | None => $"." end.

(** The children of a state that a traversal descends into. *)
Definition descended (select : State -> list jsstring -> list jsstring) (o : State)
    : list jsstring :=
  select o (default [] (cc o)).

(** [descent select m path sep names out]: [out] lists, for each of
    [names] in order, the path of the child, [path] joined to the name
    by [sep], followed at once by the paths below that child, before
    the path of the next name.  A child path without a state is listed
    with nothing below it. *)
Inductive descent (select : State -> list jsstring -> list jsstring) (m : Machine)
    : jsstring -> jsstring -> list jsstring -> list jsstring -> Prop :=
  | descent_done path sep : descent select m path sep [] []
  | descent_missing path sep nm rest out :
      state_at m (path ++ sep ++ nm) = None ->
      descent select m path sep rest out ->
      descent select m path sep (nm :: rest) ((path ++ sep ++ nm) :: out)
  | descent_child path sep nm rest child below_child out :
      state_at m (path ++ sep ++ nm) = Some child ->
      descent select m (path ++ sep ++ nm) (join_of (deref m child))
              (descended select (deref m child)) below_child ->
      descent select m path sep rest out ->
      descent select m path sep (nm :: rest)
              ((path ++ sep ++ nm) :: below_child ++ out).

(** The paths of a traversal: the root path, then the descent from the
    root. *)
Definition traversal (select : State -> list jsstring -> list jsstring) (m : Machine)
    (paths : list jsstring) : Prop :=
  exists (root : loc) (below_root : list jsstring),
    state_at m [] = Some root /\ paths = [] :: below_root /\
    descent select m [] (join_of (deref m root)) (descended select (deref m root))
            below_root.

(** A machine with a variable parent [.a] of [x] and [y] and a
    concurrent parent [.b] of [c] and [d], [d] having a child; live. *)
Definition two_parents_machine : Machine :=
  snd (finishEditing
    (snd (addStates [$".a"; $".a/x"; $".a/y"; $".a/x.deep"; $".b"; $".b.c"; $".b.d"; $".b.d.e"]
       new_Machine))).

(** The names in the [cc] of a state object are not empty. *)
Definition names_truthy (m : Machine) : Prop :=
  forall l names, cc (deref m l) = Some names -> Forall (fun nm => truthy nm = true) names.

(** ** The view of a machine

    What the map says of each path: the children, the current index and
    the data of its state object. *)

Record Info := mkInfo {
  kids : list jsstring;
  cur : option nat;
  dat : option jsstring;
}.

Definition info_of (o : State) : Info :=
  mkInfo (default [] (cc o)) (curr o) (data o).

Definition view (m : Machine) : gmap jsstring Info :=
  (fun l => info_of (deref m l)) <$> STATE_TREE m.

Definition sep_of (i : Info) : jsstring :=
  if bool_decide (is_Some (cur i)) then $"/" else $".".

Definition leaf_info : Info := mkInfo [] None None.

(** A child pushed under a parent, joined by [sep]. *)
Definition push_info (nm sep : jsstring) (i : Info) : Info :=
  mkInfo (kids i ++ [nm])
         (if eqb sep $"/" && bool_decide (cur i = None) then Some 0 else cur i)
         (dat i).

Definition set_cur_info (c : nat) (i : Info) : Info := mkInfo (kids i) (Some c) (dat i).
Definition set_dat_info (v : jsstring) (i : Info) : Info := mkInfo (kids i) (cur i) (Some v).

(** A name of lower-case letters, digits and dashes. *)
Definition name_ok (nm : jsstring) : Prop :=
  nm <> [] /\ forall c, c ∈ nm -> is_name_char c = true /\ lower_char c = c.

(** A path of lower-case path characters: its own normal form. *)
Definition tidy_path (k : jsstring) : Prop :=
  forall c, c ∈ k -> is_path_char c = true /\ lower_char c = c.

(** Data that a line of the protocol can carry: no white space at
    either end and no line terminator. *)
Definition line_safe (v : jsstring) : Prop :=
  trim v = v /\ forall c, c ∈ v -> is_line_terminator c = false.

(** The shape of the view of a tidy machine. *)
Record shape_ok (a : gmap jsstring Info) : Prop := {
  sh_root : exists i, a !! [] = Some i /\ (cur i = None \/ cur i = Some 0) /\ dat i = None;
  sh_keys : forall k i, a !! k = Some i -> tidy_path k;
  sh_kids : forall k i nm, a !! k = Some i -> nm ∈ kids i ->
              name_ok nm /\ is_Some (a !! child_path k (sep_of i) nm);
  sh_nodup : forall k i, a !! k = Some i -> NoDup (kids i);
  sh_cur : forall k i c, a !! k = Some i -> cur i = Some c -> c < length (kids i);
  sh_dat : forall k i v, a !! k = Some i -> dat i = Some v -> kids i = [] /\ line_safe v;
  sh_parent : forall k i, a !! k = Some i -> k <> [] ->
              exists pk nm pi, k = child_path pk (sep_of pi) nm /\
                               a !! pk = Some pi /\ nm ∈ kids pi /\
                               (is_Some (dat i) -> cur pi = None);
}.

(** The references of a tidy machine: a state object has one path, and
    the parent of the state at a child path is the state at the path of
    the parent. *)
Record links_ok (m : Machine) : Prop := {
  lk_inj : forall k1 k2 l,
      STATE_TREE m !! k1 = Some l -> STATE_TREE m !! k2 = Some l -> k1 = k2;
  lk_parent : forall pk sep nm l pl,
      is_separator sep -> plain_name nm ->
      STATE_TREE m !! child_path pk sep nm = Some l ->
      STATE_TREE m !! pk = Some pl ->
      parent (deref m l) = Some pl /\ name (deref m l) = nm;
}.

Record tidy (m : Machine) : Prop := {
  td_store : store_ok m;
  td_links : links_ok m;
  td_shape : shape_ok (view m);
}.

(** What [_addState] keeps of a tidy machine: it is tidy, in the same
    mode, and the paths longer than the added one are as they were. *)
Definition kept (p : jsstring) (m m' : Machine) : Prop :=
  tidy m' /\ _live m' = _live m /\
  forall q, length p < length q -> STATE_TREE m' !! q = STATE_TREE m !! q.

(** The operations of a tidy history: paths of path characters, current
    state and data set below the root, data that a line can carry. *)
Definition path_argument (s : option jsstring) : Prop :=
  forall p, s = Some p -> forall c, c ∈ p -> is_path_char c = true.

Inductive tidy_steps : Machine -> Prop :=
  | ts_new : tidy_steps new_Machine
  | ts_makeEmpty m : tidy_steps m -> tidy_steps (makeEmpty m)
  | ts_startEditing m : tidy_steps m -> tidy_steps (snd (startEditing m))
  | ts_finishEditing m : tidy_steps m -> tidy_steps (snd (finishEditing m))
  | ts_addState s m :
      path_argument s -> tidy_steps m -> tidy_steps (snd (addState s m))
  | ts_setCurrent path nm m :
      path <> [] -> tidy_steps m -> tidy_steps (snd (setCurrent path nm m))
  | ts_setData path v m :
      path <> [] -> line_safe v -> tidy_steps m -> tidy_steps (snd (setData path v m)).

(** ** The traversals and the data, read from a view *)

Definition all_kids (i : Info) : list jsstring := kids i.

Definition current_kids (i : Info) : list jsstring :=
  match cur i with
  | Some c => match kids i !! c with Some nm => [nm] | None => [] end
  | None => kids i
  end.

(** The paths below [k], depth first and parent first. *)
Fixpoint dfs (sel : Info -> list jsstring) (a : gmap jsstring Info)
    (fuel : nat) (k : jsstring) : list jsstring :=
  match fuel with
  | 0 => []
  | S fuel =>
      match a !! k with
      | None => []
      | Some i =>
          flat_map (fun nm => let c := child_path k (sep_of i) nm in
                              c :: dfs sel a fuel c) (sel i)
      end
  end.

(** No key of the view is longer than [b]. *)
Definition bounded (a : gmap jsstring Info) (b : nat) : Prop :=
  forall k, is_Some (a !! k) -> length k <= b.

(** Two views that show the same children, current indices and data,
    no data being the same as empty data. *)
Definition same_info (i j : Info) : Prop :=
  kids i = kids j /\ cur i = cur j /\ default [] (dat i) = default [] (dat j).

Definition view_equiv (a b : gmap jsstring Info) : Prop :=
  forall k, match a !! k, b !! k with
            | Some i, Some j => same_info i j
            | None, None => True
            | _, _ => False
            end.

(** The parent object after a child is pushed, joined by [sep]. *)
Definition pushed (nm sep : jsstring) (p : State) : State :=
  mkState (name p) (parent p) (Some (default [] (cc p) ++ [nm]))
          (if eqb sep $"/" && bool_decide (curr p = None) then Some 0 else curr p)
          (data p).

(** The machine after the child [nm] is attached under the parent at
    [pl]. *)
Definition attached (parentPath sep nm : jsstring) (pl : loc) (m : Machine) : Machine :=
  set_new (child_path parentPath sep nm) (set_parent pl (new_state nm))
          (store pl (pushed nm sep (deref m pl)) m).

(** ** The serialization, read from a view *)

(** The path of the parent and the name, split at the last separator. *)
Definition split_path (c : jsstring) : option (jsstring * jsstring) :=
  pos ← last_separator c; Some (slice c 0 pos, sliceFrom c (S pos)).

Definition P_line (c : jsstring) : jsstring := $"P " ++ c.
Definition C_line (k nm : jsstring) : jsstring := $"C " ++ k ++ $" " ++ nm.
Definition D_line (c v : jsstring) : jsstring := $"D " ++ c ++ $" " ++ v.

(** The line that follows the [P] line of a path: a [C] line for the
    current child of a variable parent whose index is not 0, a [D] line
    for the data, if not empty, of a child of a concurrent parent. *)
Definition extra_lines (a : gmap jsstring Info) (c : jsstring) : list jsstring :=
  match split_path c with
  | None => []
  | Some (k, nm) =>
      match a !! k, a !! c with
      | Some pi, Some ci =>
          match cur pi with
          | Some x =>
              if bool_decide (x <> 0) && bool_decide (kids pi !! x = Some nm)
              then [C_line k nm] else []
          | None =>
              match dat ci with
              | Some v => if truthy v then [D_line c v] else []
              | None => []
              end
          end
      | _, _ => []
      end
  end.

Definition lines_of (a : gmap jsstring Info) (c : jsstring) : list jsstring :=
  P_line c :: extra_lines a c.

(** ** The machine that replays a serialization

    [replayed a S i r]: the information [r] that the replaying machine
    has of a path, once the lines of the paths in [S] are applied, from
    the information [i] of the serialized machine. *)
Definition replayed_kids (S : list jsstring) (q : jsstring) (i : Info) : list jsstring :=
  filter (fun nm => child_path q (sep_of i) nm ∈ S) (kids i).

Definition replayed_cur (i : Info) (n : nat) : option nat :=
  match n with
  | 0 => None
  | _ => match cur i with
         | Some x => Some (if decide (x < n) then x else 0)
         | None => None
         end
  end.

Definition replayed_dat (i : Info) : option jsstring :=
  match dat i with
  | Some v => if truthy v then Some v else None
  | None => None
  end.

Definition replayed (S : list jsstring) (q : jsstring) (i r : Info) : Prop :=
  kids r = replayed_kids S q i /\
  cur r = replayed_cur i (length (kids r)) /\
  dat r = replayed_dat i.

Record replaying (a : gmap jsstring Info) (S : list jsstring) (m : Machine) : Prop := {
  rp_tidy : tidy m;
  rp_editing : _live m = false;
  rp_dom : forall q, is_Some (view m !! q) <-> q ∈ S;
  rp_info : forall q, q ∈ S ->
      exists i r, a !! q = Some i /\ view m !! q = Some r /\ replayed S q i r;
}.

(** [p] is below [c]: [c] followed by a separator and more. *)
Definition below (c p : jsstring) : Prop :=
  exists s x, p = c ++ s :: x /\ (s = "."%char \/ s = "/"%char).

(** A string that does not start, or end, with white space. *)
Definition starts_plain (s : jsstring) : Prop :=
  match s with [] => False | c :: _ => is_space c = false end.

Definition ends_plain (s : jsstring) : Prop :=
  match rev s with [] => False | c :: _ => is_space c = false end.

(** The lines of the paths [new] applied to the replaying machine [R]:
    every line completes and the paths are added. *)
Definition replays (a : gmap jsstring Info) (S : list jsstring) (R : Machine)
    (new : list jsstring) : Prop :=
  exists rs R', apply_all (flat_map (lines_of a) new) R = (rs, R') /\
    Forall completes rs /\ replaying a (S ++ new) R'.

(** The data that [getData] gives for the path [k], read from a view:
    that of a childless state which is the root or the child of a
    concurrent parent, no data being the empty string. *)
Definition data_of (a : gmap jsstring Info) (k : jsstring) : value :=
  match a !! k with
  | None => null
  | Some i =>
      if bool_decide (kids i = []) then
        match split_path k with
        | None => str (default [] (dat i))
        | Some (pk, _) =>
            match a !! pk with
            | Some pi =>
                if bool_decide (is_Some (cur pi)) then null else str (default [] (dat i))
            | None => null
            end
        end
      else null
  end.

(** A machine that a serialization cannot give back: data that ends
    with a blank. *)
Definition blank_data_machine : Machine :=
  snd (setData $".z" $"foo " (snd (addState (Some $".z") new_Machine))).

(** A machine with a variable parent whose second child is current and
    a concurrent parent with data on a leaf. *)
Definition sample_machine : Machine :=
  snd (setData $".z.w" $"some data"
    (snd (setCurrent $".a" $"y"
      (snd (addState (Some $".z.w")
        (snd (addState (Some $".a/y")
          (snd (addState (Some $".a/x") new_Machine))))))))).

(** ** Definitions for the further properties *)

(** [addState] of one path after the other. *)
Definition addState_each (arr : list jsstring) (m : Machine) : Machine :=
  fold_left (fun m p => snd (addState (Some p) m)) arr m.

(** A machine with the state [.a] only, editing. *)
Definition one_state_machine : Machine :=
  snd (addState (Some $".a") new_Machine).

(** Two machines with the same map and mode, whose state objects have
    the same children and parent and are of the same kind. *)
Definition same_structure (m m' : Machine) : Prop :=
  STATE_TREE m' = STATE_TREE m /\ _live m' = _live m /\
  forall l, cc (deref m' l) = cc (deref m l) /\
            parent (deref m' l) = parent (deref m l) /\
            (is_Some (curr (deref m' l)) <-> is_Some (curr (deref m l))).

(** What adding states does to a view: a state stays, with its data; a
    state with data stays as it is; a parent keeps its current index
    and its children, in order, new ones coming last. *)
Definition grows (a a' : gmap jsstring Info) : Prop :=
  forall q i, a !! q = Some i ->
    exists i', a' !! q = Some i' /\ dat i' = dat i /\
      (is_Some (dat i) -> i' = i) /\
      (kids i <> [] -> cur i' = cur i) /\
      kids i `prefix_of` kids i'.

(** The index of the current child of the state at a key of the map. *)
Definition current_index (m : Machine) (k : jsstring) : option nat :=
  match STATE_TREE m !! k with
  | Some l => curr (deref m l)
  | None => None
  end.

(** The lines that a serialization has for one path.  A [P] line alone:
    the path has no data, or empty data, and is not the current child
    of a variable parent unless it is the first child.  A [P] line and
    a [C] line: the path is that of the current child of a variable
    parent, and not the first child.  A [P] line and a [D] line: the
    path has the data of the line, which is not empty. *)
Definition serial_block (m : Machine) (c : jsstring) (b : list jsstring) : Prop :=
  (b = [$"P " ++ c] /\
   (getData m c = Normal null \/ getData m c = Normal (str [])) /\
   (forall k nm, c = k ++ $"/" ++ nm -> plain_name nm ->
      getCurrentChildName m k = Some nm -> current_index m k = Some 0)) \/
  (exists k nm x,
     c = k ++ $"/" ++ nm /\ b = [$"P " ++ c; $"C " ++ k ++ $" " ++ nm] /\
     getCurrentChildName m k = Some nm /\ current_index m k = Some x /\ x <> 0) \/
  (exists v,
     v <> [] /\ b = [$"P " ++ c; $"D " ++ c ++ $" " ++ v] /\
     getData m c = Normal (str v)).

(** ** The registries of listeners

    A listener is a function object, known by its identity.  The three
    registries are members of the machine that [addEventListener] and
    [removeEventListener] alone assign: they are modelled apart from
    the state tree. *)
Definition listener := nat.

Record Listeners := mkListeners {
  statechangeListeners : list listener;
  datachangeListeners : list listener;
  newmachineListeners : list listener;
}.

(** The registries of [new Machine()]. *)
Definition new_Listeners : Listeners := mkListeners [] [] [].

Definition addEventListener (ev : jsstring) (func : listener) (L : Listeners)
    : value * Listeners :=
  if eqb ev $"statechange" then
    (null, mkListeners (statechangeListeners L ++ [func])
                       (datachangeListeners L) (newmachineListeners L))
  else if eqb ev $"datachange" then
    (null, mkListeners (statechangeListeners L)
                       (datachangeListeners L ++ [func]) (newmachineListeners L))
  else if eqb ev $"newmachine" then
    (null, mkListeners (statechangeListeners L)
                       (datachangeListeners L) (newmachineListeners L ++ [func]))
  else (str ($"addEventListener: " ++ ev ++ $": not a recognized event"), L).

(** [listeners.findIndex(elem => elem === func)], [None] for -1. *)
Fixpoint findIndex_listener (func : listener) (l : list listener) : option nat :=
  match l with
  | [] => None
  | x :: rest => if bool_decide (x = func) then Some 0
                 else S <$> findIndex_listener func rest
  end.

(** [listeners.splice(pos, 1)], for [pos] within the array. *)
Definition splice_one (pos : nat) (l : list listener) : list listener :=
  take pos l ++ drop (S pos) l.

Definition remove_listener (func : listener) (l : list listener) : list listener :=
  match findIndex_listener func l with
  | Some pos => splice_one pos l
  | None => l
  end.

Definition removeEventListener (ev : jsstring) (func : listener) (L : Listeners)
    : value * Listeners :=
  if eqb ev $"statechange" then
    (null, mkListeners (remove_listener func (statechangeListeners L))
                       (datachangeListeners L) (newmachineListeners L))
  else if eqb ev $"datachange" then
    (null, mkListeners (statechangeListeners L)
                       (remove_listener func (datachangeListeners L))
                       (newmachineListeners L))
  else if eqb ev $"newmachine" then
    (null, mkListeners (statechangeListeners L) (datachangeListeners L)
                       (remove_listener func (newmachineListeners L)))
  else (str ($"removeEventListener: " ++ ev ++ $": not a recognized event"), L).

(** The registry of an event, if the event is one of the three. *)
Definition listeners_of (ev : jsstring) (L : Listeners) : option (list listener) :=
  if eqb ev $"statechange" then Some (statechangeListeners L)
  else if eqb ev $"datachange" then Some (datachangeListeners L)
  else if eqb ev $"newmachine" then Some (newmachineListeners L)
  else None.
(** * Properties *)

(** ** Characters and strings *)

Global Arguments String.list_ascii_of_string : simpl never.
Global Arguments _addState : simpl never.
Global Arguments attach : simpl never.

Ltac by_ascii_cases c :=
  destruct c as [[] [] [] [] [] [] [] []]; vm_compute; try reflexivity; try discriminate;
  try congruence; try tauto.

Lemma path_char_not_space c : is_path_char c = true -> is_space c = false.
Proof. by_ascii_cases c. Qed.

Lemma name_char_path_char c : is_name_char c = true -> is_path_char c = true.
Proof. by_ascii_cases c. Qed.

Lemma lower_char_space c : is_space (lower_char c) = is_space c.
Proof. by_ascii_cases c. Qed.

Lemma lower_char_path_char c : is_path_char (lower_char c) = is_path_char c.
Proof. by_ascii_cases c. Qed.

Lemma lower_char_idemp c : lower_char (lower_char c) = lower_char c.
Proof. by_ascii_cases c. Qed.

Lemma existsb_false_iff (p : ascii -> bool) (s : jsstring) :
  existsb p s = false <-> forall c, c ∈ s -> p c = false.
Proof.
  induction s as [|d s IH]; simpl.
  - split; [intros _ c Hc; inversion Hc | reflexivity].
  - rewrite orb_false_iff, IH. split.
    + intros [Hd Hs] c Hc. apply elem_of_cons in Hc as [->|Hc]; auto.
    + intros H. split; [apply H; left | intros c Hc; apply H; right; exact Hc].
Qed.

Lemma existsb_true_iff (p : ascii -> bool) (s : jsstring) :
  existsb p s = true <-> exists c, c ∈ s /\ p c = true.
Proof.
  induction s as [|d s IH]; simpl.
  - split; [discriminate | intros (c & Hc & _); inversion Hc].
  - rewrite orb_true_iff, IH. split.
    + intros [Hd | (c & Hc & Hp)]; [exists d; split; [left | exact Hd]
                                   | exists c; split; [right; exact Hc | exact Hp]].
    + intros (c & Hc & Hp). apply elem_of_cons in Hc as [->|Hc]; [left | right; exists c]; auto.
Qed.

Lemma dropWhile_all (p : ascii -> bool) (s : jsstring) :
  (forall c, c ∈ s -> p c = true) -> dropWhile p s = [].
Proof.
  induction s as [|d s IH]; intros H; simpl; [reflexivity|].
  rewrite (H d) by left. apply IH. intros c Hc. apply H. right. exact Hc.
Qed.

Lemma trim_all_space (s : jsstring) :
  (forall c, c ∈ s -> is_space c = true) -> trim s = [].
Proof.
  intros H. unfold trim, trimStart. rewrite (dropWhile_all _ _ H). reflexivity.
Qed.

(** ** C10: blank lines and comments *)

(** C10.  A non-empty line of white space only is a bad command: once
    trimmed it is empty and starts with none of the command letters.
    The empty string, [null] and every line whose trimmed form starts
    with [#] succeed and leave the machine as it is. *)
Theorem interpretOp_blank_and_comment (m : Machine) :
  (forall s : jsstring, s <> [] -> (forall c, c ∈ s -> is_space c = true) ->
     interpretOp (Some s) m =
     (Normal (str ($"interpretOp: " ++ newline ++ $"bad command: ")), m)) /\
  interpretOp (Some []) m = (Normal null, m) /\
  interpretOp None m = (Normal null, m) /\
  (forall s : jsstring, startsWith (trim s) "#" = true ->
     interpretOp (Some s) m = (Normal null, m)).
Proof.
  repeat split.
  - intros s Hne Hsp. destruct s as [|d s]; [congruence|].
    unfold interpretOp. rewrite (trim_all_space _ Hsp). reflexivity.
  - intros s Hc. destruct s as [|d s]; [reflexivity|].
    unfold interpretOp, Pat.COMMENT. rewrite Hc. reflexivity.
Qed.

Lemma interpretOp_blank_and_comment_witness :
  interpretOp (Some $"  ") new_Machine =
    (Normal (str ($"interpretOp: " ++ newline ++ $"bad command: ")), new_Machine) /\
  interpretOp (Some $"  # P .a") new_Machine = (Normal null, new_Machine).
Proof.
  destruct (interpretOp_blank_and_comment new_Machine) as (Hblank & _ & _ & Hcomment).
  split.
  - apply Hblank; [discriminate|].
    intros c Hc. apply list_elem_of_In in Hc. simpl in Hc.
    destruct Hc as [<-|[<-|[]]]; reflexivity.
  - apply Hcomment. reflexivity.
Defined.

(** ** Trimming and lower case *)

Lemma takeWhile_dropWhile (p : ascii -> bool) (s : jsstring) :
  takeWhile p s ++ dropWhile p s = s.
Proof.
  induction s as [|c s IH]; [reflexivity|]. cbn.
  destruct (p c); [cbn; f_equal; exact IH | reflexivity].
Qed.

Lemma takeWhile_all (p : ascii -> bool) (s : jsstring) :
  forall c, c ∈ takeWhile p s -> p c = true.
Proof.
  induction s as [|d s IH]; intros c Hc; cbn in Hc; [inversion Hc|].
  destruct (p d) eqn:Hd; [|inversion Hc].
  apply elem_of_cons in Hc as [->|Hc]; auto.
Qed.

Lemma dropWhile_head (p : ascii -> bool) (s : jsstring) c r :
  dropWhile p s = c :: r -> p c = false.
Proof.
  induction s as [|d s IH]; cbn; [discriminate|].
  destruct (p d) eqn:Hd; [exact IH|]. intros [= <- <-]. exact Hd.
Qed.

Lemma dropWhile_stop (p : ascii -> bool) c (r : jsstring) :
  p c = false -> dropWhile p (c :: r) = c :: r.
Proof. intros H. cbn. rewrite H. reflexivity. Qed.

Lemma dropWhile_idemp (p : ascii -> bool) (s : jsstring) :
  dropWhile p (dropWhile p s) = dropWhile p s.
Proof.
  destruct (dropWhile p s) as [|c r] eqn:E; [reflexivity|].
  apply dropWhile_stop. eapply dropWhile_head. exact E.
Qed.

Lemma dropWhile_map (p : ascii -> bool) (f : ascii -> ascii) (s : jsstring) :
  (forall c, p (f c) = p c) ->
  dropWhile p (map f s) = map f (dropWhile p s).
Proof.
  intros Hf. induction s as [|c s IH]; [reflexivity|]. cbn.
  rewrite Hf. destruct (p c); [exact IH | reflexivity].
Qed.

(** Trimming the end leaves a prefix, cut before trailing white space. *)
Lemma trimEnd_prefix (s : jsstring) :
  exists w, s = trimEnd s ++ w /\ forall c, c ∈ w -> is_space c = true.
Proof.
  exists (rev (takeWhile is_space (rev s))). split.
  - unfold trimEnd. rewrite <- rev_app_distr, takeWhile_dropWhile, rev_involutive.
    reflexivity.
  - intros c Hc. apply list_elem_of_In, in_rev, list_elem_of_In in Hc.
    eapply takeWhile_all. exact Hc.
Qed.

Lemma trimEnd_last (s : jsstring) r c :
  trimEnd s = r ++ [c] -> is_space c = false.
Proof.
  unfold trimEnd. intros H.
  assert (H' : dropWhile is_space (rev s) = c :: rev r).
  { rewrite <- (rev_involutive (dropWhile is_space (rev s))), H, rev_app_distr.
    reflexivity. }
  eapply dropWhile_head. exact H'.
Qed.

Lemma trimStart_id (s : jsstring) :
  match s with [] => True | c :: _ => is_space c = false end -> trimStart s = s.
Proof. destruct s as [|c r]; [reflexivity|]. apply dropWhile_stop. Qed.

Lemma trimEnd_id (s : jsstring) :
  match rev s with [] => True | c :: _ => is_space c = false end -> trimEnd s = s.
Proof.
  intros H. unfold trimEnd.
  destruct (rev s) as [|c r] eqn:E.
  - apply (f_equal (@rev _)) in E. rewrite rev_involutive in E. subst s. reflexivity.
  - rewrite dropWhile_stop by exact H. rewrite <- E. apply rev_involutive.
Qed.

Lemma trimStart_head (s : jsstring) :
  match trimStart s with [] => True | c :: _ => is_space c = false end.
Proof.
  destruct (trimStart s) as [|c r] eqn:E; [exact I|].
  eapply dropWhile_head. exact E.
Qed.

Lemma trimEnd_head (s : jsstring) :
  match s with [] => True | c :: _ => is_space c = false end ->
  match trimEnd s with [] => True | c :: _ => is_space c = false end.
Proof.
  intros H. destruct (trimEnd_prefix s) as (w & Hs & _).
  destruct (trimEnd s) as [|c r]; [exact I|].
  rewrite Hs in H. exact H.
Qed.

Lemma trimEnd_idemp (s : jsstring) : trimEnd (trimEnd s) = trimEnd s.
Proof.
  unfold trimEnd. rewrite rev_involutive, dropWhile_idemp. reflexivity.
Qed.

Lemma trim_idemp (s : jsstring) : trim (trim s) = trim s.
Proof.
  unfold trim.
  rewrite (trimStart_id (trimEnd (trimStart s)))
    by (apply trimEnd_head, trimStart_head).
  apply trimEnd_idemp.
Qed.

Lemma trim_toLowerCase (s : jsstring) :
  trim (toLowerCase s) = toLowerCase (trim s).
Proof.
  unfold trim, trimEnd, trimStart, toLowerCase.
  rewrite dropWhile_map by apply lower_char_space.
  rewrite <- map_rev, dropWhile_map by apply lower_char_space.
  rewrite map_rev. reflexivity.
Qed.

Lemma toLowerCase_idemp (s : jsstring) : toLowerCase (toLowerCase s) = toLowerCase s.
Proof.
  unfold toLowerCase. rewrite map_map. apply map_ext. intros c. apply lower_char_idemp.
Qed.

Lemma existsb_path_char_dropWhile (s : jsstring) :
  existsb is_path_char (dropWhile is_space s) = existsb is_path_char s.
Proof.
  induction s as [|c s IH]; [reflexivity|]. cbn.
  destruct (is_space c) eqn:Hc; [|reflexivity].
  rewrite IH. destruct (is_path_char c) eqn:Hp; [|reflexivity].
  apply path_char_not_space in Hp. congruence.
Qed.

Lemma existsb_rev (p : ascii -> bool) (s : jsstring) :
  existsb p (rev s) = existsb p s.
Proof.
  induction s as [|c s IH]; [reflexivity|]. cbn.
  rewrite existsb_app, IH. cbn. rewrite orb_false_r. apply orb_comm.
Qed.

Lemma PATHPAT_trim (s : jsstring) : Pat.PATHPAT (trim s) = Pat.PATHPAT s.
Proof.
  unfold Pat.PATHPAT, trim, trimEnd, trimStart.
  rewrite existsb_rev, existsb_path_char_dropWhile, existsb_rev.
  apply existsb_path_char_dropWhile.
Qed.

Lemma PATHPAT_toLowerCase (s : jsstring) : Pat.PATHPAT (toLowerCase s) = Pat.PATHPAT s.
Proof.
  unfold Pat.PATHPAT, toLowerCase. induction s as [|c s IH]; [reflexivity|].
  cbn. rewrite lower_char_path_char, IH. reflexivity.
Qed.

(** A normalized path is its own normal form. *)
Lemma normalizePath_idemp (s : option jsstring) (p : jsstring) :
  normalizePath s = str p -> normalizePath (Some p) = str p.
Proof.
  destruct s as [[|c s]|]; cbn [normalizePath]; try (intros [= <-]; reflexivity).
  destruct (Pat.PATHPAT (c :: s)) eqn:Hpat; [|discriminate].
  intros [= <-].
  assert (Hpat' : Pat.PATHPAT (toLowerCase (trim (c :: s))) = true)
    by (rewrite PATHPAT_toLowerCase, PATHPAT_trim; exact Hpat).
  destruct (toLowerCase (trim (c :: s))) as [|d r] eqn:E; [discriminate|].
  cbn [normalizePath]. rewrite Hpat', <- E.
  rewrite trim_toLowerCase, trim_idemp, toLowerCase_idemp. reflexivity.
Qed.

(** ** The last separator of a path *)

Lemma lastIndexOf_None c (s : jsstring) :
  lastIndexOf c s = None <-> includes s c = false.
Proof.
  unfold includes. induction s as [|d s IH]; cbn; [tauto|].
  destruct (lastIndexOf c s) as [i|].
  - split; [discriminate|]. intros H. apply orb_false_iff in H as [_ H].
    apply IH in H. discriminate.
  - case_bool_decide; cbn; [split; discriminate|]. tauto.
Qed.

Lemma lastIndexOf_lt c (s : jsstring) i : lastIndexOf c s = Some i -> i < length s.
Proof.
  revert i. induction s as [|d s IH]; intros i; cbn; [discriminate|].
  destruct (lastIndexOf c s) as [j|].
  - intros [= <-]. specialize (IH j eq_refl). lia.
  - case_bool_decide; [|discriminate]. intros [= <-]. lia.
Qed.

Lemma lastIndexOf_app c (s t : jsstring) :
  lastIndexOf c (s ++ t) =
  match lastIndexOf c t with
  | Some i => Some (length s + i)
  | None => lastIndexOf c s
  end.
Proof.
  induction s as [|d s IH]; cbn.
  - destruct (lastIndexOf c t); reflexivity.
  - rewrite IH. destruct (lastIndexOf c t); reflexivity.
Qed.

Lemma last_separator_lt (path : jsstring) pos :
  last_separator path = Some pos -> pos < length path.
Proof.
  unfold last_separator.
  destruct (lastIndexOf "." path) as [d|] eqn:Hd, (lastIndexOf "/" path) as [s|] eqn:Hs;
    intros [= <-]; try case_match; eauto using lastIndexOf_lt.
Qed.

Lemma last_separator_child (path sep nm : jsstring) :
  is_separator sep -> plain_name nm ->
  last_separator (child_path path sep nm) = Some (length path).
Proof.
  intros Hsep [Hdot Hslash]. unfold last_separator, child_path.
  apply lastIndexOf_None in Hdot, Hslash.
  rewrite !lastIndexOf_app.
  rewrite Hdot, Hslash.
  assert (H1 : lastIndexOf "." $"." = Some 0) by reflexivity.
  assert (H2 : lastIndexOf "/" $"." = None) by reflexivity.
  assert (H3 : lastIndexOf "." $"/" = None) by reflexivity.
  assert (H4 : lastIndexOf "/" $"/" = Some 0) by reflexivity.
  destruct Hsep as [-> | ->]; rewrite ?H1, ?H2, ?H3, ?H4, Nat.add_0_r.
  - destruct (lastIndexOf "/" path) as [s|] eqn:Hs; [|reflexivity].
    apply lastIndexOf_lt in Hs.
    destruct (length path <? s) eqn:E; [apply Nat.ltb_lt in E; lia | reflexivity].
  - destruct (lastIndexOf "." path) as [d|] eqn:Hd; [|reflexivity].
    apply lastIndexOf_lt in Hd.
    destruct (d <? length path) eqn:E; [reflexivity | apply Nat.ltb_ge in E; lia].
Qed.

Lemma slice_child (path sep nm : jsstring) :
  is_separator sep ->
  slice (child_path path sep nm) 0 (length path) = path /\
  slice (child_path path sep nm) (length path) (S (length path)) = sep /\
  sliceFrom (child_path path sep nm) (S (length path)) = nm.
Proof.
  intros Hsep. unfold slice, sliceFrom, child_path.
  assert (Hlen : length sep = 1) by (destruct Hsep as [-> | ->]; reflexivity).
  repeat split.
  - rewrite Nat.sub_0_r, drop_0, take_app_length. reflexivity.
  - rewrite drop_app_length.
    replace (S (length path) - length path) with (length sep) by lia.
    apply take_app_length.
  - replace (S (length path)) with (length path + length sep) by lia.
    rewrite <- drop_drop, drop_app_length. apply drop_app_length.
Qed.

Lemma lastIndexOf_Some c (s : jsstring) i :
  lastIndexOf c s = Some i ->
  exists a b, s = a ++ c :: b /\ length a = i /\ includes b c = false.
Proof.
  revert i. induction s as [|d s IH]; intros i; cbn; [discriminate|].
  destruct (lastIndexOf c s) as [j|] eqn:Hj.
  - intros [= <-]. destruct (IH j eq_refl) as (a & b & -> & Hlen & Hb).
    exists (d :: a), b. cbn. auto.
  - case_bool_decide as Hd; [|discriminate]. intros [= <-]. subst d.
    exists [], s. repeat split. apply lastIndexOf_None. exact Hj.
Qed.

Lemma lastIndexOf_after c (a b : jsstring) x :
  includes b c = true -> exists j, lastIndexOf c (a ++ x :: b) = Some j /\ length a < j.
Proof.
  intros Hb. rewrite lastIndexOf_app. cbn [lastIndexOf].
  destruct (lastIndexOf c b) as [i|] eqn:Hi.
  - exists (length a + S i). split; [reflexivity | lia].
  - apply lastIndexOf_None in Hi. congruence.
Qed.

(** A path is split at its last separator into the path of the parent,
    the separator and a name without separators. *)
Lemma last_separator_split (path : jsstring) pos :
  last_separator path = Some pos ->
  exists sep, is_separator sep /\
    slice path pos (S pos) = sep /\
    path = child_path (slice path 0 pos) sep (sliceFrom path (S pos)) /\
    plain_name (sliceFrom path (S pos)).
Proof.
  intros Hlast.
  assert (Hgen : forall c c' a b, path = a ++ c :: b -> length a = pos ->
            includes b c = false ->
            (forall j, lastIndexOf c' path = Some j -> j <= pos) ->
            slice path pos (S pos) = [c] /\
            path = child_path (slice path 0 pos) [c] (sliceFrom path (S pos)) /\
            includes (sliceFrom path (S pos)) c = false /\
            includes (sliceFrom path (S pos)) c' = false).
  { intros c c' a b -> <- Hb Hother. unfold slice, sliceFrom, child_path.
    rewrite Nat.sub_0_r, drop_0, take_app_length.
    replace (S (length a) - length a) with 1 by lia.
    rewrite drop_app_length.
    replace (S (length a)) with (length a + 1) by lia.
    rewrite <- drop_drop, drop_app_length.
    change (drop 1 (c :: b)) with b. change (take 1 (c :: b)) with [c].
    repeat split; auto.
    destruct (includes b c') eqn:Hc'; [|reflexivity].
    destruct (lastIndexOf_after c' a b c Hc') as (j & Hj & Hlt).
    specialize (Hother j Hj). lia. }
  unfold last_separator in Hlast.
  destruct (lastIndexOf "." path) as [d|] eqn:Hd, (lastIndexOf "/" path) as [s|] eqn:Hs;
    try discriminate.
  - destruct (d <? s) eqn:E; injection Hlast as <-.
    + apply Nat.ltb_lt in E. destruct (lastIndexOf_Some _ _ _ Hs) as (a & b & Hp & Hlen & Hb).
      destruct (Hgen "/"%char "."%char a b Hp Hlen Hb) as (H1 & H2 & H3 & H4).
      { intros j Hj. rewrite Hd in Hj. injection Hj as <-. lia. }
      exists $"/". split; [right; reflexivity|]. split; [exact H1|]. split; [exact H2|].
      split; assumption.
    + apply Nat.ltb_ge in E. destruct (lastIndexOf_Some _ _ _ Hd) as (a & b & Hp & Hlen & Hb).
      destruct (Hgen "."%char "/"%char a b Hp Hlen Hb) as (H1 & H2 & H3 & H4).
      { intros j Hj. rewrite Hs in Hj. injection Hj as <-. lia. }
      exists $".". split; [left; reflexivity|]. split; [exact H1|]. split; [exact H2|].
      split; assumption.
  - injection Hlast as <-. destruct (lastIndexOf_Some _ _ _ Hd) as (a & b & Hp & Hlen & Hb).
    destruct (Hgen "."%char "/"%char a b Hp Hlen Hb) as (H1 & H2 & H3 & H4).
    { intros j Hj. rewrite Hs in Hj. discriminate. }
    exists $".". split; [left; reflexivity|]. split; [exact H1|]. split; [exact H2|].
    split; assumption.
  - injection Hlast as <-. destruct (lastIndexOf_Some _ _ _ Hs) as (a & b & Hp & Hlen & Hb).
    destruct (Hgen "/"%char "."%char a b Hp Hlen Hb) as (H1 & H2 & H3 & H4).
    { intros j Hj. rewrite Hd in Hj. discriminate. }
    exists $"/". split; [right; reflexivity|]. split; [exact H1|]. split; [exact H2|].
    split; assumption.
Qed.

(** ** C5: [normalizePath] *)

Lemma dropWhile_app_all (p : ascii -> bool) (w s : jsstring) :
  (forall c, c ∈ w -> p c = true) -> dropWhile p (w ++ s) = dropWhile p s.
Proof.
  induction w as [|d w IH]; intros H; [reflexivity|]. cbn.
  rewrite (H d) by left. apply IH. intros c Hc. apply H. right. exact Hc.
Qed.

(** Trimming takes away the white space around a run without any. *)
Lemma trim_padded (w1 p w2 : jsstring) :
  (forall c, c ∈ w1 -> is_space c = true) ->
  (forall c, c ∈ w2 -> is_space c = true) ->
  (forall c, c ∈ p -> is_space c = false) ->
  trim (w1 ++ p ++ w2) = p.
Proof.
  intros H1 H2 Hp. unfold trim, trimStart, trimEnd.
  rewrite dropWhile_app_all by exact H1.
  assert (Hstart : dropWhile is_space (p ++ w2) = p ++ w2 \/ p = []).
  { destruct p as [|c p]; [right; reflexivity | left].
    cbn. rewrite (Hp c) by left. reflexivity. }
  destruct Hstart as [-> | ->].
  - rewrite rev_app_distr. rewrite dropWhile_app_all.
    2:{ intros c Hc. apply H2. apply list_elem_of_In, in_rev, list_elem_of_In. exact Hc. }
    destruct (rev p) as [|c r] eqn:Hrev.
    + apply (f_equal (@rev _)) in Hrev. rewrite rev_involutive in Hrev. exact (eq_sym Hrev).
    + cbn. rewrite (Hp c).
      * rewrite <- Hrev. apply rev_involutive.
      * apply list_elem_of_In, in_rev. rewrite Hrev. left. reflexivity.
  - cbn [app]. rewrite (dropWhile_all _ _ H2). reflexivity.
Qed.

(** C5, as amended.  [normalizePath] returns the root path for [null]
    and for the empty string; it returns [null] for every non-empty
    string without any character of the class [A-Za-z0-9./-]; and for
    every string that is a non-empty run of characters of the class,
    with white space before and after it or without, it returns the
    run, which is the string trimmed, in lower case.  Nothing is said
    of a string with a character outside the class between two of the
    class. *)
Theorem normalizePath_spec :
  normalizePath None = str [] /\
  normalizePath (Some []) = str [] /\
  (forall s : jsstring, s <> [] -> (forall c, c ∈ s -> is_path_char c = false) ->
     normalizePath (Some s) = null) /\
  (forall w1 p w2 : jsstring,
     p <> [] -> (forall c, c ∈ p -> is_path_char c = true) ->
     (forall c, c ∈ w1 -> is_space c = true) ->
     (forall c, c ∈ w2 -> is_space c = true) ->
     trim (w1 ++ p ++ w2) = p /\
     normalizePath (Some (w1 ++ p ++ w2)) = str (toLowerCase p)).
Proof.
  split; [reflexivity|]. split; [reflexivity|]. split.
  - intros s Hne Hall. destruct s as [|d s]; [congruence|].
    unfold normalizePath, Pat.PATHPAT.
    apply existsb_false_iff in Hall. rewrite Hall. reflexivity.
  - intros w1 p w2 Hne Hp H1 H2.
    assert (Htrim : trim (w1 ++ p ++ w2) = p).
    { apply trim_padded; [exact H1 | exact H2|].
      intros c Hc. apply path_char_not_space, Hp, Hc. }
    split; [exact Htrim|].
    assert (Hex : existsb is_path_char (w1 ++ p ++ w2) = true).
    { destruct p as [|c p]; [congruence|]. apply existsb_true_iff.
      exists c. split; [|apply Hp; left].
      apply elem_of_app. right. left. }
    destruct (w1 ++ p ++ w2) as [|d s] eqn:Hs.
    + discriminate.
    + unfold normalizePath, Pat.PATHPAT. rewrite Hex, Htrim. reflexivity.
Qed.

Lemma normalizePath_spec_witness :
  normalizePath (Some $"!?") = null /\
  normalizePath (Some $" .Boot/Ok ") = str $".boot/ok" /\
  normalizePath (Some $".a/B-2") = str $".a/b-2".
Proof.
  destruct normalizePath_spec as (_ & _ & Hnull & Hnorm). split; [|split].
  - apply Hnull; [discriminate|].
    intros c Hc. apply list_elem_of_In in Hc. simpl in Hc.
    destruct Hc as [<-|[<-|[]]]; reflexivity.
  - apply (Hnorm $" " $".Boot/Ok" $" "); [discriminate | | |];
      intros c Hc; apply list_elem_of_In in Hc; simpl in Hc;
      repeat (destruct Hc as [<-|Hc]; [reflexivity|]); destruct Hc.
  - apply (Hnorm $"" $".a/B-2" $""); [discriminate | | |];
      intros c Hc; apply list_elem_of_In in Hc; simpl in Hc;
      repeat (destruct Hc as [<-|Hc]; [reflexivity|]); destruct Hc.
Defined.

(** C5 as stated fails: a string with a character outside the class,
    here the white space that is trimmed, is not refused.  Neither is
    one with such a character inside: the pattern is not anchored and
    one character of the class is enough for it. *)
Lemma normalizePath_counterexample :
  ((exists c, c ∈ $" .a" /\ is_path_char c = false) /\
   normalizePath (Some $" .a") = str $".a") /\
  ((exists c, c ∈ $"a b!c" /\ is_path_char c = false) /\
   normalizePath (Some $"a b!c") = str $"a b!c").
Proof.
  split; (split; [|reflexivity]).
  - exists " "%char. split; [|reflexivity]. apply list_elem_of_In. simpl. tauto.
  - exists "!"%char. split; [|reflexivity]. apply list_elem_of_In. simpl. tauto.
Qed.

(** ** Results of the operations *)

Lemma attach_result parentPath separator nm pl m :
  fst (attach parentPath separator nm pl m) <> Normal undefined /\
  fst (attach parentPath separator nm pl m) <> OutOfFuel /\
  fst (attach parentPath separator nm pl m) <> TypeError.
Proof.
  unfold attach. repeat case_match; cbn [fst]; repeat split; discriminate.
Qed.

Lemma _addSubState_with_result rec parentPath separator nm m :
  (forall p m', fst (rec p m') <> Normal undefined) ->
  fst (_addSubState_with rec parentPath separator nm m) <> Normal undefined.
Proof.
  intros Hrec. unfold _addSubState_with.
  destruct (negb (Pat.NAMEPAT nm)); [discriminate|].
  destruct (negb (Pat.SEPPAT separator)); [discriminate|].
  destruct (STATE_TREE m !! parentPath); [apply attach_result|].
  specialize (Hrec parentPath m).
  destruct (rec parentPath m) as [[[| |s]| |] m']; simpl in *; try discriminate; try congruence.
  destruct (STATE_TREE m' !! parentPath); [apply attach_result | discriminate].
Qed.

Lemma _addState_S fuel path m :
  _addState (S fuel) path m =
  if exists_ m path then (Normal null, m)
  else
    match last_separator path with
    | None => (Normal (str ($"addState: bad path: |" ++ path ++ $"|")), m)
    | Some pos =>
        _addSubState_with (_addState fuel)
          (slice path 0 pos) (slice path pos (S pos)) (sliceFrom path (S pos)) m
    end.
Proof. reflexivity. Qed.

Lemma _addState_result fuel path m :
  fst (_addState fuel path m) <> Normal undefined.
Proof.
  revert path m. induction fuel as [|fuel IH]; intros path m; [discriminate|].
  rewrite _addState_S.
  destruct (exists_ m path); [discriminate|].
  destruct (last_separator path) as [pos|]; [|discriminate].
  apply _addSubState_with_result, IH.
Qed.

Lemma addState_result path m : fst (addState path m) <> Normal undefined.
Proof.
  unfold addState. repeat case_match; cbn [fst]; try discriminate. apply _addState_result.
Qed.

Lemma setCurrent_result path nm m :
  exists v, fst (setCurrent path nm m) = v /\ v <> Normal undefined /\ v <> OutOfFuel.
Proof.
  eexists; split; [reflexivity|]. unfold setCurrent.
  repeat case_match; simpl; split; discriminate.
Qed.

Lemma setData_result path v m : fst (setData path v m) <> Normal undefined.
Proof.
  unfold setData. repeat case_match; simpl; discriminate.
Qed.

Lemma interpretOp_result line m : fst (interpretOp line m) <> Normal undefined.
Proof.
  assert (Hsc : forall p n, fst (setCurrent p n m) <> Normal undefined).
  { intros p n. destruct (setCurrent_result p n m) as (v & <- & Hv & _). exact Hv. }
  unfold interpretOp.
  repeat (case_match; cbn [fst]; try discriminate;
          try apply setData_result; try apply addState_result; try apply Hsc).
Qed.

(** ** C2: [interpret] *)

Lemma find_error_first_failure errors :
  find_error errors = first_failure (map Normal errors).
Proof.
  induction errors as [|e errors IH]; [reflexivity|].
  destruct e; simpl; auto.
Qed.

Lemma interpret_map_apply_all arr m :
  Forall completes (fst (apply_all arr m)) ->
  exists errors,
    interpret_map arr m = (Normal errors, snd (apply_all arr m)) /\
    fst (apply_all arr m) = map Normal errors.
Proof.
  revert m. induction arr as [|op rest IH]; intros m Hall.
  - exists []. split; reflexivity.
  - cbn [apply_all interpret_map fst snd] in *.
    destruct (interpretOp (Some op) m) as [r m1]. cbn [fst snd] in *.
    apply Forall_cons in Hall as [[e ->] Hrest].
    destruct (IH _ Hrest) as (errors & Hmap & Hres).
    exists (e :: errors). rewrite Hmap, Hres. split; reflexivity.
Qed.

Lemma apply_all_no_undefined arr m :
  Forall (fun r => r <> Normal undefined) (fst (apply_all arr m)).
Proof.
  revert m. induction arr as [|op rest IH]; intros m; cbn [apply_all fst snd].
  - constructor.
  - constructor; [apply interpretOp_result | apply IH].
Qed.

Lemma first_failure_undefined rs :
  Forall completes rs -> Forall (fun r => r <> Normal undefined) rs ->
  first_failure rs = undefined <-> Forall (fun r => r = Normal null) rs.
Proof.
  induction 1 as [|r rs [v ->] _ IH]; intros Hnu.
  - split; [constructor | reflexivity].
  - inversion Hnu as [|? ? Hv Hrest]; subst. specialize (IH Hrest).
    destruct v; cbn [first_failure].
    + rewrite IH. split; [constructor; auto | inversion 1; auto].
    + congruence.
    + split; [discriminate | inversion 1; discriminate].
Qed.

(** C2, as amended.  [interpret] applies every line in order, a failing
    line does not stop it: as long as no line raises an exception, the
    machine it leaves is the one left by all the lines, and its result
    is the first failure among the results of the lines.  The result is
    [undefined], the success of [interpret], iff every line succeeds. *)
Theorem interpret_applies_every_line (arr : list jsstring) (m : Machine) :
  Forall completes (fst (apply_all arr m)) ->
  interpret arr m =
    (Normal (first_failure (fst (apply_all arr m))), snd (apply_all arr m)) /\
  (first_failure (fst (apply_all arr m)) = undefined <->
   Forall (fun r => r = Normal null) (fst (apply_all arr m))).
Proof.
  intros Hall. split.
  - destruct (interpret_map_apply_all arr m Hall) as (errors & Hmap & Hres).
    unfold interpret. rewrite Hmap, Hres, find_error_first_failure. reflexivity.
  - apply first_failure_undefined; [exact Hall | apply apply_all_no_undefined].
Qed.

Lemma interpret_applies_every_line_witness :
  fst (interpret [$"X"; $"P .a"] new_Machine) =
    Normal (str ($"interpretOp: X" ++ newline ++ $"bad command: X")) /\
  exists_ (snd (interpret [$"X"; $"P .a"] new_Machine)) $".a" = true.
Proof.
  assert (Hall : Forall completes (fst (apply_all [$"X"; $"P .a"] new_Machine))).
  { repeat constructor; eexists; vm_compute; reflexivity. }
  destruct (interpret_applies_every_line _ _ Hall) as [-> _].
  split; vm_compute; reflexivity.
Defined.

(** C2 as stated fails: the line after the first failing line is
    applied. *)
Lemma interpret_counterexample :
  fst (interpretOp (Some $"X") new_Machine) =
    Normal (str ($"interpretOp: X" ++ newline ++ $"bad command: X")) /\
  exists_ new_Machine $".a" = false /\
  exists_ (snd (interpret [$"X"; $"P .a"] new_Machine)) $".a" = true.
Proof. vm_compute. repeat split. Qed.

(** ** C3: [addStates] *)

(** C3 fails on the code: the error of [_addState] is returned by the
    arrow function of the loop and dropped there, [addStates] returns
    [null]. *)
Theorem addStates_drops_the_error :
  fst (_addState (addState_fuel $"foo") $"foo" new_Machine) =
    Normal (str $"addState: bad path: |foo|") /\
  addStates [$"foo"] new_Machine = (Normal null, new_Machine).
Proof. vm_compute. split; reflexivity. Qed.

(** ** C4: mutation and the edit mode *)

Lemma deref_makeEmpty m : deref (makeEmpty m) (length (objects m)) = new_state [].
Proof.
  unfold deref, makeEmpty. cbn [objects].
  rewrite lookup_app_r by lia. rewrite Nat.sub_diag. reflexivity.
Qed.

Lemma getAllPaths_makeEmpty m : getAllPaths (makeEmpty m) = Normal [[]].
Proof.
  unfold getAllPaths, getState, traversal_fuel.
  assert (Hroot : normalizePath (Some []) = str []) by reflexivity. rewrite Hroot.
  unfold makeEmpty at 1. cbn [STATE_TREE]. rewrite lookup_singleton_eq.
  cbn [_appendChildren]. rewrite deref_makeEmpty. reflexivity.
Qed.

(** C4, as amended.  [addState] and [addStates] are permitted only while
    editing: on a live machine they fail with a not-editing reason and
    leave the machine as it is.  [makeEmpty] has no such gate: in either
    mode it leaves a map that holds a new root only and a machine that
    is editing. *)
Theorem mutation_and_edit_mode :
  (forall path m, isLive m = true ->
     addState path m = (Normal (str $"addState: not editing!"), m)) /\
  (forall arr m, isLive m = true ->
     addStates arr m = (Normal (str $"addStates: not editing!"), m)) /\
  (forall m, isLive (makeEmpty m) = false /\
     (exists r, STATE_TREE (makeEmpty m) = {[ [] := r ]} /\
                deref (makeEmpty m) r = new_state []) /\
     getAllPaths (makeEmpty m) = Normal [[]]).
Proof.
  split; [|split].
  - intros path m Hlive. unfold addState. rewrite Hlive. reflexivity.
  - intros arr m Hlive. unfold addStates. rewrite Hlive. reflexivity.
  - intros m. split; [reflexivity|]. split; [|apply getAllPaths_makeEmpty].
    exists (length (objects m)). split; [reflexivity | apply deref_makeEmpty].
Qed.

Lemma mutation_and_edit_mode_witness :
  let m := snd (finishEditing new_Machine) in
  addState (Some $".a") m = (Normal (str $"addState: not editing!"), m) /\
  addStates [$".a"] m = (Normal (str $"addStates: not editing!"), m).
Proof.
  destruct mutation_and_edit_mode as (Hadd & Hadds & _).
  split; [apply Hadd | apply Hadds]; reflexivity.
Defined.

(** C4 as stated fails for [makeEmpty]: on a live machine it succeeds,
    removes the states and leaves the machine editing. *)
Lemma makeEmpty_counterexample :
  let m := snd (finishEditing (snd (addState (Some $".a") new_Machine))) in
  isLive m = true /\ exists_ m $".a" = true /\
  isLive (makeEmpty m) = false /\ exists_ (makeEmpty m) $".a" = false.
Proof. vm_compute. repeat split. Qed.

(** ** The store *)

Lemma lookup_store l o m l' o' :
  objects (store l o m) !! l' = Some o' ->
  (l' = l /\ o' = o /\ l < length (objects m)) \/ (l' <> l /\ objects m !! l' = Some o').
Proof.
  unfold store. cbn [objects]. intros H.
  apply list_lookup_insert_Some in H as [(-> & -> & Hl) | [Hne H]]; [left | right]; auto.
Qed.

Lemma lookup_set_new path o m l' o' :
  objects (set_new path o m) !! l' = Some o' ->
  objects m !! l' = Some o' \/ (l' = length (objects m) /\ o' = o).
Proof.
  unfold set_new. cbn [objects]. intros H.
  apply lookup_app_Some in H as [H | [Hle H]]; [left; exact H | right].
  destruct (l' - length (objects m)) as [|k] eqn:Hk; [|destruct k; discriminate].
  injection H as <-. split; [lia | reflexivity].
Qed.

Lemma deref_lookup m l o : objects m !! l = Some o -> deref m l = o.
Proof. unfold deref. intros ->. reflexivity. Qed.

Lemma deref_store_eq l o m : l < length (objects m) -> deref (store l o m) l = o.
Proof.
  intros Hl. unfold deref, store. cbn [objects].
  rewrite list_lookup_insert_eq by exact Hl. reflexivity.
Qed.

Lemma deref_store_ne l l' o m : l <> l' -> deref (store l o m) l' = deref m l'.
Proof.
  intros Hne. unfold deref, store. cbn [objects].
  rewrite list_lookup_insert_ne by exact Hne. reflexivity.
Qed.

Lemma deref_set_new_old path o m l :
  l < length (objects m) -> deref (set_new path o m) l = deref m l.
Proof.
  intros Hl. unfold deref, set_new. cbn [objects].
  rewrite lookup_app_l by exact Hl. reflexivity.
Qed.

Lemma deref_set_new_new path o m :
  deref (set_new path o m) (length (objects m)) = o.
Proof.
  unfold deref, set_new. cbn [objects].
  rewrite lookup_app_r by lia. rewrite Nat.sub_diag. reflexivity.
Qed.

Lemma store_same l m : store l (deref m l) m = m.
Proof.
  unfold store, deref. destruct m as [objs tree live]. cbn [objects STATE_TREE _live].
  f_equal. destruct (objs !! l) as [o|] eqn:Hl; cbn [default from_option id].
  - apply list_insert_id. exact Hl.
  - apply list_insert_ge. apply lookup_ge_None. exact Hl.
Qed.

Lemma set_cc_same o names : cc o = Some names -> set_cc names o = o.
Proof. destruct o. cbn. intros ->. reflexivity. Qed.

Lemma findIndex_Some nm arr i :
  findIndex nm arr = Some i -> arr !! i = Some nm.
Proof.
  revert i. induction arr as [|x rest IH]; intros i; cbn [findIndex]; [discriminate|].
  unfold eqb. case_bool_decide as Hx.
  - intros [= <-]. subst x. reflexivity.
  - destruct (findIndex nm rest) as [j|]; [|discriminate].
    intros [= <-]. cbn. apply IH. reflexivity.
Qed.

(** ** Preservation by the operations

    The machine changes through [set_live], [makeEmpty], [attach] and
    the assignments of [setCurrent] and [setData] only: a property that
    these preserve holds of every reachable machine. *)

Section Preservation.

Variable P : Machine -> Prop.

Hypothesis P_set_live : forall b m, P m -> P (set_live b m).
Hypothesis P_makeEmpty : forall m, P m -> P (makeEmpty m).
Hypothesis P_attach : forall parentPath separator nm pl m,
  P m -> STATE_TREE m !! parentPath = Some pl -> Pat.NAMEPAT nm = true ->
  P (snd (attach parentPath separator nm pl m)).
Hypothesis P_setCurrent : forall path nm m, P m -> P (snd (setCurrent path nm m)).
Hypothesis P_setData : forall path v m, P m -> P (snd (setData path v m)).

Lemma preserved_addSubState_with rec parentPath separator nm m :
  (forall p m', P m' -> P (snd (rec p m'))) ->
  P m -> P (snd (_addSubState_with rec parentPath separator nm m)).
Proof.
  intros Hrec Hm. unfold _addSubState_with.
  destruct (Pat.NAMEPAT nm) eqn:Hname; cbn [negb]; [|exact Hm].
  destruct (negb (Pat.SEPPAT separator)); [exact Hm|].
  destruct (STATE_TREE m !! parentPath) as [pl|] eqn:Hp; [apply P_attach; assumption|].
  specialize (Hrec parentPath m Hm).
  destruct (rec parentPath m) as [[[| |s]| |] m']; cbn [snd] in *; try exact Hrec.
  destruct (STATE_TREE m' !! parentPath) as [pl|] eqn:Hp'; [|exact Hrec].
  apply P_attach; assumption.
Qed.

Lemma preserved__addState fuel path m : P m -> P (snd (_addState fuel path m)).
Proof.
  revert path m. induction fuel as [|fuel IH]; intros path m Hm; [exact Hm|].
  rewrite _addState_S.
  destruct (exists_ m path); [exact Hm|].
  destruct (last_separator path) as [pos|]; [|exact Hm].
  apply preserved_addSubState_with; [exact IH | exact Hm].
Qed.

Lemma preserved_addState path m : P m -> P (snd (addState path m)).
Proof.
  intros Hm. unfold addState. destruct (isLive m); [exact Hm|].
  destruct (normalizePath path); try exact Hm. apply preserved__addState, Hm.
Qed.

Lemma preserved_addStates_loop arr m : P m -> P (snd (addStates_loop arr m)).
Proof.
  revert m. induction arr as [|path rest IH]; intros m Hm; [exact Hm|].
  cbn [addStates_loop].
  pose proof (preserved__addState (addState_fuel path) path m Hm) as H1.
  destruct (_addState (addState_fuel path) path m) as [[v| |] m1]; cbn [snd] in *; auto.
Qed.

Lemma preserved_addStates arr m : P m -> P (snd (addStates arr m)).
Proof.
  intros Hm. unfold addStates. destruct (isLive m); [exact Hm|].
  pose proof (preserved_addStates_loop arr _ (P_set_live false m Hm)) as H1.
  destruct (addStates_loop arr (set_live false m)) as [[v| |] m1]; exact H1.
Qed.

Lemma preserved_startEditing m : P m -> P (snd (startEditing m)).
Proof.
  intros Hm. unfold startEditing. destruct (negb (_live m)); [exact Hm|].
  apply P_set_live, Hm.
Qed.

Lemma preserved_finishEditing m : P m -> P (snd (finishEditing m)).
Proof.
  intros Hm. unfold finishEditing. destruct (_live m); [exact Hm|].
  apply P_set_live, Hm.
Qed.

Lemma preserved_interpretOp line m : P m -> P (snd (interpretOp line m)).
Proof.
  intros Hm. unfold interpretOp.
  repeat (case_match; cbn [snd]; try exact Hm;
          try (apply P_setCurrent, Hm); try (apply P_setData, Hm);
          try (apply preserved_addState, Hm)).
Qed.

Lemma preserved_interpret_map arr m : P m -> P (snd (interpret_map arr m)).
Proof.
  revert m. induction arr as [|op rest IH]; intros m Hm; [exact Hm|].
  cbn [interpret_map].
  pose proof (preserved_interpretOp (Some op) m Hm) as H1.
  destruct (interpretOp (Some op) m) as [[e| |] m1]; cbn [snd] in *; try exact H1.
  specialize (IH m1 H1).
  destruct (interpret_map rest m1) as [[errors| |] m2]; exact IH.
Qed.

Lemma preserved_interpret arr m : P m -> P (snd (interpret arr m)).
Proof.
  intros Hm. unfold interpret.
  pose proof (preserved_interpret_map arr m Hm) as H1.
  destruct (interpret_map arr m) as [[errors| |] m1]; exact H1.
Qed.

Lemma steps_preserved m0 : P m0 -> forall m, steps m0 m -> P m.
Proof.
  intros Hnew m Hm. induction Hm.
  - exact Hnew.
  - apply P_makeEmpty; assumption.
  - apply preserved_startEditing; assumption.
  - apply preserved_finishEditing; assumption.
  - apply preserved_addState; assumption.
  - apply preserved_addStates; assumption.
  - apply P_setCurrent; assumption.
  - apply P_setData; assumption.
  - apply preserved_interpretOp; assumption.
  - apply preserved_interpret; assumption.
Qed.

Lemma reachable_preserved : P new_Machine -> forall m, reachable m -> P m.
Proof. apply steps_preserved. Qed.

End Preservation.

(** ** C9: the index of the current child *)

Lemma curr_valid_new_state nm : curr_valid (new_state nm).
Proof. intros i Hi. discriminate. Qed.

Lemma curr_valid_deref m l : curr_invariant m -> curr_valid (deref m l).
Proof.
  intros Hm. unfold deref. destruct (objects m !! l) as [o|] eqn:Hl; cbn [default from_option id].
  - exact (Hm l o Hl).
  - apply curr_valid_new_state.
Qed.

Lemma curr_invariant_store l o m :
  curr_invariant m -> curr_valid o -> curr_invariant (store l o m).
Proof.
  intros Hm Ho l' o' H. apply lookup_store in H as [(_ & -> & _) | [_ H]]; [exact Ho | eauto].
Qed.

Lemma curr_invariant_set_new path o m :
  curr_invariant m -> curr_valid o -> curr_invariant (set_new path o m).
Proof.
  intros Hm Ho l' o' H. apply lookup_set_new in H as [H | [_ ->]]; [eauto | exact Ho].
Qed.

Lemma curr_invariant_set_live b m : curr_invariant m -> curr_invariant (set_live b m).
Proof. intros Hm. exact Hm. Qed.

Lemma curr_invariant_makeEmpty m : curr_invariant m -> curr_invariant (makeEmpty m).
Proof.
  intros Hm l o H. unfold makeEmpty in H. cbn [objects] in H.
  apply lookup_app_Some in H as [H | [_ H]]; [eauto|].
  destruct (l - length (objects m)) as [|[|k]]; try discriminate.
  injection H as <-. apply curr_valid_new_state.
Qed.

Lemma curr_valid_set_cc_default o :
  curr_valid o -> curr_valid (set_cc (default [] (cc o)) o).
Proof.
  intros Ho i Hi. cbn in Hi. destruct (Ho i Hi) as (names & Hcc & Hne & Hlt).
  exists names. cbn. rewrite Hcc. auto.
Qed.

Lemma curr_valid_push o nm :
  curr_valid o -> curr_valid (set_cc (default [] (cc o) ++ [nm]) o).
Proof.
  intros Ho i Hi. cbn in Hi. destruct (Ho i Hi) as (names & Hcc & Hne & Hlt).
  exists (names ++ [nm]). cbn. rewrite Hcc. cbn. repeat split.
  - intros Happ. apply app_eq_nil in Happ as [_ ?]. discriminate.
  - rewrite length_app. lia.
Qed.

Lemma curr_valid_push_first o nm :
  curr_valid (set_curr 0 (set_cc (default [] (cc o) ++ [nm]) o)).
Proof.
  intros i Hi. cbn in Hi. injection Hi as <-.
  exists (default [] (cc o) ++ [nm]). cbn. repeat split.
  - intros Happ. apply app_eq_nil in Happ as [_ ?]. discriminate.
  - rewrite length_app. cbn. lia.
Qed.

Lemma curr_invariant_attach parentPath separator nm pl m :
  curr_invariant m -> curr_invariant (snd (attach parentPath separator nm pl m)).
Proof.
  intros Hm. pose proof (curr_valid_deref m pl Hm) as Hp.
  pose proof (curr_valid_set_cc_default _ Hp) as Hp1.
  unfold attach.
  case_bool_decide; [exact Hm|].
  destruct (_ && _ && _); [apply curr_invariant_store; assumption|].
  destruct (_ && _); [apply curr_invariant_store; assumption|].
  cbn [snd]. apply curr_invariant_set_new; [|apply curr_valid_new_state].
  apply curr_invariant_store; [apply curr_invariant_store; assumption|].
  destruct (_ && _).
  - exact (curr_valid_push_first (deref m pl) nm).
  - exact (curr_valid_push _ nm Hp).
Qed.

Lemma curr_invariant_setCurrent path nm m :
  curr_invariant m -> curr_invariant (snd (setCurrent path nm m)).
Proof.
  intros Hm. unfold setCurrent.
  destruct (getState m path) as [l|]; [|exact Hm].
  destruct (curr (deref m l)); [|exact Hm].
  destruct (cc (deref m l)) as [names|] eqn:Hcc; [|exact Hm].
  destruct (findIndex nm names) as [i|] eqn:Hi; [|exact Hm].
  cbn [snd]. apply curr_invariant_store; [exact Hm|].
  intros j Hj. cbn in Hj. injection Hj as <-.
  exists names. cbn. apply findIndex_Some in Hi.
  pose proof (lookup_lt_Some _ _ _ Hi) as Hlt.
  repeat split; [exact Hcc | | exact Hlt].
  intros ->. cbn in Hlt. lia.
Qed.

Lemma curr_invariant_setData path v m :
  curr_invariant m -> curr_invariant (snd (setData path v m)).
Proof.
  intros Hm. unfold setData.
  destruct (negb (isLeaf m path)); [exact Hm|].
  destruct (isVariableLeaf m path) as [[|]| |]; try exact Hm.
  destruct (getState m path) as [l|]; [|exact Hm].
  cbn [snd]. apply curr_invariant_store; [exact Hm|].
  intros i Hi. exact (curr_valid_deref m l Hm i Hi).
Qed.

Lemma curr_invariant_new : curr_invariant new_Machine.
Proof.
  intros l o H. destruct l as [|l]; [|destruct l; discriminate].
  injection H as <-. apply curr_valid_new_state.
Qed.

(** C9.  In every machine reachable from a new machine, every node with
    a [curr] has a non-empty [cc] and [curr] is less than its length,
    so that [curr] indexes an existing child; and each operation
    preserves this, on every state object of the store. *)
Theorem curr_indexes_a_child :
  (forall m, reachable m ->
     forall path o i, node m path o -> curr o = Some i ->
       exists names nm, cc o = Some names /\ names <> [] /\
                        i < length names /\ names !! i = Some nm) /\
  (forall m, curr_invariant m ->
     curr_invariant (makeEmpty m) /\
     (forall path, curr_invariant (snd (addState path m))) /\
     (forall arr, curr_invariant (snd (addStates arr m))) /\
     (forall path nm, curr_invariant (snd (setCurrent path nm m))) /\
     (forall path v, curr_invariant (snd (setData path v m))) /\
     (forall line, curr_invariant (snd (interpretOp line m))) /\
     (forall arr, curr_invariant (snd (interpret arr m)))).
Proof.
  assert (Hpres : forall m, reachable m -> curr_invariant m).
  { apply (reachable_preserved curr_invariant);
      auto using curr_invariant_set_live, curr_invariant_makeEmpty, curr_invariant_attach,
                 curr_invariant_setCurrent, curr_invariant_setData, curr_invariant_new. }
  split.
  - intros m Hm path o i (l & _ & Hl) Hi.
    destruct (Hpres m Hm l o Hl i Hi) as (names & Hcc & Hne & Hlt).
    destruct (lookup_lt_is_Some_2 names i Hlt) as [nm Hnm].
    exists names, nm. auto.
  - intros m Hm.
    repeat split; intros;
      first [ apply curr_invariant_makeEmpty
            | apply (preserved_addState curr_invariant)
            | apply (preserved_addStates curr_invariant)
            | apply curr_invariant_setCurrent
            | apply curr_invariant_setData
            | apply (preserved_interpretOp curr_invariant)
            | apply (preserved_interpret curr_invariant) ];
      auto using curr_invariant_set_live, curr_invariant_makeEmpty, curr_invariant_attach,
                 curr_invariant_setCurrent, curr_invariant_setData.
Qed.

Lemma curr_indexes_a_child_witness :
  let m := snd (interpret [$"P .a/x"; $"P .a/y"; $"C .a y"] new_Machine) in
  (exists names nm, cc (deref m 1) = Some names /\ names <> [] /\
                    1 < length names /\ names !! 1 = Some nm) /\
  curr_invariant (snd (setCurrent $".a" $"x" m)).
Proof.
  intros m. destruct curr_indexes_a_child as [Hnode Hpres].
  assert (Hm : reachable m) by (apply steps_interpret, steps_refl).
  split.
  - apply (Hnode m Hm $".a" (deref m 1) 1); [|reflexivity].
    exists 1. split; reflexivity.
  - apply Hpres. apply (Hpres new_Machine curr_invariant_new).
Defined.

(** ** The store of a reachable machine *)

Lemma existsb_nonempty (p : ascii -> bool) (s : jsstring) : existsb p s = true -> s <> [].
Proof. destruct s; [discriminate | discriminate]. Qed.

Lemma store_store l o o' m : store l o' (store l o m) = store l o' m.
Proof.
  unfold store. cbn [objects STATE_TREE _live]. f_equal.
  destruct (decide (l < length (objects m))) as [Hl|Hl].
  - apply list_insert_insert_eq.
  - rewrite !list_insert_ge by (rewrite ?length_insert; lia). reflexivity.
Qed.

Section StoreAssign.

Variables (m : Machine) (l : loc) (o' : State).

Hypothesis Hok : store_ok m.
Hypothesis Hparent : parent o' = parent (deref m l).
Hypothesis Hcurr : curr_valid o'.
Hypothesis Hcc : forall names, cc o' = Some names ->
  names <> [] /\ data o' = None /\ Forall (fun nm => nm <> []) names.
Hypothesis Hcc_kept : is_Some (cc (deref m l)) -> is_Some (cc o').
Hypothesis Hcurr_new :
  is_Some (curr o') -> is_Some (curr (deref m l)) \/ cc (deref m l) = None.
Hypothesis Hdata : forall v pl, data o' = Some v -> parent o' = Some pl ->
  curr (deref m pl) = None.

(** An assignment to members of the object at [l] that keeps [parent],
    keeps the object a parent if it is one, and gives it a [curr] only
    if it had one or had no children. *)
Lemma store_ok_store : store_ok (store l o' m).
Proof.
  destruct Hok as [Hobj Htree Hroot Hnonroot].
  assert (Hother : forall l', l' <> l -> deref (store l o' m) l' = deref m l')
    by (intros; apply deref_store_ne; auto).
  split.
  - intros l' o H. apply lookup_store in H as [(-> & -> & Hl) | [Hne H]].
    + destruct (lookup_lt_is_Some_2 _ _ Hl) as [p Hp].
      pose proof (deref_lookup _ _ _ Hp) as Hd. rewrite Hd in *.
      destruct (Hobj l p Hp) as [_ _ Hpar _].
      split; [exact Hcurr | exact Hcc | |].
      * intros pl Hpl. rewrite Hparent in Hpl.
        destruct (Hpar pl Hpl) as (Hlt & po & names & Hpo & Hn & Hne).
        split; [exact Hlt|]. exists po, names. repeat split; auto.
        unfold store. cbn [objects]. rewrite list_lookup_insert_ne by lia. exact Hpo.
      * intros v pl Hv Hpl. pose proof Hpl as Hpl'. rewrite Hparent in Hpl'.
        destruct (Hpar pl Hpl') as (Hlt & _).
        rewrite Hother by lia. eauto.
    + destruct (Hobj l' o H) as [Hc Hcs Hpar Hdat].
      split; [exact Hc | exact Hcs | |].
      * intros pl Hpl. destruct (Hpar pl Hpl) as (Hlt & po & names & Hpo & Hn & Hnn).
        split; [exact Hlt|].
        destruct (decide (pl = l)) as [->|Hpl'].
        -- pose proof (deref_lookup _ _ _ Hpo) as Hd.
           destruct Hcc_kept as [names' Hn']; [rewrite Hd, Hn; eauto|].
           exists o', names'. repeat split; [|exact Hn'|apply (Hcc _ Hn')].
           unfold store. cbn [objects]. apply list_lookup_insert_eq.
           apply lookup_lt_Some in Hpo. exact Hpo.
        -- exists po, names. repeat split; auto.
           unfold store. cbn [objects]. rewrite list_lookup_insert_ne by auto. exact Hpo.
      * intros v pl Hv Hpl. specialize (Hdat v pl Hv Hpl).
        destruct (decide (pl = l)) as [->|Hpl']; [|rewrite Hother by auto; exact Hdat].
        destruct (Hpar l Hpl) as (Hlt & po & names & Hpo & Hn & Hnn).
        rewrite deref_store_eq by (apply lookup_lt_Some in Hpo; exact Hpo).
        pose proof (deref_lookup _ _ _ Hpo) as Hd.
        destruct (curr o') as [i|] eqn:Hi; [|reflexivity].
        destruct Hcurr_new as [[j Hj] | Hnone]; [eauto | | ]; rewrite Hd in *; congruence.
  - intros k l' H. unfold store. cbn [objects STATE_TREE] in *.
    rewrite length_insert. eauto.
  - destruct Hroot as (r & Hr & Hpr). exists r. split; [exact Hr|].
    destruct (decide (r = l)) as [->|Hne]; [|rewrite Hother by auto; exact Hpr].
    destruct (decide (l < length (objects m))) as [Hl|Hl].
    + rewrite deref_store_eq by exact Hl. congruence.
    + unfold deref, store in *. cbn [objects].
      rewrite list_insert_ge by lia. exact Hpr.
  - intros k l' H Hk. specialize (Hnonroot k l' H Hk).
    destruct (decide (l' = l)) as [->|Hne]; [|rewrite Hother by auto; exact Hnonroot].
    destruct (decide (l < length (objects m))) as [Hl|Hl].
    + rewrite deref_store_eq by exact Hl. rewrite Hparent. exact Hnonroot.
    + unfold deref, store in *. cbn [objects].
      rewrite list_insert_ge by lia. exact Hnonroot.
Qed.

End StoreAssign.

Lemma object_ok_grow m m' l o :
  (forall l' x, objects m !! l' = Some x -> objects m' !! l' = Some x) ->
  object_ok m l o -> object_ok m' l o.
Proof.
  intros Hgrow [Hc Hcs Hpar Hdat]. split; [exact Hc | exact Hcs | |].
  - intros pl Hpl. destruct (Hpar pl Hpl) as (Hlt & po & names & Hpo & Hn & Hne).
    split; [exact Hlt|]. exists po, names. auto.
  - intros v pl Hv Hpl. destruct (Hpar pl Hpl) as (_ & po & names & Hpo & _).
    specialize (Hdat v pl Hv Hpl).
    rewrite (deref_lookup _ _ _ Hpo) in Hdat.
    rewrite (deref_lookup _ _ _ (Hgrow _ _ Hpo)). exact Hdat.
Qed.

Lemma object_ok_new_state m l nm : object_ok m l (new_state nm).
Proof. split; first [discriminate | apply curr_valid_new_state]. Qed.

Lemma store_ok_new : store_ok new_Machine.
Proof.
  split.
  - intros l o H. destruct l as [|[|l]]; try discriminate.
    injection H as <-. apply object_ok_new_state.
  - intros k l H. unfold new_Machine in H. cbn [STATE_TREE] in H.
    apply lookup_singleton_Some in H as [_ <-]. cbn. lia.
  - exists 0. split; reflexivity.
  - intros k l H Hk. unfold new_Machine in H. cbn [STATE_TREE] in H.
    apply lookup_singleton_Some in H as [<- _]. congruence.
Qed.

Lemma store_ok_set_live b m : store_ok m -> store_ok (set_live b m).
Proof.
  intros [H1 H2 H3 H4]. split; try assumption.
  intros l o H. apply (object_ok_grow m); [auto | apply H1, H].
Qed.

Lemma store_ok_makeEmpty m : store_ok m -> store_ok (makeEmpty m).
Proof.
  intros [Hobj Htree Hroot Hnonroot].
  assert (Hgrow : forall l' x, objects m !! l' = Some x ->
                               objects (makeEmpty m) !! l' = Some x).
  { intros l' x H. unfold makeEmpty. cbn [objects]. apply lookup_app_l_Some. exact H. }
  split.
  - intros l o H. unfold makeEmpty in H. cbn [objects] in H.
    apply lookup_app_Some in H as [H | [_ H]].
    + apply (object_ok_grow m); [exact Hgrow | auto].
    + destruct (l - length (objects m)) as [|[|k]]; try discriminate.
      injection H as <-. apply object_ok_new_state.
  - intros k l H. unfold makeEmpty in *. cbn [objects STATE_TREE] in *.
    apply lookup_singleton_Some in H as [_ <-]. rewrite length_app. cbn. lia.
  - exists (length (objects m)). split; [apply lookup_singleton_eq|].
    rewrite deref_makeEmpty. reflexivity.
  - intros k l H Hk. unfold makeEmpty in H. cbn [STATE_TREE] in H.
    apply lookup_singleton_Some in H as [<- _]. congruence.
Qed.

(** A new state object under the parent at [pl], set in the map. *)
Lemma store_ok_set_new m path pl nm po names :
  store_ok m -> path <> [] ->
  objects m !! pl = Some po -> cc po = Some names -> names <> [] ->
  store_ok (set_new path (set_parent pl (new_state nm)) m).
Proof.
  intros [Hobj Htree Hroot Hnonroot] Hpath Hpo Hn Hne.
  set (o := set_parent pl (new_state nm)).
  assert (Hgrow : forall l' x, objects m !! l' = Some x ->
                               objects (set_new path o m) !! l' = Some x).
  { intros l' x H. unfold set_new. cbn [objects]. apply lookup_app_l_Some. exact H. }
  pose proof (lookup_lt_Some _ _ _ Hpo) as Hpl.
  split.
  - intros l x H. apply lookup_set_new in H as [H | [-> ->]].
    + apply (object_ok_grow m); [exact Hgrow | auto].
    + split; try discriminate.
      intros pl' [= <-]. split; [exact Hpl|]. exists po, names. auto.
  - intros k l H. unfold set_new in *. cbn [objects STATE_TREE] in *.
    rewrite length_app. cbn.
    apply lookup_insert_Some in H as [[_ <-] | [_ H]]; [lia|].
    apply Htree in H. lia.
  - destruct Hroot as (r & Hr & Hpr). exists r. split.
    + unfold set_new. cbn [STATE_TREE]. rewrite lookup_insert_ne by congruence. exact Hr.
    + rewrite deref_set_new_old by eauto. exact Hpr.
  - intros k l H Hk. unfold set_new in H. cbn [STATE_TREE] in H.
    apply lookup_insert_Some in H as [[_ <-] | [_ H]].
    + rewrite deref_set_new_new. eexists. reflexivity.
    + rewrite deref_set_new_old by eauto. eauto.
Qed.

Lemma object_ok_deref m l : store_ok m -> l < length (objects m) -> object_ok m l (deref m l).
Proof.
  intros Hok Hl. destruct (lookup_lt_is_Some_2 _ _ Hl) as [p Hp].
  rewrite (deref_lookup _ _ _ Hp). apply Hok. exact Hp.
Qed.

(** What [attach] does to a machine whose store is in order: under a
    parent with children an error leaves the machine as it is. *)
Lemma attach_error_unchanged parentPath separator nm pl m e :
  store_ok m -> pl < length (objects m) ->
  attach parentPath separator nm pl m = (Normal (str e), snd (attach parentPath separator nm pl m)) ->
  snd (attach parentPath separator nm pl m) = m.
Proof.
  intros Hok Hpl. destruct (object_ok_deref m pl Hok Hpl) as [Hc Hcs _ _].
  unfold attach. cbv zeta.
  case_bool_decide; [reflexivity|].
  destruct (cc (deref m pl)) as [names|] eqn:Hn; cbn [default from_option id].
  - rewrite (set_cc_same _ _ Hn), store_same.
    repeat case_match; cbn [snd]; try reflexivity; discriminate.
  - cbn [length Nat.ltb Nat.leb andb set_cc curr].
    rewrite andb_false_r. cbn [andb].
    case_bool_decide as Hcur; cbn [andb].
    + destruct Hcur as [i Hi]. destruct (Hc i Hi) as (? & ? & _). congruence.
    + discriminate.
Qed.

Lemma store_ok_attach parentPath separator nm pl m :
  store_ok m -> STATE_TREE m !! parentPath = Some pl -> Pat.NAMEPAT nm = true ->
  store_ok (snd (attach parentPath separator nm pl m)).
Proof.
  intros Hok Htree Hname.
  pose proof (ok_tree m Hok _ _ Htree) as Hpl.
  pose proof (object_ok_deref m pl Hok Hpl) as [Hc Hcs Hpar Hdat].
  pose proof (existsb_nonempty _ _ Hname) as Hnm.
  destruct (attach parentPath separator nm pl m) as [r m'] eqn:Hatt.
  destruct r as [[| |e]| |].
  2,4,5: exfalso; pose proof (attach_result parentPath separator nm pl m) as (H1 & H2 & H3);
         rewrite Hatt in H1, H2, H3; cbn in H1, H2, H3; congruence.
  2:{ cbn [snd]. replace m' with (snd (attach parentPath separator nm pl m))
        by (rewrite Hatt; reflexivity).
      rewrite (attach_error_unchanged _ _ _ _ _ e Hok Hpl); [exact Hok|].
      rewrite Hatt. reflexivity. }
  cbn [snd]. revert Hatt. unfold attach. cbv zeta.
  case_bool_decide as Hd; [intros [=]|].
  destruct (_ && _ && _) eqn:E1; [intros [=]|].
  destruct (bool_decide (is_Some _) && _) eqn:E2; [intros [=]|].
  intros [= <-]. rewrite store_store.
  set (children := default [] (cc (deref m pl))) in *.
  set (p3 := if _ && _ then _ else _).
  assert (Hcc3 : cc p3 = Some (children ++ [nm])) by (subst p3; case_match; reflexivity).
  assert (Hdat3 : data p3 = data (deref m pl)) by (subst p3; case_match; reflexivity).
  assert (Hpar3 : parent p3 = parent (deref m pl)) by (subst p3; case_match; reflexivity).
  assert (Hnodata : data (deref m pl) = None).
  { destruct (data (deref m pl)); [exfalso; apply Hd; eauto | reflexivity]. }
  assert (Hne : children ++ [nm] <> []).
  { intros Happ. apply app_eq_nil in Happ as [_ ?]. discriminate. }
  assert (Hok3 : store_ok (store pl p3 m)).
  { apply store_ok_store; [exact Hok | exact Hpar3 | | | | | ].
    - subst p3. case_match.
      + exact (curr_valid_push_first (deref m pl) nm).
      + exact (curr_valid_push _ nm Hc).
    - intros names Hn. rewrite Hcc3 in Hn. injection Hn as <-.
      split; [exact Hne|]. split; [congruence|].
      apply Forall_app. split; [|constructor; auto].
      subst children. destruct (cc (deref m pl)) as [names|] eqn:Hn; [|constructor].
      apply (Hcs names eq_refl).
    - intros _. rewrite Hcc3. eauto.
    - intros [i Hi]. subst p3.
      destruct (eqb separator $"/" && _) eqn:E3; [|left; cbn in Hi; eauto].
      right. apply andb_true_iff in E3 as [Hsep Hnone].
      apply bool_decide_eq_true in Hnone. cbn in Hnone.
      destruct (cc (deref m pl)) as [names|] eqn:Hn; [|reflexivity].
      exfalso. destruct (Hcs names eq_refl) as (Hnn & _).
      cbn [set_cc curr] in E1. rewrite Hnone in E1.
      subst children. cbn [default from_option id] in E1.
      rewrite bool_decide_eq_true_2 in E1 by reflexivity.
      assert (Hlen : (0 <? length names) = true)
        by (apply Nat.ltb_lt; destruct names; [congruence | cbn; lia]).
      rewrite Hlen in E1. cbn [andb] in E1.
      unfold eqb in *. apply bool_decide_eq_true in Hsep. subst separator.
      discriminate.
    - intros v pl' Hv. congruence. }
  apply (store_ok_set_new _ _ pl nm p3 (children ++ [nm])); auto.
  - intros Happ. apply app_eq_nil in Happ as [_ Happ].
    apply app_eq_nil in Happ as [_ ?]. contradiction.
  - unfold store. cbn [objects]. apply list_lookup_insert_eq. exact Hpl.
Qed.

Lemma store_ok_setCurrent path nm m :
  store_ok m -> store_ok (snd (setCurrent path nm m)).
Proof.
  intros Hok. unfold setCurrent.
  destruct (getState m path) as [l|] eqn:Hl; [|exact Hok].
  destruct (curr (deref m l)) as [j|] eqn:Hj; [|exact Hok].
  destruct (cc (deref m l)) as [names|] eqn:Hcc; [|exact Hok].
  destruct (findIndex nm names) as [i|] eqn:Hi; [|exact Hok].
  cbn [snd].
  assert (Hlv : l < length (objects m)).
  { unfold getState in Hl. destruct (normalizePath (Some path)); try discriminate.
    eapply ok_tree; eauto. }
  destruct (object_ok_deref m l Hok Hlv) as [Hc Hcs Hpar Hdat].
  apply findIndex_Some in Hi. pose proof (lookup_lt_Some _ _ _ Hi) as Hlt.
  apply store_ok_store; [exact Hok | reflexivity | | exact Hcs | auto | | exact Hdat].
  - intros k Hk. cbn in Hk. injection Hk as <-. exists names. cbn.
    repeat split; auto. intros ->. cbn in Hlt. lia.
  - intros [k Hk]. left. eauto.
Qed.

Lemma store_ok_setData path v m :
  store_ok m -> store_ok (snd (setData path v m)).
Proof.
  intros Hok. unfold setData.
  destruct (isLeaf m path) eqn:Hleaf; cbn [negb]; [|exact Hok].
  destruct (isVariableLeaf m path) as [[|]| |] eqn:Hvar; try exact Hok.
  destruct (getState m path) as [l|] eqn:Hl; [|exact Hok].
  cbn [snd].
  unfold isLeaf in Hleaf. rewrite Hl in Hleaf. apply bool_decide_eq_true in Hleaf.
  assert (Hlv : l < length (objects m)).
  { unfold getState in Hl. destruct (normalizePath (Some path)); try discriminate.
    eapply ok_tree; eauto. }
  destruct (object_ok_deref m l Hok Hlv) as [Hc Hcs Hpar Hdat].
  apply store_ok_store; [exact Hok | reflexivity | exact Hc | | | auto | ].
  - cbn. rewrite Hleaf. discriminate.
  - cbn. rewrite Hleaf. intros [? ?]. discriminate.
  - cbn. intros u pl _ Hpl.
    unfold isVariableLeaf in Hvar. rewrite Hl in Hvar.
    destruct (truthy path) eqn:Htr; cbn [negb] in Hvar.
    + rewrite Hleaf in Hvar. rewrite bool_decide_eq_false_2 in Hvar by (intros [? ?]; discriminate).
      rewrite Hpl in Hvar. injection Hvar as Hvar.
      apply bool_decide_eq_false in Hvar.
      destruct (curr (deref m pl)); [exfalso; apply Hvar; eauto | reflexivity].
    + destruct path; [|discriminate].
      destruct (ok_root m Hok) as (r & Hr & Hpr).
      unfold getState in Hl. change (normalizePath (Some [])) with (str []) in Hl.
      congruence.
Qed.

Lemma reachable_store_ok m : reachable m -> store_ok m.
Proof.
  apply (reachable_preserved store_ok);
    auto using store_ok_set_live, store_ok_makeEmpty, store_ok_attach,
               store_ok_setCurrent, store_ok_setData, store_ok_new.
Qed.

(** ** C7: where data lives *)

Lemma getState_root m : getState m [] = STATE_TREE m !! [].
Proof. reflexivity. Qed.

(** C7, as amended.  In every reachable machine a node with data is a
    leaf whose parent is not a variable parent: it is the root, which
    has no parent, while it has no children, or it is a child of a
    concurrent parent.  [setData] fails on every node that is not a
    leaf, and on every leaf whose parent is a variable parent. *)
Theorem data_lives_on_leaves :
  (forall m, reachable m ->
     forall path o v, node m path o -> data o = Some v ->
       cc o = None /\
       ((path = [] /\ parent o = None) \/
        (path <> [] /\ exists pl po names,
           parent o = Some pl /\ objects m !! pl = Some po /\
           curr po = None /\ cc po = Some names /\ names <> []))) /\
  (forall m path v, isLeaf m path = false ->
     setData path v m = (Normal (str ($"setData: " ++ path ++ $" is not a leaf")), m)) /\
  (forall m path v l pl,
     getState m path = Some l -> path <> [] -> cc (deref m l) = None ->
     parent (deref m l) = Some pl -> is_Some (curr (deref m pl)) ->
     setData path v m =
       (Normal (str ($"setData: " ++ path ++ $" is a variable leaf")), m)).
Proof.
  split; [|split].
  - intros m Hm path o v (l & Hl & Ho) Hv.
    pose proof (reachable_store_ok m Hm) as Hok.
    destruct (ok_objects m Hok l o Ho) as [_ Hcs Hpar Hdat].
    pose proof (deref_lookup _ _ _ Ho) as Hd.
    split.
    { destruct (cc o) as [names|] eqn:Hn; [|reflexivity].
      destruct (Hcs names eq_refl) as (_ & Hnone & _). congruence. }
    destruct path as [|c path].
    + left. split; [reflexivity|].
      destruct (ok_root m Hok) as (r & Hr & Hpr). congruence.
    + right. split; [discriminate|].
      destruct (ok_nonroot m Hok _ _ Hl) as [pl Hpl]; [discriminate|].
      rewrite Hd in Hpl.
      destruct (Hpar pl Hpl) as (_ & po & names & Hpo & Hn & Hne).
      exists pl, po, names. repeat split; auto.
      rewrite <- (deref_lookup _ _ _ Hpo). eauto.
  - intros m path v Hleaf. unfold setData. rewrite Hleaf. reflexivity.
  - intros m path v l pl Hl Hpath Hcc Hpl Hcurr. unfold setData, isLeaf, isVariableLeaf.
    rewrite Hl, Hcc, Hpl.
    rewrite bool_decide_eq_true_2 by reflexivity. cbn [negb].
    destruct path as [|c path]; [congruence|]. cbn [truthy negb].
    rewrite bool_decide_eq_false_2 by (intros [? ?]; discriminate).
    rewrite bool_decide_eq_true_2 by exact Hcurr. reflexivity.
Qed.

Lemma data_lives_on_leaves_witness :
  let m := snd (interpret [$"P .a/x"; $"P .z"; $"D .z zebra"] new_Machine) in
  cc (deref m 3) = None /\
  setData $".a" $"v" m = (Normal (str $"setData: .a is not a leaf"), m) /\
  setData $".a/x" $"v" m = (Normal (str $"setData: .a/x is a variable leaf"), m).
Proof.
  intros m. destruct data_lives_on_leaves as (Hnode & Hnot_leaf & Hvariable).
  assert (Hm : reachable m) by (apply steps_interpret, steps_refl).
  split; [|split].
  - apply (Hnode m Hm $".z" (deref m 3) $"zebra"); [|reflexivity].
    exists 3. split; reflexivity.
  - apply Hnot_leaf. reflexivity.
  - apply (Hvariable m $".a/x" $"v" 2 1); try reflexivity; [discriminate|].
    exists 0. reflexivity.
Defined.

(** C7 as stated fails: the root of a new machine takes data. *)
Lemma data_on_root_counterexample :
  let m := snd (setData [] $"x" new_Machine) in
  reachable m /\
  exists o, node m [] o /\ data o = Some $"x" /\ parent o = None.
Proof.
  intros m. split; [apply steps_setData, steps_refl|].
  exists (deref m 0). split; [|split; reflexivity].
  exists 0. split; reflexivity.
Qed.

(** ** C6: the kind of a parent is fixed by its first child *)

Lemma SEPPAT_separator sep : is_separator sep -> Pat.SEPPAT sep = true.
Proof. intros [-> | ->]; reflexivity. Qed.

Lemma exists__normal m path :
  normalizePath (Some path) = str path ->
  exists_ m path = bool_decide (is_Some (STATE_TREE m !! path)).
Proof. intros H. unfold exists_. rewrite H. reflexivity. Qed.

(** Adding a new child under an existing parent comes down to
    [attach]. *)
Lemma addState_child s m parentPath sep nm pl :
  isLive m = false ->
  normalizePath s = str (child_path parentPath sep nm) ->
  is_separator sep -> Pat.NAMEPAT nm = true -> plain_name nm ->
  STATE_TREE m !! parentPath = Some pl ->
  STATE_TREE m !! child_path parentPath sep nm = None ->
  addState s m = attach parentPath sep nm pl m.
Proof.
  intros Hlive Hnorm Hsep Hname Hplain Hp Hnew.
  unfold addState, addState_fuel. rewrite Hlive, Hnorm, _addState_S.
  rewrite exists__normal by (eapply normalizePath_idemp; exact Hnorm).
  rewrite Hnew. rewrite bool_decide_eq_false_2 by (intros [? ?]; discriminate).
  rewrite (last_separator_child _ _ _ Hsep Hplain).
  destruct (slice_child parentPath sep nm Hsep) as (-> & -> & ->).
  unfold _addSubState_with. rewrite Hname, (SEPPAT_separator _ Hsep), Hp. reflexivity.
Qed.

Lemma concurrent_parent_valid m l : concurrent_parent m l -> l < length (objects m).
Proof.
  intros [(names & Hn & _) _]. unfold deref in Hn.
  destruct (objects m !! l) eqn:E; [apply lookup_lt_Some in E; exact E | discriminate].
Qed.

Lemma variable_parent_valid m l : variable_parent m l -> l < length (objects m).
Proof.
  intros [i Hi]. unfold deref in Hi.
  destruct (objects m !! l) eqn:E; [apply lookup_lt_Some in E; exact E | discriminate].
Qed.

Lemma deref_makeEmpty_old m l : l < length (objects m) -> deref (makeEmpty m) l = deref m l.
Proof.
  intros Hl. unfold deref, makeEmpty. cbn [objects]. rewrite lookup_app_l by exact Hl.
  reflexivity.
Qed.

(** The object at [l] after [attach] under the parent at [pl]. *)
Lemma attach_deref parentPath separator nm pl m l :
  l < length (objects m) ->
  let o := deref m l in
  let o' := deref (snd (attach parentPath separator nm pl m)) l in
  (l <> pl -> o' = o) /\
  (curr o' = curr o \/
   (curr o = None /\ curr o' = Some 0 /\ separator = $"/" /\ default [] (cc o) = [])) /\
  (cc o' = cc o \/ cc o' = Some (default [] (cc o)) \/
   (cc o' = Some (default [] (cc o) ++ [nm]) /\
    (curr o = None -> default [] (cc o) <> [] -> separator = $"."))).
Proof.
  intros Hl. cbv zeta. unfold attach. cbv zeta.
  case_bool_decide as Hd; [cbn [snd]; auto|].
  destruct (_ && _ && _) eqn:E1; cbn [snd].
  { destruct (decide (l = pl)) as [->|Hne].
    - rewrite deref_store_eq by exact Hl. cbn.
      split; [congruence|]. split; [left; reflexivity | right; left; reflexivity].
    - rewrite deref_store_ne by auto. auto. }
  destruct (bool_decide (is_Some _) && _) eqn:E2; cbn [snd].
  { destruct (decide (l = pl)) as [->|Hne].
    - rewrite deref_store_eq by exact Hl. cbn.
      split; [congruence|]. split; [left; reflexivity | right; left; reflexivity].
    - rewrite deref_store_ne by auto. auto. }
  rewrite store_store.
  rewrite deref_set_new_old by (unfold store; cbn [objects]; rewrite length_insert; exact Hl).
  destruct (decide (l = pl)) as [->|Hne]; [|rewrite deref_store_ne by auto; auto].
  rewrite deref_store_eq by exact Hl.
  split; [congruence|].
  destruct (eqb separator $"/" && _) eqn:E3.
  - apply andb_true_iff in E3 as [Hsep Hnone].
    unfold eqb in Hsep. apply bool_decide_eq_true in Hsep, Hnone. subst separator.
    cbn in Hnone. cbn [set_cc set_curr curr cc] in *. rewrite Hnone in *.
    rewrite bool_decide_eq_true_2 in E1 by reflexivity. cbn [andb negb] in E1.
    change (eqb $"/" $".") with false in E1. cbn [negb] in E1.
    rewrite andb_true_r in E1. apply Nat.ltb_ge in E1.
    split.
    + right. repeat split; auto.
      destruct (default [] (cc (deref m pl))); [reflexivity | cbn in E1; lia].
    + right. right. split; [reflexivity|]. intros _ Hne'.
      destruct (default [] (cc (deref m pl))); [congruence | cbn in E1; lia].
  - cbn [set_cc set_curr curr cc] in *. split; [left; reflexivity|].
    right. right. split; [reflexivity|]. intros Hnone Hne'.
    rewrite Hnone in E1. rewrite bool_decide_eq_true_2 in E1 by reflexivity.
    cbn [andb] in E1.
    assert (Hlen : (0 <? length (default [] (cc (deref m pl)))) = true).
    { apply Nat.ltb_lt. destruct (default [] (cc (deref m pl))); [congruence | cbn; lia]. }
    rewrite Hlen in E1. cbn [andb] in E1. apply negb_false_iff in E1.
    unfold eqb in E1. apply bool_decide_eq_true in E1. exact E1.
Qed.

Lemma attach_objects_length parentPath separator nm pl m :
  length (objects m) <= length (objects (snd (attach parentPath separator nm pl m))).
Proof.
  unfold attach. cbv zeta. repeat case_match; cbn [snd]; unfold set_new, store;
    cbn [objects]; rewrite ?length_app, ?length_insert; lia.
Qed.

Lemma concurrent_parent_attach parentPath separator nm pl m l :
  concurrent_parent m l ->
  concurrent_parent (snd (attach parentPath separator nm pl m)) l.
Proof.
  intros Hc. pose proof (concurrent_parent_valid _ _ Hc) as Hl.
  destruct Hc as [(names & Hn & Hne) Hcur].
  destruct (attach_deref parentPath separator nm pl m l Hl) as (_ & Hcurr & Hcc).
  rewrite Hn, Hcur in *. cbn [default from_option id] in *. split.
  - destruct Hcc as [-> | [-> | [-> _]]]; eauto.
    eexists. split; [reflexivity|]. intros H. apply app_eq_nil in H as [? _]. auto.
  - destruct Hcurr as [-> | (_ & _ & _ & ?)]; [reflexivity | contradiction].
Qed.

Lemma variable_parent_attach parentPath separator nm pl m l :
  variable_parent m l ->
  variable_parent (snd (attach parentPath separator nm pl m)) l.
Proof.
  intros Hv. pose proof (variable_parent_valid _ _ Hv) as Hl.
  destruct Hv as [i Hi]. unfold variable_parent.
  destruct (attach_deref parentPath separator nm pl m l Hl) as (_ & Hcurr & _).
  destruct Hcurr as [-> | (Hnone & _)]; [eauto | congruence].
Qed.

Lemma setCurrent_deref path nm m l :
  let o := deref m l in
  let o' := deref (snd (setCurrent path nm m)) l in
  cc o' = cc o /\ (curr o' = curr o \/ (is_Some (curr o) /\ is_Some (curr o'))).
Proof.
  cbv zeta. unfold setCurrent.
  destruct (getState m path) as [l'|]; [|auto].
  destruct (curr (deref m l')) as [j|] eqn:Hj; [|auto].
  destruct (cc (deref m l')) as [names|]; [|auto].
  destruct (findIndex nm names) as [i|]; [|auto].
  cbn [snd]. destruct (decide (l' = l)) as [->|Hne]; [|rewrite deref_store_ne by auto; auto].
  destruct (decide (l < length (objects m))) as [Hl|Hl].
  - rewrite deref_store_eq by exact Hl. cbn. split; [reflexivity|]. right. rewrite Hj. eauto.
  - unfold deref, store. cbn [objects]. rewrite list_insert_ge by lia. auto.
Qed.

Lemma setData_deref path v m l :
  let o := deref m l in
  let o' := deref (snd (setData path v m)) l in
  cc o' = cc o /\ curr o' = curr o.
Proof.
  cbv zeta. unfold setData.
  destruct (negb (isLeaf m path)); [auto|].
  destruct (isVariableLeaf m path) as [[|]| |]; auto.
  destruct (getState m path) as [l'|]; [|auto].
  cbn [snd]. destruct (decide (l' = l)) as [->|Hne]; [|rewrite deref_store_ne by auto; auto].
  destruct (decide (l < length (objects m))) as [Hl|Hl].
  - rewrite deref_store_eq by exact Hl. cbn. auto.
  - unfold deref, store. cbn [objects]. rewrite list_insert_ge by lia. auto.
Qed.

(** The kind of a parent object is permanent. *)
Lemma concurrent_parent_steps m1 m2 l :
  steps m1 m2 -> concurrent_parent m1 l -> concurrent_parent m2 l.
Proof.
  intros Hsteps Hc. revert m2 Hsteps.
  apply (steps_preserved (fun m => concurrent_parent m l)); auto.
  - intros m Hm. pose proof (concurrent_parent_valid _ _ Hm) as Hl.
    unfold concurrent_parent. rewrite deref_makeEmpty_old by exact Hl. exact Hm.
  - intros. apply concurrent_parent_attach. assumption.
  - intros path nm m [Hcc Hcur]. unfold concurrent_parent.
    destruct (setCurrent_deref path nm m l) as (-> & [-> | [[i Hi] _]]); [auto | congruence].
  - intros path v m Hm. unfold concurrent_parent.
    destruct (setData_deref path v m l) as (-> & ->). exact Hm.
Qed.

Lemma variable_parent_steps m1 m2 l :
  steps m1 m2 -> variable_parent m1 l -> variable_parent m2 l.
Proof.
  intros Hsteps Hv. revert m2 Hsteps.
  apply (steps_preserved (fun m => variable_parent m l)); auto.
  - intros m Hm. pose proof (variable_parent_valid _ _ Hm) as Hl.
    unfold variable_parent. rewrite deref_makeEmpty_old by exact Hl. exact Hm.
  - intros. apply variable_parent_attach. assumption.
  - intros path nm m Hm. unfold variable_parent.
    destruct (setCurrent_deref path nm m l) as (_ & [-> | [_ H]]); auto.
  - intros path v m Hm. unfold variable_parent.
    destruct (setData_deref path v m l) as (_ & ->). exact Hm.
Qed.

Lemma steps_trans m0 m1 m2 : steps m0 m1 -> steps m1 m2 -> steps m0 m2.
Proof. intros H01 H12. induction H12; try (constructor; assumption). exact H01. Qed.

Lemma attach_first_child parentPath sep nm pl m :
  store_ok m -> pl < length (objects m) ->
  cc (deref m pl) = None -> data (deref m pl) = None -> is_separator sep ->
  fst (attach parentPath sep nm pl m) = Normal null /\
  cc (deref (snd (attach parentPath sep nm pl m)) pl) = Some [nm] /\
  curr (deref (snd (attach parentPath sep nm pl m)) pl) =
    if eqb sep $"/" then Some 0 else None.
Proof.
  intros Hok Hpl Hcc Hdata Hsep.
  destruct (object_ok_deref m pl Hok Hpl) as [Hc _ _ _].
  assert (Hcurr : curr (deref m pl) = None).
  { destruct (curr (deref m pl)) as [i|] eqn:Hi; [|reflexivity].
    destruct (Hc i Hi) as (? & ? & _). congruence. }
  unfold attach. cbv zeta. rewrite Hdata, Hcc. cbn [default from_option id].
  rewrite bool_decide_eq_false_2 by (intros [? ?]; discriminate).
  cbn [set_cc curr cc length Nat.ltb Nat.leb]. rewrite Hcurr.
  rewrite andb_false_r. cbn [andb].
  rewrite (bool_decide_eq_false_2 (is_Some None)) by (intros [? ?]; discriminate).
  cbn [andb fst snd]. rewrite store_store.
  rewrite deref_set_new_old by (unfold store; cbn [objects]; rewrite length_insert; exact Hpl).
  rewrite deref_store_eq by exact Hpl.
  rewrite bool_decide_eq_true_2 by reflexivity. rewrite andb_true_r.
  destruct (eqb sep $"/"); cbn; auto.
Qed.

Lemma attach_concurrent_rejects parentPath nm pl m :
  store_ok m -> concurrent_parent m pl ->
  attach parentPath $"/" nm pl m =
    (Normal (str $"concurrent parent cannot add variable child"), m).
Proof.
  intros Hok Hc. pose proof (concurrent_parent_valid _ _ Hc) as Hpl.
  destruct Hc as [(names & Hn & Hne) Hcur].
  destruct (object_ok_deref m pl Hok Hpl) as [_ Hcs _ _].
  destruct (Hcs names Hn) as (_ & Hdata & _).
  unfold attach. cbv zeta. rewrite Hdata, Hn. cbn [default from_option id].
  rewrite bool_decide_eq_false_2 by (intros [? ?]; discriminate).
  rewrite (set_cc_same _ _ Hn), store_same, Hcur.
  rewrite bool_decide_eq_true_2 by reflexivity.
  assert (Hlen : (0 <? length names) = true)
    by (apply Nat.ltb_lt; destruct names; [congruence | cbn; lia]).
  rewrite Hlen. reflexivity.
Qed.

Lemma attach_variable_rejects parentPath nm pl m :
  store_ok m -> variable_parent m pl ->
  attach parentPath $"." nm pl m =
    (Normal (str $"variable parent cannot add concurrent child"), m).
Proof.
  intros Hok Hv. pose proof (variable_parent_valid _ _ Hv) as Hpl.
  destruct Hv as [i Hi].
  destruct (object_ok_deref m pl Hok Hpl) as [Hc Hcs _ _].
  destruct (Hc i Hi) as (names & Hn & Hne & _).
  destruct (Hcs names Hn) as (_ & Hdata & _).
  unfold attach. cbv zeta. rewrite Hdata, Hn. cbn [default from_option id].
  rewrite bool_decide_eq_false_2 by (intros [? ?]; discriminate).
  rewrite (set_cc_same _ _ Hn), store_same, Hi.
  rewrite bool_decide_eq_false_2 by discriminate. cbn [andb].
  rewrite bool_decide_eq_true_2 by eauto. reflexivity.
Qed.

(** C6.  The first child added under a parent fixes its kind: after a
    first child joined by a dot the parent is concurrent, after a first
    child joined by a slash it is variable.  The kind is permanent: in
    every later machine, adding a new child of that parent with the
    other separator fails with the composition error of its kind and
    leaves the machine as it is. *)
Theorem first_child_fixes_the_kind :
  (forall m s parentPath sep nm pl,
     reachable m -> isLive m = false ->
     STATE_TREE m !! parentPath = Some pl ->
     cc (deref m pl) = None -> data (deref m pl) = None ->
     is_separator sep -> Pat.NAMEPAT nm = true -> plain_name nm ->
     normalizePath s = str (child_path parentPath sep nm) ->
     STATE_TREE m !! child_path parentPath sep nm = None ->
     fst (addState s m) = Normal null /\
     (sep = $"." -> concurrent_parent (snd (addState s m)) pl) /\
     (sep = $"/" -> variable_parent (snd (addState s m)) pl)) /\
  (forall m1 m2 s parentPath nm pl,
     reachable m1 -> steps m1 m2 -> isLive m2 = false ->
     STATE_TREE m2 !! parentPath = Some pl ->
     Pat.NAMEPAT nm = true -> plain_name nm ->
     (concurrent_parent m1 pl ->
      normalizePath s = str (child_path parentPath $"/" nm) ->
      STATE_TREE m2 !! child_path parentPath $"/" nm = None ->
      addState s m2 =
        (Normal (str $"concurrent parent cannot add variable child"), m2)) /\
     (variable_parent m1 pl ->
      normalizePath s = str (child_path parentPath $"." nm) ->
      STATE_TREE m2 !! child_path parentPath $"." nm = None ->
      addState s m2 =
        (Normal (str $"variable parent cannot add concurrent child"), m2))).
Proof.
  split.
  - intros m s parentPath sep nm pl Hm Hlive Hp Hcc Hdata Hsep Hname Hplain Hnorm Hnew.
    pose proof (reachable_store_ok m Hm) as Hok.
    rewrite (addState_child s m parentPath sep nm pl) by assumption.
    destruct (attach_first_child parentPath sep nm pl m Hok (ok_tree m Hok _ _ Hp)
                Hcc Hdata Hsep) as (Hres & Hcc' & Hcurr').
    split; [exact Hres|]. split; intros ->.
    + split; [exists [nm]; split; [exact Hcc' | discriminate] | exact Hcurr'].
    + unfold variable_parent. rewrite Hcurr'. eexists. reflexivity.
  - intros m1 m2 s parentPath nm pl Hm1 Hsteps Hlive Hp Hname Hplain.
    assert (Hok : store_ok m2).
    { apply reachable_store_ok. exact (steps_trans _ _ _ Hm1 Hsteps). }
    split; intros Hkind Hnorm Hnew.
    + rewrite (addState_child s m2 parentPath $"/" nm pl);
        try assumption; [|right; reflexivity].
      apply attach_concurrent_rejects; [exact Hok|].
      eapply concurrent_parent_steps; eassumption.
    + rewrite (addState_child s m2 parentPath $"." nm pl);
        try assumption; [|left; reflexivity].
      apply attach_variable_rejects; [exact Hok|].
      eapply variable_parent_steps; eassumption.
Qed.

Lemma first_child_fixes_the_kind_witness :
  let m0 := snd (addState (Some $".x") new_Machine) in
  let m1 := snd (addState (Some $".x.a") m0) in
  let m2 := snd (setData $".x.a" $"v" m1) in
  concurrent_parent m1 1 /\
  addState (Some $".x/b") m2 =
    (Normal (str $"concurrent parent cannot add variable child"), m2).
Proof.
  intros m0 m1 m2. destruct first_child_fixes_the_kind as [Hfirst Hlater].
  assert (Hm0 : reachable m0) by (apply steps_addState, steps_refl).
  assert (Hm1 : reachable m1) by (apply steps_addState, Hm0).
  assert (Hplain : forall nm, nm = $"a" \/ nm = $"b" -> plain_name nm)
    by (intros nm [-> | ->]; split; reflexivity).
  assert (Hc : concurrent_parent m1 1).
  { apply (Hfirst m0 (Some $".x.a") $".x" $"." $"a" 1); auto; try reflexivity.
    left. reflexivity. }
  split; [exact Hc|].
  apply (Hlater m1 m2 (Some $".x/b") $".x" $"b" 1); auto; try reflexivity.
  apply steps_setData, steps_refl.
Defined.

(** ** The two traversals, with the selection of children taken out *)

Lemma forEach_ext {A B : Type} (f g : A -> B -> completion B) (arr : list A) (acc : B) :
  (forall x acc', x ∈ arr -> f x acc' = g x acc') ->
  forEach f arr acc = forEach g arr acc.
Proof.
  revert acc. induction arr as [|x rest IH]; intros acc Hfg; [reflexivity|].
  cbn [forEach]. rewrite Hfg by left.
  destruct (g x acc); try reflexivity. apply IH. intros y acc' Hy. apply Hfg. right. exact Hy.
Qed.

Lemma forEach_singleton {A B : Type} (f : A -> B -> completion B) (x : A) (acc : B) :
  forEach f [x] acc = f x acc.
Proof. cbn [forEach]. destruct (f x acc); reflexivity. Qed.

Lemma _appendChildren_walk m fuel path state arr :
  _appendChildren m fuel path state arr = walk all_children m fuel path state arr.
Proof.
  revert path state arr. induction fuel as [|fuel IH]; intros path state arr; [reflexivity|].
  cbn [_appendChildren walk]. destruct (cc (deref m state)) as [names|]; [|reflexivity].
  unfold all_children. apply forEach_ext. intros nm acc _.
  destruct (getState m _); [apply IH | reflexivity].
Qed.

Lemma store_ok_names_truthy m : store_ok m -> names_truthy m.
Proof.
  intros Hok l names Hn. unfold deref in Hn.
  destruct (objects m !! l) as [o|] eqn:Ho; [|discriminate].
  destruct (ok_objects m Hok l o Ho) as [_ Hcs _ _].
  destruct (Hcs names Hn) as (_ & _ & Hall).
  eapply Forall_impl; [exact Hall|]. intros [|c nm] H; [congruence | reflexivity].
Qed.

Lemma _appendCurrentChildren_walk m fuel path state arr :
  names_truthy m ->
  _appendCurrentChildren m fuel path state arr =
  walk current_children m fuel path state arr.
Proof.
  intros Htruthy.
  revert path state arr. induction fuel as [|fuel IH]; intros path state arr; [reflexivity|].
  cbn [_appendCurrentChildren walk].
  destruct (cc (deref m state)) as [names|] eqn:Hn; [|reflexivity].
  unfold current_children. destruct (curr (deref m state)) as [i|].
  - destruct (names !! i) as [nm|] eqn:Hi; [|reflexivity].
    rewrite forEach_singleton.
    assert (Hnm : truthy nm = true).
    { specialize (Htruthy state names Hn). rewrite Forall_forall in Htruthy.
      apply Htruthy. eapply list_elem_of_lookup_2. exact Hi. }
    rewrite Hnm. destruct (getState m _); [apply IH | reflexivity].
  - apply forEach_ext. intros nm acc _.
    destruct (getState m _); [apply IH | reflexivity].
Qed.

(** ** Tidy paths and names *)

Lemma name_char_plain c : is_name_char c = true -> c <> "."%char /\ c <> "/"%char.
Proof. by_ascii_cases c; split; discriminate. Qed.

Lemma includes_false (s : jsstring) c :
  includes s c = false <-> forall d, d ∈ s -> d <> c.
Proof.
  unfold includes. rewrite existsb_false_iff. split; intros H d Hd.
  - specialize (H d Hd). apply bool_decide_eq_false in H. exact H.
  - apply bool_decide_eq_false. apply H. exact Hd.
Qed.

Lemma name_ok_plain nm : name_ok nm -> plain_name nm.
Proof.
  intros [_ Hnm]. split; apply includes_false; intros d Hd;
    destruct (Hnm d Hd) as [H _]; apply name_char_plain in H; tauto.
Qed.

Lemma name_ok_NAMEPAT nm : name_ok nm -> Pat.NAMEPAT nm = true.
Proof.
  intros [Hne Hnm]. destruct nm as [|c nm]; [congruence|].
  unfold Pat.NAMEPAT. cbn. destruct (Hnm c) as [-> _]; [left | reflexivity].
Qed.

Lemma name_ok_tidy nm : name_ok nm -> tidy_path nm.
Proof.
  intros [_ Hnm] c Hc. destruct (Hnm c Hc) as [H1 H2].
  split; [apply name_char_path_char; exact H1 | exact H2].
Qed.

Lemma tidy_path_app k1 k2 : tidy_path (k1 ++ k2) <-> tidy_path k1 /\ tidy_path k2.
Proof.
  unfold tidy_path. split.
  - intros H. split; intros c Hc; apply H; apply elem_of_app; auto.
  - intros [H1 H2] c Hc. apply elem_of_app in Hc as [Hc|Hc]; auto.
Qed.

Lemma tidy_separator sep : is_separator sep -> tidy_path sep.
Proof.
  intros [-> | ->] c Hc; apply list_elem_of_In in Hc; cbn in Hc;
    destruct Hc as [<-|[]]; split; reflexivity.
Qed.

Lemma tidy_child_path k sep nm :
  tidy_path k -> is_separator sep -> name_ok nm -> tidy_path (child_path k sep nm).
Proof.
  intros Hk Hsep Hnm. unfold child_path.
  apply tidy_path_app. split; [exact Hk|].
  apply tidy_path_app. split; [apply tidy_separator; exact Hsep | apply name_ok_tidy; exact Hnm].
Qed.

Lemma toLowerCase_tidy k : tidy_path k -> toLowerCase k = k.
Proof.
  intros Hk. unfold toLowerCase. induction k as [|c k IH]; [reflexivity|].
  cbn. destruct (Hk c) as [_ ->]; [left|].
  f_equal. apply IH. intros d Hd. apply Hk. right. exact Hd.
Qed.

Lemma trim_no_space (s : jsstring) :
  (forall c, c ∈ s -> is_space c = false) -> trim s = s.
Proof.
  intros Hs. unfold trim. rewrite trimStart_id.
  - apply trimEnd_id. destruct (rev s) as [|c r] eqn:E; [exact I|].
    apply Hs. apply list_elem_of_In, in_rev. rewrite E. left. reflexivity.
  - destruct s as [|c r]; [exact I|]. apply Hs. left.
Qed.

Lemma trim_tidy k : tidy_path k -> trim k = k.
Proof.
  intros Hk. apply trim_no_space. intros c Hc.
  apply path_char_not_space. apply Hk. exact Hc.
Qed.

Lemma normalizePath_tidy k : tidy_path k -> normalizePath (Some k) = str k.
Proof.
  intros Hk. destruct k as [|c k]; [reflexivity|].
  cbn [normalizePath]. unfold Pat.PATHPAT. cbn [existsb].
  destruct (Hk c) as [-> _]; [left|]. cbn [orb].
  rewrite trim_tidy, toLowerCase_tidy by exact Hk. reflexivity.
Qed.

Lemma getState_tidy m k : tidy_path k -> getState m k = STATE_TREE m !! k.
Proof. intros Hk. unfold getState. rewrite normalizePath_tidy by exact Hk. reflexivity. Qed.

Lemma sep_of_separator i : is_separator (sep_of i).
Proof. unfold sep_of. case_bool_decide; [right | left]; reflexivity. Qed.

Lemma separator_of_info o : separator_of o = sep_of (info_of o).
Proof. reflexivity. Qed.

(** A child path determines the parent path, the separator and the
    name. *)
Lemma child_path_inj k1 sep1 nm1 k2 sep2 nm2 :
  is_separator sep1 -> is_separator sep2 -> plain_name nm1 -> plain_name nm2 ->
  child_path k1 sep1 nm1 = child_path k2 sep2 nm2 ->
  k1 = k2 /\ sep1 = sep2 /\ nm1 = nm2.
Proof.
  intros Hs1 Hs2 Hn1 Hn2 Heq.
  pose proof (last_separator_child k1 sep1 nm1 Hs1 Hn1) as H1.
  pose proof (last_separator_child k2 sep2 nm2 Hs2 Hn2) as H2.
  rewrite Heq in H1. rewrite H1 in H2. injection H2 as Hlen.
  destruct (slice_child k1 sep1 nm1 Hs1) as (A1 & B1 & C1).
  destruct (slice_child k2 sep2 nm2 Hs2) as (A2 & B2 & C2).
  rewrite Heq, Hlen in A1, B1, C1. repeat split; congruence.
Qed.

Lemma child_path_length k sep nm :
  is_separator sep -> length (child_path k sep nm) = S (length k + length nm).
Proof.
  intros Hsep. unfold child_path. rewrite !length_app.
  assert (length sep = 1) by (destruct Hsep as [-> | ->]; reflexivity). lia.
Qed.

Lemma child_path_not_root k sep nm : is_separator sep -> child_path k sep nm <> [].
Proof.
  intros Hsep H. apply (f_equal (@length _)) in H.
  rewrite child_path_length in H by exact Hsep. discriminate.
Qed.

(** ** The view *)

Lemma view_lookup m k :
  view m !! k = (fun l => info_of (deref m l)) <$> (STATE_TREE m !! k).
Proof. unfold view. apply lookup_fmap. Qed.

Lemma view_Some m k i :
  view m !! k = Some i <->
  exists l, STATE_TREE m !! k = Some l /\ i = info_of (deref m l).
Proof.
  rewrite view_lookup. destruct (STATE_TREE m !! k) as [l|]; cbn.
  - split; [intros [= <-]; eauto | intros (l' & [= <-] & ->); reflexivity].
  - split; [discriminate | intros (l' & ? & _); discriminate].
Qed.

Lemma view_is_Some m k : is_Some (view m !! k) <-> is_Some (STATE_TREE m !! k).
Proof. rewrite view_lookup. apply fmap_is_Some. Qed.

Lemma view_None m k : view m !! k = None <-> STATE_TREE m !! k = None.
Proof. rewrite view_lookup. apply fmap_None. Qed.

Lemma traversal_fuel_bound m k :
  is_Some (STATE_TREE m !! k) -> length k < traversal_fuel m.
Proof.
  unfold traversal_fuel.
  apply (map_fold_weak_ind
           (fun n (t : gmap jsstring loc) => is_Some (t !! k) -> length k < S n)).
  - intros [? H]. rewrite lookup_empty in H. discriminate.
  - intros k' l' t n Hk' IH [x Hx].
    apply lookup_insert_Some in Hx as [[<- _] | [_ Hx]]; [lia|].
    specialize (IH (ex_intro _ x Hx)). lia.
Qed.

Lemma view_bounded m : bounded (view m) (traversal_fuel m - 1).
Proof.
  intros k Hk. apply view_is_Some in Hk. apply traversal_fuel_bound in Hk. lia.
Qed.

(** ** The walks of a tidy machine, read from its view *)

Lemma forEach_flat_map {A B : Type} (f : A -> list B -> completion (list B))
    (g : A -> list B) (arr : list A) (acc : list B) :
  (forall x acc', x ∈ arr -> f x acc' = Normal (acc' ++ g x)) ->
  forEach f arr acc = Normal (acc ++ flat_map g arr).
Proof.
  revert acc. induction arr as [|x rest IH]; intros acc Hf; cbn.
  - rewrite app_nil_r. reflexivity.
  - rewrite Hf by left. rewrite IH by (intros; apply Hf; right; assumption).
    rewrite <- app_assoc. reflexivity.
Qed.

Section WalkView.

Variables (select : State -> list jsstring -> list jsstring) (sel : Info -> list jsstring).
Variable m : Machine.

Hypothesis Hselect : forall o names,
  cc o = Some names -> select o names = sel (info_of o).
Hypothesis Hsel_nil : forall o, cc o = None -> sel (info_of o) = [].
Hypothesis Hsel_in : forall i nm, nm ∈ sel i -> nm ∈ kids i.
Hypothesis Htidy : tidy m.

Lemma walk_dfs fuel k l arr :
  STATE_TREE m !! k = Some l ->
  traversal_fuel m <= fuel + length k ->
  walk select m fuel k l arr = Normal (arr ++ dfs sel (view m) fuel k).
Proof.
  destruct Htidy as [Hstore Hlinks Hshape].
  revert k l arr. induction fuel as [|fuel IH]; intros k l arr Hl Hfuel.
  - pose proof (traversal_fuel_bound m k (ex_intro _ l Hl)). cbn in Hfuel. lia.
  - cbn [walk dfs]. rewrite view_lookup, Hl. cbn [fmap option_fmap option_map].
    destruct (cc (deref m l)) as [names|] eqn:Hn.
    2:{ rewrite (Hsel_nil _ Hn). cbn. rewrite app_nil_r. reflexivity. }
    rewrite (Hselect _ _ Hn). apply forEach_flat_map.
    intros nm acc Hnm. rewrite separator_of_info.
    assert (Hv : view m !! k = Some (info_of (deref m l))) by (apply view_Some; eauto).
    destruct (sh_kids _ Hshape k _ nm Hv (Hsel_in _ _ Hnm)) as [Hname [ci Hci]].
    apply view_Some in Hci as (cl & Hcl & _).
    pose proof (sh_keys _ Hshape k _ Hv) as Hk.
    rewrite getState_tidy
      by (apply tidy_child_path; auto using sep_of_separator).
    rewrite Hcl. rewrite IH; [rewrite <- app_assoc; reflexivity | exact Hcl |].
    rewrite child_path_length by apply sep_of_separator. clear -Hfuel. lia.
Qed.

End WalkView.

Lemma getAllPaths_view m :
  tidy m -> getAllPaths m = Normal ([] :: dfs all_kids (view m) (traversal_fuel m) []).
Proof.
  intros Htidy. destruct (sh_root _ (td_shape m Htidy)) as (i & Hi & _).
  apply view_Some in Hi as (l & Hl & _).
  unfold getAllPaths. rewrite getState_root, Hl, _appendChildren_walk.
  rewrite (walk_dfs all_children all_kids m); auto.
  - intros o names Hn. unfold all_children, all_kids. cbn. rewrite Hn. reflexivity.
  - intros o Hn. unfold all_kids. cbn. rewrite Hn. reflexivity.
  - apply Nat.le_add_r.
Qed.

(** ** C8: the two traversals *)

Lemma state_at_getState m path : state_at m path = getState m path.
Proof. unfold state_at, getState. destruct (normalizePath (Some path)); reflexivity. Qed.

Lemma join_of_separator o : join_of o = separator_of o.
Proof. unfold join_of, separator_of. destruct (curr o); reflexivity. Qed.

Lemma join_of_is_separator o : is_separator (join_of o).
Proof. unfold join_of. destruct (curr o); [right | left]; reflexivity. Qed.

(** A path that does not start with white space. *)
Lemma child_path_head (path sep nm : jsstring) :
  is_separator sep ->
  match path with [] => True | c :: _ => is_space c = false end ->
  match child_path path sep nm with [] => True | c :: _ => is_space c = false end.
Proof.
  intros Hsep Hpath. unfold child_path. destruct path as [|c path]; [|exact Hpath].
  destruct Hsep as [-> | ->]; reflexivity.
Qed.

Lemma toLowerCase_length (s : jsstring) : length (toLowerCase s) = length s.
Proof. unfold toLowerCase. apply length_map. Qed.

(** The normal form of a child path keeps the path of the parent and
    the separator: white space is trimmed at the end of the name only. *)
Lemma normal_child_longer (path sep nm k : jsstring) :
  is_separator sep ->
  match path with [] => True | c :: _ => is_space c = false end ->
  normalizePath (Some (child_path path sep nm)) = str k ->
  length path < length k.
Proof.
  intros Hsep Hpath Hn.
  pose proof (child_path_head path sep nm Hsep Hpath) as Hhead.
  assert (Hform : exists c, child_path path sep nm = path ++ c :: nm /\ is_space c = false).
  { unfold child_path. destruct Hsep as [-> | ->]; eexists; split; reflexivity. }
  destruct Hform as (c & Hc & Hspace).
  destruct (child_path path sep nm) as [|d s] eqn:Hs.
  { destruct path; discriminate. }
  cbn [normalizePath] in Hn. destruct (Pat.PATHPAT (d :: s)); [|discriminate].
  injection Hn as <-. rewrite toLowerCase_length. unfold trim.
  rewrite (trimStart_id (d :: s)) by exact Hhead.
  destruct (trimEnd_prefix (d :: s)) as (w & Hw & Hwspace).
  destruct (decide (length path < length (trimEnd (d :: s)))) as [Hlt|Hge]; [exact Hlt|].
  exfalso.
  assert (Hlook : (d :: s) !! length path = Some c).
  { rewrite Hc. rewrite lookup_app_r by lia. rewrite Nat.sub_diag. reflexivity. }
  rewrite Hw in Hlook. rewrite lookup_app_r in Hlook by lia.
  apply list_elem_of_lookup_2 in Hlook. apply Hwspace in Hlook. congruence.
Qed.

Section WalkDescent.

Variable select : State -> list jsstring -> list jsstring.
Variable m : Machine.

Hypothesis select_nil : forall o, select o [] = [].

(** With the fuel of the traversals the walk of the code returns, and
    what it appends is the descent. *)
Lemma walk_descent fuel path state arr :
  match path with [] => True | c :: _ => is_space c = false end ->
  1 <= fuel -> traversal_fuel m <= fuel + length path ->
  exists out,
    walk select m fuel path state arr = Normal (arr ++ out) /\
    descent select m path (join_of (deref m state)) (descended select (deref m state)) out.
Proof.
  revert path state arr. induction fuel as [|fuel IH]; intros path state arr Hpath Hpos Hfuel;
    [lia|].
  cbn [walk]. unfold descended.
  destruct (cc (deref m state)) as [names|] eqn:Hcc; cbn [default from_option id].
  2:{ exists []. rewrite app_nil_r, select_nil. split; [reflexivity | constructor]. }
  rewrite <- join_of_separator.
  pose proof (join_of_is_separator (deref m state)) as Hsep.
  generalize (select (deref m state) names). intros l. revert arr.
  induction l as [|nm rest IHl]; intros arr.
  { exists []. rewrite app_nil_r. split; [reflexivity | constructor]. }
  cbn [forEach]. cbv zeta.
  rewrite <- state_at_getState.
  destruct (state_at m (child_path path (join_of (deref m state)) nm)) as [child|] eqn:Hchild.
  - assert (Hlen : length path < length (child_path path (join_of (deref m state)) nm))
      by (rewrite child_path_length by exact Hsep; lia).
    assert (Hbound : S (length path) < traversal_fuel m).
    { unfold state_at in Hchild.
      destruct (normalizePath (Some (child_path path (join_of (deref m state)) nm)))
        as [| |k] eqn:Hk; try discriminate.
      pose proof (normal_child_longer _ _ _ _ Hsep Hpath Hk) as H1.
      pose proof (traversal_fuel_bound m k (ex_intro _ child Hchild)) as H2. lia. }
    destruct (IH (child_path path (join_of (deref m state)) nm) child
                 (arr ++ [child_path path (join_of (deref m state)) nm]))
      as (sub & Hsub & Hdesc); [apply child_path_head; assumption | lia | lia|].
    rewrite Hsub.
    destruct (IHl ((arr ++ [child_path path (join_of (deref m state)) nm]) ++ sub))
      as (out & Hout & Hrest).
    exists (child_path path (join_of (deref m state)) nm :: sub ++ out).
    split.
    + rewrite Hout. f_equal. rewrite <- !app_assoc. reflexivity.
    + apply descent_child with (child := child); assumption.
  - destruct (IHl (arr ++ [child_path path (join_of (deref m state)) nm]))
      as (out & Hout & Hrest).
    exists (child_path path (join_of (deref m state)) nm :: out).
    split.
    + rewrite Hout. f_equal. rewrite <- app_assoc. reflexivity.
    + apply descent_missing; assumption.
Qed.

Lemma walk_traversal root :
  state_at m [] = Some root ->
  exists paths,
    walk select m (traversal_fuel m) [] root [[]] = Normal paths /\
    traversal select m paths.
Proof.
  intros Hroot.
  destruct (walk_descent (traversal_fuel m) [] root [[]]) as (out & Hwalk & Hdesc);
    [exact I | unfold traversal_fuel; lia | lia|].
  exists ([] :: out). split; [exact Hwalk|].
  exists root, out. auto.
Qed.

End WalkDescent.

(** A descent is one list: the relation leaves no choice. *)
Lemma descent_one select m path sep names out1 out2 :
  descent select m path sep names out1 -> descent select m path sep names out2 ->
  out1 = out2.
Proof.
  intros H1. revert out2.
  induction H1 as [path sep | path sep nm rest out Hnone _ IH
                  | path sep nm rest child sub out Hsome _ IHsub _ IH];
    intros out2 H2; inversion H2; subst; try congruence.
  - f_equal. apply IH. assumption.
  - assert (child0 = child) by congruence. subst child0.
    f_equal. f_equal; [apply IHsub | apply IH]; assumption.
Qed.

Lemma traversal_one select m paths1 paths2 :
  traversal select m paths1 -> traversal select m paths2 -> paths1 = paths2.
Proof.
  intros (r1 & b1 & Hr1 & -> & H1) (r2 & b2 & Hr2 & -> & H2).
  assert (r2 = r1) by congruence. subst r2. f_equal.
  eapply descent_one; eauto.
Qed.

(** C8.  On every reachable machine [getAllPaths] and [getCurrentPaths]
    return, and what they return is the same depth-first, parent-first
    traversal but for the children descended into: [getAllPaths]
    descends into all the children of every parent; [getCurrentPaths]
    descends, under a variable parent, into the child at [curr] only,
    the other children and all that is below them being left out, and
    under a concurrent parent into all the children.  The traversal
    leaves no choice: it is one list.  After [.a], [.a/x] and [.a/y]
    are added the current paths are the root, [.a] and [.a/x]; after
    [setCurrent(".a", "y")] they are the root, [.a] and [.a/y]. *)
Theorem getCurrentPaths_walk :
  (forall m, reachable m ->
     exists all current,
       getAllPaths m = Normal all /\ traversal all_children m all /\
       getCurrentPaths m = Normal current /\ traversal current_children m current) /\
  (forall select m paths1 paths2,
     traversal select m paths1 -> traversal select m paths2 -> paths1 = paths2) /\
  (let m := snd (finishEditing
                   (snd (addState (Some $".a/y")
                      (snd (addState (Some $".a/x")
                         (snd (addState (Some $".a") new_Machine))))))) in
   getCurrentPaths m = Normal [ $""; $".a"; $".a/x"] /\
   getCurrentPaths (snd (setCurrent $".a" $"y" m)) = Normal [ $""; $".a"; $".a/y"]).
Proof.
  split; [|split; [apply traversal_one|vm_compute; split; reflexivity]].
  intros m Hm. pose proof (reachable_store_ok m Hm) as Hok.
  destruct (ok_root m Hok) as (root & Hroot & _).
  assert (Hat : state_at m [] = Some root) by exact Hroot.
  destruct (walk_traversal all_children m (fun o => eq_refl) root Hat)
    as (all & Hall & Htall).
  destruct (walk_traversal current_children m) with (root := root)
    as (current & Hcur & Htcur); [|exact Hat|].
  { intros o. unfold current_children. destruct (curr o) as [i|]; [|reflexivity].
    destruct i; reflexivity. }
  exists all, current.
  unfold getAllPaths, getCurrentPaths. rewrite getState_root, Hroot.
  rewrite _appendChildren_walk.
  rewrite _appendCurrentChildren_walk by (apply store_ok_names_truthy, Hok).
  auto.
Qed.

Lemma getCurrentPaths_walk_witness :
  (exists all current,
     getAllPaths two_parents_machine = Normal all /\
     traversal all_children two_parents_machine all /\
     getCurrentPaths two_parents_machine = Normal current /\
     traversal current_children two_parents_machine current) /\
  getAllPaths two_parents_machine =
    Normal [ $""; $".a"; $".a/x"; $".a/x.deep"; $".a/y";
             $".b"; $".b.c"; $".b.d"; $".b.d.e"] /\
  getCurrentPaths two_parents_machine =
    Normal [ $""; $".a"; $".a/x"; $".a/x.deep"; $".b"; $".b.c"; $".b.d"; $".b.d.e"] /\
  getCurrentPaths (snd (setCurrent $".a" $"y" two_parents_machine)) =
    Normal [ $""; $".a"; $".a/y"; $".b"; $".b.c"; $".b.d"; $".b.d.e"].
Proof.
  destruct getCurrentPaths_walk as (Hwalk & _ & _).
  split; [|vm_compute; repeat split; reflexivity].
  apply Hwalk. apply steps_finishEditing, steps_addStates, steps_refl.
Defined.

(** ** The effect of the operations on a tidy machine *)

Lemma getCurrentPaths_view m :
  tidy m ->
  getCurrentPaths m = Normal ([] :: dfs current_kids (view m) (traversal_fuel m) []).
Proof.
  intros Htidy. destruct (sh_root _ (td_shape m Htidy)) as (i & Hi & _).
  apply view_Some in Hi as (l & Hl & _).
  unfold getCurrentPaths. rewrite getState_root, Hl.
  rewrite _appendCurrentChildren_walk
    by (apply store_ok_names_truthy, Htidy).
  rewrite (walk_dfs current_children current_kids m); auto.
  - intros o names Hn. unfold current_children, current_kids. cbn. rewrite Hn. reflexivity.
  - intros o Hn. unfold current_kids. cbn. rewrite Hn. cbn.
    destruct (curr o); reflexivity.
  - intros j nm. unfold current_kids. destruct (cur j) as [c|]; [|auto].
    destruct (kids j !! c) as [x|] eqn:Hx; [|inversion 1].
    intros Hnm. apply list_elem_of_singleton in Hnm as ->.
    eapply list_elem_of_lookup_2. exact Hx.
  - apply Nat.le_add_r.
Qed.

Lemma pushed_eq nm sep p :
  (let children := default [] (cc p) in
   let p1 := set_cc children p in
   let p2 := set_cc (children ++ [nm]) p1 in
   if eqb sep $"/" && bool_decide (curr p2 = None) then set_curr 0 p2 else p2)
  = pushed nm sep p.
Proof.
  cbv zeta. unfold pushed. cbn [set_cc curr name parent data].
  destruct (eqb sep $"/" && bool_decide (curr p = None)); reflexivity.
Qed.

Lemma attach_unfold parentPath sep nm pl m :
  attach parentPath sep nm pl m =
  let p := deref m pl in
  if bool_decide (is_Some (data p)) then
    (Normal (str $"parent has data - cannot add child"), m)
  else
    let m1 := store pl (set_cc (default [] (cc p)) p) m in
    if bool_decide (curr p = None) && (0 <? length (default [] (cc p)))
       && negb (eqb sep $".") then
      (Normal (str $"concurrent parent cannot add variable child"), m1)
    else if bool_decide (is_Some (curr p)) && negb (eqb sep $"/") then
      (Normal (str $"variable parent cannot add concurrent child"), m1)
    else (Normal null, attached parentPath sep nm pl m).
Proof.
  unfold attach, attached. cbv zeta. rewrite <- (pushed_eq nm sep (deref m pl)).
  cbv zeta. rewrite store_store. reflexivity.
Qed.

(** [attach] on a machine whose store is in order: the child is
    attached, or the machine is left as it is with an error. *)
Lemma attach_cases parentPath sep nm pl m :
  store_ok m -> pl < length (objects m) -> is_separator sep ->
  (data (deref m pl) = None /\
   (cc (deref m pl) = None \/ sep = separator_of (deref m pl)) /\
   attach parentPath sep nm pl m = (Normal null, attached parentPath sep nm pl m)) \/
  ((is_Some (data (deref m pl)) \/
    (is_Some (cc (deref m pl)) /\ sep <> separator_of (deref m pl))) /\
   exists e, attach parentPath sep nm pl m = (Normal (str e), m)).
Proof.
  intros Hok Hpl Hsep.
  destruct (object_ok_deref m pl Hok Hpl) as [Hc Hcs _ _].
  rewrite attach_unfold. cbv zeta.
  case_bool_decide as Hd; [right; split; [left; exact Hd | eauto]|].
  assert (Hdata : data (deref m pl) = None).
  { destruct (data (deref m pl)); [exfalso; apply Hd; eauto | reflexivity]. }
  assert (Hm1 : is_Some (cc (deref m pl)) ->
                store pl (set_cc (default [] (cc (deref m pl))) (deref m pl)) m = m).
  { intros [names Hn]. rewrite Hn. cbn [default from_option id].
    rewrite (set_cc_same _ _ Hn). apply store_same. }
  unfold separator_of.
  destruct (curr (deref m pl)) as [i|] eqn:Hi.
  - destruct (Hc i Hi) as (names & Hn & Hne & _).
    rewrite (bool_decide_eq_false_2 (Some i = None)) by discriminate. cbn [andb].
    rewrite !(bool_decide_eq_true_2 (is_Some (Some i))) by eauto. cbn [andb].
    destruct (eqb sep $"/") eqn:Hs; cbn [negb]; unfold eqb in Hs.
    + apply bool_decide_eq_true in Hs. left. auto.
    + apply bool_decide_eq_false in Hs.
      right. split; [right; split; [eauto | exact Hs]|].
      rewrite Hm1 by eauto. eauto.
  - rewrite (bool_decide_eq_true_2 (None = None)) by reflexivity.
    rewrite !(bool_decide_eq_false_2 (is_Some None)) by (intros [? ?]; discriminate).
    cbn [andb].
    destruct (cc (deref m pl)) as [names|] eqn:Hn; cbn [default from_option id] in *.
    + destruct (Hcs names eq_refl) as (Hne & _).
      assert (Hlen : (0 <? length names) = true)
        by (apply Nat.ltb_lt; destruct names; [congruence | cbn; lia]).
      rewrite Hlen. cbn [andb].
      destruct (eqb sep $".") eqn:Hs; cbn [negb]; unfold eqb in Hs.
      * apply bool_decide_eq_true in Hs. left. auto.
      * apply bool_decide_eq_false in Hs.
        right. split; [right; split; [eauto | exact Hs]|].
        rewrite Hm1 by eauto. eauto.
    + cbn [length Nat.ltb Nat.leb andb]. left. auto.
Qed.

(** ** Updates of a view that keep its shape *)

Lemma shape_parent_unique a q j pk sep nm pi :
  shape_ok a -> a !! q = Some j -> q = child_path pk sep nm ->
  is_separator sep -> plain_name nm -> a !! pk = Some pi ->
  sep = sep_of pi /\ nm ∈ kids pi /\ (is_Some (dat j) -> cur pi = None).
Proof.
  intros Hsh Hq -> Hsep Hplain Hpk.
  destruct (sh_parent _ Hsh _ _ Hq (child_path_not_root _ _ _ Hsep))
    as (pk' & nm' & pi' & Heq & Hpk' & Hnm' & Hdat).
  destruct (sh_kids _ Hsh _ _ _ Hpk' Hnm') as [Hname _].
  apply child_path_inj in Heq as (-> & -> & ->);
    auto using sep_of_separator, name_ok_plain.
  assert (pi' = pi) by congruence. subst pi'. auto.
Qed.

Lemma shape_childless_cur a k i :
  shape_ok a -> a !! k = Some i -> kids i = [] -> cur i = None.
Proof.
  intros Hsh Hk Hkids. destruct (cur i) as [c|] eqn:Hc; [|reflexivity].
  pose proof (sh_cur _ Hsh _ _ _ Hk Hc) as Hlt. rewrite Hkids in Hlt. cbn in Hlt. lia.
Qed.

Lemma sep_of_push nm sep i :
  is_separator sep -> (cur i = None -> kids i <> [] -> sep = $".") ->
  (is_Some (cur i) -> sep = $"/") ->
  sep_of (push_info nm sep i) = sep.
Proof.
  intros Hsep Hnone Hsome. unfold sep_of, push_info. cbn [cur].
  destruct (cur i) as [c|] eqn:Hc.
  - rewrite (bool_decide_eq_false_2 (Some c = None)) by discriminate.
    rewrite andb_false_r.
    rewrite bool_decide_eq_true_2 by eauto. symmetry. apply Hsome. eauto.
  - rewrite (bool_decide_eq_true_2 (None = None)) by reflexivity. rewrite andb_true_r.
    destruct Hsep as [-> | ->].
    + change (eqb $"." $"/") with false. cbn iota.
      rewrite bool_decide_eq_false_2 by (intros [? ?]; discriminate). reflexivity.
    + change (eqb $"/" $"/") with true. cbn iota.
      rewrite bool_decide_eq_true_2 by eauto. reflexivity.
Qed.

Lemma sep_of_push_same nm i :
  kids i <> [] -> sep_of (push_info nm (sep_of i) i) = sep_of i.
Proof.
  intros Hne. apply sep_of_push; [apply sep_of_separator | |].
  - intros Hc _. unfold sep_of. rewrite Hc.
    rewrite bool_decide_eq_false_2 by (intros [? ?]; discriminate). reflexivity.
  - intros Hc. unfold sep_of. rewrite bool_decide_eq_true_2 by exact Hc. reflexivity.
Qed.

Section ShapePush.

Variables (a : gmap jsstring Info) (k sep nm : jsstring) (i : Info).

Hypothesis Hsh : shape_ok a.
Hypothesis Hk : a !! k = Some i.
Hypothesis Hname : name_ok nm.
Hypothesis Hsep : is_separator sep.
Hypothesis Hnew : a !! child_path k sep nm = None.
Hypothesis Hdat : dat i = None.
Hypothesis Hkind : kids i = [] \/ sep = sep_of i.

Let c := child_path k sep nm.
Let a' := <[c := leaf_info]> (<[k := push_info nm sep i]> a).

Lemma push_sep : sep_of (push_info nm sep i) = sep.
Proof.
  apply sep_of_push; [exact Hsep | |].
  - intros Hc Hne. destruct Hkind as [? | ->]; [contradiction|].
    unfold sep_of. rewrite Hc.
    rewrite bool_decide_eq_false_2 by (intros [? ?]; discriminate). reflexivity.
  - intros Hc. destruct Hkind as [Hnil | ->].
    + rewrite (shape_childless_cur a k i Hsh Hk Hnil) in Hc. destruct Hc. discriminate.
    + unfold sep_of. rewrite bool_decide_eq_true_2 by exact Hc. reflexivity.
Qed.

Lemma push_c_ne_k : c <> k.
Proof.
  intros Heq. apply (f_equal (@length _)) in Heq. subst c.
  rewrite child_path_length in Heq by exact Hsep. lia.
Qed.

Lemma push_lookup q j :
  a' !! q = Some j ->
  (q = c /\ j = leaf_info) \/
  (q = k /\ j = push_info nm sep i) \/
  (q <> c /\ q <> k /\ a !! q = Some j).
Proof.
  subst a'. intros H.
  apply lookup_insert_Some in H as [[<- <-] | [Hne H]]; [auto|].
  apply lookup_insert_Some in H as [[<- <-] | [Hne' H]]; auto.
Qed.

Lemma push_old q j : a !! q = Some j -> q <> k -> a' !! q = Some j.
Proof.
  intros Hq Hne. subst a'.
  rewrite lookup_insert_ne by (intros <-; subst c; congruence).
  rewrite lookup_insert_ne by auto. exact Hq.
Qed.

Lemma push_dom q : is_Some (a !! q) -> is_Some (a' !! q).
Proof.
  intros [j Hq]. destruct (decide (q = k)) as [->|Hne].
  - subst a'. rewrite lookup_insert_ne by apply push_c_ne_k.
    rewrite lookup_insert_eq. eauto.
  - rewrite (push_old q j Hq Hne). eauto.
Qed.

Lemma push_nm_fresh : nm ∉ kids i.
Proof.
  intros Hin. destruct Hkind as [Hnil | Hs].
  - rewrite Hnil in Hin. inversion Hin.
  - destruct (sh_kids _ Hsh _ _ _ Hk Hin) as [_ [j Hj]].
    rewrite <- Hs in Hj. congruence.
Qed.

Lemma shape_push : shape_ok a'.
Proof.
  pose proof push_sep as Hps. pose proof push_c_ne_k as Hck.
  pose proof (sh_keys _ Hsh _ _ Hk) as Hktidy.
  assert (Hk' : a' !! k = Some (push_info nm sep i)).
  { subst a'. rewrite lookup_insert_ne by auto. apply lookup_insert_eq. }
  assert (Hc' : a' !! c = Some leaf_info) by (subst a'; apply lookup_insert_eq).
  split.
  - destruct (sh_root _ Hsh) as (r & Hr & Hcur & Hd).
    destruct (decide (k = [])) as [->|Hne].
    + assert (r = i) by congruence. subst r.
      exists (push_info nm sep i). split; [exact Hk'|]. split; [|exact Hd].
      unfold push_info. cbn [cur]. destruct (eqb sep $"/" && _); auto.
    + exists r. split; [apply push_old; auto | auto].
  - intros q j Hq. apply push_lookup in Hq as [[-> _] | [[-> _] | (_ & _ & Hq)]].
    + subst c. apply tidy_child_path; auto.
    + exact Hktidy.
    + eapply sh_keys; eauto.
  - intros q j n Hq Hn. apply push_lookup in Hq as [[-> ->] | [[-> ->] | (_ & Hne & Hq)]].
    + inversion Hn.
    + rewrite Hps. cbn [push_info kids] in Hn.
      apply elem_of_app in Hn as [Hn | Hn].
      * destruct (sh_kids _ Hsh _ _ _ Hk Hn) as [Hnok Hdom]. split; [exact Hnok|].
        destruct Hkind as [Hnil | Hs]; [rewrite Hnil in Hn; inversion Hn|].
        rewrite Hs. apply push_dom. exact Hdom.
      * apply list_elem_of_singleton in Hn as ->. split; [exact Hname | eauto].
    + destruct (sh_kids _ Hsh _ _ _ Hq Hn) as [Hnok Hdom]. split; [exact Hnok|].
      apply push_dom. exact Hdom.
  - intros q j Hq. apply push_lookup in Hq as [[-> ->] | [[-> ->] | (_ & _ & Hq)]].
    + constructor.
    + cbn [push_info kids]. apply NoDup_app. split; [eapply sh_nodup; eauto|].
      split; [|apply NoDup_singleton].
      intros x Hx Hx'. apply list_elem_of_singleton in Hx' as ->.
      exact (push_nm_fresh Hx).
    + eapply sh_nodup; eauto.
  - intros q j x Hq Hx. apply push_lookup in Hq as [[-> ->] | [[-> ->] | (_ & _ & Hq)]].
    + discriminate.
    + cbn [push_info kids cur] in *. rewrite length_app. cbn.
      destruct (eqb sep $"/" && _).
      * injection Hx as <-. lia.
      * pose proof (sh_cur _ Hsh _ _ _ Hk Hx). lia.
    + eapply sh_cur; eauto.
  - intros q j v Hq Hv. apply push_lookup in Hq as [[-> ->] | [[-> ->] | (_ & _ & Hq)]].
    + discriminate.
    + cbn [push_info dat] in Hv. congruence.
    + eapply sh_dat; eauto.
  - intros q j Hq Hroot. apply push_lookup in Hq as [[-> ->] | [[-> ->] | (Hqc & Hqk & Hq)]].
    + exists k, nm, (push_info nm sep i). rewrite Hps.
      split; [reflexivity|]. split; [exact Hk'|]. split.
      * cbn [push_info kids]. apply elem_of_app. right. left.
      * intros [? ?]. discriminate.
    + destruct (sh_parent _ Hsh _ _ Hk Hroot) as (pk & n & pi & Heq & Hpk & Hn & Hd).
      exists pk, n, pi. split; [exact Heq|]. split; [|split; [exact Hn|]].
      * apply push_old; [exact Hpk|]. intros ->.
        apply (f_equal (@length _)) in Heq.
        rewrite child_path_length in Heq by apply sep_of_separator. lia.
      * cbn [push_info dat]. rewrite Hdat. intros [? ?]. discriminate.
    + destruct (sh_parent _ Hsh _ _ Hq Hroot) as (pk & n & pi & Heq & Hpk & Hn & Hd).
      destruct (decide (pk = k)) as [->|Hne].
      * assert (pi = i) by congruence. subst pi.
        assert (Hne : kids i <> []) by (intros E; rewrite E in Hn; inversion Hn).
        destruct Hkind as [? | Hs]; [contradiction|].
        exists k, n, (push_info nm sep i). rewrite Hps, Hs.
        split; [exact Heq|]. split; [rewrite <- Hs; exact Hk'|]. split.
        -- cbn [push_info kids]. apply elem_of_app. left. exact Hn.
        -- intros Hj. specialize (Hd Hj). unfold push_info. cbn [cur]. rewrite Hd.
           unfold sep_of. rewrite Hd.
           rewrite (bool_decide_eq_false_2 (is_Some None)) by (intros [? ?]; discriminate).
           reflexivity.
      * exists pk, n, pi. split; [exact Heq|]. split; [|auto].
        apply push_old; auto.
Qed.

End ShapePush.

Section ShapeModify.

Variables (a : gmap jsstring Info) (k : jsstring) (i i' : Info).

Hypothesis Hsh : shape_ok a.
Hypothesis Hk : a !! k = Some i.
Hypothesis Hkids : kids i' = kids i.
Hypothesis Hsep : sep_of i' = sep_of i.
Hypothesis Hcur : forall c, cur i' = Some c -> c < length (kids i).
Hypothesis Hroot : k = [] -> (cur i' = None \/ cur i' = Some 0) /\ dat i' = None.
Hypothesis Hdat : forall v, dat i' = Some v ->
  kids i = [] /\ line_safe v /\
  (dat i = None ->
   forall pk nm pi, k = child_path pk (sep_of pi) nm -> a !! pk = Some pi ->
                    nm ∈ kids pi -> cur pi = None).
Hypothesis Hchildren : cur i' <> None -> cur i <> None.

Lemma modify_lookup q j :
  <[k := i']> a !! q = Some j -> (q = k /\ j = i') \/ (q <> k /\ a !! q = Some j).
Proof. intros H. apply lookup_insert_Some in H. destruct H as [[<- <-]|[? ?]]; auto. Qed.

Lemma modify_dom q : is_Some (a !! q) -> is_Some (<[k := i']> a !! q).
Proof.
  intros Hq. destruct (decide (k = q)) as [->|Hne].
  - rewrite lookup_insert_eq. eauto.
  - rewrite lookup_insert_ne by auto. exact Hq.
Qed.

Lemma shape_modify : shape_ok (<[k := i']> a).
Proof.
  split.
  - destruct (sh_root _ Hsh) as (r & Hr & Hc & Hd).
    destruct (decide (k = [])) as [->|Hne].
    + exists i'. split; [apply lookup_insert_eq | apply Hroot; reflexivity].
    + exists r. split; [rewrite lookup_insert_ne by auto; exact Hr | auto].
  - intros q j Hq. apply modify_lookup in Hq as [[-> _] | [_ Hq]]; eapply sh_keys; eauto.
  - intros q j n Hq Hn. apply modify_lookup in Hq as [[-> ->] | [_ Hq]].
    + rewrite Hkids in Hn. rewrite Hsep.
      destruct (sh_kids _ Hsh _ _ _ Hk Hn) as [Hnok Hdom]. split; [exact Hnok|].
      apply modify_dom, Hdom.
    + destruct (sh_kids _ Hsh _ _ _ Hq Hn) as [Hnok Hdom]. split; [exact Hnok|].
      apply modify_dom, Hdom.
  - intros q j Hq. apply modify_lookup in Hq as [[-> ->] | [_ Hq]].
    + rewrite Hkids. eapply sh_nodup; eauto.
    + eapply sh_nodup; eauto.
  - intros q j c Hq Hc. apply modify_lookup in Hq as [[-> ->] | [_ Hq]].
    + rewrite Hkids. auto.
    + eapply sh_cur; eauto.
  - intros q j v Hq Hv. apply modify_lookup in Hq as [[-> ->] | [_ Hq]].
    + rewrite Hkids. destruct (Hdat v Hv) as (? & ? & _). auto.
    + eapply sh_dat; eauto.
  - intros q j Hq Hne. apply modify_lookup in Hq as [[-> ->] | [Hqk Hq]].
    + destruct (sh_parent _ Hsh _ _ Hk Hne) as (pk & n & pi & Heq & Hpk & Hn & Hd).
      assert (Hpkk : pk <> k).
      { intros ->. apply (f_equal (@length _)) in Heq.
        rewrite child_path_length in Heq by apply sep_of_separator. lia. }
      exists pk, n, pi. split; [exact Heq|].
      split; [rewrite lookup_insert_ne by auto; exact Hpk|]. split; [exact Hn|].
      intros [v Hv]. destruct (dat i) as [w|] eqn:Hw; [apply Hd; eauto|].
      destruct (Hdat v Hv) as (_ & _ & Hp). eapply Hp; eauto.
    + destruct (sh_parent _ Hsh _ _ Hq Hne) as (pk & n & pi & Heq & Hpk & Hn & Hd).
      destruct (decide (pk = k)) as [->|Hpkk].
      * assert (pi = i) by congruence. subst pi.
        exists k, n, i'. rewrite Hsep, Hkids.
        split; [exact Heq|]. split; [apply lookup_insert_eq|]. split; [exact Hn|].
        intros Hj. specialize (Hd Hj).
        destruct (cur i') eqn:E; [|reflexivity].
        exfalso. apply Hchildren; [congruence | exact Hd].
      * exists pk, n, pi. split; [exact Heq|].
        split; [rewrite lookup_insert_ne by auto; exact Hpk | auto].
Qed.

End ShapeModify.

(** ** The operations on a tidy machine *)

Lemma tidy_valid m k l : tidy m -> STATE_TREE m !! k = Some l -> l < length (objects m).
Proof. intros Ht Hl. eapply ok_tree; [apply Ht | exact Hl]. Qed.

Lemma info_of_pushed nm sep p : info_of (pushed nm sep p) = push_info nm sep (info_of p).
Proof. reflexivity. Qed.

Lemma info_kids_nil m l :
  store_ok m -> l < length (objects m) ->
  kids (info_of (deref m l)) = [] <-> cc (deref m l) = None.
Proof.
  intros Hok Hl. destruct (object_ok_deref m l Hok Hl) as [_ Hcs _ _].
  cbn. destruct (cc (deref m l)) as [names|] eqn:Hn; cbn.
  - destruct (Hcs names eq_refl) as (Hne & _). split; [contradiction | discriminate].
  - tauto.
Qed.

(** An assignment to the state object of the path [p]. *)
Lemma store_view m l o p :
  tidy m -> STATE_TREE m !! p = Some l ->
  view (store l o m) = <[p := info_of o]> (view m).
Proof.
  intros Ht Hp. apply map_eq. intros q. rewrite view_lookup.
  change (STATE_TREE (store l o m)) with (STATE_TREE m).
  destruct (decide (p = q)) as [<-|Hne].
  - rewrite lookup_insert_eq, Hp. cbn. rewrite deref_store_eq by (eapply tidy_valid; eauto).
    reflexivity.
  - rewrite lookup_insert_ne by auto. rewrite view_lookup.
    destruct (STATE_TREE m !! q) as [l'|] eqn:Hq; [|reflexivity]. cbn.
    rewrite deref_store_ne; [reflexivity|]. intros <-.
    apply Hne. eapply lk_inj; [apply Ht | eauto | eauto].
Qed.

Lemma links_ok_store m l o :
  links_ok m -> parent o = parent (deref m l) -> name o = name (deref m l) ->
  links_ok (store l o m).
Proof.
  intros [Hinj Hpar] Hp Hn. split; [exact Hinj|].
  intros pk sep nm l' pl Hsep Hplain Hc Hpk.
  change (STATE_TREE (store l o m)) with (STATE_TREE m) in *.
  destruct (Hpar pk sep nm l' pl Hsep Hplain Hc Hpk) as [H1 H2].
  destruct (decide (l = l')) as [<-|Hne]; [|rewrite deref_store_ne by auto; auto].
  destruct (decide (l < length (objects m))) as [Hl|Hl].
  - rewrite deref_store_eq by exact Hl. split; congruence.
  - unfold deref, store in *. cbn [objects]. rewrite list_insert_ge by lia. auto.
Qed.

Lemma tidy_new_Machine : tidy new_Machine.
Proof.
  split; [apply store_ok_new | |].
  - split.
    + intros k1 k2 l H1 H2. unfold new_Machine in *. cbn [STATE_TREE] in *.
      apply lookup_singleton_Some in H1 as [<- _], H2 as [<- _]. reflexivity.
    + intros pk sep nm l pl Hsep _ H. unfold new_Machine in H. cbn [STATE_TREE] in H.
      apply lookup_singleton_Some in H as [H _]. symmetry in H.
      apply child_path_not_root in H; [contradiction | exact Hsep].
  - assert (Hv : forall q j, view new_Machine !! q = Some j -> q = [] /\ j = leaf_info).
    { intros q j H. apply view_Some in H as (l & Hl & ->).
      unfold new_Machine in Hl. cbn [STATE_TREE] in Hl.
      apply lookup_singleton_Some in Hl as [<- <-]. split; reflexivity. }
    split.
    + exists leaf_info. split; [reflexivity | cbn; auto].
    + intros k i H. apply Hv in H as [-> _]. intros c Hc. inversion Hc.
    + intros k i nm H Hn. apply Hv in H as [_ ->]. inversion Hn.
    + intros k i H. apply Hv in H as [_ ->]. constructor.
    + intros k i c H Hc. apply Hv in H as [_ ->]. discriminate.
    + intros k i v H Hd. apply Hv in H as [_ ->]. discriminate.
    + intros k i H Hk. apply Hv in H as [-> _]. congruence.
Qed.

Lemma view_set_live b m : view (set_live b m) = view m.
Proof. reflexivity. Qed.

Lemma tidy_set_live b m : tidy m -> tidy (set_live b m).
Proof.
  intros [Hs [Hinj Hpar] Hsh]. split; [apply store_ok_set_live; exact Hs | | exact Hsh].
  split; [exact Hinj | exact Hpar].
Qed.

Lemma tidy_makeEmpty m : tidy m -> tidy (makeEmpty m).
Proof.
  intros Ht. split; [apply store_ok_makeEmpty, Ht | |].
  - split.
    + intros k1 k2 l H1 H2. unfold makeEmpty in *. cbn [STATE_TREE] in *.
      apply lookup_singleton_Some in H1 as [<- _], H2 as [<- _]. reflexivity.
    + intros pk sep nm l pl Hsep _ H. unfold makeEmpty in H. cbn [STATE_TREE] in H.
      apply lookup_singleton_Some in H as [H _]. symmetry in H.
      apply child_path_not_root in H; [contradiction | exact Hsep].
  - assert (Hv : forall q j, view (makeEmpty m) !! q = Some j -> q = [] /\ j = leaf_info).
    { intros q j H. apply view_Some in H as (l & Hl & ->).
      unfold makeEmpty in Hl. cbn [STATE_TREE] in Hl.
      apply lookup_singleton_Some in Hl as [<- <-].
      rewrite deref_makeEmpty. split; reflexivity. }
    split.
    + exists leaf_info. split; [|cbn; auto].
      apply view_Some. exists (length (objects m)). split; [apply lookup_singleton_eq|].
      rewrite deref_makeEmpty. reflexivity.
    + intros k i H. apply Hv in H as [-> _]. intros c Hc. inversion Hc.
    + intros k i nm H Hn. apply Hv in H as [_ ->]. inversion Hn.
    + intros k i H. apply Hv in H as [_ ->]. constructor.
    + intros k i c H Hc. apply Hv in H as [_ ->]. discriminate.
    + intros k i v H Hd. apply Hv in H as [_ ->]. discriminate.
    + intros k i H Hk. apply Hv in H as [-> _]. congruence.
Qed.

Section Attached.

Variables (m : Machine) (k sep nm : jsstring) (pl : loc).

Hypothesis Ht : tidy m.
Hypothesis Hk : STATE_TREE m !! k = Some pl.
Hypothesis Hname : name_ok nm.
Hypothesis Hsep : is_separator sep.
Hypothesis Hnew : STATE_TREE m !! child_path k sep nm = None.

Lemma attached_tree :
  STATE_TREE (attached k sep nm pl m) =
  <[child_path k sep nm := length (objects m)]> (STATE_TREE m).
Proof.
  unfold attached, set_new, store. cbn [STATE_TREE objects].
  rewrite length_insert. reflexivity.
Qed.

Lemma attached_deref_new :
  deref (attached k sep nm pl m) (length (objects m)) = set_parent pl (new_state nm).
Proof.
  unfold attached.
  replace (length (objects m)) with (length (objects (store pl (pushed nm sep (deref m pl)) m)))
    by (unfold store; cbn [objects]; apply length_insert).
  apply deref_set_new_new.
Qed.

Lemma attached_deref_old l :
  l < length (objects m) ->
  deref (attached k sep nm pl m) l =
  if decide (l = pl) then pushed nm sep (deref m pl) else deref m l.
Proof.
  intros Hl. unfold attached.
  rewrite deref_set_new_old by (unfold store; cbn [objects]; rewrite length_insert; exact Hl).
  destruct (decide (l = pl)) as [->|Hne].
  - apply deref_store_eq. exact Hl.
  - apply deref_store_ne. auto.
Qed.

Lemma attached_view :
  view (attached k sep nm pl m) =
  <[child_path k sep nm := leaf_info]>
    (<[k := push_info nm sep (info_of (deref m pl))]> (view m)).
Proof.
  apply map_eq. intros q. rewrite view_lookup, attached_tree.
  destruct (decide (child_path k sep nm = q)) as [<-|Hne].
  - rewrite !lookup_insert_eq. cbn. rewrite attached_deref_new. reflexivity.
  - rewrite !lookup_insert_ne by auto.
    destruct (decide (k = q)) as [<-|Hne'].
    + rewrite lookup_insert_eq, Hk. cbn.
      rewrite attached_deref_old by (eapply tidy_valid; eauto).
      rewrite decide_True by reflexivity. reflexivity.
    + rewrite lookup_insert_ne by auto. rewrite view_lookup.
      destruct (STATE_TREE m !! q) as [l|] eqn:Hq; [|reflexivity]. cbn.
      rewrite attached_deref_old by (eapply tidy_valid; eauto).
      rewrite decide_False; [reflexivity|]. intros ->.
      apply Hne'. eapply lk_inj; [apply Ht | eauto | eauto].
Qed.

Lemma attached_links : links_ok (attached k sep nm pl m).
Proof.
  destruct Ht as [Hs [Hinj Hpar] Hsh].
  split.
  - intros k1 k2 l H1 H2. rewrite attached_tree in H1, H2.
    apply lookup_insert_Some in H1 as [[<- <-] | [Hn1 H1]],
          H2 as [[<- Hl] | [Hn2 H2]]; try reflexivity.
    + apply (ok_tree m Hs) in H2. lia.
    + subst l. apply (ok_tree m Hs) in H1. lia.
    + eauto.
  - intros pk sep' nm' l pl' Hsep' Hplain Hc Hpk. rewrite attached_tree in Hc, Hpk.
    apply lookup_insert_Some in Hc as [[Heq <-] | [Hne Hc]].
    + apply child_path_inj in Heq as (<- & <- & <-); auto using name_ok_plain.
      rewrite lookup_insert_ne in Hpk.
      2:{ intros E. apply (f_equal (@length _)) in E.
          rewrite child_path_length in E by exact Hsep. lia. }
      assert (pl' = pl) by congruence. subst pl'.
      rewrite attached_deref_new. split; reflexivity.
    + assert (Hold : STATE_TREE m !! pk = Some pl').
      { apply lookup_insert_Some in Hpk as [[<- _] | [_ Hpk]]; [|exact Hpk].
        exfalso.
        assert (Hv : is_Some (view m !! child_path (child_path k sep nm) sep' nm'))
          by (apply view_is_Some; eauto).
        destruct Hv as [j Hj].
        destruct (sh_parent _ Hsh _ _ Hj (child_path_not_root _ _ _ Hsep'))
          as (pk' & n' & pi' & Heq & Hpk' & Hn' & _).
        destruct (sh_kids _ Hsh _ _ _ Hpk' Hn') as [Hnok _].
        apply child_path_inj in Heq as (<- & _ & _);
          auto using sep_of_separator, name_ok_plain.
        apply view_Some in Hpk' as (? & Hpk' & _). congruence. }
      destruct (Hpar pk sep' nm' l pl' Hsep' Hplain Hc Hold) as [H1 H2].
      rewrite attached_deref_old by (eapply (ok_tree m Hs); eauto).
      destruct (decide (l = pl)); [subst l | auto].
      cbn [pushed parent name]. auto.
Qed.

Lemma attach_tidy :
  let i := info_of (deref m pl) in
  (dat i = None /\ (kids i = [] \/ sep = sep_of i) /\
   attach k sep nm pl m = (Normal null, attached k sep nm pl m) /\
   tidy (attached k sep nm pl m)) \/
  ((is_Some (dat i) \/ (kids i <> [] /\ sep <> sep_of i)) /\
   exists e, attach k sep nm pl m = (Normal (str e), m)).
Proof.
  cbv zeta. pose proof (tidy_valid m k pl Ht Hk) as Hpl.
  pose proof (td_store m Ht) as Hs.
  destruct (attach_cases k sep nm pl m Hs Hpl Hsep)
    as [(Hd & Hkind & Hatt) | (Hcase & Herr)].
  - left. assert (Hkind' : kids (info_of (deref m pl)) = [] \/
                           sep = sep_of (info_of (deref m pl))).
    { destruct Hkind as [Hn | ->]; [left; apply info_kids_nil; auto | right; reflexivity]. }
    split; [exact Hd|]. split; [exact Hkind'|]. split; [exact Hatt|]. split.
    + pose proof (store_ok_attach k sep nm pl m Hs Hk (name_ok_NAMEPAT _ Hname)) as Hst.
      rewrite Hatt in Hst. exact Hst.
    + apply attached_links.
    + rewrite attached_view. apply shape_push; auto.
      * apply Ht.
      * apply view_Some. eauto.
      * apply view_None. exact Hnew.
  - right. split; [|exact Herr].
    destruct Hcase as [Hd | [Hcc Hne]]; [left; exact Hd | right].
    split; [|exact Hne].
    intros Hnil. apply info_kids_nil in Hnil; auto.
    rewrite Hnil in Hcc. destruct Hcc. discriminate.
Qed.

End Attached.

(** ** Current state and data on a tidy machine *)

Lemma normalizePath_nonempty path p :
  normalizePath (Some path) = str p -> path <> [] -> p <> [].
Proof.
  destruct path as [|c s]; [congruence|]. cbn [normalizePath].
  destruct (Pat.PATHPAT (c :: s)) eqn:Hpat; [|discriminate].
  intros [= <-] _ Hnil.
  assert (H : Pat.PATHPAT (toLowerCase (trim (c :: s))) = true)
    by (rewrite PATHPAT_toLowerCase, PATHPAT_trim; exact Hpat).
  rewrite Hnil in H. discriminate.
Qed.

Lemma getState_key m path l :
  getState m path = Some l ->
  exists p, normalizePath (Some path) = str p /\ STATE_TREE m !! p = Some l /\
            (path <> [] -> p <> []).
Proof.
  unfold getState. destruct (normalizePath (Some path)) as [| |p] eqn:Hn; try discriminate.
  intros Hl. exists p. split; [reflexivity|]. split; [exact Hl|].
  apply normalizePath_nonempty. exact Hn.
Qed.

Lemma findIndex_lt nm arr c : findIndex nm arr = Some c -> c < length arr.
Proof. intros H. apply findIndex_Some in H. eapply lookup_lt_Some. exact H. Qed.

Section OnNode.

Variables (m : Machine) (path p : jsstring) (l : loc).

Hypothesis Ht : tidy m.
Hypothesis Hnorm : normalizePath (Some path) = str p.
Hypothesis Hl : STATE_TREE m !! p = Some l.
Hypothesis Hp : p <> [].

Let i := info_of (deref m l).

Lemma node_view : view m !! p = Some i.
Proof. apply view_Some. eauto. Qed.

Lemma node_getState : getState m path = Some l.
Proof. unfold getState. rewrite Hnorm. exact Hl. Qed.

Lemma node_cc : cc (deref m l) = if decide (kids i = []) then None else Some (kids i).
Proof.
  pose proof (tidy_valid m p l Ht Hl) as Hv.
  destruct (object_ok_deref m l (td_store m Ht) Hv) as [_ Hcs _ _].
  subst i. cbn. destruct (cc (deref m l)) as [names|] eqn:Hn; cbn.
  - destruct (Hcs names eq_refl) as (Hne & _). rewrite decide_False by exact Hne. reflexivity.
  - reflexivity.
Qed.

Lemma setCurrent_effect nm :
  match cur i with
  | None => exists e, setCurrent path nm m = (Normal (str e), m)
  | Some _ =>
      match findIndex nm (kids i) with
      | None => exists e, setCurrent path nm m = (Normal (str e), m)
      | Some c =>
          let m' := store l (set_curr c (deref m l)) m in
          setCurrent path nm m = (Normal null, m') /\ tidy m' /\
          view m' = <[p := set_cur_info c i]> (view m)
      end
  end.
Proof.
  unfold setCurrent. rewrite node_getState.
  pose proof (tidy_valid m p l Ht Hl) as Hv.
  destruct (object_ok_deref m l (td_store m Ht) Hv) as [Hc Hcs _ _].
  change (cur i) with (curr (deref m l)). change (kids i) with (default [] (cc (deref m l))).
  destruct (curr (deref m l)) as [j|] eqn:Hj; [|eauto].
  destruct (Hc j Hj) as (names & Hn & Hne & _). rewrite Hn. cbn [default from_option id].
  destruct (findIndex nm names) as [c|] eqn:Hc'; [|eauto].
  cbv zeta. split; [reflexivity|].
  assert (Hview : view (store l (set_curr c (deref m l)) m) =
                  <[p := set_cur_info c i]> (view m))
    by (rewrite (store_view m l _ p Ht Hl); reflexivity).
  split; [|exact Hview]. split.
  - pose proof (store_ok_setCurrent path nm m (td_store m Ht)) as H.
    unfold setCurrent in H. rewrite node_getState, Hj, Hn, Hc' in H. exact H.
  - apply links_ok_store; [apply Ht | reflexivity | reflexivity].
  - rewrite Hview. apply (shape_modify (view m) p i); auto.
    + apply Ht.
    + apply node_view.
    + unfold sep_of. subst i. cbn [set_cur_info cur info_of]. rewrite Hj.
      rewrite !bool_decide_eq_true_2 by eauto. reflexivity.
    + intros x [= <-]. subst i. cbn [info_of kids]. rewrite Hn. cbn.
      eapply findIndex_lt. exact Hc'.
    + intros Hroot. contradiction.
    + intros v Hv'. destruct (sh_dat _ (td_shape m Ht) p i v node_view Hv') as [H1 H2].
      split; [exact H1|]. split; [exact H2|]. intros Hnone.
      change (dat (set_cur_info c i)) with (dat i) in Hv'. congruence.
    + intros _. subst i. cbn [info_of cur]. rewrite Hj. discriminate.
Qed.

Lemma setData_effect v pk sep nm pi :
  path <> [] -> line_safe v ->
  p = child_path pk sep nm -> is_separator sep -> plain_name nm ->
  view m !! pk = Some pi ->
  if decide (kids i = [] /\ cur pi = None) then
    let m' := store l (set_data v (deref m l)) m in
    setData path v m = (Normal null, m') /\ tidy m' /\
    view m' = <[p := set_dat_info v i]> (view m)
  else exists e, setData path v m = (Normal (str e), m).
Proof.
  intros Hpath Hsafe Hdec Hsep Hplain Hpk.
  destruct (shape_parent_unique _ _ _ _ _ _ _ (td_shape m Ht) node_view Hdec Hsep Hplain Hpk)
    as (Hsepof & Hin & Hdatp).
  apply view_Some in Hpk as (pl & Hpl & Hpi).
  destruct (lk_parent m (td_links m Ht) pk sep nm l pl Hsep Hplain) as [Hpar _];
    [rewrite <- Hdec; exact Hl | exact Hpl |].
  unfold setData, isLeaf, isVariableLeaf. rewrite node_getState, node_cc, Hpar.
  assert (Htruthy : truthy path = true) by (destruct path; [congruence | reflexivity]).
  rewrite Htruthy. cbn [negb].
  change (curr (deref m pl)) with (cur (info_of (deref m pl))). rewrite <- Hpi.
  destruct (decide (kids i = [])) as [Hnil|Hne].
  2:{ rewrite decide_False by tauto.
      rewrite bool_decide_eq_false_2 by discriminate. cbn [negb]. eauto. }
  rewrite bool_decide_eq_true_2 by reflexivity. cbn [negb].
  rewrite (bool_decide_eq_false_2 (is_Some None)) by (intros [? ?]; discriminate).
  destruct (cur pi) as [c|] eqn:Hc.
  { rewrite decide_False by (intros [_ ?]; discriminate).
    rewrite bool_decide_eq_true_2 by eauto. eauto. }
  rewrite decide_True by auto.
  rewrite (bool_decide_eq_false_2 (is_Some None)) by (intros [? ?]; discriminate).
  cbv zeta. split; [reflexivity|].
  assert (Hview : view (store l (set_data v (deref m l)) m) =
                  <[p := set_dat_info v i]> (view m))
    by (rewrite (store_view m l _ p Ht Hl); reflexivity).
  split; [|exact Hview]. split.
  - pose proof (store_ok_setData path v m (td_store m Ht)) as H.
    unfold setData, isLeaf, isVariableLeaf in H.
    rewrite node_getState, node_cc, Hpar, Htruthy in H.
    rewrite decide_True in H by exact Hnil.
    rewrite bool_decide_eq_true_2 in H by reflexivity. cbn [negb] in H.
    rewrite (bool_decide_eq_false_2 (is_Some None)) in H by (intros [? ?]; discriminate).
    change (curr (deref m pl)) with (cur (info_of (deref m pl))) in H.
    rewrite <- Hpi, Hc in H.
    rewrite (bool_decide_eq_false_2 (is_Some None)) in H by (intros [? ?]; discriminate).
    exact H.
  - apply links_ok_store; [apply Ht | reflexivity | reflexivity].
  - rewrite Hview. apply (shape_modify (view m) p i); auto.
    + apply Ht.
    + apply node_view.
    + intros x Hx. eapply sh_cur; [apply Ht | apply node_view | exact Hx].
    + intros Hroot. contradiction.
    + intros w [= <-]. split; [exact Hnil|]. split; [exact Hsafe|].
      intros _ pk' nm' pi' Hdec' Hpk' Hin'.
      destruct (sh_kids _ (td_shape m Ht) _ _ _ Hpk' Hin') as [Hnok _].
      rewrite Hdec in Hdec'.
      apply child_path_inj in Hdec' as (<- & _ & _);
        auto using sep_of_separator, name_ok_plain.
      apply view_Some in Hpk' as (pl' & Hpl' & ->).
      assert (pl' = pl) by congruence. subst pl'. rewrite <- Hpi. exact Hc.
Qed.

End OnNode.

Lemma tidy_setCurrent path nm m :
  tidy m -> path <> [] ->
  tidy (snd (setCurrent path nm m)) /\ _live (snd (setCurrent path nm m)) = _live m.
Proof.
  intros Ht Hpath.
  destruct (getState m path) as [l|] eqn:Hl.
  2:{ unfold setCurrent. rewrite Hl. auto. }
  destruct (getState_key m path l Hl) as (p & Hn & Hp & Hne).
  pose proof (setCurrent_effect m path p l Ht Hn Hp (Hne Hpath) nm) as H.
  destruct (cur (info_of (deref m l))); [|destruct H as [e ->]; auto].
  destruct (findIndex nm (kids (info_of (deref m l)))); [|destruct H as [e ->]; auto].
  destruct H as (-> & H & _). auto.
Qed.

Lemma tidy_setData path v m :
  tidy m -> path <> [] -> line_safe v ->
  tidy (snd (setData path v m)) /\ _live (snd (setData path v m)) = _live m.
Proof.
  intros Ht Hpath Hsafe.
  destruct (getState m path) as [l|] eqn:Hl.
  2:{ unfold setData, isLeaf. rewrite Hl. auto. }
  destruct (getState_key m path l Hl) as (p & Hn & Hp & Hne).
  specialize (Hne Hpath).
  assert (Hv : view m !! p = Some (info_of (deref m l))) by (apply view_Some; eauto).
  destruct (sh_parent _ (td_shape m Ht) _ _ Hv Hne) as (pk & nm & pi & Hdec & Hpk & Hin & _).
  destruct (sh_kids _ (td_shape m Ht) _ _ _ Hpk Hin) as [Hnok _].
  pose proof (setData_effect m path p l Ht Hn Hp Hne v pk (sep_of pi) nm pi Hpath Hsafe Hdec
                (sep_of_separator pi) (name_ok_plain _ Hnok) Hpk) as H.
  destruct (decide _); [destruct H as (-> & H & _); auto | destruct H as [e ->]; auto].
Qed.

(** ** Adding states to a tidy machine *)

Lemma path_char_name_char c :
  is_path_char c = true -> c <> "."%char -> c <> "/"%char -> is_name_char c = true.
Proof. by_ascii_cases c. Qed.

Lemma tidy_plain_name_ok nm : tidy_path nm -> plain_name nm -> nm <> [] -> name_ok nm.
Proof.
  intros Ht [Hdot Hslash] Hne. split; [exact Hne|].
  intros c Hc. destruct (Ht c Hc) as [Hp Hl]. split; [|exact Hl].
  apply path_char_name_char; [exact Hp | |].
  - eapply includes_false in Hdot; eauto.
  - eapply includes_false in Hslash; eauto.
Qed.

Lemma normalize_argument s p :
  path_argument s -> normalizePath s = str p -> tidy_path p.
Proof.
  intros Harg. destruct s as [[|c r]|]; cbn [normalizePath].
  - intros [= <-] x Hx. inversion Hx.
  - destruct (Pat.PATHPAT (c :: r)); [|discriminate]. intros [= <-].
    specialize (Harg (c :: r) eq_refl).
    rewrite trim_no_space by (intros x Hx; apply path_char_not_space, Harg, Hx).
    intros x Hx. unfold toLowerCase in Hx. apply list_elem_of_fmap in Hx as (y & -> & Hy).
    rewrite lower_char_path_char, lower_char_idemp. split; [apply Harg, Hy | reflexivity].
  - intros [= <-] x Hx. inversion Hx.
Qed.

Lemma exists__tidy m k :
  tidy_path k -> exists_ m k = bool_decide (is_Some (STATE_TREE m !! k)).
Proof. intros Hk. apply exists__normal, normalizePath_tidy, Hk. Qed.

Lemma attached_live k sep nm pl m : _live (attached k sep nm pl m) = _live m.
Proof. reflexivity. Qed.

Lemma kept_refl p m : tidy m -> kept p m m.
Proof. intros Ht. split; [exact Ht|]. split; reflexivity. Qed.

Lemma tidy_attach_kept m k sep nm pl :
  tidy m -> STATE_TREE m !! k = Some pl -> name_ok nm -> is_separator sep ->
  STATE_TREE m !! child_path k sep nm = None ->
  kept (child_path k sep nm) m (snd (attach k sep nm pl m)).
Proof.
  intros Ht Hk Hname Hsep Hnew.
  destruct (attach_tidy m k sep nm pl Ht Hk Hname Hsep Hnew)
    as [(_ & _ & -> & Ht') | (_ & e & ->)]; [|apply kept_refl, Ht].
  split; [exact Ht'|]. split; [reflexivity|].
  intros q Hq. cbn [snd]. rewrite attached_tree.
  apply lookup_insert_ne. intros <-. lia.
Qed.

Lemma last_separator_parts (path : jsstring) pos :
  last_separator path = Some pos ->
  exists pp sep nm, is_separator sep /\ plain_name nm /\
    slice path 0 pos = pp /\ slice path pos (S pos) = sep /\
    sliceFrom path (S pos) = nm /\ path = child_path pp sep nm.
Proof.
  intros H. destruct (last_separator_split path pos H) as (sep & Hsep & Hs & Hp & Hplain).
  exists (slice path 0 pos), sep, (sliceFrom path (S pos)). auto 10.
Qed.

Lemma tidy__addState fuel p m :
  tidy m -> tidy_path p -> kept p m (snd (_addState fuel p m)).
Proof.
  revert p m. induction fuel as [|fuel IH]; intros p m Ht Hp; [apply kept_refl, Ht|].
  rewrite _addState_S, exists__tidy by exact Hp.
  case_bool_decide as Hex; [apply kept_refl, Ht|].
  assert (Hnew : STATE_TREE m !! p = None).
  { destruct (STATE_TREE m !! p) eqn:E; [exfalso; apply Hex; eauto | reflexivity]. }
  destruct (last_separator p) as [pos|] eqn:Hpos; [|apply kept_refl, Ht].
  destruct (last_separator_parts p pos Hpos)
    as (pp & sep & nm & Hsep & Hplain & -> & -> & -> & Hsplit).
  subst p.
  assert (Htp : tidy_path pp /\ tidy_path nm).
  { unfold child_path in Hp.
    apply tidy_path_app in Hp as [H1 H2]. apply tidy_path_app in H2 as [_ H2]. auto. }
  destruct Htp as [Hpp Hnm].
  assert (Hlen : length pp < length (child_path pp sep nm))
    by (rewrite child_path_length by exact Hsep; lia).
  unfold _addSubState_with.
  destruct (Pat.NAMEPAT nm) eqn:Hpat; cbn [negb]; [|apply kept_refl, Ht].
  pose proof (tidy_plain_name_ok nm Hnm Hplain (existsb_nonempty _ _ Hpat)) as Hname.
  rewrite (SEPPAT_separator _ Hsep). cbn [negb].
  destruct (STATE_TREE m !! pp) as [pl|] eqn:Hpl.
  { apply tidy_attach_kept; auto. }
  destruct (IH pp m Ht Hpp) as (Ht' & Hlive' & Hframe').
  destruct (_addState fuel pp m) as [r m'] eqn:Hrec. cbn [snd] in *.
  assert (Hkept' : kept (child_path pp sep nm) m m').
  { split; [exact Ht'|]. split; [exact Hlive'|]. intros q Hq. apply Hframe'. lia. }
  destruct r as [[| |e]| |]; try exact Hkept'.
  destruct (STATE_TREE m' !! pp) as [pl|] eqn:Hpl'; [|exact Hkept'].
  assert (Hnew' : STATE_TREE m' !! child_path pp sep nm = None).
  { rewrite Hframe' by exact Hlen. exact Hnew. }
  destruct (tidy_attach_kept m' pp sep nm pl Ht' Hpl' Hname Hsep Hnew')
    as (Ht'' & Hlive'' & Hframe'').
  split; [exact Ht''|]. split; [congruence|].
  intros q Hq. rewrite Hframe'' by exact Hq.
  apply Hframe'. lia.
Qed.

Lemma tidy_addState s m :
  tidy m -> path_argument s ->
  tidy (snd (addState s m)) /\ _live (snd (addState s m)) = _live m.
Proof.
  intros Ht Harg. unfold addState. destruct (isLive m); [auto|].
  destruct (normalizePath s) as [| |p] eqn:Hn; auto.
  destruct (tidy__addState (addState_fuel p) p m Ht (normalize_argument s p Harg Hn))
    as (H1 & H2 & _). auto.
Qed.

(** The machines of a tidy history are tidy. *)
Lemma tidy_steps_tidy m : tidy_steps m -> tidy m.
Proof.
  induction 1.
  - apply tidy_new_Machine.
  - apply tidy_makeEmpty. assumption.
  - unfold startEditing. destruct (negb (_live m)); [assumption|].
    apply tidy_set_live. assumption.
  - unfold finishEditing. destruct (_live m); [assumption|].
    apply tidy_set_live. assumption.
  - apply tidy_addState; assumption.
  - apply tidy_setCurrent; assumption.
  - apply tidy_setData; assumption.
Qed.

(** ** The lines of a serialization, interpreted *)

Lemma takeWhile_app_all (p : ascii -> bool) (a b : jsstring) :
  (forall c, c ∈ a -> p c = true) ->
  takeWhile p (a ++ b) = a ++ takeWhile p b /\ dropWhile p (a ++ b) = dropWhile p b.
Proof.
  intros Ha. induction a as [|c a IH]; [split; reflexivity|].
  cbn. rewrite (Ha c) by left.
  destruct IH as [-> ->]; [intros; apply Ha; right; assumption|]. split; reflexivity.
Qed.

Lemma takeWhile_stop (p : ascii -> bool) (s : jsstring) :
  match s with [] => True | c :: _ => p c = false end ->
  takeWhile p s = [] /\ dropWhile p s = s.
Proof. destruct s as [|c s]; [split; reflexivity|]. intros H. cbn. rewrite H. auto. Qed.

(** A greedy run: all of [a], up to [b], which does not start in the
    class. *)
Lemma plus_run (p : ascii -> bool) (a b : jsstring) :
  a <> [] -> (forall c, c ∈ a -> p c = true) ->
  match b with [] => True | c :: _ => p c = false end ->
  Pat.plus p (a ++ b) = Some (a, b).
Proof.
  intros Hne Ha Hb. unfold Pat.plus.
  destruct (takeWhile_app_all p a b Ha) as [-> ->].
  destruct (takeWhile_stop p b Hb) as [-> ->]. rewrite app_nil_r.
  destruct a; [congruence | reflexivity].
Qed.

Lemma ends_plain_app a b : ends_plain b -> ends_plain (a ++ b).
Proof.
  unfold ends_plain. rewrite rev_app_distr.
  destruct (rev b) as [|c r]; [contradiction | auto].
Qed.

Lemma trim_plain s : starts_plain s -> ends_plain s -> trim s = s.
Proof.
  intros Hs He. unfold trim. rewrite trimStart_id.
  - apply trimEnd_id. unfold ends_plain in He. destruct (rev s); [contradiction | exact He].
  - destruct s; [contradiction | exact Hs].
Qed.

Lemma no_space_plain s :
  s <> [] -> (forall c, c ∈ s -> is_space c = false) -> starts_plain s /\ ends_plain s.
Proof.
  intros Hne Hs. split.
  - destruct s as [|c r]; [congruence|]. apply Hs. left.
  - unfold ends_plain. destruct (rev s) as [|c r] eqn:E.
    + apply (f_equal (@rev _)) in E. rewrite rev_involutive in E. contradiction.
    + apply Hs. apply list_elem_of_In, in_rev. rewrite E. left. reflexivity.
Qed.

Lemma tidy_path_plain k : tidy_path k -> k <> [] -> starts_plain k /\ ends_plain k.
Proof.
  intros Hk Hne. apply no_space_plain; [exact Hne|].
  intros c Hc. apply path_char_not_space, Hk, Hc.
Qed.

Lemma name_ok_ends nm : name_ok nm -> starts_plain nm /\ ends_plain nm.
Proof.
  intros Hnm. apply tidy_path_plain; [apply name_ok_tidy; exact Hnm | apply Hnm].
Qed.

Lemma line_safe_plain v : line_safe v -> v <> [] -> starts_plain v /\ ends_plain v.
Proof.
  intros [Htrim _] Hne. split.
  - pose proof (trimEnd_head (trimStart v) (trimStart_head v)) as H.
    fold (trim v) in H. rewrite Htrim in H. destruct v; [congruence | exact H].
  - unfold ends_plain. destruct (rev v) as [|c r] eqn:E.
    + apply (f_equal (@rev _)) in E. rewrite rev_involutive in E. contradiction.
    + apply (trimEnd_last (trimStart v) (rev r)).
      fold (trim v). rewrite Htrim.
      apply (f_equal (@rev _)) in E. rewrite rev_involutive in E. exact E.
Qed.

Lemma starts_plain_stop s :
  starts_plain s -> match s with [] => True | c :: _ => is_space c = false end.
Proof. destruct s; [contradiction | auto]. Qed.

Lemma space_not_path_char c : is_space c = true -> is_path_char c = false.
Proof. by_ascii_cases c. Qed.

(** The shared prefix of the command patterns, on a line made of the
    letter, a space, a path and the rest. *)
Lemma command_path_line x k rest :
  tidy_path k -> k <> [] ->
  match rest with [] => True | c :: _ => is_path_char c = false end ->
  Pat.command_path x (x :: " "%char :: k ++ rest) = Some (k, rest).
Proof.
  intros Hk Hne Hrest. unfold Pat.command_path.
  rewrite bool_decide_eq_true_2 by reflexivity.
  destruct (tidy_path_plain k Hk Hne) as [Hs _].
  assert (Hplus : Pat.plus is_space (" "%char :: k ++ rest) = Some ([" "%char], k ++ rest)).
  { apply (plus_run is_space [" "%char] (k ++ rest)); [discriminate | |].
    - intros c Hc. apply list_elem_of_singleton in Hc as ->. reflexivity.
    - destruct k; [congruence | exact Hs]. }
  rewrite Hplus. cbn. apply plus_run; auto. intros c Hc. apply Hk, Hc.
Qed.

Lemma PPAT_line c : tidy_path c -> c <> [] -> Pat.PPAT ("P"%char :: " "%char :: c) = Some c.
Proof.
  intros Hc Hne. unfold Pat.PPAT.
  rewrite <- (app_nil_r c) at 1. rewrite command_path_line; auto.
Qed.

Lemma CPAT_line k nm :
  tidy_path k -> k <> [] -> name_ok nm ->
  Pat.CPAT ("C"%char :: " "%char :: k ++ " "%char :: nm) = Some (k, nm).
Proof.
  intros Hk Hne Hnm. unfold Pat.CPAT.
  rewrite command_path_line by (auto; reflexivity). cbn.
  destruct (name_ok_ends nm Hnm) as [Hs _].
  assert (Hplus : Pat.plus is_space (" "%char :: nm) = Some ([" "%char], nm)).
  { apply (plus_run is_space [" "%char] nm); [discriminate | |].
    - intros c Hc. apply list_elem_of_singleton in Hc as ->. reflexivity.
    - apply starts_plain_stop, Hs. }
  rewrite Hplus. cbn.
  rewrite <- (app_nil_r nm) at 1.
  rewrite plus_run; [reflexivity | apply Hnm | | exact I].
  intros c Hc. apply Hnm, Hc.
Qed.

Lemma dot_star_safe v : line_safe v -> Pat.dot_star v = v.
Proof.
  intros [_ Hv]. unfold Pat.dot_star. induction v as [|c v IH]; [reflexivity|].
  cbn. rewrite (Hv c) by left. cbn. f_equal. apply IH.
  intros d Hd. apply Hv. right. exact Hd.
Qed.

Lemma DPAT_line c v :
  tidy_path c -> c <> [] -> line_safe v -> v <> [] ->
  Pat.DPAT ("D"%char :: " "%char :: c ++ " "%char :: v) = Some (c, v).
Proof.
  intros Hc Hne Hv Hvne. unfold Pat.DPAT.
  rewrite command_path_line by (auto; reflexivity). cbn.
  destruct (line_safe_plain v Hv Hvne) as [Hs _].
  assert (Hplus : Pat.plus is_space (" "%char :: v) = Some ([" "%char], v)).
  { apply (plus_run is_space [" "%char] v); [discriminate | |].
    - intros x Hx. apply list_elem_of_singleton in Hx as ->. reflexivity.
    - apply starts_plain_stop, Hs. }
  rewrite Hplus. cbn. rewrite dot_star_safe by exact Hv. reflexivity.
Qed.

Lemma interpretOp_line x s m :
  is_space x = false -> ends_plain (x :: s) ->
  interpretOp (Some (x :: s)) m =
  (let s := x :: s in
   if Pat.COMMENT s then (Normal null, m)
   else if startsWith s "C" then
     match Pat.CPAT s with
     | Some (path, child) =>
         let path := if endsWith path "/" then slice path 0 (length path - 1) else path in
         setCurrent path child m
     | None => (Normal (syntax_error s $"C" Pat.CPAT_source), m)
     end
   else if startsWith s "D" then
     match Pat.DPAT s with
     | Some (path, v) => setData path v m
     | None =>
         match Pat.DNULLPAT s with
         | Some path => setData path [] m
         | None => (Normal (syntax_error s $"D" Pat.DPAT_source), m)
         end
     end
   else if startsWith s "A" then
     match Pat.APAT s with
     | Some _ => (TypeError, m)
     | None => (Normal (syntax_error s $"A" Pat.APAT_source), m)
     end
   else if startsWith s "P" then
     if negb (isEditing m) then
       (Normal (str ($"interpretOp " ++ s ++ newline ++ $"P - not editing")), m)
     else
       match Pat.PPAT s with
       | Some path => addState (Some path) m
       | None => (Normal (syntax_error s $"P" Pat.PPAT_source), m)
       end
   else
     (Normal (str ($"interpretOp: " ++ s ++ newline ++ $"bad command: " ++ slice s 0 1)), m)).
Proof.
  intros Hx He. unfold interpretOp. rewrite trim_plain by assumption. reflexivity.
Qed.

Lemma interpretOp_P_line c m :
  tidy_path c -> c <> [] -> _live m = false ->
  interpretOp (Some (P_line c)) m = addState (Some c) m.
Proof.
  intros Hc Hne Hlive. unfold P_line.
  change ($"P " ++ c) with ("P"%char :: " "%char :: c).
  rewrite interpretOp_line;
    [|reflexivity | apply (ends_plain_app ["P"%char; " "%char]), tidy_path_plain; auto].
  cbv zeta. unfold Pat.COMMENT, startsWith, isEditing.
  rewrite Hlive, PPAT_line by auto. reflexivity.
Qed.

Lemma interpretOp_P_root m :
  _live m = false ->
  interpretOp (Some (P_line [])) m = (Normal (syntax_error $"P" $"P" Pat.PPAT_source), m).
Proof.
  intros Hlive. unfold P_line, interpretOp, isEditing.
  change (trim ($"P " ++ [])) with $"P". unfold Pat.COMMENT, startsWith, isEditing.
  rewrite Hlive. reflexivity.
Qed.

Lemma endsWith_app_plain (a b : jsstring) c :
  b <> [] -> (forall d, d ∈ b -> d <> c) -> endsWith (a ++ b) c = false.
Proof.
  intros Hne Hb. unfold endsWith, startsWith. rewrite rev_app_distr.
  destruct (rev b) as [|d r] eqn:E.
  - apply (f_equal (@rev _)) in E. rewrite rev_involutive in E. contradiction.
  - cbn. apply bool_decide_eq_false. apply Hb.
    apply list_elem_of_In, in_rev. rewrite E. left. reflexivity.
Qed.

Lemma interpretOp_C_line k nm m :
  tidy_path k -> k <> [] -> endsWith k "/" = false -> name_ok nm ->
  interpretOp (Some (C_line k nm)) m = setCurrent k nm m.
Proof.
  intros Hk Hne Hend Hnm. unfold C_line.
  change ($"C " ++ k ++ $" " ++ nm) with ("C"%char :: " "%char :: k ++ " "%char :: nm).
  rewrite interpretOp_line; [|reflexivity|].
  2:{ replace ("C"%char :: " "%char :: k ++ " "%char :: nm)
        with (("C"%char :: " "%char :: k ++ [" "%char]) ++ nm)
        by (cbn; rewrite <- app_assoc; reflexivity).
      apply ends_plain_app, name_ok_ends, Hnm. }
  cbv zeta. unfold Pat.COMMENT, startsWith.
  rewrite CPAT_line by auto. fold (startsWith (rev k) "/"). fold (endsWith k "/").
  rewrite Hend. reflexivity.
Qed.

Lemma interpretOp_D_line c v m :
  tidy_path c -> c <> [] -> line_safe v -> v <> [] ->
  interpretOp (Some (D_line c v)) m = setData c v m.
Proof.
  intros Hc Hne Hv Hvne. unfold D_line.
  change ($"D " ++ c ++ $" " ++ v) with ("D"%char :: " "%char :: c ++ " "%char :: v).
  rewrite interpretOp_line; [|reflexivity|].
  2:{ replace ("D"%char :: " "%char :: c ++ " "%char :: v)
        with (("D"%char :: " "%char :: c ++ [" "%char]) ++ v)
        by (cbn; rewrite <- app_assoc; reflexivity).
      apply ends_plain_app, line_safe_plain; auto. }
  cbv zeta. unfold Pat.COMMENT, startsWith.
  rewrite DPAT_line by auto. reflexivity.
Qed.

(** ** The serialization of a tidy machine *)

Lemma split_path_child k sep nm :
  is_separator sep -> plain_name nm -> split_path (child_path k sep nm) = Some (k, nm).
Proof.
  intros Hsep Hplain. unfold split_path.
  rewrite (last_separator_child _ _ _ Hsep Hplain). cbn.
  destruct (slice_child k sep nm Hsep) as (-> & _ & ->). reflexivity.
Qed.

Lemma _snipChild_child k nm :
  plain_name nm -> _snipChild (child_path k $"/" nm) = Some (k, nm).
Proof.
  intros [Hdot Hslash]. unfold _snipChild, child_path.
  rewrite !lastIndexOf_app.
  apply lastIndexOf_None in Hslash. rewrite Hslash.
  change (lastIndexOf "/" $"/") with (Some 0). cbv beta iota. rewrite Nat.add_0_r.
  destruct (slice_child k $"/" nm) as (H1 & _ & H3); [right; reflexivity|].
  unfold child_path in H1, H3. rewrite H1, H3, Hdot. reflexivity.
Qed.

Lemma dfs_dom sel a fuel k :
  shape_ok a -> (forall i nm, nm ∈ sel i -> nm ∈ kids i) ->
  forall p, p ∈ dfs sel a fuel k -> is_Some (a !! p).
Proof.
  intros Hsh Hsel. revert k. induction fuel as [|fuel IH]; intros k p Hp; [inversion Hp|].
  cbn [dfs] in Hp. destruct (a !! k) as [i|] eqn:Hk; [|inversion Hp].
  apply list_elem_of_In, in_flat_map in Hp as (nm & Hnm & Hp).
  apply list_elem_of_In in Hnm.
  destruct Hp as [<- | Hp].
  - eapply sh_kids; eauto.
  - apply list_elem_of_In in Hp. eapply IH; eauto.
Qed.

Section SerializePath.

Variable m : Machine.
Hypothesis Ht : tidy m.

Lemma serialize_root serial :
  serialize_path m [] serial = Normal (serial ++ lines_of (view m) []).
Proof.
  destruct (ok_root m (td_store m Ht)) as (r & Hr & Hpr).
  unfold serialize_path. rewrite getState_root, Hr, Hpr. cbn.
  destruct (data (deref m r)); reflexivity.
Qed.

Lemma serialize_child serial k nm pi ci :
  view m !! k = Some pi -> nm ∈ kids pi ->
  view m !! child_path k (sep_of pi) nm = Some ci ->
  serialize_path m (child_path k (sep_of pi) nm) serial =
  Normal (serial ++ lines_of (view m) (child_path k (sep_of pi) nm)).
Proof.
  intros Hk Hin Hc.
  destruct (sh_kids _ (td_shape m Ht) _ _ _ Hk Hin) as [Hnok _].
  pose proof (name_ok_plain _ Hnok) as Hplain.
  pose proof (sep_of_separator pi) as Hsep.
  pose proof Hk as Hk'. pose proof Hc as Hc'.
  apply view_Some in Hk' as (pl & Hpl & Hpi). apply view_Some in Hc' as (l & Hl & Hci).
  destruct (lk_parent m (td_links m Ht) k (sep_of pi) nm l pl Hsep Hplain Hl Hpl)
    as [Hpar Hnm].
  pose proof (sh_keys _ (td_shape m Ht) _ _ Hc) as Hctidy.
  unfold serialize_path, lines_of, extra_lines.
  rewrite getState_tidy by exact Hctidy. rewrite Hl, Hpar, Hnm.
  rewrite (split_path_child _ _ _ Hsep Hplain), Hk, Hc.
  cbn [fmap option_fmap option_map].
  change (curr (deref m pl)) with (cur (info_of (deref m pl))). rewrite <- Hpi.
  change (data (deref m l)) with (dat (info_of (deref m l))). rewrite <- Hci.
  destruct (cur pi) as [x|] eqn:Hx.
  - destruct (object_ok_deref m pl (td_store m Ht) (tidy_valid m k pl Ht Hpl)) as [Hcv _ _ _].
    destruct (Hcv x) as (names & Hn & _).
    { change (curr (deref m pl)) with (cur (info_of (deref m pl))). congruence. }
    rewrite Hn.
    assert (Hkids : kids pi = names) by (rewrite Hpi; cbn; rewrite Hn; reflexivity).
    rewrite Hkids.
    assert (Hs : sep_of pi = $"/").
    { unfold sep_of. rewrite Hx. rewrite bool_decide_eq_true_2 by eauto. reflexivity. }
    rewrite Hs, (_snipChild_child _ _ Hplain).
    rewrite (bool_decide_eq_false_2 (Some x = None)) by discriminate. cbn [andb].
    case_bool_decide as H0; cbn [andb].
    + case_bool_decide as H1; cbn [andb].
      * destruct (dat ci); rewrite <- app_assoc; reflexivity.
      * destruct (dat ci); reflexivity.
    + destruct (dat ci); reflexivity.
  - rewrite bool_decide_eq_true_2 by reflexivity. cbn [andb].
    destruct (dat ci) as [v|]; [|reflexivity].
    destruct (truthy v); [rewrite <- app_assoc|]; reflexivity.
Qed.

Lemma serialize_path_view serial c :
  is_Some (view m !! c) ->
  serialize_path m c serial = Normal (serial ++ lines_of (view m) c).
Proof.
  intros [ci Hc]. destruct (decide (c = [])) as [->|Hne]; [apply serialize_root|].
  destruct (sh_parent _ (td_shape m Ht) _ _ Hc Hne) as (k & nm & pi & -> & Hk & Hin & _).
  eapply serialize_child; eauto.
Qed.

Lemma getSerialization_view :
  getSerialization m =
  Normal (flat_map (lines_of (view m))
            ([] :: dfs all_kids (view m) (traversal_fuel m) [])).
Proof.
  unfold getSerialization. rewrite (getAllPaths_view m Ht).
  rewrite (forEach_flat_map _ (lines_of (view m))); [reflexivity|].
  intros c acc Hc. apply serialize_path_view.
  apply elem_of_cons in Hc as [-> | Hc].
  - destruct (sh_root _ (td_shape m Ht)) as (i & Hi & _). eauto.
  - eapply dfs_dom; [apply Ht | | exact Hc]. auto.
Qed.

End SerializePath.

(** ** One path replayed *)

Lemma apply_all_app a b m :
  apply_all (a ++ b) m =
  (fst (apply_all a m) ++ fst (apply_all b (snd (apply_all a m))),
   snd (apply_all b (snd (apply_all a m)))).
Proof.
  revert m. induction a as [|x a IH]; intros m.
  - cbn [app apply_all fst snd]. destruct (apply_all b m); reflexivity.
  - cbn [app apply_all fst snd]. rewrite IH. reflexivity.
Qed.

Lemma apply_all_one l m r m' :
  interpretOp (Some l) m = (r, m') -> apply_all [l] m = ([r], m').
Proof. intros H. cbn [apply_all]. rewrite H. reflexivity. Qed.

Lemma apply_all_cons l ls m r m' :
  interpretOp (Some l) m = (r, m') ->
  apply_all (l :: ls) m = (r :: fst (apply_all ls m'), snd (apply_all ls m')).
Proof. intros H. cbn [apply_all]. rewrite H. reflexivity. Qed.

Lemma findIndex_app_new nm (done : list jsstring) :
  nm ∉ done -> findIndex nm (done ++ [nm]) = Some (length done).
Proof.
  induction done as [|x done IH]; intros Hnot; cbn.
  - unfold eqb. rewrite bool_decide_eq_true_2 by reflexivity. reflexivity.
  - unfold eqb. rewrite bool_decide_eq_false_2.
    + rewrite IH; [reflexivity|]. intros H. apply Hnot. right. exact H.
    + intros ->. apply Hnot. left.
Qed.

Lemma replayed_kids_ext S S' q i :
  (forall nm, nm ∈ kids i ->
     child_path q (sep_of i) nm ∈ S <-> child_path q (sep_of i) nm ∈ S') ->
  replayed_kids S q i = replayed_kids S' q i.
Proof.
  intros H. unfold replayed_kids. induction (kids i) as [|x l IH]; [reflexivity|].
  rewrite !filter_cons.
  assert (Hx := H x (list_elem_of_here _ _)).
  destruct (decide (child_path q (sep_of i) x ∈ S)) as [Hin|Hout];
    destruct (decide (child_path q (sep_of i) x ∈ S')) as [Hin'|Hout']; try tauto;
    rewrite IH by (intros; apply H; right; assumption); reflexivity.
Qed.

Lemma filter_all {A} (P : A -> Prop) `{forall x, Decision (P x)} (l : list A) :
  (forall x, x ∈ l -> P x) -> filter P l = l.
Proof.
  induction l as [|x l IH]; intros Hl; [reflexivity|].
  rewrite filter_cons. rewrite decide_True by (apply Hl; left).
  f_equal. apply IH. intros; apply Hl; right; assumption.
Qed.

Lemma filter_none {A} (P : A -> Prop) `{forall x, Decision (P x)} (l : list A) :
  (forall x, x ∈ l -> ~ P x) -> filter P l = [].
Proof.
  induction l as [|x l IH]; intros Hl; [reflexivity|].
  rewrite filter_cons. rewrite decide_False by (apply Hl; left).
  apply IH. intros; apply Hl; right; assumption.
Qed.

Lemma replayed_kids_split S q i done todo :
  kids i = done ++ todo ->
  (forall nm, nm ∈ done -> child_path q (sep_of i) nm ∈ S) ->
  (forall nm, nm ∈ todo -> child_path q (sep_of i) nm ∉ S) ->
  replayed_kids S q i = done.
Proof.
  intros Hk Hdone Htodo. unfold replayed_kids. rewrite Hk, filter_app.
  rewrite (filter_all _ done) by exact Hdone.
  rewrite (filter_none _ todo) by exact Htodo. apply app_nil_r.
Qed.

Section ReplayStep.

Variables (a : gmap jsstring Info) (S : list jsstring) (R : Machine).
Variables (k nm : jsstring) (pi ci : Info) (done todo : list jsstring).

Hypothesis Hsh : shape_ok a.
Hypothesis HR : replaying a S R.
Hypothesis Hk : a !! k = Some pi.
Hypothesis Hkids : kids pi = done ++ nm :: todo.

Let sep := sep_of pi.
Let c := child_path k sep nm.

Hypothesis Hc : a !! c = Some ci.
Hypothesis HkS : k ∈ S.
Hypothesis Hdone : forall n, n ∈ done -> child_path k sep n ∈ S.
Hypothesis Htodo : forall n, n ∈ nm :: todo -> child_path k sep n ∉ S.
Hypothesis Hbelow : forall n, n ∈ kids ci -> child_path c (sep_of ci) n ∉ S.

Lemma step_nm_in : nm ∈ kids pi.
Proof. rewrite Hkids. apply elem_of_app. right. left. Qed.

Lemma step_name : name_ok nm.
Proof. eapply sh_kids; [exact Hsh | exact Hk | exact step_nm_in]. Qed.

Lemma step_nodup : NoDup (done ++ nm :: todo).
Proof. rewrite <- Hkids. eapply sh_nodup; eauto. Qed.

Lemma step_nm_fresh : nm ∉ done.
Proof.
  pose proof step_nodup as H. apply NoDup_app in H as (_ & H & _).
  intros Hin. apply (H nm Hin). left.
Qed.

Lemma step_index x : kids pi !! x = Some nm <-> x = length done.
Proof.
  split.
  - intros Hx. assert (H0 : kids pi !! length done = Some nm).
    { rewrite Hkids. rewrite lookup_app_r by lia. rewrite Nat.sub_diag. reflexivity. }
    eapply NoDup_lookup; [exact (sh_nodup _ Hsh _ _ Hk) | exact Hx | exact H0].
  - intros ->. rewrite Hkids. rewrite lookup_app_r by lia. rewrite Nat.sub_diag. reflexivity.
Qed.

Lemma step_tidy_k : tidy_path k.
Proof. eapply sh_keys; eauto. Qed.

Lemma step_tidy_c : tidy_path c.
Proof. eapply sh_keys; eauto. Qed.

Lemma step_c_new : c ∉ S.
Proof. apply Htodo. left. Qed.

Lemma step_pi_dat : dat pi = None.
Proof.
  destruct (dat pi) as [v|] eqn:Hv; [|reflexivity].
  destruct (sh_dat _ Hsh _ _ _ Hk Hv) as [Hnil _].
  pose proof step_nm_in as Hin. rewrite Hnil in Hin. inversion Hin.
Qed.

(** The information that [R] has of the parent. *)
Lemma step_parent_info :
  exists rk pl, STATE_TREE R !! k = Some pl /\ rk = info_of (deref R pl) /\
    kids rk = done /\ cur rk = replayed_cur pi (length done) /\ dat rk = None.
Proof.
  destruct (rp_info _ _ _ HR k HkS) as (i & rk & Hi & Hrk & Hkd & Hcu & Hda).
  assert (i = pi) by congruence. subst i.
  apply view_Some in Hrk as (pl & Hpl & Hrk).
  exists rk, pl. split; [exact Hpl|]. split; [exact Hrk|].
  assert (Hkd' : kids rk = done).
  { rewrite Hkd. apply (replayed_kids_split S k pi done (nm :: todo)); auto. }
  split; [exact Hkd'|]. split; [rewrite <- Hkd'; exact Hcu|].
  rewrite Hda. unfold replayed_dat. rewrite step_pi_dat. reflexivity.
Qed.

Lemma step_sep_of rk :
  kids rk = done -> cur rk = replayed_cur pi (length done) ->
  kids rk = [] \/ sep = sep_of rk.
Proof.
  intros Hkd Hcu. destruct done as [|d ds] eqn:Hd; [left; exact Hkd | right].
  subst sep. unfold sep_of. rewrite Hcu. cbn [replayed_cur length].
  destruct (cur pi) as [x|].
  - rewrite !bool_decide_eq_true_2 by eauto. reflexivity.
  - reflexivity.
Qed.

(** The [P] line. *)
Lemma step_P :
  exists rk pl R1,
    STATE_TREE R !! k = Some pl /\ rk = info_of (deref R pl) /\
    kids rk = done /\ cur rk = replayed_cur pi (length done) /\ dat rk = None /\
    interpretOp (Some (P_line c)) R = (Normal null, R1) /\
    tidy R1 /\ _live R1 = false /\
    view R1 = <[c := leaf_info]> (<[k := push_info nm sep rk]> (view R)).
Proof.
  destruct step_parent_info as (rk & pl & Hpl & Hrk & Hkd & Hcu & Hda).
  pose proof (rp_tidy _ _ _ HR) as Ht. pose proof (rp_editing _ _ _ HR) as Hed.
  pose proof (sep_of_separator pi) as Hsep. fold sep in Hsep.
  assert (Hnew : STATE_TREE R !! c = None).
  { destruct (STATE_TREE R !! c) eqn:E; [|reflexivity].
    exfalso. apply step_c_new. apply (rp_dom _ _ _ HR). apply view_is_Some. eauto. }
  exists rk, pl, (attached k sep nm pl R).
  repeat (split; [assumption|]).
  rewrite interpretOp_P_line;
    [| exact step_tidy_c | apply child_path_not_root; exact Hsep | exact Hed].
  rewrite (addState_child (Some c) R k sep nm pl); auto.
  2:{ apply normalizePath_tidy, step_tidy_c. }
  2:{ apply name_ok_NAMEPAT, step_name. }
  2:{ apply name_ok_plain, step_name. }
  destruct (attach_tidy R k sep nm pl Ht Hpl step_name Hsep Hnew)
    as [(_ & _ & Hatt & Ht') | ([Hd | [Hne Hs]] & _)].
  - split; [exact Hatt|]. split; [exact Ht'|]. split; [exact Hed|].
    rewrite (attached_view R k sep nm pl Ht Hpl); auto. rewrite <- Hrk. reflexivity.
  - rewrite <- Hrk, Hda in Hd. destruct Hd. discriminate.
  - rewrite <- Hrk in Hne, Hs. destruct (step_sep_of rk Hkd Hcu); contradiction.
Qed.

Lemma step_sep : is_separator sep.
Proof. apply sep_of_separator. Qed.

Lemma step_c_ne_k : c <> k.
Proof.
  intros E. apply (f_equal (@length _)) in E. subst c.
  rewrite child_path_length in E by apply sep_of_separator. lia.
Qed.

Lemma step_kids_k : replayed_kids (S ++ [c]) k pi = done ++ [nm].
Proof.
  apply (replayed_kids_split (S ++ [c]) k pi (done ++ [nm]) todo).
  - rewrite Hkids, <- app_assoc. reflexivity.
  - intros n Hn. apply elem_of_app. apply elem_of_app in Hn as [Hn | Hn].
    + left. apply Hdone, Hn.
    + right. apply list_elem_of_singleton in Hn as ->. left.
  - intros n Hn Hin. apply elem_of_app in Hin as [Hin | Hin].
    + apply (Htodo n); [right; exact Hn | exact Hin].
    + apply list_elem_of_singleton in Hin.
      assert (Hnk : n ∈ kids pi) by (rewrite Hkids; apply elem_of_app; right; right; exact Hn).
      destruct (sh_kids _ Hsh _ _ _ Hk Hnk) as [Hnok _].
      apply child_path_inj in Hin as (_ & _ & ->);
        auto using sep_of_separator, name_ok_plain, step_name, step_sep.
      pose proof step_nodup as Hnd. apply NoDup_app in Hnd as (_ & _ & Hnd).
      apply NoDup_cons in Hnd as [Hnd _]. contradiction.
Qed.

Lemma step_kids_c : replayed_kids (S ++ [c]) c ci = [].
Proof.
  unfold replayed_kids. apply filter_none. intros n Hn Hin.
  apply elem_of_app in Hin as [Hin | Hin]; [exact (Hbelow n Hn Hin)|].
  apply list_elem_of_singleton in Hin. apply (f_equal (@length _)) in Hin.
  rewrite child_path_length in Hin by apply sep_of_separator. lia.
Qed.

Lemma step_replayed_other q i r :
  a !! q = Some i -> q <> k -> replayed S q i r -> replayed (S ++ [c]) q i r.
Proof.
  intros Hq Hne (Hkd & Hcu & Hda). split; [|split; assumption].
  rewrite Hkd. apply replayed_kids_ext. intros n Hn.
  rewrite elem_of_app, list_elem_of_singleton. split; [auto|].
  intros [H | H]; [exact H|]. exfalso.
  destruct (sh_kids _ Hsh _ _ _ Hq Hn) as [Hnok _].
  apply child_path_inj in H as (-> & _ & _);
    auto using sep_of_separator, name_ok_plain, step_name, step_sep.
Qed.

(** The replaying machine after the lines of [c], from its view. *)
Lemma step_assemble R2 kinfo cinfo :
  tidy R2 -> _live R2 = false ->
  view R2 = <[c := cinfo]> (<[k := kinfo]> (view R)) ->
  replayed (S ++ [c]) k pi kinfo -> replayed (S ++ [c]) c ci cinfo ->
  replaying a (S ++ [c]) R2.
Proof.
  intros Ht Hed Hview Hrk Hrc. split; [exact Ht | exact Hed | |].
  - intros q. rewrite Hview, elem_of_app, list_elem_of_singleton.
    destruct (decide (c = q)) as [<-|Hne].
    + rewrite lookup_insert_eq. split; eauto.
    + rewrite lookup_insert_ne by exact Hne.
      destruct (decide (k = q)) as [<-|Hne'].
      * rewrite lookup_insert_eq. split; eauto.
      * rewrite lookup_insert_ne by exact Hne'. rewrite (rp_dom _ _ _ HR).
        split; [auto | intros [H | ->]; [exact H | contradiction]].
  - intros q Hq. rewrite Hview.
    destruct (decide (c = q)) as [<-|Hne].
    { exists ci, cinfo. rewrite lookup_insert_eq. auto. }
    rewrite lookup_insert_ne by exact Hne.
    destruct (decide (k = q)) as [<-|Hne'].
    { exists pi, kinfo. rewrite lookup_insert_eq. auto. }
    rewrite lookup_insert_ne by exact Hne'.
    apply elem_of_app in Hq as [Hq | Hq];
      [|apply list_elem_of_singleton in Hq; congruence].
    destruct (rp_info _ _ _ HR q Hq) as (i & r & Hi & Hr & Hrep).
    exists i, r. split; [exact Hi|]. split; [exact Hr|].
    apply step_replayed_other; auto.
Qed.

Lemma step_replayed_c_leaf :
  (is_Some (cur pi) \/ replayed_dat ci = None) -> replayed (S ++ [c]) c ci leaf_info.
Proof.
  intros Hcase. split; [symmetry; apply step_kids_c|]. split; [reflexivity|].
  cbn [leaf_info dat]. destruct Hcase as [Hcur | Hd]; [|auto].
  unfold replayed_dat. destruct (dat ci) as [v|] eqn:Hv; [|reflexivity].
  destruct (shape_parent_unique a c ci k sep nm pi Hsh Hc eq_refl
              (sep_of_separator pi) (name_ok_plain _ step_name) Hk) as (_ & _ & Hp).
  rewrite Hp in Hcur by eauto. destruct Hcur. discriminate.
Qed.

Lemma step_replayed_c_data v :
  dat ci = Some v -> truthy v = true ->
  replayed (S ++ [c]) c ci (set_dat_info v leaf_info).
Proof.
  intros Hv Htr. split; [symmetry; apply step_kids_c|]. split; [reflexivity|].
  cbn [set_dat_info dat]. unfold replayed_dat. rewrite Hv, Htr. reflexivity.
Qed.

Lemma step_push_cur rk :
  kids rk = done -> cur rk = replayed_cur pi (length done) ->
  cur (push_info nm sep rk) =
  match cur pi with
  | Some x => Some (if decide (x < length done) then x else 0)
  | None => None
  end.
Proof.
  intros Hkd Hcu. unfold push_info. cbn [cur]. rewrite Hcu. subst sep. unfold sep_of.
  destruct (cur pi) as [x|] eqn:Hx.
  - rewrite bool_decide_eq_true_2 by eauto. change (eqb $"/" $"/") with true.
    cbn [andb]. destruct done as [|d ds]; cbn [replayed_cur length]; rewrite ?Hx.
    + rewrite bool_decide_eq_true_2 by reflexivity.
      rewrite decide_False by lia. reflexivity.
    + rewrite bool_decide_eq_false_2 by discriminate. reflexivity.
  - rewrite (bool_decide_eq_false_2 (is_Some None)) by (intros [? ?]; discriminate).
    change (eqb $"." $"/") with false. cbn [andb].
    destruct (length done); cbn [replayed_cur]; rewrite ?Hx; reflexivity.
Qed.

Lemma step_replayed_k_push rk :
  kids rk = done -> cur rk = replayed_cur pi (length done) -> dat rk = None ->
  (forall x, cur pi = Some x -> x <> length done \/ x = 0) ->
  replayed (S ++ [c]) k pi (push_info nm sep rk).
Proof.
  intros Hkd Hcu Hda Hno.
  assert (Hk' : kids (push_info nm sep rk) = done ++ [nm]) by (cbn; rewrite Hkd; reflexivity).
  split; [rewrite step_kids_k; exact Hk'|]. split.
  - rewrite Hk', (step_push_cur rk Hkd Hcu), length_app. cbn [length].
    rewrite Nat.add_1_r. cbn [replayed_cur].
    destruct (cur pi) as [x|] eqn:Hx; [|reflexivity]. f_equal.
    destruct (Hno x eq_refl) as [Hne | ->];
      repeat case_decide; try reflexivity; lia.
  - cbn [push_info dat]. rewrite Hda. unfold replayed_dat. rewrite step_pi_dat. reflexivity.
Qed.

Lemma step_replayed_k_set rk x :
  kids rk = done -> dat rk = None -> cur pi = Some x -> x = length done ->
  replayed (S ++ [c]) k pi (set_cur_info (length done) (push_info nm sep rk)).
Proof.
  intros Hkd Hda Hx ->.
  assert (Hk' : kids (set_cur_info (length done) (push_info nm sep rk)) = done ++ [nm])
    by (cbn; rewrite Hkd; reflexivity).
  split; [rewrite step_kids_k; exact Hk'|]. split.
  - rewrite Hk', length_app. cbn [length]. rewrite Nat.add_1_r. cbn [replayed_cur].
    rewrite Hx. cbn [set_cur_info cur]. rewrite decide_True by lia. reflexivity.
  - cbn [set_cur_info push_info dat]. rewrite Hda. unfold replayed_dat.
    rewrite step_pi_dat. reflexivity.
Qed.

Lemma step_k_nonroot x : cur pi = Some x -> x <> 0 -> k <> [].
Proof.
  intros Hx Hne ->. destruct (sh_root _ Hsh) as (i & Hi & Hcur & _).
  assert (i = pi) by congruence. subst i. destruct Hcur; congruence.
Qed.

Lemma step_k_end : k <> [] -> endsWith k "/" = false.
Proof.
  intros Hne. destruct (sh_parent _ Hsh _ _ Hk Hne) as (pk & n & ppi & -> & Hpk & Hn & _).
  destruct (sh_kids _ Hsh _ _ _ Hpk Hn) as [[Hnn Hchars] _].
  unfold child_path. rewrite app_assoc. apply endsWith_app_plain; [exact Hnn|].
  intros d Hd. destruct (Hchars d Hd) as [H _]. apply name_char_plain in H. tauto.
Qed.

Section AfterP.

Variables (R1 : Machine) (rk : Info).

Hypothesis Ht1 : tidy R1.
Hypothesis Hed1 : _live R1 = false.
Hypothesis Hview1 : view R1 = <[c := leaf_info]> (<[k := push_info nm sep rk]> (view R)).
Hypothesis Hkd : kids rk = done.
Hypothesis Hcu : cur rk = replayed_cur pi (length done).

Lemma step_view1_k : view R1 !! k = Some (push_info nm sep rk).
Proof.
  rewrite Hview1. rewrite lookup_insert_ne by exact step_c_ne_k. apply lookup_insert_eq.
Qed.

Lemma step_view1_c : view R1 !! c = Some leaf_info.
Proof. rewrite Hview1. apply lookup_insert_eq. Qed.

Lemma step_C x :
  cur pi = Some x -> x <> 0 ->
  exists R2, interpretOp (Some (C_line k nm)) R1 = (Normal null, R2) /\
    tidy R2 /\ _live R2 = false /\
    view R2 = <[k := set_cur_info (length done) (push_info nm sep rk)]> (view R1).
Proof.
  intros Hx Hne. pose proof (step_k_nonroot x Hx Hne) as Hkne.
  rewrite interpretOp_C_line;
    [| exact step_tidy_k | exact Hkne | exact (step_k_end Hkne) | exact step_name].
  pose proof step_view1_k as Hvk. apply view_Some in Hvk as (l & Hl & Hi).
  pose proof (setCurrent_effect R1 k k l Ht1 (normalizePath_tidy k step_tidy_k) Hl Hkne nm)
    as H.
  rewrite <- Hi in H.
  assert (Hcur : is_Some (cur (push_info nm sep rk))).
  { rewrite (step_push_cur rk Hkd Hcu), Hx. eauto. }
  destruct Hcur as [y Hy]. rewrite Hy in H.
  assert (Hfind : findIndex nm (kids (push_info nm sep rk)) = Some (length done)).
  { cbn [push_info kids]. rewrite Hkd. apply findIndex_app_new, step_nm_fresh. }
  rewrite Hfind in H. destruct H as (Heq & Ht2 & Hv2).
  eexists. split; [exact Heq|]. split; [exact Ht2|]. split; [exact Hed1 | exact Hv2].
Qed.

Lemma step_D v :
  cur pi = None -> dat ci = Some v -> truthy v = true ->
  exists R2, interpretOp (Some (D_line c v)) R1 = (Normal null, R2) /\
    tidy R2 /\ _live R2 = false /\
    view R2 = <[c := set_dat_info v leaf_info]> (view R1).
Proof.
  intros Hx Hv Htr.
  destruct (sh_dat _ Hsh _ _ _ Hc Hv) as [_ Hsafe].
  assert (Hvne : v <> []) by (destruct v; [discriminate | discriminate]).
  assert (Hcne : c <> []) by (apply child_path_not_root, step_sep).
  rewrite interpretOp_D_line; [| exact step_tidy_c | exact Hcne | exact Hsafe | exact Hvne].
  pose proof step_view1_c as Hvc. apply view_Some in Hvc as (l & Hl & Hi).
  pose proof (setData_effect R1 c c l Ht1 (normalizePath_tidy c step_tidy_c) Hl Hcne
                v k sep nm (push_info nm sep rk) Hcne Hsafe eq_refl step_sep
                (name_ok_plain _ step_name) step_view1_k) as H.
  rewrite <- Hi in H.
  rewrite decide_True in H.
  2:{ split; [reflexivity|]. rewrite (step_push_cur rk Hkd Hcu), Hx. reflexivity. }
  destruct H as (Heq & Ht2 & Hv2).
  eexists. split; [exact Heq|]. split; [exact Ht2|]. split; [exact Hed1 | exact Hv2].
Qed.

End AfterP.

(** The lines of the path [c] add it to the replaying machine. *)
Lemma replay_step :
  exists rs R2, apply_all (lines_of a c) R = (rs, R2) /\
    Forall completes rs /\ replaying a (S ++ [c]) R2.
Proof.
  destruct step_P as (rk & pl & R1 & Hpl & Hrk & Hkd & Hcu & Hda & HP & Ht1 & Hed1 & Hv1).
  assert (Hnull : completes (Normal null)) by (eexists; reflexivity).
  unfold lines_of, extra_lines.
  pose proof (split_path_child k sep nm step_sep (name_ok_plain _ step_name)) as Hsp.
  fold c in Hsp. rewrite Hsp, Hk, Hc.
  destruct (cur pi) as [x|] eqn:Hx.
  - destruct (bool_decide (x <> 0) && bool_decide (kids pi !! x = Some nm)) eqn:Hcond.
    + apply andb_true_iff in Hcond as [H0 Hidx].
      apply bool_decide_eq_true in H0, Hidx. apply step_index in Hidx.
      destruct (step_C R1 rk Ht1 Hed1 Hv1 Hkd Hcu x Hx H0) as (R2 & HC & Ht2 & Hed2 & Hv2).
      exists [Normal null; Normal null], R2.
      split; [rewrite (apply_all_cons _ _ _ _ _ HP), (apply_all_one _ _ _ _ HC); reflexivity|].
      split; [repeat constructor; exact Hnull|].
      apply (step_assemble R2 (set_cur_info (length done) (push_info nm sep rk)) leaf_info);
        auto.
      * rewrite Hv2, Hv1. rewrite insert_insert_ne by exact (not_eq_sym step_c_ne_k).
        rewrite insert_insert_eq. reflexivity.
      * eapply step_replayed_k_set; eauto.
      * apply step_replayed_c_leaf. left. eauto.
    + exists [Normal null], R1.
      split; [apply apply_all_one; exact HP|]. split; [repeat constructor; exact Hnull|].
      apply (step_assemble R1 (push_info nm sep rk) leaf_info); auto.
      * apply step_replayed_k_push; auto. intros y Hy.
        assert (y = x) by congruence. subst y.
        apply andb_false_iff in Hcond as [H0 | Hidx].
        -- right. apply bool_decide_eq_false in H0. lia.
        -- left. apply bool_decide_eq_false in Hidx. intros E. apply Hidx, step_index, E.
      * apply step_replayed_c_leaf. left. eauto.
  - destruct (dat ci) as [v|] eqn:Hv; [destruct (truthy v) eqn:Htr|].
    + destruct (step_D R1 rk Ht1 Hed1 Hv1 Hkd Hcu v Hx Hv Htr) as (R2 & HD & Ht2 & Hed2 & Hv2).
      exists [Normal null; Normal null], R2.
      split; [rewrite (apply_all_cons _ _ _ _ _ HP), (apply_all_one _ _ _ _ HD); reflexivity|].
      split; [repeat constructor; exact Hnull|].
      apply (step_assemble R2 (push_info nm sep rk) (set_dat_info v leaf_info)); auto.
      * rewrite Hv2, Hv1. rewrite insert_insert_eq. reflexivity.
      * apply step_replayed_k_push; auto. intros y Hy. congruence.
      * apply step_replayed_c_data; auto.
    + exists [Normal null], R1.
      split; [apply apply_all_one; exact HP|]. split; [repeat constructor; exact Hnull|].
      apply (step_assemble R1 (push_info nm sep rk) leaf_info); auto.
      * apply step_replayed_k_push; auto. intros y Hy. congruence.
      * apply step_replayed_c_leaf. right. unfold replayed_dat. rewrite Hv, Htr. reflexivity.
    + exists [Normal null], R1.
      split; [apply apply_all_one; exact HP|]. split; [repeat constructor; exact Hnull|].
      apply (step_assemble R1 (push_info nm sep rk) leaf_info); auto.
      * apply step_replayed_k_push; auto. intros y Hy. congruence.
      * apply step_replayed_c_leaf. right. unfold replayed_dat. rewrite Hv. reflexivity.
Qed.

End ReplayStep.

(** ** The paths below a path *)

Lemma below_length c p : below c p -> length c < length p.
Proof. intros (s & x & -> & _). rewrite length_app. cbn. lia. Qed.

Lemma child_below k sep nm : is_separator sep -> nm <> [] -> below k (child_path k sep nm).
Proof.
  intros Hsep _. unfold child_path.
  destruct Hsep as [-> | ->]; eexists _, nm; split; [reflexivity | auto | reflexivity | auto].
Qed.

Lemma below_trans c1 c2 p : below c1 c2 -> below c2 p -> below c1 p.
Proof.
  intros (s & x & -> & Hs) (s' & x' & -> & _).
  exists s, (x ++ s' :: x'). split; [|exact Hs]. rewrite <- app_assoc. reflexivity.
Qed.

Lemma dfs_below sel a fuel k p :
  shape_ok a -> (forall i nm, nm ∈ sel i -> nm ∈ kids i) ->
  p ∈ dfs sel a fuel k -> below k p.
Proof.
  intros Hsh Hsel. revert k p. induction fuel as [|fuel IH]; intros k p Hp; [inversion Hp|].
  cbn [dfs] in Hp. destruct (a !! k) as [i|] eqn:Hk; [|inversion Hp].
  apply list_elem_of_In, in_flat_map in Hp as (nm & Hnm & Hp).
  apply list_elem_of_In, Hsel in Hnm.
  destruct (sh_kids _ Hsh _ _ _ Hk Hnm) as [[Hne _] _].
  pose proof (child_below k (sep_of i) nm (sep_of_separator i) Hne) as Hc.
  destruct Hp as [<- | Hp]; [exact Hc|].
  apply list_elem_of_In, IH in Hp. eapply below_trans; eauto.
Qed.

(** A plain name followed by nothing, or by a separator and more, is
    determined by the whole. *)
Lemma plain_prefix_unique (n1 n2 x1 x2 : jsstring) :
  plain_name n1 -> plain_name n2 ->
  (x1 = [] \/ exists s r, x1 = s :: r /\ (s = "."%char \/ s = "/"%char)) ->
  (x2 = [] \/ exists s r, x2 = s :: r /\ (s = "."%char \/ s = "/"%char)) ->
  n1 ++ x1 = n2 ++ x2 -> n1 = n2.
Proof.
  assert (Hhead : forall (n : jsstring) c, plain_name (c :: n) ->
                    ~ (c = "."%char \/ c = "/"%char)).
  { intros n c [Hd Hs] [-> | ->].
    - pose proof (proj1 (includes_false _ _) Hd) as H.
      apply (H "."%char); [left | reflexivity].
    - pose proof (proj1 (includes_false _ _) Hs) as H.
      apply (H "/"%char); [left | reflexivity]. }
  assert (Htail : forall (n : jsstring) c, plain_name (c :: n) -> plain_name n).
  { intros n c [Hd Hs].
    pose proof (proj1 (includes_false _ _) Hd) as H1.
    pose proof (proj1 (includes_false _ _) Hs) as H2.
    split; apply includes_false; intros d Hd'; [apply H1 | apply H2]; right; exact Hd'. }
  revert n2. induction n1 as [|c n1 IH]; intros n2 Hp1 Hp2 Hx1 Hx2 Heq.
  - destruct n2 as [|d n2]; [reflexivity|]. exfalso. cbn in Heq.
    destruct Hx1 as [-> | (s & r & -> & Hs)]; [discriminate|].
    injection Heq as -> _. exact (Hhead n2 d Hp2 Hs).
  - destruct n2 as [|d n2].
    + exfalso. cbn in Heq.
      destruct Hx2 as [-> | (s & r & -> & Hs)]; [discriminate|].
      injection Heq as -> _. exact (Hhead n1 s Hp1 Hs).
    + cbn in Heq. injection Heq as -> Heq. f_equal.
      apply IH; eauto.
Qed.

Lemma siblings_disjoint k sep1 sep2 n1 n2 p :
  is_separator sep1 -> is_separator sep2 -> plain_name n1 -> plain_name n2 ->
  (p = child_path k sep1 n1 \/ below (child_path k sep1 n1) p) ->
  (p = child_path k sep2 n2 \/ below (child_path k sep2 n2) p) ->
  n1 = n2.
Proof.
  intros Hs1 Hs2 Hp1 Hp2 H1 H2.
  assert (Hform : forall sep n, is_separator sep ->
            (p = child_path k sep n \/ below (child_path k sep n) p) ->
            exists s x, p = k ++ s :: n ++ x /\
              (x = [] \/ exists s' r, x = s' :: r /\ (s' = "."%char \/ s' = "/"%char))).
  { intros sep n Hsep [-> | (s' & r & -> & Hs')].
    - destruct Hsep as [-> | ->]; eexists _, []; rewrite app_nil_r; split; eauto.
    - destruct Hsep as [-> | ->]; eexists _, (s' :: r); unfold child_path;
        rewrite <- !app_assoc; split; [reflexivity | eauto | reflexivity | eauto]. }
  destruct (Hform _ _ Hs1 H1) as (s1 & x1 & E1 & Hx1).
  destruct (Hform _ _ Hs2 H2) as (s2 & x2 & E2 & Hx2).
  rewrite E1 in E2. apply app_inv_head in E2. injection E2 as _ E2.
  exact (plain_prefix_unique n1 n2 x1 x2 Hp1 Hp2 Hx1 Hx2 E2).
Qed.

(** ** The whole serialization replayed *)

Section ReplayDfs.

Variables (a : gmap jsstring Info) (B : nat).

Hypothesis Hsh : shape_ok a.
Hypothesis HB : bounded a B.

Lemma replays_nil S R : replaying a S R -> replays a S R [].
Proof.
  intros HR. exists [], R. split; [reflexivity|]. split; [constructor|].
  rewrite app_nil_r. exact HR.
Qed.

Lemma replays_app S R new1 new2 :
  replays a S R new1 ->
  (forall R1, replaying a (S ++ new1) R1 -> replays a (S ++ new1) R1 new2) ->
  replays a S R (new1 ++ new2).
Proof.
  intros (rs1 & R1 & H1 & Hc1 & Hr1) H2.
  destruct (H2 R1 Hr1) as (rs2 & R2 & H2' & Hc2 & Hr2).
  exists (rs1 ++ rs2), R2. rewrite flat_map_app, apply_all_app.
  rewrite H1. cbn [fst snd]. rewrite H2'. cbn [fst snd].
  split; [reflexivity|]. split; [apply Forall_app; auto|].
  rewrite app_assoc. exact Hr2.
Qed.

Lemma replay_dfs fuel k ki S R :
  a !! k = Some ki -> B < fuel + length k ->
  replaying a S R -> k ∈ S ->
  (forall p, p ∈ dfs all_kids a fuel k -> p ∉ S) ->
  replays a S R (dfs all_kids a fuel k).
Proof.
  revert k ki S R. induction fuel as [|fuel IH]; intros k ki S R Hk Hfuel HR HkS Hnew.
  { apply replays_nil, HR. }
  cbn [dfs] in *. rewrite Hk in *. unfold all_kids in *.
  set (g := fun nm => child_path k (sep_of ki) nm
                      :: dfs (fun i => kids i) a fuel (child_path k (sep_of ki) nm)) in *.
  assert (Hgen : forall todo done S R,
            kids ki = done ++ todo -> replaying a S R -> k ∈ S ->
            (forall n, n ∈ done -> child_path k (sep_of ki) n ∈ S) ->
            (forall p, p ∈ flat_map g todo -> p ∉ S) ->
            replays a S R (flat_map g todo)).
  2:{ apply (Hgen (kids ki) []); auto. intros n Hn. inversion Hn. }
  clear S R HR HkS Hnew.
  induction todo as [|nm todo IHtodo]; intros done S R Hkids HR HkS Hdone Hnew.
  { apply replays_nil, HR. }
  set (c := child_path k (sep_of ki) nm) in *.
  assert (Hnm : nm ∈ kids ki) by (rewrite Hkids; apply elem_of_app; right; left).
  destruct (sh_kids _ Hsh _ _ _ Hk Hnm) as [Hnok [ci Hc]]. fold c in Hc.
  assert (Hlenc : length c = Datatypes.S (length k + length nm))
    by (apply child_path_length, sep_of_separator).
  assert (Hnmlen : 0 < length nm) by (destruct Hnok as [? _]; destruct nm; [congruence | cbn; lia]).
  assert (Hcfuel : B < fuel + length c) by lia.
  assert (Hfuel_pos : 0 < fuel).
  { pose proof (HB c (ex_intro _ ci Hc)). lia. }
  assert (Hin_g : forall n p, n ∈ nm :: todo -> p ∈ g n -> p ∉ S).
  { intros n p Hn Hp. apply Hnew. apply list_elem_of_In, in_flat_map.
    exists n. split; apply list_elem_of_In; assumption. }
  cbn [flat_map]. change (g nm) with ([c] ++ dfs (fun i => kids i) a fuel c).
  rewrite <- app_assoc.
  apply replays_app; [|intros R1 HR1; apply replays_app].
  - (* the lines of the child *)
    destruct (replay_step a S R k nm ki ci done todo Hsh HR Hk Hkids Hc HkS Hdone)
      as (rs & R1 & H1 & Hc1 & Hr1).
    + intros n Hn. apply (Hin_g n); [exact Hn | left].
    + intros n Hn. apply (Hin_g nm); [left | right].
      destruct fuel as [|fuel']; [lia|]. fold c. cbn [dfs]. rewrite Hc.
      apply list_elem_of_In, in_flat_map. exists n.
      split; [apply list_elem_of_In; exact Hn | left; reflexivity].
    + exists rs, R1. cbn [flat_map]. rewrite app_nil_r. auto.
  - (* the subtree of the child *)
    apply (IH c ci); auto.
    + apply elem_of_app. right. left.
    + intros p Hp Hin. apply elem_of_app in Hin as [Hin | Hin].
      * apply (Hin_g nm p); [left | right; exact Hp | exact Hin].
      * apply list_elem_of_singleton in Hin as ->.
        apply dfs_below in Hp; auto. apply below_length in Hp. lia.
  - (* the later children *)
    intros R2 HR2.
    apply (IHtodo (done ++ [nm])).
    + rewrite Hkids, <- app_assoc. reflexivity.
    + exact HR2.
    + apply elem_of_app. left. apply elem_of_app. left. exact HkS.
    + intros n Hn. apply elem_of_app in Hn as [Hn | Hn].
      * apply elem_of_app. left. apply elem_of_app. left. apply Hdone, Hn.
      * apply list_elem_of_singleton in Hn as ->.
        apply elem_of_app. left. apply elem_of_app. right. left.
    + intros p Hp Hin.
      apply list_elem_of_In, in_flat_map in Hp as (n & Hn & Hp).
      apply list_elem_of_In in Hn, Hp.
      assert (Hn' : n ∈ nm :: todo) by (right; exact Hn).
      assert (Hnk : n ∈ kids ki) by (rewrite Hkids; apply elem_of_app; right; exact Hn').
      destruct (sh_kids _ Hsh _ _ _ Hk Hnk) as [Hnok' _].
      apply elem_of_app in Hin as [Hin | Hin];
        [apply elem_of_app in Hin as [Hin | Hin]|].
      * exact (Hin_g n p Hn' Hp Hin).
      * apply list_elem_of_singleton in Hin.
        assert (n = nm); [|subst n].
        { apply (siblings_disjoint k (sep_of ki) (sep_of ki) n nm p);
            auto using sep_of_separator, name_ok_plain.
          apply elem_of_cons in Hp as [-> | Hp]; [left; reflexivity | right].
          apply dfs_below in Hp; auto. }
        pose proof (sh_nodup _ Hsh _ _ Hk) as Hnd. rewrite Hkids in Hnd.
        apply NoDup_app in Hnd as (_ & _ & Hnd). apply NoDup_cons in Hnd as [Hnd _].
        contradiction.
      * assert (n = nm); [|subst n].
        { apply (siblings_disjoint k (sep_of ki) (sep_of ki) n nm p);
            auto using sep_of_separator, name_ok_plain.
          - apply elem_of_cons in Hp as [-> | Hp]; [left; reflexivity | right].
            apply dfs_below in Hp; auto.
          - right. apply dfs_below in Hin; auto. }
        pose proof (sh_nodup _ Hsh _ _ Hk) as Hnd. rewrite Hkids in Hnd.
        apply NoDup_app in Hnd as (_ & _ & Hnd). apply NoDup_cons in Hnd as [Hnd _].
        contradiction.
Qed.

End ReplayDfs.

(** ** The traversal of a view: what it lists *)

Lemma dfs_child_in sel a fuel k i nm :
  a !! k = Some i -> nm ∈ sel i ->
  child_path k (sep_of i) nm ∈ dfs sel a (Datatypes.S fuel) k.
Proof.
  intros Hk Hnm. cbn [dfs]. rewrite Hk.
  apply list_elem_of_In, in_flat_map. exists nm.
  split; [apply list_elem_of_In; exact Hnm | left; reflexivity].
Qed.

Lemma bounded_fuel a B fuel k :
  bounded a B -> is_Some (a !! k) -> B < fuel + length k -> 0 < fuel.
Proof. intros HB Hk Hfuel. specialize (HB k Hk). lia. Qed.

Lemma dfs_closed a B fuel k p i nm :
  shape_ok a -> bounded a B -> B < fuel + length k ->
  p ∈ dfs all_kids a fuel k -> a !! p = Some i -> nm ∈ kids i ->
  child_path p (sep_of i) nm ∈ dfs all_kids a fuel k.
Proof.
  intros Hsh HB. revert k. induction fuel as [|fuel IH]; intros k Hfuel Hp Hi Hnm;
    [inversion Hp|].
  cbn [dfs] in *. destruct (a !! k) as [ki|] eqn:Hk; [|inversion Hp].
  apply list_elem_of_In, in_flat_map in Hp as (n & Hn & Hp).
  apply list_elem_of_In, in_flat_map. exists n. split; [exact Hn|].
  apply list_elem_of_In in Hn. unfold all_kids in Hn.
  destruct (sh_kids _ Hsh _ _ _ Hk Hn) as [_ Hc].
  assert (Hlen : length (child_path k (sep_of ki) n) = Datatypes.S (length k + length n))
    by (apply child_path_length, sep_of_separator).
  assert (Hcfuel : B < fuel + length (child_path k (sep_of ki) n)) by lia.
  right. apply list_elem_of_In. destruct Hp as [<- | Hp].
  - pose proof (bounded_fuel _ _ _ _ HB Hc Hcfuel) as Hpos.
    destruct fuel as [|fuel']; [lia|]. apply dfs_child_in; assumption.
  - apply IH; auto. apply list_elem_of_In. exact Hp.
Qed.

Lemma dfs_covers a B fuel q :
  shape_ok a -> bounded a B -> B < fuel -> is_Some (a !! q) ->
  q ∈ [] :: dfs all_kids a fuel [].
Proof.
  intros Hsh HB Hfuel. remember (length q) as n eqn:Hn.
  revert q Hn. induction n as [n IH] using lt_wf_ind. intros q Hn [i Hq].
  destruct q as [|c q']; [left|]. right.
  destruct (sh_parent _ Hsh _ _ Hq) as (pk & nm & pi & Heq & Hpk & Hnm & _); [discriminate|].
  assert (Hlen : length (c :: q') = Datatypes.S (length pk + length nm))
    by (rewrite Heq; apply child_path_length, sep_of_separator).
  assert (Hin : pk ∈ [] :: dfs all_kids a fuel []).
  { apply (IH (length pk)); [lia | reflexivity | eauto]. }
  rewrite Heq. apply elem_of_cons in Hin as [-> | Hin].
  - destruct fuel as [|fuel']; [lia|]. apply dfs_child_in; assumption.
  - apply (dfs_closed a B); auto. cbn. lia.
Qed.

Lemma dfs_fuel sel a B B' fuel fuel' k :
  bounded a B -> bounded a B' ->
  B < fuel + length k -> B' < fuel' + length k ->
  dfs sel a fuel k = dfs sel a fuel' k.
Proof.
  intros HB HB'. revert fuel' k.
  induction fuel as [|fuel IH]; intros fuel' k Hf Hf'.
  - destruct (a !! k) as [i|] eqn:Hk.
    + specialize (HB k (ex_intro _ i Hk)). cbn in Hf. lia.
    + destruct fuel'; cbn [dfs]; [|rewrite Hk]; reflexivity.
  - destruct fuel' as [|fuel'].
    + destruct (a !! k) as [i|] eqn:Hk.
      * specialize (HB' k (ex_intro _ i Hk)). cbn in Hf'. lia.
      * cbn [dfs]. rewrite Hk. reflexivity.
    + cbn [dfs]. destruct (a !! k) as [i|]; [|reflexivity].
      apply flat_map_ext. intros nm. cbv zeta. f_equal.
      apply IH; rewrite child_path_length by apply sep_of_separator; lia.
Qed.

Lemma sep_of_same i j : same_info i j -> sep_of i = sep_of j.
Proof. intros (_ & Hc & _). unfold sep_of. rewrite Hc. reflexivity. Qed.

Lemma dfs_equiv sel a b fuel k :
  view_equiv a b -> (forall i j, same_info i j -> sel i = sel j) ->
  dfs sel a fuel k = dfs sel b fuel k.
Proof.
  intros Heq Hsel. revert k. induction fuel as [|fuel IH]; intros k; [reflexivity|].
  cbn [dfs]. specialize (Heq k) as Hk.
  destruct (a !! k) as [i|], (b !! k) as [j|]; try contradiction; [|reflexivity].
  rewrite (Hsel i j Hk), (sep_of_same i j Hk).
  apply flat_map_ext. intros nm. cbv zeta. f_equal. apply IH.
Qed.

Lemma all_kids_same i j : same_info i j -> all_kids i = all_kids j.
Proof. intros (Hk & _). exact Hk. Qed.

Lemma current_kids_same i j : same_info i j -> current_kids i = current_kids j.
Proof. intros (Hk & Hc & _). unfold current_kids. rewrite Hk, Hc. reflexivity. Qed.

Lemma view_equiv_bounded a b B : view_equiv a b -> bounded b B -> bounded a B.
Proof.
  intros Heq HB k [i Hk]. apply HB. specialize (Heq k). rewrite Hk in Heq.
  destruct (b !! k); [eauto | contradiction].
Qed.

Lemma data_of_equiv a b k : view_equiv a b -> data_of a k = data_of b k.
Proof.
  intros Heq. unfold data_of. pose proof (Heq k) as Hk.
  destruct (a !! k) as [i|], (b !! k) as [j|]; try contradiction; [|reflexivity].
  destruct Hk as (Hkids & _ & Hdat). rewrite Hkids, Hdat.
  destruct (bool_decide (kids j = [])); [|reflexivity].
  destruct (split_path k) as [[pk nm]|]; [|reflexivity].
  pose proof (Heq pk) as Hpk.
  destruct (a !! pk) as [pi|], (b !! pk) as [pj|]; try contradiction; [|reflexivity].
  destruct Hpk as (_ & -> & _). reflexivity.
Qed.

(** ** The observations of a tidy machine, read from its view *)

Lemma getData_invalid m path :
  (forall k, normalizePath (Some path) <> str k) -> getData m path = Normal null.
Proof.
  intros Hn. unfold getData, exists_.
  destruct (normalizePath (Some path)) as [| |k]; try reflexivity.
  exfalso. exact (Hn k eq_refl).
Qed.

Lemma getData_view m path k :
  tidy m -> normalizePath (Some path) = str k ->
  getData m path = Normal (data_of (view m) k).
Proof.
  intros Ht Hnorm. unfold getData, exists_, isLeaf, isVariableLeaf, getState, data_of.
  rewrite Hnorm, view_lookup.
  destruct (STATE_TREE m !! k) as [l|] eqn:Hl; cbn [fmap option_fmap option_map];
    [|rewrite bool_decide_eq_false_2 by (intros [? ?]; discriminate); reflexivity].
  rewrite bool_decide_eq_true_2 by eauto. cbn [negb].
  pose proof (tidy_valid m k l Ht Hl) as Hv.
  pose proof (info_kids_nil m l (td_store m Ht) Hv) as Hnil.
  destruct (cc (deref m l)) as [names|] eqn:Hcc.
  { rewrite (bool_decide_eq_false_2 (Some names = None)) by discriminate.
    rewrite (bool_decide_eq_false_2 (kids (info_of (deref m l)) = []));
      [reflexivity|].
    intros H. apply Hnil in H. discriminate. }
  rewrite (bool_decide_eq_true_2 (None = None)) by reflexivity.
  rewrite (bool_decide_eq_true_2 (kids (info_of (deref m l)) = []))
    by (apply Hnil; reflexivity).
  cbn [negb].
  assert (Hdata : match data (deref m l) with
                  | Some d => if truthy d then Normal (str d) else Normal (str [])
                  | None => Normal (str [])
                  end = Normal (str (default [] (dat (info_of (deref m l)))))).
  { cbn. destruct (data (deref m l)) as [[|c d]|]; reflexivity. }
  destruct path as [|c path].
  - cbn in Hnorm. injection Hnorm as <-. cbn [truthy negb].
    change (split_path []) with (@None (jsstring * jsstring)). exact Hdata.
  - cbn [truthy negb].
    rewrite (bool_decide_eq_false_2 (is_Some None)) by (intros [? ?]; discriminate).
    assert (Hk : k <> []) by (eapply normalizePath_nonempty; [exact Hnorm | discriminate]).
    assert (Hview : view m !! k = Some (info_of (deref m l))) by (apply view_Some; eauto).
    destruct (sh_parent _ (td_shape m Ht) _ _ Hview Hk)
      as (pk & nm & pi & Heq & Hpk & Hnm & _).
    destruct (sh_kids _ (td_shape m Ht) _ _ _ Hpk Hnm) as [Hname _].
    apply view_Some in Hpk as (pl & Hpl & ->).
    assert (Hl' : STATE_TREE m !! child_path pk (sep_of (info_of (deref m pl))) nm = Some l)
      by (rewrite <- Heq; exact Hl).
    destruct (lk_parent m (td_links m Ht) pk _ nm l pl
                (sep_of_separator _) (name_ok_plain _ Hname) Hl' Hpl) as [Hpar _].
    rewrite Hpar, Heq.
    rewrite (split_path_child pk _ nm (sep_of_separator _) (name_ok_plain _ Hname)).
    rewrite view_lookup, Hpl. cbn [fmap option_fmap option_map].
    change (cur (info_of (deref m pl))) with (curr (deref m pl)).
    destruct (bool_decide (is_Some (curr (deref m pl)))); [reflexivity|].
    exact Hdata.
Qed.

Lemma getData_equiv m1 m2 path :
  tidy m1 -> tidy m2 -> view_equiv (view m1) (view m2) ->
  getData m1 path = getData m2 path.
Proof.
  intros H1 H2 Heq. destruct (normalizePath (Some path)) as [| |k] eqn:Hn.
  - rewrite !getData_invalid; [reflexivity | |]; intros k; rewrite Hn; discriminate.
  - rewrite !getData_invalid; [reflexivity | |]; intros k; rewrite Hn; discriminate.
  - rewrite (getData_view m1 path k H1 Hn), (getData_view m2 path k H2 Hn).
    f_equal. apply data_of_equiv, Heq.
Qed.

Lemma getAllPaths_equiv m1 m2 :
  tidy m1 -> tidy m2 -> view_equiv (view m1) (view m2) ->
  getAllPaths m1 = getAllPaths m2.
Proof.
  intros H1 H2 Heq. rewrite (getAllPaths_view m1 H1), (getAllPaths_view m2 H2).
  do 2 f_equal. rewrite <- (dfs_equiv all_kids _ _ _ _ Heq all_kids_same).
  apply (dfs_fuel all_kids (view m1) (traversal_fuel m1 - 1) (traversal_fuel m2 - 1)).
  - apply view_bounded.
  - apply (view_equiv_bounded _ _ _ Heq), view_bounded.
  - unfold traversal_fuel. lia.
  - unfold traversal_fuel. lia.
Qed.

Lemma getCurrentPaths_equiv m1 m2 :
  tidy m1 -> tidy m2 -> view_equiv (view m1) (view m2) ->
  getCurrentPaths m1 = getCurrentPaths m2.
Proof.
  intros H1 H2 Heq. rewrite (getCurrentPaths_view m1 H1), (getCurrentPaths_view m2 H2).
  do 2 f_equal. rewrite <- (dfs_equiv current_kids _ _ _ _ Heq current_kids_same).
  apply (dfs_fuel current_kids (view m1) (traversal_fuel m1 - 1) (traversal_fuel m2 - 1)).
  - apply view_bounded.
  - apply (view_equiv_bounded _ _ _ Heq), view_bounded.
  - unfold traversal_fuel. lia.
  - unfold traversal_fuel. lia.
Qed.

(** ** C1: a serialization replayed on a new machine *)

Lemma tidy_steps_reachable m : tidy_steps m -> reachable m.
Proof.
  induction 1; [apply steps_refl | apply steps_makeEmpty | apply steps_startEditing
               | apply steps_finishEditing | apply steps_addState
               | apply steps_setCurrent | apply steps_setData]; assumption.
Qed.

Lemma view_new_Machine q j :
  view new_Machine !! q = Some j <-> q = [] /\ j = leaf_info.
Proof.
  rewrite view_Some. unfold new_Machine. cbn [STATE_TREE]. split.
  - intros (l & Hl & ->). apply lookup_singleton_Some in Hl as [<- <-]. split; reflexivity.
  - intros [-> ->]. exists 0. split; [apply lookup_singleton_eq | reflexivity].
Qed.

(** Before any line of a child, the replaying machine is the new
    machine: it has the root only. *)
Lemma replaying_root a : shape_ok a -> replaying a [[]] new_Machine.
Proof.
  intros Hsh. destruct (sh_root _ Hsh) as (i & Hi & _ & Hdat).
  split; [apply tidy_new_Machine | reflexivity | |].
  - intros q. rewrite list_elem_of_singleton. split.
    + intros [j Hj]. apply view_new_Machine in Hj as [-> _]. reflexivity.
    + intros ->. exists leaf_info. apply view_new_Machine. split; reflexivity.
  - intros q Hq. apply list_elem_of_singleton in Hq as ->.
    exists i, leaf_info. split; [exact Hi|].
    split; [apply view_new_Machine; split; reflexivity|].
    split; [|split].
    + cbn [kids leaf_info]. symmetry. apply filter_none.
      intros nm _ Hin. apply list_elem_of_singleton in Hin.
      exact (child_path_not_root _ _ _ (sep_of_separator i) Hin).
    + reflexivity.
    + unfold replayed_dat. rewrite Hdat. reflexivity.
Qed.

(** Once the lines of every path are applied, the replaying machine
    shows what the serialized machine shows. *)
Lemma replaying_equiv a B fuel R :
  shape_ok a -> bounded a B -> B < fuel ->
  replaying a ([] :: dfs all_kids a fuel []) R -> view_equiv a (view R).
Proof.
  intros Hsh HB Hfuel HR k.
  destruct (a !! k) as [i|] eqn:Hk.
  - assert (Hin : k ∈ [] :: dfs all_kids a fuel [])
      by (apply (dfs_covers a B); eauto).
    destruct (rp_info _ _ _ HR k Hin) as (i' & r & Hi' & Hr & Hkids & Hcur & Hdat).
    rewrite Hr. assert (i' = i) by congruence. subst i'.
    assert (Hkids' : kids r = kids i).
    { rewrite Hkids. apply filter_all. intros nm Hnm.
      destruct (sh_kids _ Hsh _ _ _ Hk Hnm) as [_ Hc].
      apply (dfs_covers a B); auto. }
    split; [symmetry; exact Hkids'|]. split.
    + rewrite Hcur, Hkids'. unfold replayed_cur.
      destruct (length (kids i)) as [|n] eqn:Hlen.
      * apply (shape_childless_cur a k i Hsh Hk).
        destruct (kids i); [reflexivity | discriminate].
      * destruct (cur i) as [x|] eqn:Hx; [|reflexivity].
        pose proof (sh_cur _ Hsh _ _ _ Hk Hx) as Hlt. rewrite Hlen in Hlt.
        rewrite decide_True by exact Hlt. reflexivity.
    + rewrite Hdat. unfold replayed_dat.
      destruct (dat i) as [[|c v]|]; reflexivity.
  - destruct (view R !! k) as [r|] eqn:Hr; [|exact I].
    assert (Hin : k ∈ [] :: dfs all_kids a fuel [])
      by (apply (rp_dom _ _ _ HR); eauto).
    apply elem_of_cons in Hin as [-> | Hin].
    + destruct (sh_root _ Hsh) as (i & Hi & _). congruence.
    + apply dfs_dom in Hin as [i Hi]; [congruence | exact Hsh | auto].
Qed.

Lemma view_equiv_sym a b : view_equiv a b -> view_equiv b a.
Proof.
  intros H k. specialize (H k).
  destruct (a !! k) as [i|], (b !! k) as [j|]; try exact H.
  destruct H as (H1 & H2 & H3). split; [|split]; symmetry; assumption.
Qed.

(** The lines of a serialization applied one after the other to a new
    machine: the line of the root fails, every other line is applied,
    and the machine that results shows what the serialized one shows. *)
Lemma replay_serialization m :
  tidy m ->
  exists serial rs R,
    getSerialization m = Normal serial /\
    apply_all serial new_Machine =
      (Normal (syntax_error $"P" $"P" Pat.PPAT_source) :: rs, R) /\
    Forall completes rs /\ tidy R /\ _live R = false /\
    view_equiv (view R) (view m).
Proof.
  intros Ht. pose proof (td_shape m Ht) as Hsh.
  destruct (sh_root _ Hsh) as (ri & Hri & _).
  assert (Hpos : 0 < traversal_fuel m) by (unfold traversal_fuel; lia).
  destruct (replay_dfs (view m) (traversal_fuel m - 1) Hsh (view_bounded m)
              (traversal_fuel m) [] ri [[]] new_Machine Hri)
    as (rs & R & Happ & Hrs & HR).
  - cbn [length]. lia.
  - apply replaying_root, Hsh.
  - left.
  - intros p Hp Hin. apply list_elem_of_singleton in Hin as ->.
    apply dfs_below in Hp; [|exact Hsh | auto].
    apply below_length in Hp. cbn in Hp. lia.
  - exists (flat_map (lines_of (view m))
              ([] :: dfs all_kids (view m) (traversal_fuel m) [])), rs, R.
    split; [apply getSerialization_view, Ht|].
    split; [|split; [exact Hrs|split; [exact (rp_tidy _ _ _ HR)|split]]].
    + cbn [flat_map].
      assert (Hroot : lines_of (view m) [] = [P_line []]) by reflexivity.
      rewrite Hroot. cbn [app].
      rewrite (apply_all_cons _ _ _ _ _ (interpretOp_P_root new_Machine eq_refl)).
      rewrite Happ. reflexivity.
    + exact (rp_editing _ _ _ HR).
    + apply view_equiv_sym.
      apply (replaying_equiv (view m) (traversal_fuel m - 1) (traversal_fuel m));
        [exact Hsh | apply view_bounded | lia | exact HR].
Qed.

Lemma path_argument_check s : forallb is_path_char s = true -> path_argument (Some s).
Proof.
  intros H p [= <-] c Hc. rewrite forallb_forall in H.
  apply H, list_elem_of_In, Hc.
Qed.

Lemma line_safe_check v :
  trim v = v -> forallb (fun c => negb (is_line_terminator c)) v = true -> line_safe v.
Proof.
  intros Ht H. split; [exact Ht|]. intros c Hc. rewrite forallb_forall in H.
  apply negb_true_iff, H, list_elem_of_In, Hc.
Qed.

Lemma truthy_nonempty s : truthy s = true -> s <> [].
Proof. intros H ->. discriminate. Qed.

Lemma tidy_steps_sample : tidy_steps sample_machine.
Proof.
  unfold sample_machine.
  apply ts_setData;
    [apply truthy_nonempty; reflexivity | apply line_safe_check; reflexivity |].
  apply ts_setCurrent; [apply truthy_nonempty; reflexivity|].
  repeat (apply ts_addState; [apply path_argument_check; reflexivity|]).
  apply ts_new.
Defined.

(** C1, amended.  Let a machine be reached from a new machine by
    [makeEmpty], [startEditing], [finishEditing], [addState] with paths of
    path characters, [setCurrent] and [setData] with a path that is not
    empty and, for [setData], data that has no white space at either end
    and no line terminator.  Its serialization is a value; [interpret] of
    it on a new machine returns the syntax error of the line of the root,
    the first line, and leaves a machine whose [getAllPaths],
    [getCurrentPaths] and [getData] of every path are those of the
    serialized machine, which are values and lists in the same order. *)
Theorem round_trip m :
  tidy_steps m ->
  reachable m /\
  exists serial all current,
    getSerialization m = Normal serial /\
    getAllPaths m = Normal all /\
    getCurrentPaths m = Normal current /\
    let r := interpret serial new_Machine in
    fst r = Normal (syntax_error $"P" $"P" Pat.PPAT_source) /\
    getAllPaths (snd r) = Normal all /\
    getCurrentPaths (snd r) = Normal current /\
    forall path, exists v,
      getData m path = Normal v /\ getData (snd r) path = Normal v.
Proof.
  intros Hsteps. split; [apply tidy_steps_reachable, Hsteps|].
  pose proof (tidy_steps_tidy m Hsteps) as Ht.
  destruct (replay_serialization m Ht) as (serial & rs & R & Hser & Happ & Hrs & HtR & _ & Heq).
  exists serial, ([] :: dfs all_kids (view m) (traversal_fuel m) []),
         ([] :: dfs current_kids (view m) (traversal_fuel m) []).
  split; [exact Hser|].
  split; [apply getAllPaths_view, Ht|].
  split; [apply getCurrentPaths_view, Ht|].
  destruct (interpret_map_apply_all serial new_Machine) as (errors & Hmap & Herrs).
  { rewrite Happ. cbn [fst]. constructor; [eexists; reflexivity | exact Hrs]. }
  unfold interpret. rewrite Hmap, Happ. cbn [fst snd].
  rewrite Happ in Herrs. cbn [fst] in Herrs.
  split; [|split; [|split]].
  - rewrite find_error_first_failure, <- Herrs. reflexivity.
  - rewrite (getAllPaths_equiv R m HtR Ht Heq). apply getAllPaths_view, Ht.
  - rewrite (getCurrentPaths_equiv R m HtR Ht Heq). apply getCurrentPaths_view, Ht.
  - intros path. rewrite (getData_equiv R m path HtR Ht Heq).
    destruct (normalizePath (Some path)) as [| |k] eqn:Hn.
    + exists null. rewrite getData_invalid; [auto|]. intros k; rewrite Hn; discriminate.
    + exists null. rewrite getData_invalid; [auto|]. intros k; rewrite Hn; discriminate.
    + exists (data_of (view m) k). rewrite (getData_view m path k Ht Hn). auto.
Qed.

Lemma round_trip_witness :
  tidy_steps sample_machine /\
  reachable sample_machine /\
  exists serial all current,
    getSerialization sample_machine = Normal serial /\
    getAllPaths sample_machine = Normal all /\
    getCurrentPaths sample_machine = Normal current /\
    let r := interpret serial new_Machine in
    fst r = Normal (syntax_error $"P" $"P" Pat.PPAT_source) /\
    getAllPaths (snd r) = Normal all /\
    getCurrentPaths (snd r) = Normal current /\
    forall path, exists v,
      getData sample_machine path = Normal v /\ getData (snd r) path = Normal v.
Proof.
  split; [exact tidy_steps_sample | exact (round_trip sample_machine tidy_steps_sample)].
Defined.

(** C1 as stated fails: data that ends with a blank is reachable by
    [setData], its line of the serialization is trimmed when it is
    interpreted, and the new machine has the data without the blank. *)
Lemma round_trip_counterexample :
  reachable blank_data_machine /\
  getSerialization blank_data_machine = Normal [$"P "; $"P .z"; $"D .z foo "] /\
  let r := interpret [$"P "; $"P .z"; $"D .z foo "] new_Machine in
  getData blank_data_machine $".z" = Normal (str $"foo ") /\
  getData (snd r) $".z" = Normal (str $"foo") /\
  getData (snd r) $".z" <> getData blank_data_machine $".z".
Proof.
  split; [apply steps_setData, steps_addState, steps_refl|].
  split; [vm_compute; reflexivity|].
  split; [vm_compute; reflexivity|].
  split; [vm_compute; reflexivity|].
  vm_compute. discriminate.
Qed.

(** * Further properties *)

(** ** Paths *)

(** X1.  A path that [normalizePath] returns is its own normal form:
    [normalizePath] returns it unchanged, and it has no white space at
    either end and no upper-case letter. *)
Theorem normalizePath_normal_form (s : option jsstring) (p : jsstring) :
  normalizePath s = str p ->
  normalizePath (Some p) = str p /\ trim p = p /\ toLowerCase p = p.
Proof.
  intros H. split; [exact (normalizePath_idemp s p H)|].
  destruct s as [[|c s]|]; cbn [normalizePath] in H;
    try (injection H as <-; split; reflexivity).
  destruct (Pat.PATHPAT (c :: s)); [|discriminate]. injection H as <-.
  split.
  - rewrite trim_toLowerCase, trim_idemp. reflexivity.
  - apply toLowerCase_idemp.
Qed.

Lemma normalizePath_normal_form_witness :
  normalizePath (Some $"  .Boot/Failed ") = str $".boot/failed" /\
  normalizePath (Some $".boot/failed") = str $".boot/failed" /\
  trim $".boot/failed" = $".boot/failed" /\
  toLowerCase $".boot/failed" = $".boot/failed".
Proof.
  split; [reflexivity|].
  apply (normalizePath_normal_form (Some $"  .Boot/Failed ")). reflexivity.
Defined.

(** X2.  [_snipChild] splits a path at its last slash when no dot
    follows it: it returns a pair exactly for the paths that are the
    first of the pair, a slash, and the second, which has neither a
    slash nor a dot. *)
Theorem _snipChild_splits (path pp nm : jsstring) :
  _snipChild path = Some (pp, nm) <->
  path = pp ++ $"/" ++ nm /\ includes nm "/" = false /\ includes nm "." = false.
Proof.
  split.
  - unfold _snipChild. destruct (lastIndexOf "/" path) as [pos|] eqn:Hpos; [|discriminate].
    destruct (lastIndexOf_Some _ _ _ Hpos) as (a & b & -> & Hlen & Hb).
    unfold sliceFrom, slice. rewrite Nat.sub_0_r, drop_0.
    replace (drop (S pos) (a ++ "/"%char :: b)) with b.
    2:{ replace (a ++ "/"%char :: b) with ((a ++ ["/"%char]) ++ b)
          by (rewrite <- app_assoc; reflexivity).
        rewrite drop_app_length' by (rewrite length_app; cbn; lia). reflexivity. }
    replace (take pos (a ++ "/"%char :: b)) with a.
    2:{ rewrite take_app_length' by (symmetry; exact Hlen). reflexivity. }
    destruct (includes b ".") eqn:Hdot; [discriminate|].
    intros [= <- <-]. auto.
  - intros (-> & Hslash & Hdot).
    apply (_snipChild_child pp nm). split; assumption.
Qed.

Lemma _snipChild_splits_witness :
  _snipChild $".boot/booting.robot/ready" = Some ($".boot/booting.robot", $"ready").
Proof. apply _snipChild_splits. repeat split; reflexivity. Defined.

(** ** Adding states *)

Lemma attach_null parentPath sep nm pl m m' :
  attach parentPath sep nm pl m = (Normal null, m') ->
  m' = attached parentPath sep nm pl m.
Proof.
  rewrite attach_unfold. cbv zeta.
  repeat case_match; intros Hnull; try discriminate Hnull.
  injection Hnull as <-. reflexivity.
Qed.

Lemma attached_key parentPath sep nm pl m :
  STATE_TREE (attached parentPath sep nm pl m) !! child_path parentPath sep nm =
  Some (length (objects m)).
Proof. rewrite attached_tree. apply lookup_insert_eq. Qed.

(** The last step of a successful [_addState]: the path was there, or
    it is attached under its parent. *)
Lemma _addState_null_last fuel p m m' :
  _addState fuel p m = (Normal null, m') ->
  (exists_ m p = true /\ m' = m) \/
  (exists_ m p = false /\
   exists pp sep nm pl m1,
     p = child_path pp sep nm /\ is_separator sep /\ plain_name nm /\
     STATE_TREE m1 !! pp = Some pl /\
     m' = attached pp sep nm pl m1).
Proof.
  destruct fuel as [|fuel]; [discriminate|]. rewrite _addState_S.
  destruct (exists_ m p) eqn:Hex; [intros [= <-]; left; auto|].
  destruct (last_separator p) as [pos|] eqn:Hpos; [|discriminate].
  destruct (last_separator_parts p pos Hpos)
    as (pp & sep & nm & Hsep & Hplain & -> & -> & -> & Hsplit).
  unfold _addSubState_with.
  destruct (negb (Pat.NAMEPAT nm)); [discriminate|].
  destruct (negb (Pat.SEPPAT sep)); [discriminate|].
  destruct (STATE_TREE m !! pp) as [pl|] eqn:Hpl.
  - intros H. right. split; [reflexivity|].
    exists pp, sep, nm, pl, m.
    exact (conj Hsplit (conj Hsep (conj Hplain (conj Hpl (attach_null _ _ _ _ _ _ H))))).
  - destruct (_addState fuel pp m) as [r m1] eqn:Hrec.
    destruct r as [[| |e]| |]; try discriminate.
    destruct (STATE_TREE m1 !! pp) as [pl|] eqn:Hpl1; [|discriminate].
    intros H. right. split; [reflexivity|].
    exists pp, sep, nm, pl, m1.
    exact (conj Hsplit (conj Hsep (conj Hplain (conj Hpl1 (attach_null _ _ _ _ _ _ H))))).
Qed.

(** A relation that holds of a machine and itself and goes through
    every attachment holds of a machine and what [_addState] makes of
    it. *)
Section AddStateSteps.

Variable Q : Machine -> Machine -> Prop.

Hypothesis Q_refl : forall m, Q m m.
Hypothesis Q_attach : forall m m1 pp sep nm pl,
  Q m m1 -> Q m (snd (attach pp sep nm pl m1)).

Lemma _addState_steps fuel p m : Q m (snd (_addState fuel p m)).
Proof.
  revert p m. induction fuel as [|fuel IH]; intros p m; [apply Q_refl|].
  rewrite _addState_S.
  destruct (exists_ m p); [apply Q_refl|].
  destruct (last_separator p) as [pos|]; [|apply Q_refl].
  unfold _addSubState_with.
  destruct (negb (Pat.NAMEPAT _)); [apply Q_refl|].
  destruct (negb (Pat.SEPPAT _)); [apply Q_refl|].
  destruct (STATE_TREE m !! _) as [pl|]; [apply Q_attach, Q_refl|].
  specialize (IH (slice p 0 pos) m).
  destruct (_addState fuel (slice p 0 pos) m) as [r m1]. cbn [snd] in IH.
  destruct r as [[| |e]| |]; try exact IH.
  destruct (STATE_TREE m1 !! _) as [pl|]; [apply Q_attach, IH | exact IH].
Qed.

Lemma addState_steps s m : Q m (snd (addState s m)).
Proof.
  unfold addState. destruct (isLive m); [apply Q_refl|].
  destruct (normalizePath s); try apply Q_refl. apply _addState_steps.
Qed.

End AddStateSteps.

Lemma attach_live pp sep nm pl m : _live (snd (attach pp sep nm pl m)) = _live m.
Proof. rewrite attach_unfold. cbv zeta. repeat case_match; reflexivity. Qed.

Lemma attach_keys pp sep nm pl m k :
  is_Some (STATE_TREE m !! k) -> is_Some (STATE_TREE (snd (attach pp sep nm pl m)) !! k).
Proof.
  intros Hk. rewrite attach_unfold. cbv zeta. repeat case_match; cbn [snd]; try exact Hk.
  rewrite attached_tree. destruct (decide (child_path pp sep nm = k)) as [<-|Hne].
  - rewrite lookup_insert_eq. eauto.
  - rewrite lookup_insert_ne by exact Hne. exact Hk.
Qed.

Lemma addState_live s m : _live (snd (addState s m)) = _live m.
Proof.
  apply (addState_steps (fun m m' => _live m' = _live m)); [reflexivity|].
  intros m0 m1 pp sep nm pl H. rewrite attach_live. exact H.
Qed.

Lemma exists__key m path p :
  normalizePath (Some path) = str p ->
  exists_ m path = bool_decide (is_Some (STATE_TREE m !! p)).
Proof. intros H. unfold exists_. rewrite H. reflexivity. Qed.

Lemma addState_noop m path :
  isLive m = false -> exists_ m path = true ->
  addState (Some path) m = (Normal null, m).
Proof.
  intros Hlive Hex. unfold addState. rewrite Hlive.
  unfold exists_ in Hex.
  destruct (normalizePath (Some path)) as [| |p] eqn:Hn; try discriminate.
  unfold addState_fuel. rewrite _addState_S.
  rewrite (exists__normal m p (normalizePath_idemp _ _ Hn)), Hex. reflexivity.
Qed.

(** X3.  While editing, [addState] of a path that exists, whatever its
    case and the white space around it, succeeds and leaves the machine
    as it is. *)
Theorem addState_existing (m : Machine) (path : jsstring) :
  isLive m = false -> exists_ m path = true ->
  addState (Some path) m = (Normal null, m).
Proof.
  intros Hlive Hex. unfold addState. rewrite Hlive.
  unfold exists_ in Hex.
  destruct (normalizePath (Some path)) as [| |p] eqn:Hn; try discriminate.
  apply bool_decide_eq_true in Hex.
  pose proof (normalizePath_idemp _ _ Hn) as Hp.
  unfold addState_fuel. rewrite _addState_S.
  rewrite (exists__normal m p Hp).
  rewrite bool_decide_eq_true_2 by exact Hex. reflexivity.
Qed.

Lemma addState_existing_witness :
  addState (Some $" .A ") one_state_machine = (Normal null, one_state_machine).
Proof. apply addState_existing; reflexivity. Defined.

(** X4.  After a successful [addState] the path exists, and the same
    [addState] again succeeds without changing the machine. *)
Theorem addState_adds (m m' : Machine) (path : jsstring) :
  addState (Some path) m = (Normal null, m') ->
  exists_ m' path = true /\ addState (Some path) m' = (Normal null, m').
Proof.
  intros H.
  assert (Hlive : isLive m = false).
  { unfold addState in H. destruct (isLive m); [discriminate | reflexivity]. }
  assert (Hlive' : isLive m' = false).
  { pose proof (addState_live (Some path) m) as HL. rewrite H in HL.
    unfold isLive in *. cbn [snd] in HL. congruence. }
  assert (Hex : exists_ m' path = true); [|split; [exact Hex | apply addState_noop; assumption]].
  unfold addState in H. rewrite Hlive in H.
  destruct (normalizePath (Some path)) as [| |p] eqn:Hn; try discriminate.
  rewrite (exists__key m' path p Hn). apply bool_decide_eq_true.
  destruct (_addState_null_last _ _ _ _ H)
    as [[Hex ->] | (_ & pp & sep & nm & pl & m1 & -> & _ & _ & _ & ->)].
  - rewrite (exists__normal m p (normalizePath_idemp _ _ Hn)) in Hex.
    apply bool_decide_eq_true in Hex. exact Hex.
  - rewrite attached_key. eauto.
Qed.

Lemma addState_adds_witness :
  let m' := snd (addState (Some $".Net.IPv4/static") new_Machine) in
  exists_ m' $".Net.IPv4/static" = true /\
  addState (Some $".Net.IPv4/static") m' = (Normal null, m').
Proof. intros m'. apply (addState_adds new_Machine). reflexivity. Defined.

Lemma store_tree l o m : STATE_TREE (store l o m) = STATE_TREE m.
Proof. reflexivity. Qed.

Lemma setCurrent_tree path nm m : STATE_TREE (snd (setCurrent path nm m)) = STATE_TREE m.
Proof. unfold setCurrent. repeat case_match; reflexivity. Qed.

Lemma setData_tree path v m : STATE_TREE (snd (setData path v m)) = STATE_TREE m.
Proof. unfold setData. repeat case_match; reflexivity. Qed.

Lemma exists__same_tree m m' q :
  STATE_TREE m' = STATE_TREE m -> exists_ m' q = exists_ m q.
Proof. intros H. unfold exists_. rewrite H. reflexivity. Qed.

Lemma exists__attach pp sep nm pl m q :
  exists_ m q = true -> exists_ (snd (attach pp sep nm pl m)) q = true.
Proof.
  unfold exists_. destruct (normalizePath (Some q)) as [| |p]; try discriminate.
  intros H. apply bool_decide_eq_true in H. apply bool_decide_eq_true.
  apply attach_keys, H.
Qed.

(** X5.  A state that exists stays: [addState], [addStates] and
    [startEditing] remove no path, and neither do [setCurrent],
    [setData], [interpretOp] and [interpret] on a machine that is being
    edited, where no listener is called.  Of the operations,
    [makeEmpty] alone removes states. *)
Theorem paths_are_kept (m : Machine) (q : jsstring) :
  exists_ m q = true ->
  (forall s, exists_ (snd (addState s m)) q = true) /\
  (forall arr, exists_ (snd (addStates arr m)) q = true) /\
  exists_ (snd (startEditing m)) q = true /\
  (isLive m = false ->
   (forall path nm, exists_ (snd (setCurrent path nm m)) q = true) /\
   (forall path v, exists_ (snd (setData path v m)) q = true) /\
   (forall line, exists_ (snd (interpretOp line m)) q = true) /\
   (forall arr, exists_ (snd (interpret arr m)) q = true)).
Proof.
  intros Hq.
  assert (Hlive : forall b m0, exists_ m0 q = true -> exists_ (set_live b m0) q = true)
    by (intros b m0 H; exact H).
  assert (Hatt : forall pp sep nm pl m0, exists_ m0 q = true ->
            STATE_TREE m0 !! pp = Some pl -> Pat.NAMEPAT nm = true ->
            exists_ (snd (attach pp sep nm pl m0)) q = true)
    by (intros; apply exists__attach; assumption).
  assert (Hcur : forall path nm m0, exists_ m0 q = true ->
            exists_ (snd (setCurrent path nm m0)) q = true)
    by (intros path nm m0 H; rewrite (exists__same_tree m0); [exact H | apply setCurrent_tree]).
  assert (Hdat : forall path v m0, exists_ m0 q = true ->
            exists_ (snd (setData path v m0)) q = true)
    by (intros path v m0 H; rewrite (exists__same_tree m0); [exact H | apply setData_tree]).
  split; [intros s; apply (preserved_addState (fun m0 => exists_ m0 q = true)); assumption|].
  split; [intros arr; apply (preserved_addStates (fun m0 => exists_ m0 q = true)); assumption|].
  split; [apply (preserved_startEditing (fun m0 => exists_ m0 q = true)); assumption|].
  intros _.
  split; [intros path nm; apply Hcur, Hq|].
  split; [intros path v; apply Hdat, Hq|].
  split; [intros line; apply (preserved_interpretOp (fun m0 => exists_ m0 q = true)); assumption|].
  intros arr; apply (preserved_interpret (fun m0 => exists_ m0 q = true)); assumption.
Qed.

Lemma paths_are_kept_witness :
  exists_ (snd (interpret [$"P .a/b"; $"C .a b"; $"P .z"; $"D .z v"] one_state_machine))
          $".A" = true.
Proof.
  destruct (paths_are_kept one_state_machine $".A" eq_refl) as (_ & _ & _ & H).
  apply (H eq_refl).
Defined.

(** A state that [_addState] has just added is a leaf without data. *)
Lemma _addState_fresh fuel p m m' pl :
  _addState fuel p m = (Normal null, m') ->
  STATE_TREE m !! p = None -> STATE_TREE m' !! p = Some pl ->
  data (deref m' pl) = None /\ cc (deref m' pl) = None /\ curr (deref m' pl) = None.
Proof.
  intros H Hold Hnew.
  destruct (_addState_null_last _ _ _ _ H)
    as [[_ ->] | (_ & pp & sep & nm & pl' & m1 & -> & _ & _ & _ & ->)]; [congruence|].
  rewrite attached_key in Hnew. injection Hnew as <-.
  rewrite attached_deref_new. auto.
Qed.

Lemma attach_leaf pp sep nm pl m :
  data (deref m pl) = None -> cc (deref m pl) = None -> curr (deref m pl) = None ->
  fst (attach pp sep nm pl m) = Normal null.
Proof.
  intros Hd Hc Hcur. rewrite attach_unfold. cbv zeta. rewrite Hd, Hc, Hcur.
  rewrite !(bool_decide_eq_false_2 (is_Some None)) by (intros [? ?]; discriminate).
  cbn [default from_option id length Nat.ltb Nat.leb andb].
  rewrite andb_false_r. reflexivity.
Qed.

Lemma _addState_error fuel p m e m' :
  store_ok m -> _addState fuel p m = (Normal (str e), m') -> m' = m.
Proof.
  intros Hok. revert p e m'. induction fuel as [|fuel IH]; intros p e m'; [discriminate|].
  rewrite _addState_S.
  destruct (exists_ m p); [discriminate|].
  destruct (last_separator p) as [pos|]; [|intros [= _ <-]; reflexivity].
  unfold _addSubState_with.
  destruct (negb (Pat.NAMEPAT _)); [intros [= _ <-]; reflexivity|].
  destruct (negb (Pat.SEPPAT _)); [intros [= _ <-]; reflexivity|].
  destruct (STATE_TREE m !! slice p 0 pos) as [pl|] eqn:Hpl.
  - intros H.
    pose proof (attach_error_unchanged (slice p 0 pos) (slice p pos (S pos))
                  (sliceFrom p (S pos)) pl m e Hok (ok_tree m Hok _ _ Hpl)) as Hun.
    rewrite H in Hun. cbn [snd] in Hun. apply Hun. reflexivity.
  - destruct (_addState fuel (slice p 0 pos) m) as [r m1] eqn:Hrec.
    destruct r as [[| |e1]| |]; try discriminate.
    + destruct (STATE_TREE m1 !! slice p 0 pos) as [pl|] eqn:Hpl1; [|discriminate].
      destruct (_addState_fresh _ _ _ _ _ Hrec Hpl Hpl1) as (Hd & Hc & Hcur).
      intros H.
      pose proof (attach_leaf (slice p 0 pos) (slice p pos (S pos)) (sliceFrom p (S pos))
                    pl m1 Hd Hc Hcur) as Hnull.
      rewrite H in Hnull. discriminate.
    + intros [= -> <-]. eapply IH. exact Hrec.
Qed.

(** X6.  An [addState] that returns an error leaves a reachable machine
    as it is: no state of the path is added, no parent changed. *)
Theorem addState_failure_unchanged (m m' : Machine) (s : option jsstring) (e : jsstring) :
  reachable m -> addState s m = (Normal (str e), m') -> m' = m.
Proof.
  intros Hm. pose proof (reachable_store_ok m Hm) as Hok.
  unfold addState. destruct (isLive m); [intros [= _ <-]; reflexivity|].
  destruct (normalizePath s) as [| |p]; try (intros [= _ <-]; reflexivity).
  apply _addState_error, Hok.
Qed.

Lemma addState_failure_unchanged_witness :
  let m := snd (addState (Some $".a.b") new_Machine) in
  snd (addState (Some $".a/c.d.e") m) = m.
Proof.
  intros m.
  apply (addState_failure_unchanged m _ (Some $".a/c.d.e")
           $"concurrent parent cannot add variable child").
  - apply steps_addState, steps_refl.
  - reflexivity.
Defined.

(** ** Current state and data: what they set and what they keep *)

Lemma deref_store_cases l o m l0 :
  deref (store l o m) l0 = deref m l0 \/
  (l0 = l /\ l < length (objects m) /\ deref (store l o m) l0 = o).
Proof.
  destruct (decide (l = l0)) as [<-|Hne]; [|left; apply deref_store_ne; exact Hne].
  destruct (decide (l < length (objects m))) as [Hl|Hl].
  - right. split; [reflexivity|]. split; [exact Hl | apply deref_store_eq, Hl].
  - left. unfold deref, store. cbn [objects]. rewrite list_insert_ge by lia. reflexivity.
Qed.

Lemma deref_in_range m l :
  deref m l <> new_state [] -> l < length (objects m).
Proof.
  unfold deref. destruct (objects m !! l) as [o|] eqn:Hl.
  - intros _. eapply lookup_lt_Some. exact Hl.
  - cbn. congruence.
Qed.

Lemma same_structure_refl m : same_structure m m.
Proof. split; [reflexivity|]. split; [reflexivity|]. intros l. tauto. Qed.

Lemma same_structure_trans m1 m2 m3 :
  same_structure m1 m2 -> same_structure m2 m3 -> same_structure m1 m3.
Proof.
  intros (Ht & Hl & Ho) (Ht' & Hl' & Ho').
  split; [congruence|]. split; [congruence|].
  intros l. destruct (Ho l) as (H1 & H2 & H3), (Ho' l) as (H1' & H2' & H3').
  split; [congruence|]. split; [congruence | tauto].
Qed.

Lemma same_structure_store l o m :
  cc o = cc (deref m l) -> parent o = parent (deref m l) ->
  (is_Some (curr o) <-> is_Some (curr (deref m l))) ->
  same_structure m (store l o m).
Proof.
  intros Hc Hp Hk. split; [reflexivity|]. split; [reflexivity|].
  intros l0. destruct (deref_store_cases l o m l0) as [-> | (-> & _ & ->)]; tauto.
Qed.

Lemma setCurrent_same path nm m : same_structure m (snd (setCurrent path nm m)).
Proof.
  unfold setCurrent.
  destruct (getState m path) as [l|]; [|apply same_structure_refl].
  destruct (curr (deref m l)) as [j|] eqn:Hj; [|apply same_structure_refl].
  destruct (cc (deref m l)) as [names|]; [|apply same_structure_refl].
  destruct (findIndex nm names) as [i|]; [|apply same_structure_refl].
  cbn [snd]. apply same_structure_store; [reflexivity | reflexivity|].
  cbn. rewrite Hj. split; eauto.
Qed.

Lemma setData_same path v m : same_structure m (snd (setData path v m)).
Proof.
  unfold setData.
  destruct (negb (isLeaf m path)); [apply same_structure_refl|].
  destruct (isVariableLeaf m path) as [[|]| |]; try apply same_structure_refl.
  destruct (getState m path) as [l|]; [|apply same_structure_refl].
  cbn [snd]. apply same_structure_store; reflexivity.
Qed.

Lemma same_structure_getState m m' q : same_structure m m' -> getState m' q = getState m q.
Proof. intros (Ht & _). unfold getState. rewrite Ht. reflexivity. Qed.

Lemma same_structure_separator m m' l :
  same_structure m m' -> separator_of (deref m' l) = separator_of (deref m l).
Proof.
  intros (_ & _ & Ho). destruct (Ho l) as (_ & _ & Hk).
  unfold separator_of. apply f_equal with (f := fun b : bool => if b then $"/" else $".").
  apply bool_decide_ext. exact Hk.
Qed.

Lemma same_structure_fuel m m' : same_structure m m' -> traversal_fuel m' = traversal_fuel m.
Proof. intros (Ht & _). unfold traversal_fuel. rewrite Ht. reflexivity. Qed.

Lemma same_structure_appendChildren m m' fuel path state arr :
  same_structure m m' ->
  _appendChildren m' fuel path state arr = _appendChildren m fuel path state arr.
Proof.
  intros Hs. revert path state arr.
  induction fuel as [|fuel IH]; intros path state arr; [reflexivity|].
  cbn [_appendChildren].
  destruct Hs as (Ht & Hl & Ho). destruct (Ho state) as (-> & _ & _).
  destruct (cc (deref m state)) as [names|]; [|reflexivity].
  rewrite (same_structure_separator m m' state (conj Ht (conj Hl Ho))).
  apply forEach_ext. intros nm acc _. cbv zeta.
  rewrite (same_structure_getState m m' _ (conj Ht (conj Hl Ho))).
  destruct (getState m _); [apply IH | reflexivity].
Qed.

Lemma same_structure_getAllPaths m m' :
  same_structure m m' -> getAllPaths m' = getAllPaths m.
Proof.
  intros Hs. unfold getAllPaths.
  rewrite (same_structure_getState m m' _ Hs), (same_structure_fuel m m' Hs).
  destruct (getState m []); [apply same_structure_appendChildren, Hs | reflexivity].
Qed.

Lemma same_structure_appendCurrentChildren m m' fuel path state arr :
  same_structure m m' -> (forall l, curr (deref m' l) = curr (deref m l)) ->
  _appendCurrentChildren m' fuel path state arr =
  _appendCurrentChildren m fuel path state arr.
Proof.
  intros Hs Hcur. revert path state arr.
  induction fuel as [|fuel IH]; intros path state arr; [reflexivity|].
  cbn [_appendCurrentChildren].
  destruct Hs as (Ht & Hl & Ho). destruct (Ho state) as (-> & _ & _).
  destruct (cc (deref m state)) as [names|]; [|reflexivity].
  rewrite (same_structure_separator m m' state (conj Ht (conj Hl Ho))), Hcur.
  cbv zeta.
  assert (Hvisit : forall nm acc,
    match getState m' (child_path path (separator_of (deref m state)) nm) with
    | Some child => _appendCurrentChildren m' fuel
                      (child_path path (separator_of (deref m state)) nm) child
                      (acc ++ [child_path path (separator_of (deref m state)) nm])
    | None => Normal (acc ++ [child_path path (separator_of (deref m state)) nm])
    end =
    match getState m (child_path path (separator_of (deref m state)) nm) with
    | Some child => _appendCurrentChildren m fuel
                      (child_path path (separator_of (deref m state)) nm) child
                      (acc ++ [child_path path (separator_of (deref m state)) nm])
    | None => Normal (acc ++ [child_path path (separator_of (deref m state)) nm])
    end).
  { intros nm acc. rewrite (same_structure_getState m m' _ (conj Ht (conj Hl Ho))).
    destruct (getState m _); [apply IH | reflexivity]. }
  destruct (curr (deref m state)) as [i|].
  - destruct (names !! i) as [nm|]; [|reflexivity].
    destruct (truthy nm); [apply Hvisit | reflexivity].
  - apply forEach_ext. intros nm acc _. apply Hvisit.
Qed.

Lemma same_structure_getCurrentPaths m m' :
  same_structure m m' -> (forall l, curr (deref m' l) = curr (deref m l)) ->
  getCurrentPaths m' = getCurrentPaths m.
Proof.
  intros Hs Hcur. unfold getCurrentPaths.
  rewrite (same_structure_getState m m' _ Hs), (same_structure_fuel m m' Hs).
  destruct (getState m []); [apply same_structure_appendCurrentChildren; assumption | reflexivity].
Qed.

Lemma same_structure_getData m m' q :
  same_structure m m' ->
  (forall l, getState m q = Some l -> data (deref m' l) = data (deref m l)) ->
  getData m' q = getData m q.
Proof.
  intros Hs Hdata. pose proof (same_structure_getState m m' q Hs) as Hg.
  destruct Hs as (Ht & _ & Ho).
  unfold getData, exists_, isLeaf, isVariableLeaf. rewrite Hg, Ht.
  destruct (normalizePath (Some q)) as [| |p]; try reflexivity.
  destruct (bool_decide (is_Some (STATE_TREE m !! p))); [|reflexivity]. cbn [negb].
  destruct (getState m q) as [l|] eqn:Hl; [|reflexivity].
  destruct (Ho l) as (-> & -> & _). rewrite (Hdata l eq_refl).
  destruct (bool_decide (cc (deref m l) = None)); [|reflexivity]. cbn [negb].
  destruct (negb (truthy q)); [reflexivity|].
  destruct (bool_decide (is_Some (cc (deref m l)))); [reflexivity|].
  destruct (parent (deref m l)) as [pl|]; [|reflexivity].
  destruct (Ho pl) as (_ & _ & Hk). rewrite (bool_decide_ext _ _ Hk). reflexivity.
Qed.


Lemma getCurrentChildName_store m path l names i nm :
  getState m path = Some l -> curr (deref m l) <> None ->
  cc (deref m l) = Some names -> names !! i = Some nm ->
  getCurrentChildName (store l (set_curr i (deref m l)) m) path = Some nm.
Proof.
  intros Hl Hcur Hcc Hnm.
  assert (Hrange : l < length (objects m)).
  { apply deref_in_range. intros E. rewrite E in Hcur. apply Hcur. reflexivity. }
  unfold getCurrentChildName, isVariableParent.
  assert (Hg : getState (store l (set_curr i (deref m l)) m) path = Some l) by exact Hl.
  rewrite Hg, deref_store_eq by exact Hrange. cbn [cc curr set_curr]. rewrite Hcc.
  rewrite !bool_decide_eq_true_2 by eauto. exact Hnm.
Qed.

(** X7.  [setCurrent] sets what [getCurrentChildName] returns: on a
    machine that is being edited, where no listener is called, after a
    successful [setCurrent] of a path and a name the current child of
    the path is the name.  A [setCurrent] that does not succeed, on any
    machine, leaves the machine as it is: it returns before any
    listener is called. *)
Theorem setCurrent_sets (m : Machine) (path nm : jsstring) :
  (isLive m = false ->
   forall m', setCurrent path nm m = (Normal null, m') ->
     isVariableParent m' path = true /\ getCurrentChildName m' path = Some nm) /\
  (fst (setCurrent path nm m) <> Normal null -> snd (setCurrent path nm m) = m).
Proof.
  enough (H : (forall m', setCurrent path nm m = (Normal null, m') ->
                 isVariableParent m' path = true /\
                 getCurrentChildName m' path = Some nm) /\
              (fst (setCurrent path nm m) <> Normal null ->
                 snd (setCurrent path nm m) = m))
    by (split; [intros _; apply H | apply H]).
  unfold setCurrent.
  destruct (getState m path) as [l|] eqn:Hl; [|split; [discriminate | reflexivity]].
  destruct (curr (deref m l)) as [j|] eqn:Hj; [|split; [discriminate | reflexivity]].
  destruct (cc (deref m l)) as [names|] eqn:Hcc; [|split; [discriminate | reflexivity]].
  destruct (findIndex nm names) as [i|] eqn:Hi; [|split; [discriminate | reflexivity]].
  split; [|intros H; exfalso; apply H; reflexivity].
  intros m' [= <-].
  assert (Hname : getCurrentChildName (store l (set_curr i (deref m l)) m) path = Some nm).
  { apply (getCurrentChildName_store m path l names i nm); auto.
    - rewrite Hj. discriminate.
    - apply findIndex_Some, Hi. }
  split; [|exact Hname].
  unfold getCurrentChildName in Hname.
  destruct (isVariableParent _ path); [reflexivity | discriminate].
Qed.

Lemma setCurrent_sets_witness :
  let m := snd (interpret [$"P .a/x"; $"P .a/y"] new_Machine) in
  getCurrentChildName m $".a" = Some $"x" /\
  getCurrentChildName (snd (setCurrent $" .A" $"y" m)) $" .A" = Some $"y" /\
  snd (setCurrent $".a" $"z" m) = m.
Proof.
  intros m. split; [reflexivity|].
  destruct (setCurrent_sets m $" .A" $"y") as [Hset _].
  destruct (setCurrent_sets m $".a" $"z") as [_ Hfail].
  split; [apply (Hset eq_refl); reflexivity | apply Hfail; discriminate].
Defined.



(** On a reachable machine two paths never hold the same state object. *)
Lemma reachable_inj m :
  reachable m ->
  forall k1 k2 l, STATE_TREE m !! k1 = Some l -> STATE_TREE m !! k2 = Some l -> k1 = k2.
Proof.
  intros Hm.
  enough (H : store_ok m /\
              forall k1 k2 l, STATE_TREE m !! k1 = Some l -> STATE_TREE m !! k2 = Some l ->
                              k1 = k2) by apply H.
  revert m Hm.
  apply (reachable_preserved
           (fun m => store_ok m /\
              forall k1 k2 l, STATE_TREE m !! k1 = Some l -> STATE_TREE m !! k2 = Some l ->
                              k1 = k2)).
  - intros b m [Hok Hinj]. split; [apply store_ok_set_live, Hok | exact Hinj].
  - intros m [Hok _]. split; [apply store_ok_makeEmpty, Hok|].
    intros k1 k2 l H1 H2. unfold makeEmpty in H1, H2. cbn [STATE_TREE] in H1, H2.
    apply lookup_singleton_Some in H1 as [<- _], H2 as [<- _]. reflexivity.
  - intros pp sep nm pl m [Hok Hinj] Hpl Hname.
    split; [apply store_ok_attach; assumption|].
    rewrite attach_unfold. cbv zeta. repeat case_match; cbn [snd]; try exact Hinj.
    intros k1 k2 l Hk1 Hk2. rewrite attached_tree in Hk1, Hk2.
    apply lookup_insert_Some in Hk1 as [[<- <-] | [Hn1 Hk1]],
          Hk2 as [[<- Hl] | [Hn2 Hk2]]; try reflexivity.
    + apply (ok_tree m Hok) in Hk2. lia.
    + subst l. apply (ok_tree m Hok) in Hk1. lia.
    + eauto.
  - intros path nm m [Hok Hinj]. split; [apply store_ok_setCurrent, Hok|].
    rewrite setCurrent_tree. exact Hinj.
  - intros path v m [Hok Hinj]. split; [apply store_ok_setData, Hok|].
    rewrite setData_tree. exact Hinj.
  - split; [apply store_ok_new|].
    intros k1 k2 l H1 H2. unfold new_Machine in H1, H2. cbn [STATE_TREE] in H1, H2.
    apply lookup_singleton_Some in H1 as [<- _], H2 as [<- _]. reflexivity.
Qed.

Lemma getState_Some m path l :
  getState m path = Some l ->
  exists p, normalizePath (Some path) = str p /\ STATE_TREE m !! p = Some l.
Proof.
  unfold getState. destruct (normalizePath (Some path)) as [| |p]; try discriminate.
  eauto.
Qed.

Lemma setData_null path v m m' :
  setData path v m = (Normal null, m') ->
  exists l, getState m path = Some l /\ isLeaf m path = true /\
            isVariableLeaf m path = Normal false /\
            m' = store l (set_data v (deref m l)) m.
Proof.
  unfold setData. destruct (isLeaf m path); cbn [negb]; [|discriminate].
  destruct (isVariableLeaf m path) as [[|]| |]; try discriminate.
  destruct (getState m path) as [l|]; [|discriminate].
  intros [= <-]. eauto.
Qed.

(** X9.  [getData] returns what [setData] has set: after a successful
    [setData] on a reachable machine that is being edited, where no
    listener is called, [getData] of the path is the value, the empty
    string included, and the path is a data leaf. *)
Theorem setData_gets (m m' : Machine) (path v : jsstring) :
  reachable m -> isLive m = false -> setData path v m = (Normal null, m') ->
  getData m' path = Normal (str v) /\ isDataLeaf m' path = Normal true.
Proof.
  intros Hm _ H. pose proof (reachable_store_ok m Hm) as Hok.
  destruct (setData_null _ _ _ _ H) as (l & Hl & Hleaf & Hvar & ->).
  destruct (getState_Some _ _ _ Hl) as (p & Hn & Hp).
  pose proof (ok_tree m Hok _ _ Hp) as Hrange.
  set (m' := store l (set_data v (deref m l)) m).
  assert (Hs : same_structure m m') by (apply same_structure_store; reflexivity).
  assert (Hget : getData m' path = Normal (str v)); [|split; [exact Hget|]].
  2:{ unfold isDataLeaf. rewrite Hget. reflexivity. }
  assert (Hvar' : isVariableLeaf m' path = Normal false).
  { rewrite <- Hvar. unfold isVariableLeaf.
    rewrite (same_structure_getState m m' path Hs), Hl.
    destruct Hs as (_ & _ & Ho). destruct (Ho l) as (-> & -> & _).
    destruct (negb (truthy path)); [reflexivity|].
    destruct (bool_decide (is_Some (cc (deref m l)))); [reflexivity|].
    destruct (parent (deref m l)) as [pl|]; [|reflexivity].
    destruct (Ho pl) as (_ & _ & Hk). rewrite (bool_decide_ext _ _ Hk). reflexivity. }
  assert (Hleaf' : isLeaf m' path = true).
  { rewrite <- Hleaf. unfold isLeaf.
    rewrite (same_structure_getState m m' path Hs), Hl.
    destruct Hs as (_ & _ & Ho). destruct (Ho l) as (-> & _). reflexivity. }
  unfold getData. rewrite Hleaf', Hvar'. cbn [negb].
  rewrite (exists__key m' path p Hn).
  rewrite bool_decide_eq_true_2 by (change (STATE_TREE m') with (STATE_TREE m); eauto).
  cbn [negb]. rewrite (same_structure_getState m m' path Hs), Hl.
  unfold m'. rewrite deref_store_eq by exact Hrange. cbn [data set_data].
  destruct v; reflexivity.
Qed.

Lemma setData_gets_witness :
  let m := snd (addState (Some $".z") new_Machine) in
  getData (snd (setData $".Z " $"zebra" m)) $".Z " = Normal (str $"zebra") /\
  isDataLeaf (snd (setData $".Z " $"zebra" m)) $".Z " = Normal true.
Proof.
  intros m. apply (setData_gets m).
  - apply steps_addState, steps_refl.
  - reflexivity.
  - reflexivity.
Defined.

(** X10.  [setData] changes the data of its path and nothing else: on a
    reachable machine that is being edited, where no listener is
    called, [getAllPaths], [getCurrentPaths], the mode and the data of
    every other path are as before. *)
Theorem setData_keeps (m : Machine) (path v : jsstring) :
  reachable m -> isLive m = false ->
  let m' := snd (setData path v m) in
  getAllPaths m' = getAllPaths m /\
  getCurrentPaths m' = getCurrentPaths m /\
  isLive m' = false /\
  (forall q, normalizePath (Some q) <> normalizePath (Some path) ->
             getData m' q = getData m q).
Proof.
  intros Hm Hedit. cbv zeta. pose proof (setData_same path v m) as Hs.
  split; [apply same_structure_getAllPaths, Hs|].
  split; [apply same_structure_getCurrentPaths; [exact Hs|]; intros l; apply setData_deref|].
  split; [destruct Hs as (_ & Hl & _); unfold isLive in *; congruence|].
  intros q Hq. apply same_structure_getData; [exact Hs|].
  intros l0 Hl0. unfold setData.
  destruct (negb (isLeaf m path)); [reflexivity|].
  destruct (isVariableLeaf m path) as [[|]| |]; try reflexivity.
  destruct (getState m path) as [l|] eqn:Hl; [|reflexivity].
  cbn [snd]. rewrite deref_store_ne; [reflexivity|].
  intros ->.
  destruct (getState_Some _ _ _ Hl) as (p & Hn & Hp).
  destruct (getState_Some _ _ _ Hl0) as (p0 & Hn0 & Hp0).
  apply Hq. rewrite Hn, Hn0. f_equal.
  exact (reachable_inj m Hm p0 p l0 Hp0 Hp).
Qed.

Lemma setData_keeps_witness :
  let m := snd (interpret [$"P .a/x"; $"P .z"; $"P .w"; $"D .z zebra"] new_Machine) in
  let m' := snd (setData $".w" $"wolf" m) in
  getAllPaths m' = getAllPaths m /\
  getCurrentPaths m' = getCurrentPaths m /\
  isLive m' = false /\
  getData m' $".z" = getData m $".z".
Proof.
  intros m m'.
  destruct (setData_keeps m $".w" $"wolf") as (H1 & H2 & H3 & H4).
  - apply steps_interpret, steps_refl.
  - reflexivity.
  - split; [exact H1|]. split; [exact H2|]. split; [exact H3|].
    apply H4. vm_compute. discriminate.
Defined.

(** X11.  Data on a state forbids children: once [setData] has
    succeeded on a path of a reachable machine, whatever the value, the
    empty string included, [addState] of a new child of that path fails
    and leaves the machine as it is. *)
Theorem data_forbids_children (m m' : Machine) (path k v s sep nm : jsstring) :
  reachable m -> isLive m = false ->
  setData path v m = (Normal null, m') ->
  normalizePath (Some path) = str k ->
  is_separator sep -> Pat.NAMEPAT nm = true -> plain_name nm ->
  normalizePath (Some s) = str (child_path k sep nm) ->
  exists_ m s = false ->
  addState (Some s) m' = (Normal (str $"parent has data - cannot add child"), m').
Proof.
  intros Hm Hlive H Hk Hsep Hname Hplain Hs Hnew.
  pose proof (reachable_store_ok m Hm) as Hok.
  destruct (setData_null _ _ _ _ H) as (l & Hl & _ & _ & ->).
  destruct (getState_Some _ _ _ Hl) as (p & Hn & Hp).
  assert (p = k) by congruence. subst p.
  pose proof (ok_tree m Hok _ _ Hp) as Hrange.
  rewrite (exists__key m s _ Hs) in Hnew. apply bool_decide_eq_false in Hnew.
  rewrite (addState_child (Some s) _ k sep nm l); auto.
  - rewrite attach_unfold. cbv zeta. rewrite deref_store_eq by exact Hrange.
    cbn [data set_data]. rewrite bool_decide_eq_true_2 by eauto. reflexivity.
  - cbn [STATE_TREE store].
    destruct (STATE_TREE m !! child_path k sep nm) eqn:E; [|reflexivity].
    exfalso. apply Hnew. eauto.
Qed.

Lemma data_forbids_children_witness :
  let m := snd (addState (Some $".z") new_Machine) in
  let m' := snd (setData $".z" [] m) in
  addState (Some $".z.w") m' = (Normal (str $"parent has data - cannot add child"), m').
Proof.
  intros m m'.
  apply (data_forbids_children m m' $".z" $".z" [] $".z.w" $"." $"w");
    try reflexivity.
  - apply steps_addState, steps_refl.
  - left. reflexivity.
  - split; reflexivity.
Defined.

Lemma interpret_snd arr m : snd (interpret arr m) = snd (interpret_map arr m).
Proof. unfold interpret. destruct (interpret_map arr m) as [[| |] m']; reflexivity. Qed.

Lemma addStates_loop_live arr m : _live (snd (addStates_loop arr m)) = _live m.
Proof.
  revert m. induction arr as [|p rest IH]; intros m; [reflexivity|].
  cbn [addStates_loop].
  pose proof (_addState_steps (fun m m' => _live m' = _live m) (fun m => eq_refl)
                (fun m0 m1 pp sep nm pl H => eq_trans (attach_live pp sep nm pl m1) H)
                (addState_fuel p) p m) as H.
  destruct (_addState (addState_fuel p) p m) as [r m1]. cbn [snd] in H.
  destruct r; cbn [snd]; try exact H. rewrite IH. exact H.
Qed.

Lemma interpretOp_live line m : _live (snd (interpretOp line m)) = _live m.
Proof.
  unfold interpretOp.
  repeat case_match; cbn [snd]; try reflexivity;
    first [apply addState_live | apply setCurrent_same | apply setData_same].
Qed.

(** X13.  The mode is kept: [addState] and [addStates] leave a live machine live and an editing machine
    editing, and a machine that is being edited, where no listener is
    called, is still being edited after [setCurrent], [setData],
    [interpretOp] and [interpret], whatever the lines and whether they
    succeed or not. *)
Theorem mode_is_kept (m : Machine) :
  (forall s, isLive (snd (addState s m)) = isLive m) /\
  (forall arr, isLive (snd (addStates arr m)) = isLive m) /\
  (isLive m = false ->
   (forall path nm, isLive (snd (setCurrent path nm m)) = false) /\
   (forall path v, isLive (snd (setData path v m)) = false) /\
   (forall line, isLive (snd (interpretOp line m)) = false) /\
   (forall arr, isLive (snd (interpret arr m)) = false)).
Proof.
  enough (H : (forall s, isLive (snd (addState s m)) = isLive m) /\
              (forall arr, isLive (snd (addStates arr m)) = isLive m) /\
              (forall path nm, isLive (snd (setCurrent path nm m)) = isLive m) /\
              (forall path v, isLive (snd (setData path v m)) = isLive m) /\
              (forall line, isLive (snd (interpretOp line m)) = isLive m) /\
              (forall arr, isLive (snd (interpret arr m)) = isLive m)).
  { destruct H as (H1 & H2 & H3 & H4 & H5 & H6).
    split; [exact H1|]. split; [exact H2|]. intros Hedit.
    split; [intros path nm; rewrite H3; exact Hedit|].
    split; [intros path v; rewrite H4; exact Hedit|].
    split; [intros line; rewrite H5; exact Hedit|].
    intros arr; rewrite H6; exact Hedit. }
  unfold isLive.
  split; [intros s; apply addState_live|].
  split.
  { intros arr. unfold addStates, isLive. destruct (_live m) eqn:Hl; [exact Hl|].
    pose proof (addStates_loop_live arr (set_live false m)) as H.
    destruct (addStates_loop arr (set_live false m)) as [[| |] m']; exact H. }
  split; [intros path nm; apply setCurrent_same|].
  split; [intros path v; apply setData_same|].
  split; [intros line; apply interpretOp_live|].
  intros arr. rewrite interpret_snd. revert m.
  induction arr as [|op rest IH]; intros m; [reflexivity|].
  cbn [interpret_map].
  pose proof (interpretOp_live (Some op) m) as H1.
  destruct (interpretOp (Some op) m) as [r m1]. cbn [snd] in H1.
  destruct r as [e| |]; cbn [snd]; try exact H1.
  specialize (IH m1).
  destruct (interpret_map rest m1) as [r2 m2]. cbn [snd] in IH.
  destruct r2; cbn [snd]; congruence.
Qed.

Lemma mode_is_kept_witness :
  let m := snd (addStates [$".a/x"; $".a/y"; $".z"] new_Machine) in
  isLive (snd (interpret [$"C .a y"; $"D .z v"; $"C .a none"; $"D .a v"; $"P .b"] m)) = false /\
  isLive (snd (setCurrent $".a" $"y" m)) = false /\
  isLive (snd (setData $".z" $"v" m)) = false.
Proof.
  intros m. destruct (mode_is_kept m) as (_ & _ & H).
  destruct (H eq_refl) as (Hcur & Hdat & _ & Hint).
  split; [apply Hint|]. split; [apply Hcur | apply Hdat].
Defined.

(** ** The tree of a machine built by tidy operations *)

Lemma NoDup_flat_map {A B : Type} (g : A -> list B) (l : list A) :
  NoDup l -> (forall x, x ∈ l -> NoDup (g x)) ->
  (forall x y b, x ∈ l -> y ∈ l -> b ∈ g x -> b ∈ g y -> x = y) ->
  NoDup (flat_map g l).
Proof.
  induction l as [|x l IH]; intros Hnd Hg Hdis; [constructor|].
  apply NoDup_cons in Hnd as [Hx Hnd]. cbn [flat_map].
  apply NoDup_app. split; [apply Hg; left|]. split.
  - intros b Hb Hin. apply list_elem_of_In, in_flat_map in Hin as (y & Hy & Hby).
    apply list_elem_of_In in Hy, Hby.
    assert (x = y) by (apply (Hdis x y b); [left | right; exact Hy | exact Hb | exact Hby]).
    subst y. contradiction.
  - apply IH; [exact Hnd | |].
    + intros y Hy. apply Hg. right. exact Hy.
    + intros y z b Hy Hz. apply Hdis; right; assumption.
Qed.

Lemma dfs_NoDup a fuel k : shape_ok a -> NoDup (dfs all_kids a fuel k).
Proof.
  intros Hsh. revert k. induction fuel as [|fuel IH]; intros k; [constructor|].
  cbn [dfs]. destruct (a !! k) as [i|] eqn:Hk; [|constructor].
  assert (Hsel : forall (j : Info) nm, nm ∈ all_kids j -> nm ∈ kids j) by auto.
  apply NoDup_flat_map.
  - exact (sh_nodup _ Hsh _ _ Hk).
  - intros nm _. cbv zeta. apply NoDup_cons. split; [|apply IH].
    intros Hin. apply dfs_below in Hin; [|exact Hsh | exact Hsel].
    apply below_length in Hin. lia.
  - intros n1 n2 b Hn1 Hn2 Hb1 Hb2. cbv zeta in Hb1, Hb2.
    destruct (sh_kids _ Hsh _ _ _ Hk Hn1) as [Hok1 _].
    destruct (sh_kids _ Hsh _ _ _ Hk Hn2) as [Hok2 _].
    apply (siblings_disjoint k (sep_of i) (sep_of i) n1 n2 b);
      auto using sep_of_separator, name_ok_plain.
    + apply elem_of_cons in Hb1 as [-> | Hb1]; [left; reflexivity | right].
      eapply dfs_below; eauto.
    + apply elem_of_cons in Hb2 as [-> | Hb2]; [left; reflexivity | right].
      eapply dfs_below; eauto.
Qed.

Lemma flat_map_split {A B : Type} (g : A -> list B) (l : list A) pre c post :
  flat_map g l = pre ++ c :: post ->
  exists l1 x l2 pre' post',
    l = l1 ++ x :: l2 /\ g x = pre' ++ c :: post' /\ pre = flat_map g l1 ++ pre'.
Proof.
  revert pre. induction l as [|x l IH]; intros pre H; cbn [flat_map] in H.
  - destruct pre; discriminate.
  - apply app_eq_app in H as [l0 [[H1 H2] | [H1 H2]]].
    + destruct l0 as [|c0 l0].
      * rewrite app_nil_r in H1. cbn in H2. symmetry in H2.
        destruct (IH [] H2) as (l1 & y & l2 & pre' & post' & -> & Hy & Hpre).
        exists (x :: l1), y, l2, pre', post'. split; [reflexivity|]. split; [exact Hy|].
        cbn [flat_map]. rewrite <- app_assoc, <- Hpre, app_nil_r. symmetry. exact H1.
      * injection H2 as -> _. exists [], x, l, pre, l0. auto.
    + destruct (IH l0 H2) as (l1 & y & l2 & pre' & post' & -> & Hy & ->).
      exists (x :: l1), y, l2, pre', post'. split; [reflexivity|]. split; [exact Hy|].
      cbn [flat_map]. rewrite <- app_assoc. exact H1.
Qed.

Lemma dfs_parent_first a fuel k pre c post :
  shape_ok a ->
  dfs all_kids a fuel k = pre ++ c :: post ->
  exists pk sep nm,
    c = child_path pk sep nm /\ is_separator sep /\ name_ok nm /\ (pk = k \/ pk ∈ pre).
Proof.
  intros Hsh.
  revert k pre c post. induction fuel as [|fuel IH]; intros k pre c post H; cbn [dfs] in H.
  { destruct pre; discriminate. }
  destruct (a !! k) as [i|] eqn:Hk; [|destruct pre; discriminate].
  apply flat_map_split in H as (l1 & n & l2 & pre' & post' & Hkids & Hg & ->).
  cbv zeta in Hg. destruct pre' as [|c0 pre'].
  - injection Hg as <- _. exists k, (sep_of i), n.
    split; [reflexivity|]. split; [apply sep_of_separator|].
    split; [|left; reflexivity].
    apply (sh_kids _ Hsh k i n Hk). unfold all_kids in Hkids. rewrite Hkids.
    apply elem_of_app. right. left.
  - injection Hg as <- Hg. apply IH in Hg as (pk & sep & nm & -> & Hsep & Hnm & Hpk).
    exists pk, sep, nm. split; [reflexivity|]. split; [exact Hsep|]. split; [exact Hnm|].
    right.
    apply elem_of_app. right. destruct Hpk as [-> | Hpk]; [left | right; exact Hpk].
Qed.

(** X14.  On a machine built by tidy operations [getAllPaths] lists
    every state once: the list has no duplicates, its elements are the
    paths that exist, and every path but the root comes after the path
    of its parent, the path being that of the parent, a separator and a
    name that is not empty and has no separator in it. *)
Theorem getAllPaths_lists_every_state (m : Machine) :
  tidy_steps m ->
  exists all,
    getAllPaths m = Normal all /\ NoDup all /\
    (forall k, k ∈ all -> exists_ m k = true) /\
    (forall path, exists_ m path = true ->
       exists k, normalizePath (Some path) = str k /\ k ∈ all) /\
    (forall pre c post, all = pre ++ c :: post -> c <> [] ->
       exists k sep nm,
         c = child_path k sep nm /\ is_separator sep /\ nm <> [] /\ plain_name nm /\
         k ∈ pre).
Proof.
  intros Hsteps. pose proof (tidy_steps_tidy m Hsteps) as Ht.
  pose proof (td_shape m Ht) as Hsh.
  assert (Hsel : forall (j : Info) nm, nm ∈ all_kids j -> nm ∈ kids j) by auto.
  exists ([] :: dfs all_kids (view m) (traversal_fuel m) []).
  split; [apply getAllPaths_view, Ht|]. split; [|split; [|split]].
  - apply NoDup_cons. split; [|apply dfs_NoDup, Hsh].
    intros Hin. apply dfs_below in Hin; [|exact Hsh | exact Hsel].
    apply below_length in Hin. cbn in Hin. lia.
  - intros k Hk.
    assert (Hv : is_Some (view m !! k)).
    { apply elem_of_cons in Hk as [-> | Hk]; [|eapply dfs_dom; eauto].
      destruct (sh_root _ Hsh) as (i & Hi & _). eauto. }
    destruct Hv as [i Hi]. rewrite exists__tidy by (eapply sh_keys; eauto).
    apply bool_decide_eq_true, view_is_Some. eauto.
  - intros path Hex. unfold exists_ in Hex.
    destruct (normalizePath (Some path)) as [| |k]; try discriminate.
    exists k. split; [reflexivity|]. apply bool_decide_eq_true in Hex.
    apply (dfs_covers (view m) (traversal_fuel m - 1)); auto.
    + apply view_bounded.
    + unfold traversal_fuel. lia.
    + apply view_is_Some, Hex.
  - intros pre c post Hall Hc. destruct pre as [|c0 pre].
    + apply (f_equal head) in Hall. cbn [head app] in Hall. congruence.
    + pose proof (f_equal head Hall) as Hhead. cbn [head app] in Hhead.
      injection Hhead as <-.
      apply (f_equal (drop 1)) in Hall. cbn [drop app] in Hall.
      apply (dfs_parent_first _ _ _ _ _ _ Hsh) in Hall
        as (pk & sep & nm & -> & Hsep & Hnm & Hpk).
      exists pk, sep, nm. split; [reflexivity|]. split; [exact Hsep|].
      split; [apply Hnm|]. split; [apply name_ok_plain, Hnm|].
      destruct Hpk as [-> | Hpk]; [left | right; exact Hpk].
Qed.

Lemma getAllPaths_lists_every_state_witness :
  exists all,
    getAllPaths sample_machine = Normal all /\ NoDup all /\
    (forall k, k ∈ all -> exists_ sample_machine k = true) /\
    (forall path, exists_ sample_machine path = true ->
       exists k, normalizePath (Some path) = str k /\ k ∈ all) /\
    (forall pre c post, all = pre ++ c :: post -> c <> [] ->
       exists k sep nm,
         c = child_path k sep nm /\ is_separator sep /\ nm <> [] /\ plain_name nm /\
         k ∈ pre).
Proof. exact (getAllPaths_lists_every_state sample_machine tidy_steps_sample). Defined.

Lemma sublist_flat_map {A B : Type} (f g : A -> list B) (l1 l2 : list A) :
  l1 `sublist_of` l2 -> (forall x, f x `sublist_of` g x) ->
  flat_map f l1 `sublist_of` flat_map g l2.
Proof.
  intros Hl Hfg. induction Hl as [|x l1 l2 _ IH|x l1 l2 _ IH]; cbn [flat_map].
  - constructor.
  - apply sublist_app; [apply Hfg | exact IH].
  - apply sublist_inserts_l. exact IH.
Qed.

Lemma current_kids_sublist i : current_kids i `sublist_of` all_kids i.
Proof.
  unfold current_kids, all_kids. destruct (cur i) as [c|]; [|reflexivity].
  destruct (kids i !! c) as [nm|] eqn:Hnm; [|apply sublist_nil_l].
  rewrite <- (take_drop_middle _ _ _ Hnm).
  apply sublist_inserts_l. apply sublist_skip, sublist_nil_l.
Qed.

Lemma dfs_sublist a fuel k :
  dfs current_kids a fuel k `sublist_of` dfs all_kids a fuel k.
Proof.
  revert k. induction fuel as [|fuel IH]; intros k; [constructor|].
  cbn [dfs]. destruct (a !! k) as [i|]; [|constructor].
  apply sublist_flat_map; [apply current_kids_sublist|].
  intros nm. cbv zeta. apply sublist_skip, IH.
Qed.

(** X15.  On a machine built by tidy operations the current paths are
    among all the paths, in the same order: [getCurrentPaths] is
    [getAllPaths] with some paths left out. *)
Theorem getCurrentPaths_among_all (m : Machine) :
  tidy_steps m ->
  exists current all,
    getCurrentPaths m = Normal current /\ getAllPaths m = Normal all /\
    current `sublist_of` all /\ NoDup current /\
    forall k, k ∈ current -> exists_ m k = true.
Proof.
  intros Hsteps. pose proof (tidy_steps_tidy m Hsteps) as Ht.
  pose proof (td_shape m Ht) as Hsh.
  assert (Hsel : forall (j : Info) nm, nm ∈ all_kids j -> nm ∈ kids j) by auto.
  assert (Hsub : ([] :: dfs current_kids (view m) (traversal_fuel m) [])
                 `sublist_of` ([] :: dfs all_kids (view m) (traversal_fuel m) []))
    by (apply sublist_skip, dfs_sublist).
  assert (Hnd : NoDup ([] :: dfs all_kids (view m) (traversal_fuel m) [])).
  { apply NoDup_cons. split; [|apply dfs_NoDup, Hsh].
    intros Hin. apply dfs_below in Hin; [|exact Hsh | exact Hsel].
    apply below_length in Hin. cbn in Hin. lia. }
  exists ([] :: dfs current_kids (view m) (traversal_fuel m) []),
         ([] :: dfs all_kids (view m) (traversal_fuel m) []).
  split; [apply getCurrentPaths_view, Ht|].
  split; [apply getAllPaths_view, Ht|].
  split; [exact Hsub|]. split; [eapply sublist_NoDup; eauto|].
  intros k Hk.
  assert (Hk' : k ∈ [] :: dfs all_kids (view m) (traversal_fuel m) [])
    by (eapply elem_of_sublist; eauto).
  assert (Hv : is_Some (view m !! k)).
  { apply elem_of_cons in Hk' as [-> | Hk']; [|eapply dfs_dom; eauto].
    destruct (sh_root _ Hsh) as (i & Hi & _). eauto. }
  destruct Hv as [i Hi]. rewrite exists__tidy by (eapply sh_keys; eauto).
  apply bool_decide_eq_true, view_is_Some. eauto.
Qed.

Lemma getCurrentPaths_among_all_witness :
  exists current all,
    getCurrentPaths sample_machine = Normal current /\
    getAllPaths sample_machine = Normal all /\
    current `sublist_of` all /\ NoDup current /\
    forall k, k ∈ current -> exists_ sample_machine k = true.
Proof. exact (getCurrentPaths_among_all sample_machine tidy_steps_sample). Defined.

Lemma tidy_parent_kind m k pl :
  tidy m -> STATE_TREE m !! k = Some pl -> kids (info_of (deref m pl)) <> [] ->
  exists_ m k = true /\ isLeaf m k = false /\
  isVariableParent m k = bool_decide (sep_of (info_of (deref m pl)) = $"/").
Proof.
  intros Ht Hk Hkids.
  assert (Hv : view m !! k = Some (info_of (deref m pl))) by (apply view_Some; eauto).
  pose proof (sh_keys _ (td_shape m Ht) _ _ Hv) as Htk.
  pose proof (tidy_valid m k pl Ht Hk) as Hrange.
  assert (Hcc : is_Some (cc (deref m pl))).
  { destruct (cc (deref m pl)) as [names|] eqn:E; [eauto|].
    exfalso. apply Hkids. apply info_kids_nil; auto. apply Ht. }
  split; [rewrite exists__tidy by exact Htk; apply bool_decide_eq_true; eauto|].
  unfold isLeaf, isVariableParent. rewrite (getState_tidy m k Htk), Hk.
  split.
  - apply bool_decide_eq_false. destruct Hcc as [? E]. rewrite E. discriminate.
  - rewrite (bool_decide_eq_true_2 _ Hcc). cbn [andb]. unfold sep_of.
    change (cur (info_of (deref m pl))) with (curr (deref m pl)).
    destruct (bool_decide (is_Some (curr (deref m pl)))); reflexivity.
Qed.

(** X16.  On a machine built by tidy operations no state is an orphan:
    a path that exists, the root apart, is the path of a state that
    exists, a separator and a name without separators; that state is a
    parent, and it is a variable parent exactly if the separator is a
    slash. *)
Theorem every_state_has_its_parent (m : Machine) (path p : jsstring) :
  tidy_steps m -> exists_ m path = true ->
  normalizePath (Some path) = str p -> p <> [] ->
  exists k sep nm,
    p = child_path k sep nm /\ is_separator sep /\ nm <> [] /\ plain_name nm /\
    exists_ m k = true /\ isLeaf m k = false /\
    isVariableParent m k = bool_decide (sep = $"/").
Proof.
  intros Hsteps Hex Hn Hp. pose proof (tidy_steps_tidy m Hsteps) as Ht.
  rewrite (exists__key m path p Hn) in Hex. apply bool_decide_eq_true in Hex.
  apply view_is_Some in Hex as [i Hi].
  destruct (sh_parent _ (td_shape m Ht) _ _ Hi Hp) as (pk & nm & pi & -> & Hpk & Hnm & _).
  destruct (sh_kids _ (td_shape m Ht) _ _ _ Hpk Hnm) as [Hname _].
  apply view_Some in Hpk as (pl & Hpl & ->).
  destruct (tidy_parent_kind m pk pl Ht Hpl) as (H1 & H2 & H3).
  { intros E. rewrite E in Hnm. inversion Hnm. }
  exists pk, (sep_of (info_of (deref m pl))), nm.
  split; [reflexivity|]. split; [apply sep_of_separator|].
  split; [apply Hname|]. split; [apply name_ok_plain, Hname|]. auto.
Qed.

Lemma every_state_has_its_parent_witness :
  exists k sep nm,
    $".a/y" = child_path k sep nm /\ is_separator sep /\ nm <> [] /\ plain_name nm /\
    exists_ sample_machine k = true /\ isLeaf sample_machine k = false /\
    isVariableParent sample_machine k = bool_decide (sep = $"/").
Proof.
  apply (every_state_has_its_parent sample_machine $" .A/Y" $".a/y" tidy_steps_sample);
    [reflexivity | reflexivity | discriminate].
Defined.

(** X17.  On a machine built by tidy operations a variable parent
    always has a current child, and the current child is a state that
    exists. *)
Theorem current_child_exists (m : Machine) (path : jsstring) :
  tidy_steps m -> isVariableParent m path = true ->
  exists p nm,
    normalizePath (Some path) = str p /\
    getCurrentChildName m path = Some nm /\
    exists_ m (child_path p $"/" nm) = true.
Proof.
  intros Hsteps Hvar. pose proof (tidy_steps_tidy m Hsteps) as Ht.
  unfold getCurrentChildName. rewrite Hvar. unfold isVariableParent in Hvar.
  destruct (getState m path) as [l|] eqn:Hl; [|discriminate].
  destruct (getState_Some _ _ _ Hl) as (p & Hn & Hp).
  apply andb_true_iff in Hvar as [Hcc Hcur].
  apply bool_decide_eq_true in Hcc as [names Hcc], Hcur as [c Hc].
  assert (Hv : view m !! p = Some (info_of (deref m l))) by (apply view_Some; eauto).
  pose proof (sh_cur _ (td_shape m Ht) _ _ c Hv Hc) as Hlt.
  cbn [kids info_of] in Hlt. rewrite Hcc in Hlt. cbn [default from_option id] in Hlt.
  destruct (lookup_lt_is_Some_2 names c Hlt) as [nm Hnm].
  exists p, nm. split; [exact Hn|]. rewrite Hcc, Hc. split; [exact Hnm|].
  assert (Hin : nm ∈ kids (info_of (deref m l))).
  { cbn [kids info_of]. rewrite Hcc. eapply list_elem_of_lookup_2. exact Hnm. }
  destruct (sh_kids _ (td_shape m Ht) _ _ _ Hv Hin) as [Hname Hchild].
  assert (Hsep : sep_of (info_of (deref m l)) = $"/").
  { unfold sep_of. cbn [cur info_of]. rewrite Hc.
    rewrite bool_decide_eq_true_2 by eauto. reflexivity. }
  rewrite Hsep in Hchild.
  rewrite exists__tidy.
  - apply bool_decide_eq_true, view_is_Some, Hchild.
  - apply tidy_child_path; [eapply sh_keys; eauto; apply Ht | right; reflexivity | exact Hname].
Qed.

Lemma current_child_exists_witness :
  exists p nm,
    normalizePath (Some $".A") = str p /\
    getCurrentChildName sample_machine $".A" = Some nm /\
    exists_ sample_machine (child_path p $"/" nm) = true.
Proof.
  apply (current_child_exists sample_machine $".A" tidy_steps_sample). reflexivity.
Defined.

(** ** Adding states to a machine built by tidy operations *)

Lemma tidy__addState_completes fuel p m :
  tidy m -> tidy_path p -> length p < fuel ->
  exists v, fst (_addState fuel p m) = Normal v.
Proof.
  revert p m. induction fuel as [|fuel IH]; intros p m Ht Hp Hfuel; [lia|].
  rewrite _addState_S.
  destruct (exists_ m p); [eauto|].
  destruct (last_separator p) as [pos|] eqn:Hpos; [|eauto].
  destruct (last_separator_parts p pos Hpos)
    as (pp & sep & nm & Hsep & Hplain & -> & -> & -> & Hsplit).
  subst p.
  assert (Hpp : tidy_path pp).
  { unfold child_path in Hp. apply tidy_path_app in Hp as [H1 _]. exact H1. }
  assert (Hlen : length pp < fuel)
    by (rewrite child_path_length in Hfuel by exact Hsep; lia).
  assert (Hatt : forall pl m0, exists v, fst (attach pp sep nm pl m0) = Normal v).
  { intros pl m0. destruct (attach_result pp sep nm pl m0) as (_ & H2 & H3).
    destruct (fst (attach pp sep nm pl m0)); [eauto | congruence | congruence]. }
  unfold _addSubState_with.
  destruct (negb (Pat.NAMEPAT nm)); [eauto|].
  destruct (negb (Pat.SEPPAT sep)); [eauto|].
  destruct (STATE_TREE m !! pp) as [pl|] eqn:Hpl; [apply Hatt|].
  destruct (IH pp m Ht Hpp Hlen) as [v Hv].
  destruct (_addState fuel pp m) as [r m1] eqn:Hrec. cbn [fst] in Hv. subst r.
  destruct v as [| |e]; [|eauto|eauto].
  destruct (STATE_TREE m1 !! pp) as [pl|] eqn:Hpl1; [apply Hatt|].
  exfalso.
  destruct (_addState_null_last _ _ _ _ Hrec)
    as [[Hex ->] | (_ & pp' & sep' & nm' & pl' & m2 & -> & _ & _ & _ & ->)].
  - rewrite exists__tidy in Hex by exact Hpp. apply bool_decide_eq_true in Hex.
    rewrite Hpl in Hex. destruct Hex. discriminate.
  - rewrite attached_key in Hpl1. discriminate.
Qed.

Lemma set_live_same m : set_live (_live m) m = m.
Proof. destruct m. reflexivity. Qed.

Lemma addState_tidy_path p m :
  _live m = false -> tidy_path p ->
  addState (Some p) m = _addState (addState_fuel p) p m.
Proof.
  intros Hlive Hp. unfold addState, isLive. rewrite Hlive, normalizePath_tidy by exact Hp.
  reflexivity.
Qed.

Lemma tidy_path_argument p : tidy_path p -> path_argument (Some p).
Proof. intros Hp q [= <-] c Hc. apply Hp, Hc. Qed.

Lemma addStates_loop_tidy arr m :
  tidy_steps m -> _live m = false -> Forall tidy_path arr ->
  addStates_loop arr m = (Normal tt, addState_each arr m) /\
  tidy_steps (addState_each arr m).
Proof.
  intros Hsteps Hlive Harr. revert m Hsteps Hlive.
  induction Harr as [|p rest Hp _ IH]; intros m Hsteps Hlive; [split; [reflexivity | exact Hsteps]|].
  cbn [addStates_loop addState_each fold_left].
  pose proof (addState_tidy_path p m Hlive Hp) as Hadd.
  destruct (tidy__addState_completes (addState_fuel p) p m
              (tidy_steps_tidy m Hsteps) Hp) as [v Hv]; [unfold addState_fuel; lia|].
  rewrite Hadd.
  destruct (_addState (addState_fuel p) p m) as [r m1] eqn:Hrun. cbn [fst] in Hv. subst r.
  cbn [snd].
  assert (Hm1 : m1 = snd (addState (Some p) m)) by (rewrite Hadd; reflexivity).
  apply IH.
  - rewrite Hm1. apply ts_addState; [apply tidy_path_argument, Hp | exact Hsteps].
  - rewrite Hm1, addState_live. exact Hlive.
Qed.

(** X18.  On an editing machine built by tidy operations, [addStates]
    of paths of lower-case path characters succeeds and does what
    [addState] of each path in turn does. *)
Theorem addStates_as_addState (arr : list jsstring) (m : Machine) :
  tidy_steps m -> isLive m = false -> Forall tidy_path arr ->
  addStates arr m = (Normal null, addState_each arr m) /\
  tidy_steps (addState_each arr m).
Proof.
  intros Hsteps Hlive Harr. unfold addStates. rewrite Hlive.
  unfold isLive in Hlive.
  replace (set_live false m) with m by (rewrite <- Hlive at 1; symmetry; apply set_live_same).
  destruct (addStates_loop_tidy arr m Hsteps Hlive Harr) as [-> H]. auto.
Qed.

Lemma tidy_path_check p :
  forallb (fun c => is_path_char c && bool_decide (lower_char c = c)) p = true ->
  tidy_path p.
Proof.
  intros H c Hc. rewrite forallb_forall in H.
  specialize (H c (proj1 (list_elem_of_In _ _) Hc)).
  apply andb_true_iff in H as [H1 H2]. apply bool_decide_eq_true in H2. auto.
Qed.

Lemma addStates_as_addState_witness :
  addStates [$".boot"; $".boot/failed"; $".boot/booting.robot"; $".net"] new_Machine =
    (Normal null,
     addState_each [$".boot"; $".boot/failed"; $".boot/booting.robot"; $".net"] new_Machine) /\
  tidy_steps
    (addState_each [$".boot"; $".boot/failed"; $".boot/booting.robot"; $".net"] new_Machine).
Proof.
  apply addStates_as_addState; [apply ts_new | reflexivity|].
  repeat (apply Forall_cons; split; [apply tidy_path_check; reflexivity|]).
  apply Forall_nil. exact I.
Defined.

Lemma grows_refl a : grows a a.
Proof. intros q i Hq. exists i. auto 10. Qed.

Lemma grows_trans a b c : grows a b -> grows b c -> grows a c.
Proof.
  intros Hab Hbc q i Hq.
  destruct (Hab q i Hq) as (i1 & Hq1 & Hd1 & He1 & Hc1 & Hp1).
  destruct (Hbc q i1 Hq1) as (i2 & Hq2 & Hd2 & He2 & Hc2 & Hp2).
  exists i2. split; [exact Hq2|]. split; [congruence|].
  split; [|split].
  - intros Hd. rewrite He2 by (rewrite Hd1; exact Hd). apply He1, Hd.
  - intros Hk. rewrite Hc2, Hc1; auto.
    intros E. apply Hk. destruct Hp1 as [t Ht]. rewrite E in Ht.
    symmetry in Ht. apply app_eq_nil in Ht as [Ht _]. exact Ht.
  - etrans; eauto.
Qed.

Lemma attach_grows m k sep nm pl :
  tidy m -> STATE_TREE m !! k = Some pl -> name_ok nm -> is_separator sep ->
  STATE_TREE m !! child_path k sep nm = None ->
  grows (view m) (view (snd (attach k sep nm pl m))).
Proof.
  intros Ht Hk Hname Hsep Hnew.
  destruct (attach_tidy m k sep nm pl Ht Hk Hname Hsep Hnew)
    as [(Hd & Hkind & -> & _) | (_ & e & ->)]; [|apply grows_refl].
  cbn [snd]. rewrite (attached_view m k sep nm pl Ht Hk).
  intros q i Hq.
  assert (Hqc : child_path k sep nm <> q).
  { intros <-. apply view_None in Hnew. congruence. }
  rewrite lookup_insert_ne by exact Hqc.
  destruct (decide (k = q)) as [<-|Hne].
  - assert (i = info_of (deref m pl)).
    { apply view_Some in Hq as (l & Hl & ->). congruence. }
    subst i. rewrite lookup_insert_eq. eexists. split; [reflexivity|].
    split; [reflexivity|]. split; [|split].
    + rewrite Hd. intros [? ?]. discriminate.
    + intros Hkids. destruct Hkind as [E | ->]; [contradiction|].
      cbn [cur push_info]. unfold sep_of, eqb.
      destruct (cur (info_of (deref m pl))) as [c|].
      * rewrite (bool_decide_eq_false_2 (Some c = None)) by discriminate.
        rewrite andb_false_r. reflexivity.
      * rewrite (bool_decide_eq_false_2 (is_Some None)) by (intros [? ?]; discriminate).
        rewrite (bool_decide_eq_false_2 ($"." = $"/")) by discriminate. reflexivity.
    + cbn [kids push_info]. apply prefix_app_r. reflexivity.
  - rewrite lookup_insert_ne by exact Hne. exists i. auto 10.
Qed.

Lemma tidy__addState_grows fuel p m :
  tidy m -> tidy_path p -> grows (view m) (view (snd (_addState fuel p m))).
Proof.
  revert p m. induction fuel as [|fuel IH]; intros p m Ht Hp; [apply grows_refl|].
  rewrite _addState_S, exists__tidy by exact Hp.
  case_bool_decide as Hex; [apply grows_refl|].
  assert (Hnew : STATE_TREE m !! p = None).
  { destruct (STATE_TREE m !! p) eqn:E; [exfalso; apply Hex; eauto | reflexivity]. }
  destruct (last_separator p) as [pos|] eqn:Hpos; [|apply grows_refl].
  destruct (last_separator_parts p pos Hpos)
    as (pp & sep & nm & Hsep & Hplain & -> & -> & -> & Hsplit).
  subst p.
  assert (Htp : tidy_path pp /\ tidy_path nm).
  { unfold child_path in Hp.
    apply tidy_path_app in Hp as [H1 H2]. apply tidy_path_app in H2 as [_ H2]. auto. }
  destruct Htp as [Hpp Hnm].
  assert (Hlen : length pp < length (child_path pp sep nm))
    by (rewrite child_path_length by exact Hsep; lia).
  unfold _addSubState_with.
  destruct (Pat.NAMEPAT nm) eqn:Hpat; cbn [negb]; [|apply grows_refl].
  pose proof (tidy_plain_name_ok nm Hnm Hplain (existsb_nonempty _ _ Hpat)) as Hname.
  rewrite (SEPPAT_separator _ Hsep). cbn [negb].
  destruct (STATE_TREE m !! pp) as [pl|] eqn:Hpl.
  { apply attach_grows; auto. }
  specialize (IH pp m Ht Hpp).
  destruct (tidy__addState fuel pp m Ht Hpp) as (Ht' & _ & Hframe').
  destruct (_addState fuel pp m) as [r m'] eqn:Hrec. cbn [snd] in *.
  destruct r as [[| |e]| |]; try exact IH.
  destruct (STATE_TREE m' !! pp) as [pl|] eqn:Hpl'; [|exact IH].
  assert (Hnew' : STATE_TREE m' !! child_path pp sep nm = None).
  { rewrite Hframe' by exact Hlen. exact Hnew. }
  eapply grows_trans; [exact IH|]. apply attach_grows; auto.
Qed.

Lemma getCurrentChildName_view m q k :
  normalizePath (Some q) = str k ->
  getCurrentChildName m q =
  match view m !! k with
  | Some i => match cur i with Some c => kids i !! c | None => None end
  | None => None
  end.
Proof.
  intros Hn. unfold getCurrentChildName, isVariableParent, getState.
  rewrite Hn, view_lookup.
  destruct (STATE_TREE m !! k) as [l|]; cbn [fmap option_fmap option_map]; [|reflexivity].
  cbn [cur kids info_of].
  destruct (cc (deref m l)) as [names|], (curr (deref m l)) as [c|];
    cbn [default from_option id]; reflexivity.
Qed.

Lemma grows_current a a' k nm :
  grows a a' ->
  match a !! k with
  | Some i => match cur i with Some c => kids i !! c | None => None end
  | None => None
  end = Some nm ->
  match a' !! k with
  | Some i => match cur i with Some c => kids i !! c | None => None end
  | None => None
  end = Some nm.
Proof.
  intros Hg H. destruct (a !! k) as [i|] eqn:Hk; [|discriminate].
  destruct (cur i) as [c|] eqn:Hc; [|discriminate].
  destruct (Hg k i Hk) as (i' & -> & _ & _ & Hcur & Hpre).
  rewrite Hcur, Hc.
  - destruct Hpre as [t ->]. apply lookup_app_l_Some. exact H.
  - intros E. rewrite E in H. discriminate.
Qed.

Lemma grows_data a a' k v :
  shape_ok a -> grows a a' -> v <> [] ->
  data_of a k = str v -> data_of a' k = str v.
Proof.
  intros Hsh Hg Hv. unfold data_of.
  destruct (a !! k) as [i|] eqn:Hk; [|discriminate].
  case_bool_decide as Hkids; [|discriminate].
  assert (Hdat : forall w, str (default [] (dat i)) = str w -> w = v -> is_Some (dat i)).
  { intros w [= E] ->. destruct (dat i); [eauto | cbn in E; congruence]. }
  destruct (Hg k i Hk) as (i' & -> & _ & Hsame & _ & _).
  destruct (split_path k) as [[pk n]|] eqn:Hsplit.
  - destruct (a !! pk) as [pi|] eqn:Hpk; [|discriminate].
    case_bool_decide as Hcur; [discriminate|].
    intros H. rewrite (Hsame (Hdat v H eq_refl)).
    rewrite bool_decide_eq_true_2 by exact Hkids.
    destruct (Hg pk pi Hpk) as (pi' & -> & _ & _ & Hcur' & _).
    assert (Hk0 : k <> []) by (intros ->; discriminate).
    destruct (sh_parent _ Hsh _ _ Hk Hk0) as (pk' & nm' & pi0 & Heq & Hpk' & Hnm' & _).
    destruct (sh_kids _ Hsh _ _ _ Hpk' Hnm') as [Hname _].
    rewrite Heq, (split_path_child pk' _ nm' (sep_of_separator _) (name_ok_plain _ Hname))
      in Hsplit.
    injection Hsplit as <- <-.
    assert (pi0 = pi) by congruence. subst pi0.
    rewrite Hcur'; [|intros E; rewrite E in Hnm'; inversion Hnm'].
    rewrite bool_decide_eq_false_2 by exact Hcur. exact H.
  - intros H. rewrite (Hsame (Hdat v H eq_refl)).
    rewrite bool_decide_eq_true_2 by exact Hkids. exact H.
Qed.

(** X19.  Adding states loses nothing that was set: on a machine built
    by tidy operations, after [addState] of a path of path characters
    every variable parent has the current child it had, and every path
    with data that is not empty has the data it had. *)
Theorem addState_keeps (m : Machine) (s : option jsstring) (q : jsstring) :
  tidy_steps m -> path_argument s ->
  let m' := snd (addState s m) in
  (forall nm, getCurrentChildName m q = Some nm -> getCurrentChildName m' q = Some nm) /\
  (forall v, v <> [] -> getData m q = Normal (str v) -> getData m' q = Normal (str v)).
Proof.
  intros Hsteps Harg. cbv zeta.
  pose proof (tidy_steps_tidy m Hsteps) as Ht.
  pose proof (tidy_steps_tidy _ (ts_addState s m Harg Hsteps)) as Ht'.
  assert (Hg : grows (view m) (view (snd (addState s m)))).
  { unfold addState. destruct (isLive m); [apply grows_refl|].
    destruct (normalizePath s) as [| |p] eqn:Hn; try apply grows_refl.
    apply tidy__addState_grows; [exact Ht | eapply normalize_argument; eauto]. }
  destruct (normalizePath (Some q)) as [| |k] eqn:Hq.
  - split.
    + intros nm. unfold getCurrentChildName, isVariableParent, getState. rewrite Hq.
      discriminate.
    + intros v _. rewrite getData_invalid; [discriminate|]. intros k. rewrite Hq. discriminate.
  - split.
    + intros nm. unfold getCurrentChildName, isVariableParent, getState. rewrite Hq.
      discriminate.
    + intros v _. rewrite getData_invalid; [discriminate|]. intros k. rewrite Hq. discriminate.
  - split.
    + intros nm. rewrite !(getCurrentChildName_view _ q k Hq). apply grows_current, Hg.
    + intros v Hv. rewrite (getData_view m q k Ht Hq), (getData_view _ q k Ht' Hq).
      intros [= H]. f_equal. apply (grows_data (view m)); auto. apply Ht.
Qed.

Lemma addState_keeps_witness :
  let m' := snd (addState (Some $".a/z.k") sample_machine) in
  getCurrentChildName m' $".a" = Some $"y" /\
  getData m' $".z.w" = Normal (str $"some data").
Proof.
  intros m'.
  destruct (addState_keeps sample_machine (Some $".a/z.k") $".a" tidy_steps_sample) as [H1 _];
    [apply path_argument_check; reflexivity|].
  destruct (addState_keeps sample_machine (Some $".a/z.k") $".z.w" tidy_steps_sample) as [_ H2];
    [apply path_argument_check; reflexivity|].
  split; [apply H1; reflexivity | apply H2; [discriminate | reflexivity]].
Defined.

(** ** The serialization and the lines *)

Lemma current_index_view m k i :
  view m !! k = Some i -> current_index m k = cur i.
Proof.
  intros Hi. apply view_Some in Hi as (l & Hl & ->).
  unfold current_index. rewrite Hl. reflexivity.
Qed.

Lemma Forall2_map_r {A B : Type} (P : A -> B -> Prop) (f : A -> B) (l : list A) :
  (forall x, x ∈ l -> P x (f x)) -> Forall2 P l (map f l).
Proof.
  induction l as [|x l IH]; intros H; cbn [map]; constructor.
  - apply H. left.
  - apply IH. intros y Hy. apply H. right. exact Hy.
Qed.

(** The lines of a path of a tidy machine are a block of it. *)
Lemma lines_of_block m c :
  tidy m -> is_Some (view m !! c) -> serial_block m c (lines_of (view m) c).
Proof.
  intros Ht [ci Hci]. pose proof (td_shape m Ht) as Hsh.
  pose proof (sh_keys _ Hsh c ci Hci) as Hc.
  pose proof (getData_view m c c Ht (normalizePath_tidy c Hc)) as Hdata.
  unfold data_of in Hdata. rewrite Hci in Hdata.
  unfold serial_block, lines_of, extra_lines, P_line, C_line, D_line.
  destruct (decide (c = [])) as [-> | Hne].
  { left. split; [reflexivity|]. split.
    - destruct (sh_root _ Hsh) as (i & Hi & _ & Hdat).
      assert (ci = i) by congruence. subst ci.
      cbn in Hdata. rewrite Hdat in Hdata.
      destruct (bool_decide (kids i = [])); [right | left]; exact Hdata.
    - intros k nm Hk. destruct k; discriminate. }
  destruct (sh_parent _ Hsh c ci Hci Hne) as (pk & nm & pi & Hcp & Hpk & Hnm & Hdatcur).
  destruct (sh_kids _ Hsh pk pi nm Hpk Hnm) as [Hok _].
  pose proof (name_ok_plain nm Hok) as Hplain.
  pose proof (split_path_child pk (sep_of pi) nm (sep_of_separator pi) Hplain) as Hsplit.
  rewrite <- Hcp in Hsplit. rewrite Hsplit in Hdata |- *. rewrite Hpk in Hdata |- *.
  rewrite Hci.
  pose proof (sh_keys _ Hsh pk pi Hpk) as Hpkt.
  pose proof (getCurrentChildName_view m pk pk (normalizePath_tidy pk Hpkt)) as Hname.
  rewrite Hpk in Hname.
  pose proof (current_index_view m pk pi Hpk) as Hidx.
  assert (Hslash : forall k' nm', c = k' ++ $"/" ++ nm' -> plain_name nm' ->
                     k' = pk /\ nm' = nm).
  { intros k' nm' Hk' Hp'.
    pose proof (split_path_child k' $"/" nm' (or_intror eq_refl) Hp') as Hs'.
    unfold child_path in Hs'. rewrite <- Hk' in Hs'. rewrite Hsplit in Hs'.
    injection Hs' as -> ->. auto. }
  destruct (cur pi) as [x|] eqn:Hx.
  - assert (Hsep : sep_of pi = $"/")
      by (unfold sep_of; rewrite Hx, bool_decide_eq_true_2 by eauto; reflexivity).
    rewrite (bool_decide_eq_true_2 (is_Some (Some x))) in Hdata by eauto.
    assert (Hnull : getData m c = Normal null)
      by (destruct (bool_decide (kids ci = [])); exact Hdata).
    destruct (bool_decide (x <> 0) && bool_decide (kids pi !! x = Some nm)) eqn:Hcond.
    + right. left. apply andb_true_iff in Hcond as [Hx0 Hxn].
      apply bool_decide_eq_true in Hx0. apply bool_decide_eq_true in Hxn.
      exists pk, nm, x. split; [rewrite Hcp, Hsep; reflexivity|].
      split; [reflexivity|]. split; [rewrite Hname; exact Hxn|].
      split; [rewrite Hidx; reflexivity | exact Hx0].
    + left. split; [reflexivity|]. split; [left; exact Hnull|].
      intros k' nm' Hk' Hp' Hcurrent.
      destruct (Hslash k' nm' Hk' Hp') as [-> ->].
      rewrite Hname in Hcurrent. rewrite Hidx. f_equal.
      apply andb_false_iff in Hcond as [Hcond | Hcond].
      * apply bool_decide_eq_false in Hcond. destruct x; [reflexivity|].
        exfalso. apply Hcond. discriminate.
      * apply bool_decide_eq_false in Hcond. contradiction.
  - assert (Hsep : sep_of pi = $".")
      by (unfold sep_of; rewrite Hx, bool_decide_eq_false_2 by (intros [? ?]; discriminate);
          reflexivity).
    rewrite (bool_decide_eq_false_2 (is_Some (@None nat))) in Hdata
      by (intros [? ?]; discriminate).
    assert (Hnoslash : forall k' nm', c = k' ++ $"/" ++ nm' -> plain_name nm' -> False).
    { intros k' nm' Hk' Hp'. destruct (Hslash k' nm' Hk' Hp') as [-> ->].
      rewrite Hcp, Hsep in Hk'. unfold child_path in Hk'.
      apply app_inv_head in Hk'. discriminate. }
    destruct (dat ci) as [v|] eqn:Hv.
    + destruct (sh_dat _ Hsh c ci v Hci Hv) as [Hkids _].
      rewrite Hkids in Hdata. rewrite bool_decide_eq_true_2 in Hdata by reflexivity.
      cbn [default from_option id] in Hdata.
      destruct (truthy v) eqn:Htr.
      * right. right. exists v. split; [intros ->; discriminate|].
        split; [reflexivity | exact Hdata].
      * left. split; [reflexivity|]. split.
        -- right. destruct v; [exact Hdata | discriminate].
        -- intros k' nm' Hk' Hp'. destruct (Hnoslash k' nm' Hk' Hp').
    + left. split; [reflexivity|]. split.
      * cbn [default from_option id] in Hdata.
        destruct (bool_decide (kids ci = [])); [right | left]; exact Hdata.
      * intros k' nm' Hk' Hp'. destruct (Hnoslash k' nm' Hk' Hp').
Qed.

(** X20.  The serialization of a machine built by tidy operations is,
    for every path in the order of [getAllPaths], the [P] line of the
    path followed by at most one other line: a [C] line when, and only
    when, the path is that of the current child of a variable parent
    and not of its first child; a [D] line when, and only when, the
    path has data that is not empty, and the line carries that data. *)
Theorem serialization_has_every_path (m : Machine) :
  tidy_steps m ->
  exists serial all blocks,
    getSerialization m = Normal serial /\ getAllPaths m = Normal all /\
    serial = concat blocks /\ Forall2 (serial_block m) all blocks.
Proof.
  intros Hsteps. pose proof (tidy_steps_tidy m Hsteps) as Ht.
  pose proof (td_shape m Ht) as Hsh.
  set (all := [] :: dfs all_kids (view m) (traversal_fuel m) []).
  exists (flat_map (lines_of (view m)) all), all, (map (lines_of (view m)) all).
  split; [apply getSerialization_view, Ht|].
  split; [apply getAllPaths_view, Ht|].
  split; [apply flat_map_concat_map|].
  apply Forall2_map_r. intros c Hc. apply lines_of_block; [exact Ht|].
  apply elem_of_cons in Hc as [-> | Hc].
  - destruct (sh_root _ Hsh) as (i & Hi & _). eauto.
  - eapply dfs_dom; eauto.
Qed.

Lemma serialization_has_every_path_witness :
  (exists serial all blocks,
     getSerialization sample_machine = Normal serial /\
     getAllPaths sample_machine = Normal all /\
     serial = concat blocks /\ Forall2 (serial_block sample_machine) all blocks) /\
  getSerialization sample_machine =
    Normal [ $"P "; $"P .a"; $"P .a/x"; $"P .a/y"; $"C .a y";
             $"P .z"; $"P .z.w"; $"D .z.w some data"].
Proof.
  split; [exact (serialization_has_every_path sample_machine tidy_steps_sample)|].
  vm_compute. reflexivity.
Defined.

Lemma lines_of_equiv a b c : view_equiv a b -> lines_of a c = lines_of b c.
Proof.
  intros Heq. unfold lines_of, extra_lines. f_equal.
  destruct (split_path c) as [[k nm]|]; [|reflexivity].
  pose proof (Heq k) as Hk. pose proof (Heq c) as Hc.
  destruct (a !! k) as [pi|], (b !! k) as [pj|]; try contradiction; [|reflexivity].
  destruct (a !! c) as [ci|], (b !! c) as [cj|]; try contradiction; [|reflexivity].
  destruct Hk as (Hkids & Hcur & _). destruct Hc as (_ & _ & Hdat).
  rewrite Hkids, Hcur. destruct (cur pj); [reflexivity|].
  destruct (dat ci) as [[|x v]|], (dat cj) as [[|y w]|];
    cbn in Hdat; try discriminate; try reflexivity.
  injection Hdat as -> ->. reflexivity.
Qed.

(** X21.  A serialization is stable: the machine that [interpret] makes
    of the serialization of a machine built by tidy operations has the
    same serialization. *)
Theorem serialization_is_stable (m : Machine) :
  tidy_steps m ->
  exists serial,
    getSerialization m = Normal serial /\
    getSerialization (snd (interpret serial new_Machine)) = Normal serial.
Proof.
  intros Hsteps. pose proof (tidy_steps_tidy m Hsteps) as Ht.
  destruct (replay_serialization m Ht) as (serial & rs & R & Hser & Happ & Hrs & HtR & _ & Heq).
  exists serial. split; [exact Hser|].
  destruct (interpret_map_apply_all serial new_Machine) as (errors & Hmap & _).
  { rewrite Happ. cbn [fst]. constructor; [eexists; reflexivity | exact Hrs]. }
  rewrite interpret_snd, Hmap, Happ. cbn [snd].
  rewrite <- Hser, (getSerialization_view m Ht), (getSerialization_view R HtR).
  pose proof (getAllPaths_equiv R m HtR Ht Heq) as Hall.
  rewrite (getAllPaths_view R HtR), (getAllPaths_view m Ht) in Hall.
  assert (Hinj : forall x y : list jsstring, Normal x = Normal y -> x = y)
    by (intros x y [= E]; exact E).
  apply Hinj in Hall. rewrite Hall. f_equal.
  apply flat_map_ext. intros c. apply lines_of_equiv, Heq.
Qed.

Lemma serialization_is_stable_witness :
  exists serial,
    getSerialization sample_machine = Normal serial /\
    getSerialization (snd (interpret serial new_Machine)) = Normal serial.
Proof. exact (serialization_is_stable sample_machine tidy_steps_sample). Defined.

Lemma chars_plain (p : ascii -> bool) (s : jsstring) :
  (forall c, p c = true -> is_space c = false) ->
  s <> [] -> (forall c, c ∈ s -> p c = true) -> starts_plain s /\ ends_plain s.
Proof.
  intros Hp Hne Hs. apply no_space_plain; [exact Hne|].
  intros c Hc. apply Hp, Hs, Hc.
Qed.

Lemma command_path_chars x (k rest : jsstring) :
  k <> [] -> (forall c, c ∈ k -> is_path_char c = true) ->
  match rest with [] => True | c :: _ => is_path_char c = false end ->
  Pat.command_path x (x :: " "%char :: k ++ rest) = Some (k, rest).
Proof.
  intros Hne Hk Hrest. unfold Pat.command_path.
  rewrite bool_decide_eq_true_2 by reflexivity.
  destruct (chars_plain is_path_char k path_char_not_space Hne Hk) as [Hs _].
  assert (Hplus : Pat.plus is_space (" "%char :: k ++ rest) = Some ([" "%char], k ++ rest)).
  { apply (plus_run is_space [" "%char] (k ++ rest)); [discriminate | |].
    - intros c Hc. apply list_elem_of_singleton in Hc as ->. reflexivity.
    - destruct k; [congruence | exact Hs]. }
  rewrite Hplus. cbn. apply plus_run; auto.
Qed.

Lemma plus_space_one (v : jsstring) :
  starts_plain v -> Pat.plus is_space (" "%char :: v) = Some ([" "%char], v).
Proof.
  intros Hs. apply (plus_run is_space [" "%char] v); [discriminate | |].
  - intros c Hc. apply list_elem_of_singleton in Hc as ->. reflexivity.
  - apply starts_plain_stop, Hs.
Qed.

Lemma command_line_plain x (k v : jsstring) :
  ends_plain v -> ends_plain (x :: " "%char :: k ++ " "%char :: v).
Proof.
  intros Hv.
  replace (x :: " "%char :: k ++ " "%char :: v)
    with ((x :: " "%char :: k ++ [" "%char]) ++ v)
    by (cbn; rewrite <- app_assoc; reflexivity).
  apply ends_plain_app, Hv.
Qed.

Lemma APAT_chars (k v : jsstring) :
  k <> [] -> (forall c, c ∈ k -> is_path_char c = true) -> starts_plain v ->
  Pat.APAT ("A"%char :: " "%char :: k ++ " "%char :: v) = Some (k, Pat.dot_star v).
Proof.
  intros Hne Hk Hs. unfold Pat.APAT.
  rewrite command_path_chars by (auto; reflexivity). cbn [mbind option_bind].
  rewrite plus_space_one by exact Hs. reflexivity.
Qed.

Lemma DPAT_chars (k v : jsstring) :
  k <> [] -> (forall c, c ∈ k -> is_path_char c = true) -> starts_plain v ->
  Pat.DPAT ("D"%char :: " "%char :: k ++ " "%char :: v) = Some (k, Pat.dot_star v).
Proof.
  intros Hne Hk Hs. unfold Pat.DPAT.
  rewrite command_path_chars by (auto; reflexivity). cbn [mbind option_bind].
  rewrite plus_space_one by exact Hs. reflexivity.
Qed.

Lemma DPAT_bare (k : jsstring) :
  k <> [] -> (forall c, c ∈ k -> is_path_char c = true) ->
  Pat.DPAT ("D"%char :: " "%char :: k) = None /\
  Pat.DNULLPAT ("D"%char :: " "%char :: k) = Some k.
Proof.
  intros Hne Hk. unfold Pat.DPAT, Pat.DNULLPAT.
  pose proof (command_path_chars "D" k [] Hne Hk I) as H. rewrite app_nil_r in H.
  rewrite H. split; reflexivity.
Qed.

Lemma CPAT_chars (k nm : jsstring) :
  k <> [] -> (forall c, c ∈ k -> is_path_char c = true) ->
  nm <> [] -> (forall c, c ∈ nm -> is_name_char c = true) ->
  Pat.CPAT ("C"%char :: " "%char :: k ++ " "%char :: nm) = Some (k, nm).
Proof.
  intros Hne Hk Hnne Hnm. unfold Pat.CPAT.
  assert (Hspace : forall c, is_name_char c = true -> is_space c = false)
    by (intros c Hc; apply path_char_not_space, name_char_path_char, Hc).
  destruct (chars_plain is_name_char nm Hspace Hnne Hnm) as [Hns _].
  rewrite command_path_chars by (auto; reflexivity). cbn [mbind option_bind].
  rewrite plus_space_one by exact Hns. cbn [mbind option_bind].
  rewrite <- (app_nil_r nm) at 1. rewrite plus_run by auto. reflexivity.
Qed.

(** X22.  The [A] command is not there: a line made of [A], a path and
    a value, which the pattern of the command accepts, calls the
    method [appendData], which the class does not have, and raises a
    [TypeError]; the machine is as it was. *)
Theorem A_line_raises (m : Machine) (k v : jsstring) :
  k <> [] -> (forall c, c ∈ k -> is_path_char c = true) ->
  starts_plain v -> ends_plain v ->
  interpretOp (Some ($"A " ++ k ++ $" " ++ v)) m = (TypeError, m).
Proof.
  intros Hne Hk Hs He.
  change ($"A " ++ k ++ $" " ++ v) with ("A"%char :: " "%char :: k ++ " "%char :: v).
  rewrite interpretOp_line; [|reflexivity | apply command_line_plain, He].
  cbv zeta. unfold Pat.COMMENT, startsWith.
  rewrite APAT_chars by auto. reflexivity.
Qed.

Lemma A_line_raises_witness :
  interpretOp (Some $"A .net.Log more text") sample_machine = (TypeError, sample_machine).
Proof.
  apply (A_line_raises sample_machine $".net.Log" $"more text");
    [discriminate | | reflexivity | reflexivity].
  intros c Hc. apply list_elem_of_In in Hc. cbn in Hc.
  repeat (destruct Hc as [<- | Hc]; [reflexivity|]). destruct Hc.
Defined.

(** X23.  A [D] line sets the data of its path to the rest of the line,
    up to the first line terminator; a [D] line with a path and nothing
    else sets the data to the empty string. *)
Theorem D_line_sets (m : Machine) (k : jsstring) :
  k <> [] -> (forall c, c ∈ k -> is_path_char c = true) ->
  interpretOp (Some ($"D " ++ k)) m = setData k [] m /\
  forall v, starts_plain v -> ends_plain v ->
    interpretOp (Some ($"D " ++ k ++ $" " ++ v)) m = setData k (Pat.dot_star v) m.
Proof.
  intros Hne Hk.
  destruct (chars_plain is_path_char k path_char_not_space Hne Hk) as [_ Hke].
  split.
  - change ($"D " ++ k) with ("D"%char :: " "%char :: k).
    rewrite interpretOp_line;
      [|reflexivity | apply (ends_plain_app ["D"%char; " "%char]), Hke].
    cbv zeta. unfold Pat.COMMENT, startsWith.
    destruct (DPAT_bare k Hne Hk) as [-> ->]. reflexivity.
  - intros v Hs He.
    change ($"D " ++ k ++ $" " ++ v) with ("D"%char :: " "%char :: k ++ " "%char :: v).
    rewrite interpretOp_line; [|reflexivity | apply command_line_plain, He].
    cbv zeta. unfold Pat.COMMENT, startsWith.
    rewrite DPAT_chars by auto. reflexivity.
Qed.

Lemma D_line_sets_witness :
  interpretOp (Some $"D .Z.W") sample_machine = setData $".Z.W" [] sample_machine /\
  interpretOp (Some $"D .Z.W two words") sample_machine =
    setData $".Z.W" $"two words" sample_machine.
Proof.
  destruct (D_line_sets sample_machine $".Z.W") as [H1 H2]; [discriminate | |].
  - intros c Hc. apply list_elem_of_In in Hc. cbn in Hc.
    repeat (destruct Hc as [<- | Hc]; [reflexivity|]). destruct Hc.
  - split; [exact H1|]. apply (H2 $"two words"); reflexivity.
Defined.

Lemma endsWith_slash (k : jsstring) : endsWith (k ++ $"/") "/" = true.
Proof. unfold endsWith. rewrite rev_app_distr. reflexivity. Qed.

Lemma slice_init (k s : jsstring) :
  length s = 1 -> slice (k ++ s) 0 (length (k ++ s) - 1) = k.
Proof.
  intros Hs. unfold slice. rewrite drop_0, Nat.sub_0_r, length_app, Hs.
  replace (length k + 1 - 1) with (length k) by lia.
  apply take_app_length.
Qed.

(** X24.  A [C] line sets the current child of its path to its name.  A
    slash at the end of the path is dropped: a line with the path
    [k/] is a line with the path [k], and the line [C / name], with the
    slash alone, sets the current child of the root. *)
Theorem C_line_sets (m : Machine) (k nm : jsstring) :
  (forall c, c ∈ k -> is_path_char c = true) ->
  nm <> [] -> (forall c, c ∈ nm -> is_name_char c = true) ->
  interpretOp (Some ($"C " ++ k ++ $"/ " ++ nm)) m = setCurrent k nm m /\
  (k <> [] -> endsWith k "/" = false ->
   interpretOp (Some ($"C " ++ k ++ $" " ++ nm)) m = setCurrent k nm m).
Proof.
  intros Hk Hne Hnm.
  assert (Hspace : forall c, is_name_char c = true -> is_space c = false)
    by (intros c Hc; apply path_char_not_space, name_char_path_char, Hc).
  destruct (chars_plain is_name_char nm Hspace Hne Hnm) as [_ Hne'].
  split.
  - replace ($"C " ++ k ++ $"/ " ++ nm)
      with ("C"%char :: " "%char :: (k ++ $"/") ++ " "%char :: nm)
      by (cbn; rewrite <- app_assoc; reflexivity).
    rewrite interpretOp_line; [|reflexivity | apply command_line_plain, Hne'].
    cbv zeta. unfold Pat.COMMENT, startsWith.
    rewrite CPAT_chars; [|destruct k; discriminate | | exact Hne | exact Hnm].
    2:{ intros c Hc. apply elem_of_app in Hc as [Hc | Hc]; [apply Hk, Hc|].
        apply list_elem_of_singleton in Hc as ->. reflexivity. }
    fold (startsWith (rev (k ++ $"/")) "/"). fold (endsWith (k ++ $"/") "/").
    rewrite endsWith_slash, slice_init by reflexivity. reflexivity.
  - intros Hkne Hend.
    change ($"C " ++ k ++ $" " ++ nm) with ("C"%char :: " "%char :: k ++ " "%char :: nm).
    rewrite interpretOp_line; [|reflexivity | apply command_line_plain, Hne'].
    cbv zeta. unfold Pat.COMMENT, startsWith.
    rewrite CPAT_chars by auto.
    fold (startsWith (rev k) "/"). fold (endsWith k "/").
    rewrite Hend. reflexivity.
Qed.

Lemma C_line_sets_witness :
  let m := snd (interpret [$"P /x"; $"P /y"] new_Machine) in
  interpretOp (Some $"C / y") m = setCurrent [] $"y" m /\
  getCurrentChildName (snd (interpretOp (Some $"C / y") m)) [] = Some $"y".
Proof.
  intros m.
  destruct (C_line_sets m [] $"y") as [H _].
  - intros c Hc. inversion Hc.
  - discriminate.
  - intros c Hc. apply list_elem_of_singleton in Hc as ->. reflexivity.
  - split; [exact H | reflexivity].
Defined.

(** ** Kinds of leaves, the mode, and lines in sequence *)

(** X25.  On a reachable machine the queries on a path that exists
    never raise, and they sort the states into three kinds: a state
    with children is no leaf of either kind; a leaf is a variable leaf
    or a data leaf, and not both. *)
Theorem leaves_are_of_one_kind (m : Machine) (path : jsstring) :
  reachable m -> exists_ m path = true ->
  exists variable,
    isVariableLeaf m path = Normal variable /\
    isDataLeaf m path = Normal (isLeaf m path && negb variable) /\
    (variable = true -> isLeaf m path = true).
Proof.
  intros Hm Hex. pose proof (reachable_store_ok m Hm) as Hok.
  unfold isDataLeaf, getData. rewrite Hex. cbn [negb].
  unfold isLeaf, isVariableLeaf.
  destruct (getState m path) as [l|] eqn:Hl.
  2:{ exists false. split; [reflexivity|]. split; [reflexivity | discriminate]. }
  destruct (getState_key m path l Hl) as (p & Hn & Hp & Hne).
  destruct path as [|c path].
  { exists false. split; [reflexivity|]. cbn [truthy negb].
    split; [|discriminate].
    destruct (bool_decide (cc (deref m l) = None)); cbn [negb andb]; [|reflexivity].
    destruct (data (deref m l)) as [d|]; [destruct (truthy d)|]; reflexivity. }
  cbn [truthy negb].
  destruct (cc (deref m l)) as [names|] eqn:Hcc.
  { exists false. rewrite (bool_decide_eq_true_2 (is_Some (Some names))) by eauto.
    rewrite (bool_decide_eq_false_2 (Some names = None)) by discriminate.
    split; [reflexivity|]. split; [reflexivity | discriminate]. }
  rewrite (bool_decide_eq_false_2 (is_Some None)) by (intros [? ?]; discriminate).
  rewrite (bool_decide_eq_true_2 (None = None)) by reflexivity. cbn [negb andb].
  destruct (ok_nonroot m Hok p l Hp) as [pl Hpl]; [apply Hne; discriminate|].
  rewrite Hpl.
  exists (bool_decide (is_Some (curr (deref m pl)))).
  split; [reflexivity|]. split; [|reflexivity].
  destruct (bool_decide (is_Some (curr (deref m pl)))); cbn [negb]; [reflexivity|].
  destruct (data (deref m l)) as [d|]; [destruct (truthy d)|]; reflexivity.
Qed.

Lemma leaves_are_of_one_kind_witness :
  let m := snd (interpret [$"P .a/x"; $"P .z"] new_Machine) in
  exists variable,
    isVariableLeaf m $".a/x" = Normal variable /\
    isDataLeaf m $".a/x" = Normal (isLeaf m $".a/x" && negb variable) /\
    (variable = true -> isLeaf m $".a/x" = true).
Proof.
  intros m. apply (leaves_are_of_one_kind m $".a/x").
  - apply steps_interpret, steps_refl.
  - reflexivity.
Defined.

Lemma find_error_app (ea eb : list value) :
  Forall (fun e => e <> undefined) ea ->
  find_error (ea ++ eb) =
  match find_error ea with undefined => find_error eb | v => v end.
Proof.
  induction 1 as [|e ea He _ IH]; [reflexivity|].
  cbn [app find_error]. case_bool_decide as Hn.
  - destruct e; congruence.
  - exact IH.
Qed.

Lemma interpret_map_no_undefined arr m errors m' :
  interpret_map arr m = (Normal errors, m') -> Forall (fun e => e <> undefined) errors.
Proof.
  revert m errors m'. induction arr as [|op rest IH]; intros m errors m'; cbn [interpret_map].
  - intros [= <- _]. constructor.
  - pose proof (interpretOp_result (Some op) m) as Hop.
    destruct (interpretOp (Some op) m) as [[e| |] m1]; try discriminate.
    cbn [fst] in Hop.
    destruct (interpret_map rest m1) as [[es| |] m2] eqn:Hrest; try discriminate.
    intros [= <- _]. constructor; [congruence | eapply IH; eauto].
Qed.

Lemma interpret_map_app a b m ea m1 :
  interpret_map a m = (Normal ea, m1) ->
  interpret_map (a ++ b) m =
  match interpret_map b m1 with
  | (Normal eb, m2) => (Normal (ea ++ eb), m2)
  | r => r
  end.
Proof.
  revert m ea m1. induction a as [|op rest IH]; intros m ea m1; cbn [interpret_map app].
  - intros [= <- <-]. destruct (interpret_map b m) as [[| |] ?]; reflexivity.
  - destruct (interpretOp (Some op) m) as [[e| |] m0]; try discriminate.
    destruct (interpret_map rest m0) as [[es| |] m0'] eqn:Hrest; try discriminate.
    intros [= <- <-]. rewrite (IH m0 es m0' Hrest).
    destruct (interpret_map b m0') as [[| |] ?]; reflexivity.
Qed.

(** X27.  Lines in sequence: when [interpret] of a first list of lines
    returns, [interpret] of it followed by a second list leaves the
    machine that [interpret] of the second list leaves after the
    first; it returns the failure of the first list, if there is one
    and the second list raises nothing, and else what the second list
    returns. *)
Theorem interpret_in_sequence (a b : list jsstring) (m : Machine) (va : value) :
  fst (interpret a m) = Normal va ->
  let m1 := snd (interpret a m) in
  snd (interpret (a ++ b) m) = snd (interpret b m1) /\
  fst (interpret (a ++ b) m) =
    match fst (interpret b m1) with
    | Normal vb => Normal (match va with undefined => vb | _ => va end)
    | r => r
    end.
Proof.
  unfold interpret at 1 2.
  destruct (interpret_map a m) as [[ea| |] m1] eqn:Ha; try discriminate.
  cbn [fst snd]. intros [= <-]. cbv zeta.
  unfold interpret. rewrite (interpret_map_app a b m ea m1 Ha).
  destruct (interpret_map b m1) as [[eb| |] m2]; cbn [fst snd]; try (split; reflexivity).
  split; [reflexivity|]. f_equal.
  rewrite find_error_app by (eapply interpret_map_no_undefined; exact Ha).
  destruct (find_error ea); reflexivity.
Qed.

Lemma interpret_in_sequence_witness :
  let m1 := snd (interpret [$"P .a/x"; $"X"] new_Machine) in
  snd (interpret ([$"P .a/x"; $"X"] ++ [$"P .a/y"; $"C .a y"]) new_Machine) =
    snd (interpret [$"P .a/y"; $"C .a y"] m1) /\
  fst (interpret ([$"P .a/x"; $"X"] ++ [$"P .a/y"; $"C .a y"]) new_Machine) =
    fst (interpret [$"P .a/x"; $"X"] new_Machine).
Proof.
  intros m1.
  destruct (interpret_in_sequence [$"P .a/x"; $"X"] [$"P .a/y"; $"C .a y"] new_Machine
              (str ($"interpretOp: X" ++ newline ++ $"bad command: X")) eq_refl)
    as [H1 H2].
  split; [exact H1|]. rewrite H2. reflexivity.
Defined.

(** ** The registries of listeners *)

Lemma findIndex_listener_None f l : findIndex_listener f l = None <-> f ∉ l.
Proof.
  induction l as [|x l IH]; cbn [findIndex_listener].
  - split; [intros _ H; inversion H | reflexivity].
  - case_bool_decide as Hx.
    + split; [discriminate|]. intros H. exfalso. apply H. subst. left.
    + destruct (findIndex_listener f l) as [i|].
      * split; [discriminate|]. intros H. exfalso.
        destruct IH as [_ IH]. 
        assert (Hin : f ∉ l) by (intros Hin; apply H; right; exact Hin).
        specialize (IH Hin). discriminate.
      * split; [|reflexivity]. intros _ H.
        apply elem_of_cons in H as [-> | H]; [congruence|].
        destruct IH as [IH _]. exact (IH eq_refl H).
Qed.

Lemma remove_listener_first f l1 l2 :
  f ∉ l1 -> remove_listener f (l1 ++ f :: l2) = l1 ++ l2.
Proof.
  intros Hf. unfold remove_listener.
  assert (H : findIndex_listener f (l1 ++ f :: l2) = Some (length l1)).
  { induction l1 as [|x l1 IH]; cbn [app findIndex_listener length].
    - rewrite bool_decide_eq_true_2 by reflexivity. reflexivity.
    - rewrite bool_decide_eq_false_2 by (intros ->; apply Hf; left).
      rewrite IH by (intros H; apply Hf; right; exact H). reflexivity. }
  rewrite H. unfold splice_one.
  rewrite take_app_length.
  replace (l1 ++ f :: l2) with ((l1 ++ [f]) ++ l2) by (rewrite <- app_assoc; reflexivity).
  rewrite drop_app_length' by (rewrite length_app; cbn; lia). reflexivity.
Qed.

Lemma remove_listener_absent f l : f ∉ l -> remove_listener f l = l.
Proof.
  intros Hf. unfold remove_listener.
  rewrite (proj2 (findIndex_listener_None f l) Hf). reflexivity.
Qed.

Lemma remove_listener_added f l : f ∉ l -> remove_listener f (l ++ [f]) = l.
Proof.
  intros Hf. rewrite remove_listener_first by exact Hf. apply app_nil_r.
Qed.

(** X28.  [removeEventListener] takes away one registration of the
    listener, the earliest, and nothing else; with
    [addEventListener] before it, it gives back the registries of a
    listener that was not registered.  With a name that is none of the
    three events both return an error and change nothing. *)
Theorem removeEventListener_removes_the_first
    (ev : jsstring) (f : listener) (L : Listeners) :
  match listeners_of ev L with
  | Some l =>
      fst (addEventListener ev f L) = null /\
      listeners_of ev (snd (addEventListener ev f L)) = Some (l ++ [f]) /\
      fst (removeEventListener ev f L) = null /\
      (forall l1 l2, l = l1 ++ f :: l2 -> f ∉ l1 ->
         listeners_of ev (snd (removeEventListener ev f L)) = Some (l1 ++ l2)) /\
      (f ∉ l -> snd (removeEventListener ev f L) = L /\
                removeEventListener ev f (snd (addEventListener ev f L)) = (null, L)) /\
      (forall ev', ev' <> ev ->
         listeners_of ev' (snd (removeEventListener ev f L)) = listeners_of ev' L /\
         listeners_of ev' (snd (addEventListener ev f L)) = listeners_of ev' L)
  | None =>
      addEventListener ev f L =
        (str ($"addEventListener: " ++ ev ++ $": not a recognized event"), L) /\
      removeEventListener ev f L =
        (str ($"removeEventListener: " ++ ev ++ $": not a recognized event"), L)
  end.
Proof.
  unfold listeners_of, addEventListener, removeEventListener, eqb.
  destruct L as [sc dc nm]. cbn [statechangeListeners datachangeListeners newmachineListeners].
  case_bool_decide as E1; [|case_bool_decide as E2; [|case_bool_decide as E3;
    [|split; reflexivity]]];
    cbn [fst snd statechangeListeners datachangeListeners newmachineListeners];
    (split; [reflexivity|]); (split; [reflexivity|]); (split; [reflexivity|]);
    (split; [|split]).
  - intros l1 l2 -> Hf. rewrite remove_listener_first by exact Hf. reflexivity.
  - intros Hf. rewrite remove_listener_absent by exact Hf. split; [reflexivity|].
    rewrite remove_listener_added by exact Hf. reflexivity.
  - intros ev' Hne. subst ev. rewrite (bool_decide_eq_false_2 _ Hne). split; reflexivity.
  - intros l1 l2 -> Hf. rewrite remove_listener_first by exact Hf. reflexivity.
  - intros Hf. rewrite remove_listener_absent by exact Hf. split; [reflexivity|].
    rewrite remove_listener_added by exact Hf. reflexivity.
  - intros ev' Hne. subst ev. rewrite (bool_decide_eq_false_2 (ev' = $"datachange") Hne).
    split; reflexivity.
  - intros l1 l2 -> Hf. rewrite remove_listener_first by exact Hf. reflexivity.
  - intros Hf. rewrite remove_listener_absent by exact Hf. split; [reflexivity|].
    rewrite remove_listener_added by exact Hf. reflexivity.
  - intros ev' Hne. subst ev. rewrite (bool_decide_eq_false_2 (ev' = $"newmachine") Hne).
    split; reflexivity.
Qed.

Lemma removeEventListener_removes_the_first_witness :
  let L := snd (addEventListener $"datachange" 7
             (snd (addEventListener $"datachange" 5
               (snd (addEventListener $"datachange" 7 new_Listeners))))) in
  listeners_of $"datachange" L = Some [7; 5; 7] /\
  listeners_of $"datachange" (snd (removeEventListener $"datachange" 7 L)) = Some [5; 7] /\
  removeEventListener $"datachange" 9 (snd (addEventListener $"datachange" 9 L)) = (null, L).
Proof.
  intros L. split; [reflexivity|].
  pose proof (removeEventListener_removes_the_first $"datachange" 7 L) as H7.
  pose proof (removeEventListener_removes_the_first $"datachange" 9 L) as H9.
  change (listeners_of $"datachange" L) with (Some [7; 5; 7]) in H7, H9.
  destruct H7 as (_ & _ & _ & H7 & _). destruct H9 as (_ & _ & _ & _ & H9 & _).
  split.
  - apply (H7 [] [5; 7]); [reflexivity | intros H; inversion H].
  - apply H9. intros H. apply list_elem_of_In in H. cbn in H.
    destruct H as [H | [H | [H | []]]]; discriminate.
Defined.
